(** * cloud-init, [cloudinit/net/networkd.py]: the systemd-networkd renderer

    A shallow embedding of the canonicalizer ([normalize],
    [_normalize_value]), of the section accumulator ([CfgParser]) and of the
    renderer ([Renderer]), followed by the properties proved about them.

    Conventions of the embedding.
    - A Python [str] is a [string]; [<] on [str] is the code-point order,
      which on the bytes of a [string] is [String.ltb].
    - A Python [dict] is an association list in insertion order, with unique
      keys; [dict_set] overwrites in place or appends, as a [dict] does.
    - A raised exception is the left summand of the error monad [M]. *)

From Stdlib Require Import List String Ascii ZArith Bool Lia.
From Stdlib Require Import Permutation Sorted DecimalString DecimalZ OrdersEx.
Import ListNotations.

Local Open Scope list_scope.
Local Open Scope string_scope.

(** ** Exceptions *)

Inductive exn : Type :=
| TypeError
| AttributeError
| KeyError (key : string)
| RuntimeError (msg : string)
| Unmodelled.

Definition M (A : Type) : Type := (exn + A)%type.

Definition ret {A} (a : A) : M A := inr a.
Definition raise {A} (e : exn) : M A := inl e.
Definition bind {A B} (m : M A) (k : A -> M B) : M B :=
  match m with
  | inl e => inl e
  | inr a => k a
  end.

Notation "x <- m ;; k" := (bind m (fun x => k))
  (at level 61, m at next level, right associativity).

(** [for x in l: acc = f(acc, x)] where the body may raise. *)
Fixpoint foldM {A S} (f : S -> A -> M S) (l : list A) (s : S) : M S :=
  match l with
  | [] => ret s
  | x :: r => s' <- f s x ;; foldM f r s'
  end.

(** ** Python built-ins on strings and lists of strings *)

Module Py.

Definition nl : string := String "010"%char EmptyString.

(** [str(n)] for an [int]. *)
Definition str_of_Z (z : Z) : string := NilZero.string_of_int (Z.to_int z).

(** [s.lower()], on ASCII letters. *)
Definition lower_ascii (c : ascii) : ascii :=
  let n := nat_of_ascii c in
  if (andb (65 <=? n) (n <=? 90))%nat then ascii_of_nat (n + 32) else c.

Fixpoint lower (s : string) : string :=
  match s with
  | EmptyString => EmptyString
  | String c r => String (lower_ascii c) (lower r)
  end.

(** [sep.join(l)]. *)
Definition join (sep : string) (l : list string) : string := String.concat sep l.

(** [x in l] for a list of [str]. *)
Definition mem (x : string) (l : list string) : bool :=
  existsb (String.eqb x) l.

(** [list(dict.fromkeys(l))]: the first occurrence of every element, in
    order. *)
Fixpoint fromkeys (l : list string) : list string :=
  match l with
  | [] => []
  | x :: r => x :: filter (fun y => negb (String.eqb y x)) (fromkeys r)
  end.

(** [sorted(l)] and [l.sort()] on a list of [str], as a stable insertion
    sort that, like CPython, only asks [<]. *)
Fixpoint insert (x : string) (l : list string) : list string :=
  match l with
  | [] => [x]
  | y :: r => if String.ltb y x then y :: insert x r else x :: y :: r
  end.

Fixpoint sorted (l : list string) : list string :=
  match l with
  | [] => []
  | x :: r => insert x (sorted r)
  end.

(** [d.get(k)], [k in d], [d[k] = v] and [sorted(d.items())] on a [dict]
    with [str] keys. *)
Fixpoint dict_get {V} (d : list (string * V)) (k : string) : option V :=
  match d with
  | [] => None
  | (k', v) :: r => if String.eqb k' k then Some v else dict_get r k
  end.

Definition dict_mem {V} (d : list (string * V)) (k : string) : bool :=
  match dict_get d k with Some _ => true | None => false end.

Fixpoint dict_set {V} (d : list (string * V)) (k : string) (v : V)
  : list (string * V) :=
  match d with
  | [] => [(k, v)]
  | (k', v') :: r =>
      if String.eqb k' k then (k', v) :: r else (k', v') :: dict_set r k v
  end.

(** The keys of a [dict] are unique, so comparing two items never goes past
    the keys. *)
Fixpoint insert_item {V} (x : string * V) (l : list (string * V))
  : list (string * V) :=
  match l with
  | [] => [x]
  | y :: r =>
      if String.ltb (fst y) (fst x) then y :: insert_item x r else x :: y :: r
  end.

Fixpoint sorted_items {V} (d : list (string * V)) : list (string * V) :=
  match d with
  | [] => []
  | x :: r => insert_item x (sorted_items r)
  end.

End Py.

(** ** Python values, as far as [normalize] can meet them

    [None], [int], [str], [list] and [dict] with [str] keys. *)

#[local] Set Warnings "-register-all".

Inductive pyval : Type :=
| PNone
| PInt (z : Z)
| PStr (s : string)
| PList (l : list pyval)
| PDict (d : list (string * pyval)).

(** [a == b].  The two sides of every comparison below are results of
    [_normalize_value], whose dicts have their keys in sorted order, so
    equality of dicts is equality of their item lists. *)
Fixpoint py_eqb (a b : pyval) {struct a} : bool :=
  match a, b with
  | PNone, PNone => true
  | PInt x, PInt y => Z.eqb x y
  | PStr x, PStr y => String.eqb x y
  | PList x, PList y =>
      (fix go (x y : list pyval) {struct x} : bool :=
         match x, y with
         | [], [] => true
         | a' :: x', b' :: y' => andb (py_eqb a' b') (go x' y')
         | _, _ => false
         end) x y
  | PDict x, PDict y =>
      (fix go (x y : list (string * pyval)) {struct x} : bool :=
         match x, y with
         | [], [] => true
         | (k, a') :: x', (k', b') :: y' =>
             andb (String.eqb k k') (andb (py_eqb a' b') (go x' y'))
         | _, _ => false
         end) x y
  | _, _ => false
  end.

(** [a < b]; [None] is a [TypeError].  Lists compare at the first index
    where they differ, on length when there is none; [dict] and [None]
    support no ordering, and neither do values of two different types. *)
Fixpoint py_lt (a b : pyval) {struct a} : option bool :=
  match a, b with
  | PInt x, PInt y => Some (Z.ltb x y)
  | PStr x, PStr y => Some (String.ltb x y)
  | PList x, PList y =>
      (fix go (x y : list pyval) {struct x} : option bool :=
         match x, y with
         | [], [] => Some false
         | [], _ :: _ => Some true
         | _ :: _, [] => Some false
         | a' :: x', b' :: y' =>
             if py_eqb a' b' then go x' y' else py_lt a' b'
         end) x y
  | _, _ => None
  end.

(** [sorted(l)] on a list of values: the insertion sort of [Py.sorted] with
    a comparison that may raise. *)
Fixpoint py_insert (x : pyval) (l : list pyval) : option (list pyval) :=
  match l with
  | [] => Some [x]
  | y :: r =>
      match py_lt y x with
      | None => None
      | Some true =>
          match py_insert x r with
          | Some r' => Some (y :: r')
          | None => None
          end
      | Some false => Some (x :: y :: r)
      end
  end.

Fixpoint py_sorted (l : list pyval) : option (list pyval) :=
  match l with
  | [] => Some []
  | x :: r =>
      match py_sorted r with
      | Some r' => py_insert x r'
      | None => None
      end
  end.

(** ** The canonicalizer *)

Definition is_dict_or_list (v : pyval) : bool :=
  match v with
  | PList _ | PDict _ => true
  | _ => false
  end.

Fixpoint _normalize_value (data : pyval) : pyval :=
  match data with
  | PDict d =>
      PDict (Py.sorted_items
               ((fix items (d : list (string * pyval)) :=
                   match d with
                   | [] => []
                   | (key, v) :: r => (key, _normalize_value v) :: items r
                   end) d))
  | PList l =>
      let normalized_items :=
        (fix items (l : list pyval) :=
           match l with
           | [] => []
           | item :: r =>
               (if is_dict_or_list item then _normalize_value item else item)
                 :: items r
           end) l in
      match py_sorted normalized_items with
      | Some s => PList s
      | None => PList normalized_items
      end
  | _ => data
  end.

Definition normalize (data : list (string * pyval)) : list (string * pyval) :=
  map (fun '(key, value) => (key, _normalize_value value)) data.

(** [bool(v)]. *)
Definition truthy (v : pyval) : bool :=
  match v with
  | PNone => false
  | PInt z => negb (Z.eqb z 0)
  | PStr s => negb (String.eqb s "")
  | PList l => match l with [] => false | _ => true end
  | PDict d => match d with [] => false | _ => true end
  end.

(** [sorted(v)] for the iterable [v]: the elements of a list, the keys of a
    dict, the characters of a string. *)
Definition py_iter_sorted (v : pyval) : M (list pyval) :=
  match v with
  | PList l =>
      match py_sorted l with
      | Some s => ret s
      | None => raise TypeError
      end
  | PDict d => ret (map PStr (Py.sorted (map fst d)))
  | PStr s =>
      ret (map PStr
             (Py.sorted
                (map (fun c => String c EmptyString) (list_ascii_of_string s))))
  | _ => raise TypeError
  end.

(** [f"{e}"].  The text of a list or of a dict is not modelled: [conf_dict]
    holds none where a line is expected. *)
Definition py_format (e : pyval) : M string :=
  match e with
  | PStr s => ret s
  | PInt z => ret (Py.str_of_Z z)
  | PNone => ret "None"
  | _ => raise Unmodelled
  end.

(** ** The section accumulator *)

Module CfgParser.

(** A value of [conf_dict]: a list of lines, or, under ["Route"], a dict from
    route identifier to a list of lines. *)
Inductive secval : Type :=
| SLines (l : list string)
| SRoutes (d : list (string * list string)).

Definition conf_dict : Type := list (string * secval).

(** [__init__]. *)
Definition init : conf_dict :=
  [ ("Match", SLines []);
    ("Link", SLines []);
    ("Network", SLines []);
    ("DHCPv4", SLines []);
    ("DHCPv6", SLines []);
    ("Address", SLines []);
    ("Route", SRoutes []);
    ("NetDev", SLines []);
    ("VLAN", SLines []);
    ("Bond", SLines []) ].

(** [f"{key}={val}"]. *)
Definition line (key val : string) : string := key ++ "=" ++ val.

(** [update_section].  A dict has no [append]: on the ["Route"] value the
    call raises [AttributeError]. *)
Fixpoint update_section (self : conf_dict) (sec key val : string)
  : M conf_dict :=
  match self with
  | [] => ret []
  | (k, v) :: rest =>
      v' <- (if String.eqb k sec then
               match v with
               | SLines l =>
                   ret (SLines (Py.sorted (Py.fromkeys (l ++ [line key val])%list)))
               | SRoutes _ => raise AttributeError
               end
             else ret v) ;;
      rest' <- update_section rest sec key val ;;
      ret ((k, v') :: rest')
  end.

(** [update_route_section].  A list takes no [str] index: on a list value the
    call raises [TypeError]. *)
Fixpoint update_route_section (self : conf_dict) (sec rid key val : string)
  : M conf_dict :=
  match self with
  | [] => ret []
  | (k, v) :: rest =>
      v' <- (if String.eqb k sec then
               match v with
               | SRoutes d =>
                   let d1 := if Py.dict_mem d rid then d
                             else Py.dict_set d rid [] in
                   let l := match Py.dict_get d1 rid with
                            | Some l => l
                            | None => []
                            end in
                   ret (SRoutes
                          (Py.dict_set d1 rid
                             (Py.sorted (Py.fromkeys (l ++ [line key val])%list))))
               | SLines _ => raise TypeError
               end
             else ret v) ;;
      rest' <- update_route_section rest sec rid key val ;;
      ret ((k, v') :: rest')
  end.

(** [conf_dict] as the Python value handed to [normalize]. *)
Definition py_of_secval (v : secval) : pyval :=
  match v with
  | SLines l => PList (map PStr l)
  | SRoutes d => PDict (map (fun '(n, l) => (n, PList (map PStr l))) d)
  end.

Definition py_of_conf (c : conf_dict) : list (string * pyval) :=
  map (fun '(k, v) => (k, py_of_secval v)) c.

(** One [f"{e}\n"] per element of [sorted(v)]. *)
Definition emit_lines (v : pyval) : M string :=
  es <- py_iter_sorted v ;;
  foldM (fun contents e => s <- py_format e ;; ret (contents ++ s ++ Py.nl))
        es "".

(** The body of the loop of [get_final_conf] for one item [(k, v)]; the text
    it appends to [contents]. *)
Definition emit_item (k : string) (v : pyval) : M string :=
  if negb (truthy v) then ret ""
  else if String.eqb k "Address" then
    es <- py_iter_sorted v ;;
    foldM (fun contents e =>
             s <- py_format e ;;
             ret (contents ++ "[" ++ k ++ "]" ++ Py.nl ++ s ++ Py.nl ++ Py.nl))
          es ""
  else if String.eqb k "Route" then
    match v with
    | PDict d =>
        foldM (fun contents n =>
                 match Py.dict_get d n with
                 | None => raise (KeyError n)
                 | Some vn =>
                     body <- emit_lines vn ;;
                     ret (contents ++ "[" ++ k ++ "]" ++ Py.nl ++ body ++ Py.nl)
                 end)
              (Py.sorted (map fst d)) ""
    | _ => raise TypeError
    end
  else
    body <- emit_lines v ;;
    ret ("[" ++ k ++ "]" ++ Py.nl ++ body ++ Py.nl).

(** [get_final_conf]: the returned text.  (The method also stores the
    normalized dict back into [self.conf_dict]; every caller drops the
    [CfgParser] right after.) *)
Definition get_final_conf (self : conf_dict) : M string :=
  let normalized := normalize (py_of_conf self) in
  foldM (fun contents '(k, v) => s <- emit_item k v ;; ret (contents ++ s))
        (Py.sorted_items normalized) "".

End CfgParser.

(** ** The renderer *)

Module Renderer.

Import CfgParser.

(** *** The abstract model

    The dicts of the network state have fixed keys and are records here.
    An absent key is [None], and so is a key with the value [None] where
    the code only tests the truth of the value; where the code asks with
    [in] whether a key is there, a field [Some v] stands for a key with a
    value of its type.  A value that the renderer only ever formats into a
    line is held as its [str()] text, except the integers that are also
    tested for truth. *)

Record route : Type := mk_route {
  route_gateway : option string;
  route_network : option string;
  route_metric : option Z;
  route_prefix : option Z
}.

Record subnet : Type := mk_subnet {
  subnet_type : string;
  subnet_address : option string;
  subnet_prefix : option Z;
  subnet_gateway : option string;
  subnet_dns_nameservers : option (list string);
  subnet_dns_search : option (list string);
  subnet_routes : option (list route)
}.

Record iface : Type := mk_iface {
  iface_name : string;
  iface_type : string;
  iface_mac_address : option string;
  iface_mtu : option Z;
  iface_optional : option bool;
  iface_accept_ra : option bool;
  iface_subnets : option (list subnet);
  iface_driver : option string;
  iface_dns : option (list (string * list string))
}.

(** An entry of [ns.config["ethernets"]]. *)
Record device : Type := mk_device {
  dev_set_name : option string;
  dev_dhcp4domain : option string;
  dev_dhcp6domain : option string;
  dev_dhcp4_overrides : option (list (string * string));
  dev_dhcp6_overrides : option (list (string * string))
}.

Record vlan_cfg : Type := mk_vlan {
  vlan_id : option Z;
  vlan_link : option string;
  vlan_mtu : option Z;
  vlan_macaddress : option string
}.

Inductive str_or_list : Type :=
| AStr (s : string)
| AList (l : list string).

Record bond_params : Type := mk_bond_params {
  bp_mode : option string;
  bp_mii_monitor_interval : option string;
  bp_updelay : option string;
  bp_downdelay : option string;
  bp_arp_interval : option string;
  bp_arp_ip_target : option str_or_list;
  bp_arp_validate : option string;
  bp_arp_all_targets : option string;
  bp_primary_reselect : option string;
  bp_lacp_rate : option string;
  bp_transmit_hash_policy : option string;
  bp_ad_select : option string;
  bp_min_links : option string;
  bp_all_slaves_active : option string
}.

Record bond_cfg : Type := mk_bond {
  bond_interfaces : option (list string);
  bond_mtu : option Z;
  bond_macaddress : option string;
  bond_parameters : option bond_params
}.

Record ns_config : Type := mk_config {
  cfg_vlans : option (list (string * vlan_cfg));
  cfg_bonds : option (list (string * bond_cfg));
  cfg_ethernets : option (list (string * device))
}.

Record NetworkState : Type := mk_ns {
  ns_version : Z;
  ns_config_ : ns_config;
  ns_iter_interfaces : list iface;
  ns_iter_routes : list route;
  ns_dns_searchdomains : list string;
  ns_dns_nameservers : list string
}.

(** [vlan_link] and [bond_link]: interface name to device name, and under
    the key ["macaddress"] a dict from device name to MAC address.  The
    names and the MAC addresses share one dict in the code and are held
    apart here.  A name may take the key ["macaddress"] there, and then the
    dict of the MAC addresses is lost to the name of a device: this is the
    state in which [link_names] has the key ["macaddress"], and
    [link_macaddress] is empty. *)
Record link_info : Type := mk_link_info {
  link_names : list (string * string);
  link_macaddress : list (string * string)
}.

Definition no_link_info : link_info := mk_link_info [] [].

(** The dict returned by [_render_content]: one text per interface, and the
    two dicts of device units when the model declares VLANs or bonds.  In
    the code the three share one dict, the device units under the keys
    [vlan_netdev] and [bond_netdev]; the unit of an interface of one of
    these names, written last, takes the place of the device units: the
    value of such a key is the interface unit when [network] has one under
    it, and the dict of the device units when it has none. *)
Record rendered : Type := mk_rendered {
  vlan_netdev : option (list (string * string));
  bond_netdev : option (list (string * string));
  network : list (string * string)
}.

Record renderer_config : Type := mk_renderer {
  resolve_conf_fn : string;
  network_conf_dir : string
}.

(** [Renderer()] with no [config]. *)
Definition default_renderer : renderer_config :=
  mk_renderer "/etc/systemd/resolved.conf" "/etc/systemd/network/".

(** What the renderer asks of the file-writing collaborators. *)
Inductive event : Type :=
| EnsureDir (path : string)
| WriteFile (path content : string)
| ChownByName (path user group : string).

(** What the renderer takes from outside this file.  The functions
    imported from the rest of cloud-init:
    [cloudinit.net.should_add_gateway_onlink_flag],
    [cloudinit.util.translate_bool] ([None] when it raises [ValueError]) and
    [cloudinit.subp.target_path]; the two methods of [str] that depend on
    the Unicode tables, [str.lower] and [str.casefold], a string being here
    the bytes of its text; and [str(d)], the text that an f-string writes
    for a dict [d] of strings. *)
Class Imports : Type := {
  should_add_gateway_onlink_flag : string -> string -> bool;
  translate_bool : string -> option bool;
  target_path : string -> string;
  str_lower : string -> string;
  str_casefold : string -> string;
  str_dict : list (string * string) -> string
}.

(** A value that is present and true. *)
Definition nonempty (o : option string) : option string :=
  match o with
  | Some s => if String.eqb s "" then None else Some s
  | None => None
  end.

Definition nonzero (o : option Z) : option Z :=
  match o with
  | Some z => if Z.eqb z 0 then None else Some z
  | None => None
  end.

Definition nonnil {A} (o : option (list A)) : option (list A) :=
  match o with
  | Some [] => None
  | _ => o
  end.

(** [s.endswith(suffix)] and [s[:-1]]. *)
Fixpoint endswith (s suffix : string) : bool :=
  if String.eqb s suffix then true
  else match s with
       | EmptyString => false
       | String _ r => endswith r suffix
       end.

Fixpoint drop_last (s : string) : string :=
  match s with
  | EmptyString => EmptyString
  | String c r =>
      match r with
      | EmptyString => EmptyString
      | _ => String c (drop_last r)
      end
  end.

Section WithImports.

Context `{Imports}.

(** The subnet, route and device dicts are walked with [.items()]; all the
    keys of one dict feed sorted, duplicate-free lists, so the fixed order
    below builds the same [conf_dict] as any other. *)

Definition generate_match_section (i : iface) (cfg : conf_dict)
  : M (conf_dict * string) :=
  cfg <- match nonempty (Some (iface_name i)) with
         | Some v => update_section cfg "Match" "Name" v
         | None => ret cfg
         end ;;
  cfg <- match nonempty (iface_driver i) with
         | Some v => update_section cfg "Match" "Driver" v
         | None => ret cfg
         end ;;
  cfg <- (if String.eqb (iface_type i) "physical" then
            match nonempty (iface_mac_address i) with
            | Some v => update_section cfg "Match" "MACAddress" v
            | None => ret cfg
            end
          else ret cfg) ;;
  ret (cfg, iface_name i).

Definition generate_link_section (i : iface) (cfg : conf_dict) : M conf_dict :=
  cfg <- match nonzero (iface_mtu i) with
         | Some m => update_section cfg "Link" "MTUBytes" (Py.str_of_Z m)
         | None => ret cfg
         end ;;
  cfg <- (if negb (String.eqb (iface_type i) "physical") then
            match nonempty (iface_mac_address i) with
            | Some v => update_section cfg "Link" "MACAddress" v
            | None => ret cfg
            end
          else ret cfg) ;;
  match iface_optional i with
  | Some true => update_section cfg "Link" "RequiredForOnline" "no"
  | _ => ret cfg
  end.

Definition parse_routes (rid : string) (conf : route) (cfg : conf_dict)
  : M conf_dict :=
  let prefix := match route_prefix conf with
                | Some p => "/" ++ Py.str_of_Z p
                | None => ""
                end in
  cfg <- match route_gateway conf with
         | Some v => update_route_section cfg "Route" rid "Gateway" v
         | None => ret cfg
         end ;;
  cfg <- match route_network conf with
         | Some v =>
             update_route_section cfg "Route" rid "Destination" (v ++ prefix)
         | None => ret cfg
         end ;;
  match route_metric conf with
  | Some v => update_route_section cfg "Route" rid "Metric" (Py.str_of_Z v)
  | None => ret cfg
  end.

(** The accumulated DHCP mode after one more subnet of type [t]. *)
Definition dhcp_step (dhcp t : string) : string :=
  if orb (String.eqb t "dhcp4") (String.eqb t "dhcp") then
    if String.eqb dhcp "no" then "ipv4"
    else if String.eqb dhcp "ipv6" then "yes"
    else dhcp
  else if String.eqb t "dhcp6" then
    if String.eqb dhcp "no" then "ipv6"
    else if String.eqb dhcp "ipv4" then "yes"
    else dhcp
  else dhcp.

(** The state of the loop of [parse_subnets]. *)
Record subnets_state : Type := mk_st {
  st_cfg : conf_dict;
  st_dhcp : string;
  st_rid : Z
}.

(** The [for i in e["routes"]] loop. *)
Definition parse_subnet_routes (routes : list route) (st : subnets_state)
  : M subnets_state :=
  foldM (fun st i =>
           cfg <- parse_routes ("r" ++ Py.str_of_Z (st_rid st)) i (st_cfg st) ;;
           ret (mk_st cfg (st_dhcp st) (st_rid st + 1)))
        routes st.

(** The [if "address" in e] block. *)
Definition parse_subnet_address (e : subnet) (st : subnets_state)
  : M subnets_state :=
  match subnet_address e with
  | None => ret st
  | Some a =>
      let addr := match subnet_prefix e with
                  | Some p => a ++ "/" ++ Py.str_of_Z p
                  | None => a
                  end in
      cfg <- update_section (st_cfg st) "Address" "Address" addr ;;
      st <- match subnet_gateway e with
            | None => ret (mk_st cfg (st_dhcp st) (st_rid st))
            | Some v =>
                let rid := "a" ++ Py.str_of_Z (st_rid st) in
                cfg <- update_route_section cfg "Route" rid "Gateway" v ;;
                cfg <- (if should_add_gateway_onlink_flag v addr then
                          update_route_section cfg "Route" rid
                            "GatewayOnLink" "yes"
                        else ret cfg) ;;
                ret (mk_st cfg (st_dhcp st) (st_rid st + 1))
            end ;;
      cfg <- match subnet_dns_nameservers e with
             | Some v => update_section (st_cfg st) "Network" "DNS"
                           (Py.join " " v)
             | None => ret (st_cfg st)
             end ;;
      cfg <- match subnet_dns_search e with
             | Some v => update_section cfg "Network" "Domains" (Py.join " " v)
             | None => ret cfg
             end ;;
      ret (mk_st cfg (st_dhcp st) (st_rid st))
  end.

(** The body of [for e in iface.get("subnets", [])]. *)
Definition parse_subnet (st : subnets_state) (e : subnet) : M subnets_state :=
  let st := mk_st (st_cfg st) (dhcp_step (st_dhcp st) (subnet_type e))
                  (st_rid st) in
  st <- match nonnil (subnet_routes e) with
        | Some routes => parse_subnet_routes routes st
        | None => ret st
        end ;;
  parse_subnet_address e st.

Definition parse_subnets (i : iface) (cfg : conf_dict)
  : M (conf_dict * string) :=
  let subnets := match iface_subnets i with Some l => l | None => [] end in
  st <- foldM parse_subnet subnets (mk_st cfg "no" 0) ;;
  cfg <- update_section (st_cfg st) "Network" "DHCP" (st_dhcp st) ;;
  cfg <- match iface_accept_ra i with
         | Some b =>
             update_section cfg "Network" "IPv6AcceptRA"
               (if b then "yes" else "no")
         | None => ret cfg
         end ;;
  ret (cfg, st_dhcp st).

(** [dhcp_domain], one turn of its loop per [item]. *)
Definition dhcp_domain_item (value : option string) (section : string)
                            (cfg : conf_dict) : M conf_dict :=
  match value with
  | None => ret cfg
  | Some v =>
      let r := str_casefold v in
      let r := match translate_bool r with
               | Some b => if b then "yes" else "no"
               | None => if negb (String.eqb r "route") then "no" else r
               end in
      update_section cfg section "UseDomains" r
  end.

Definition dhcp_domain (d : device) (cfg : conf_dict) : M conf_dict :=
  cfg <- dhcp_domain_item (dev_dhcp4domain d) "DHCPv4" cfg ;;
  dhcp_domain_item (dev_dhcp6domain d) "DHCPv6" cfg.

(** The DNS block handed to the last two tests of [parse_dns]. *)
Definition emit_dns (dns : list (string * list string)) (cfg : conf_dict)
  : M conf_dict :=
  cfg <- match nonnil (Py.dict_get dns "search") with
         | Some l => update_section cfg "Network" "Domains" (Py.join " " l)
         | None => ret cfg
         end ;;
  match nonnil (Py.dict_get dns "nameservers") with
  | Some l => update_section cfg "Network" "DNS" (Py.join " " l)
  | None => ret cfg
  end.

Definition parse_dns (i : iface) (cfg : conf_dict) (ns : NetworkState)
  : M conf_dict :=
  match nonnil (iface_dns i) with
  | Some dns => emit_dns dns cfg
  | None =>
      if Z.eqb (ns_version ns) 1 then
        emit_dns [("search", ns_dns_searchdomains ns);
                  ("nameservers", ns_dns_nameservers ns)] cfg
      else if Z.eqb (ns_version ns) 2 then ret cfg
      else match iface_dns i with
           | Some dns => emit_dns dns cfg
           | None => raise AttributeError
           end
  end.

(** [device[f"dhcp{version}-overrides"]] and [device[f"dhcp{version}domain"]]
    for the two versions the renderer asks about. *)
Definition dev_overrides (d : device) (version : string)
  : option (list (string * string)) :=
  if String.eqb version "4" then dev_dhcp4_overrides d
  else if String.eqb version "6" then dev_dhcp6_overrides d
  else None.

Definition dev_domain (d : device) (version : string) : option string :=
  if String.eqb version "4" then dev_dhcp4domain d
  else if String.eqb version "6" then dev_dhcp6domain d
  else None.

Definition dhcp_config_maps (version : string) : list (string * string) :=
  [ ("UseDNS", "use-dns");
    ("UseDomains", "use-domains");
    ("UseHostname", "use-hostname");
    ("UseNTP", "use-ntp") ]
  ++ (if String.eqb version "4" then
        [ ("SendHostname", "send-hostname");
          ("Hostname", "hostname");
          ("RouteMetric", "route-metric");
          ("UseMTU", "use-mtu");
          ("UseRoutes", "use-routes") ]
      else [])%list.

Definition parse_dhcp_overrides (cfg : conf_dict) (d : device)
                                (dhcp version : string) : M conf_dict :=
  match dev_overrides d version with
  | Some dhcp_overrides =>
      if Py.mem dhcp ["yes"; "ipv" ++ version] then
        foldM (fun cfg '(k, v) =>
                 match Py.dict_get dhcp_overrides v with
                 | Some x => update_section cfg ("DHCPv" ++ version) k x
                 | None => ret cfg
                 end)
              (dhcp_config_maps version) cfg
      else ret cfg
  | None => ret cfg
  end.

(** [val = d.get(k); if val: cfg.update_section(sec, key, val)]. *)
Definition update_if {A} (o : option A) (cfg : conf_dict)
                     (f : A -> conf_dict -> M conf_dict) : M conf_dict :=
  match o with
  | Some a => f a cfg
  | None => ret cfg
  end.

(** The state of the loops of [render_vlans] and [render_bonds]: the texts of
    the device units and the link information. *)
Definition ndev_state : Type := (list (string * string) * link_info)%type.

(** [link_info["macaddress"][name] = val] after [if val:]: a [TypeError]
    when the key [macaddress] holds the name of a device, a [str], in the
    place of the dict. *)
Definition set_mac (names macs : list (string * string)) (name : string)
                   (mac : option string) : M (list (string * string)) :=
  match mac with
  | Some val =>
      if Py.dict_mem names "macaddress" then raise TypeError
      else ret (Py.dict_set macs name val)
  | None => ret macs
  end.

(** The body of the loop of [render_vlans].  [vlan_link_info[parent] =
    vlan_name] takes the key [macaddress] when that is the name of the
    parent: the dict of the MAC addresses is gone from then on. *)
Definition render_vlan (st : ndev_state) (item : string * vlan_cfg)
  : M ndev_state :=
  let '(vlan_ndev_configs, info) := st in
  let '(vlan_name, vlan_cfg) := item in
  match vlan_id vlan_cfg, vlan_link vlan_cfg with
  | Some id, Some parent =>
      let names := Py.dict_set (link_names info) parent vlan_name in
      let macs := if Py.dict_mem names "macaddress" then []
                  else link_macaddress info in
      cfg <- update_section init "NetDev" "Name" vlan_name ;;
      cfg <- update_section cfg "NetDev" "Kind" "vlan" ;;
      cfg <- update_if (nonzero (vlan_mtu vlan_cfg)) cfg
               (fun val cfg =>
                  update_section cfg "NetDev" "MTUBytes" (Py.str_of_Z val)) ;;
      let mac := option_map str_lower (nonempty (vlan_macaddress vlan_cfg)) in
      cfg <- update_if mac cfg
               (fun val cfg => update_section cfg "NetDev" "MACAddress" val) ;;
      macs <- set_mac names macs vlan_name mac ;;
      cfg <- update_section cfg "VLAN" "Id" (Py.str_of_Z id) ;;
      text <- get_final_conf cfg ;;
      ret (Py.dict_set vlan_ndev_configs vlan_name text,
           mk_link_info names macs)
  | _, _ => ret st
  end.

Definition render_vlans (ns : NetworkState) : M ndev_state :=
  let vlans := match cfg_vlans (ns_config_ ns) with
               | Some d => d
               | None => []
               end in
  foldM render_vlan vlans ([], no_link_info).

(** The optional bond parameters, in the order [render_bonds] tests them. *)
Definition render_bond_params (params : bond_params) (cfg : conf_dict)
  : M conf_dict :=
  let section := "Bond" in
  cfg <- update_if (bp_mode params) cfg
           (fun v cfg => update_section cfg section "Mode" v) ;;
  cfg <- update_if (bp_mii_monitor_interval params) cfg
           (fun v cfg => update_section cfg section "MIIMonitorSec" (v ++ "ms")) ;;
  cfg <- update_if (bp_updelay params) cfg
           (fun v cfg => update_section cfg section "UpDelaySec" (v ++ "ms")) ;;
  cfg <- update_if (bp_downdelay params) cfg
           (fun v cfg => update_section cfg section "DownDelaySec" (v ++ "ms")) ;;
  cfg <- update_if (bp_arp_interval params) cfg
           (fun v cfg =>
              update_section cfg section "ARPIntervalSec" (v ++ "ms")) ;;
  cfg <- update_if (bp_arp_ip_target params) cfg
           (fun targets cfg =>
              let targets := match targets with
                             | AStr s => [s]
                             | AList l => l
                             end in
              update_section cfg section "ARPIPTargets" (Py.join " " targets)) ;;
  cfg <- update_if (bp_arp_validate params) cfg
           (fun v cfg => update_section cfg section "ARPValidate" v) ;;
  cfg <- update_if (bp_arp_all_targets params) cfg
           (fun v cfg => update_section cfg section "ARPAllTargets" v) ;;
  cfg <- update_if (bp_primary_reselect params) cfg
           (fun v cfg => update_section cfg section "PrimaryReselectPolicy" v) ;;
  cfg <- update_if (bp_lacp_rate params) cfg
           (fun v cfg => update_section cfg section "LACPTransmitRate" v) ;;
  cfg <- update_if (bp_transmit_hash_policy params) cfg
           (fun v cfg => update_section cfg section "TransmitHashPolicy" v) ;;
  cfg <- update_if (bp_ad_select params) cfg
           (fun v cfg => update_section cfg section "AdSelect" v) ;;
  cfg <- update_if (bp_min_links params) cfg
           (fun v cfg => update_section cfg section "MinLinks" v) ;;
  update_if (bp_all_slaves_active params) cfg
    (fun v cfg => update_section cfg section "AllSlavesActive" (str_lower v)).

(** The body of the loop of [render_bonds].  [bond_link_info.update]
    takes the key [macaddress] when the bond lists an interface of that
    name: the dict of the MAC addresses is gone from then on. *)
Definition render_bond (st : ndev_state) (item : string * bond_cfg)
  : M ndev_state :=
  let '(bond_ndev_configs, info) := st in
  let '(bond_name, bond_cfg) := item in
  match nonnil (bond_interfaces bond_cfg) with
  | None => ret st
  | Some interfaces =>
      let names := fold_left (fun d i => Py.dict_set d i bond_name)
                             interfaces (link_names info) in
      let macs := if Py.dict_mem names "macaddress" then []
                  else link_macaddress info in
      cfg <- update_section init "NetDev" "Name" bond_name ;;
      cfg <- update_section cfg "NetDev" "Kind" "bond" ;;
      cfg <- update_if (nonzero (bond_mtu bond_cfg)) cfg
               (fun val cfg =>
                  update_section cfg "NetDev" "MTUBytes" (Py.str_of_Z val)) ;;
      let mac := option_map str_lower (nonempty (bond_macaddress bond_cfg)) in
      cfg <- update_if mac cfg
               (fun val cfg => update_section cfg "NetDev" "MACAddress" val) ;;
      macs <- set_mac names macs bond_name mac ;;
      cfg <- update_if (bond_parameters bond_cfg) cfg render_bond_params ;;
      text <- get_final_conf cfg ;;
      ret (Py.dict_set bond_ndev_configs bond_name text,
           mk_link_info names macs)
  end.

Definition render_bonds (ns : NetworkState) : M ndev_state :=
  let bonds := match cfg_bonds (ns_config_ ns) with
               | Some d => d
               | None => []
               end in
  foldM render_bond bonds ([], no_link_info).

(** [iface["mac_address"] = mac] when the interface has none and the VLAN or
    bond of that name recorded one. *)
Definition backfill_mac (info : link_info) (i : iface) : iface :=
  match nonempty (iface_mac_address i), link_macaddress info with
  | None, _ :: _ =>
      match nonempty (Py.dict_get (link_macaddress info) (iface_name i)) with
      | Some mac =>
          mk_iface (iface_name i) (iface_type i) (Some mac) (iface_mtu i)
                   (iface_optional i) (iface_accept_ra i) (iface_subnets i)
                   (iface_driver i) (iface_dns i)
      | None => i
      end
  | _, _ => i
  end.

(** The [for route in ns.iter_routes()] loop. *)
Definition parse_global_routes (routes : list route) (cfg : conf_dict)
  : M conf_dict :=
  st <- foldM (fun (st : conf_dict * Z) route =>
                 cfg <- parse_routes ("c" ++ Py.str_of_Z (snd st)) route
                          (fst st) ;;
                 ret (cfg, snd st + 1)%Z)
              routes (cfg, 0%Z) ;;
  ret (fst st).

(** The search for a device whose [set-name] is the name of the interface. *)
Fixpoint resolve_set_name (ethernets : list (string * device)) (name : string)
  : string :=
  match ethernets with
  | [] => name
  | (dev_name, dev_cfg) :: r =>
      match dev_set_name dev_cfg with
      | Some n => if String.eqb n name then dev_name
                  else resolve_set_name r name
      | None => resolve_set_name r name
      end
  end.

Definition conflict_message (name version : string) : string :=
  name ++ " has both dhcp" ++ version ++ "domain" ++ " and dhcp" ++ version
       ++ "-overrides.use-domains" ++ " configured. Use one".

(** [f"dhcp{version}domain" in device and "use-domains" in
    device.get(f"dhcp{version}-overrides", {})]. *)
Definition domain_conflict (d : device) (version : string) : bool :=
  match dev_domain d version with
  | Some _ =>
      Py.dict_mem (match dev_overrides d version with
                   | Some o => o
                   | None => []
                   end) "use-domains"
  | None => false
  end.

(** The [for version in ["4", "6"]] loop. *)
Definition dhcp_versions (name : string) (d : device) (dhcp : string)
                         (cfg : conf_dict) : M conf_dict :=
  foldM (fun cfg version =>
           if domain_conflict d version then
             raise (RuntimeError (conflict_message name version))
           else parse_dhcp_overrides cfg d dhcp version)
        ["4"; "6"] cfg.

(** The [if ns.version == 2] block. *)
Definition version2_overrides (ns : NetworkState) (i : iface) (dhcp : string)
                              (cfg : conf_dict) : M conf_dict :=
  if Z.eqb (ns_version ns) 2 then
    match cfg_ethernets (ns_config_ ns) with
    | None => raise (KeyError "ethernets")
    | Some ethernets =>
        let name := resolve_set_name ethernets (iface_name i) in
        match Py.dict_get ethernets name with
        | Some d =>
            cfg <- dhcp_domain d cfg ;;
            dhcp_versions name d dhcp cfg
        | None => ret cfg
        end
    end
  else ret cfg.

(** [link.get(iface_name)] when it is true: the name of the device of the
    interface.  For an interface named [macaddress] it is what the key of
    the MAC addresses holds: the name of a device, or the dict of the
    addresses, which [update_section] writes as its text. *)
Definition linked (info : link_info) (iface_name : string) : option string :=
  if String.eqb iface_name "macaddress" then
    match Py.dict_get (link_names info) "macaddress" with
    | Some name => nonempty (Some name)
    | None =>
        match link_macaddress info with
        | [] => None
        | _ :: _ => Some (str_dict (link_macaddress info))
        end
    end
  else nonempty (Py.dict_get (link_names info) iface_name).

(** The body of the loop of [_render_content] up to the call of
    [get_final_conf]: the [CfgParser] of one interface and the name of its
    unit. *)
Definition iface_conf (ns : NetworkState) (vlan_link bond_link : link_info)
                      (i : iface) : M (conf_dict * string) :=
  let cfg := init in
  let iface_name := iface_name i in
  cfg <- update_if (linked vlan_link iface_name)
           cfg (fun n cfg => update_section cfg "Network" "VLAN" n) ;;
  let i := backfill_mac vlan_link i in
  cfg <- update_if (linked bond_link iface_name)
           cfg (fun n cfg => update_section cfg "Network" "Bond" n) ;;
  let i := backfill_mac bond_link i in
  r <- generate_match_section i cfg ;;
  let '(cfg, link) := r in
  cfg <- generate_link_section i cfg ;;
  r <- parse_subnets i cfg ;;
  let '(cfg, dhcp) := r in
  cfg <- parse_dns i cfg ns ;;
  cfg <- parse_global_routes (ns_iter_routes ns) cfg ;;
  cfg <- version2_overrides ns i dhcp cfg ;;
  ret (cfg, link).

(** [link["macaddress"].get(iface_name)], which the body of the loop comes
    to for an interface without MAC address when the value of the key is
    true: an [AttributeError] when that value is the name of a device, a
    [str]. *)
Definition mac_lookup (info : link_info) (i : iface) : M iface :=
  match nonempty (iface_mac_address i),
        nonempty (Py.dict_get (link_names info) "macaddress") with
  | None, Some _ => raise AttributeError
  | _, _ => ret (backfill_mac info i)
  end.

(** The body of the loop of [_render_content].  The two lookups of MAC
    addresses are the first of its statements that can raise, the second
    on the interface as the first leaves it; [iface_conf] is the body when
    they do not. *)
Definition render_iface (ns : NetworkState) (vlan_link bond_link : link_info)
                        (ret_dict : list (string * string)) (i : iface)
  : M (list (string * string)) :=
  j <- mac_lookup vlan_link i ;;
  _ <- mac_lookup bond_link j ;;
  r <- iface_conf ns vlan_link bond_link i ;;
  text <- get_final_conf (fst r) ;;
  ret (Py.dict_set ret_dict (snd r) text).

Definition _render_content (ns : NetworkState) : M rendered :=
  v <- match cfg_vlans (ns_config_ ns) with
       | Some _ => r <- render_vlans ns ;; ret (Some (fst r), snd r)
       | None => ret (None, no_link_info)
       end ;;
  b <- match cfg_bonds (ns_config_ ns) with
       | Some _ => r <- render_bonds ns ;; ret (Some (fst r), snd r)
       | None => ret (None, no_link_info)
       end ;;
  texts <- foldM (render_iface ns (snd v) (snd b)) (ns_iter_interfaces ns) [] ;;
  ret (mk_rendered (fst v) (fst b) texts).

(** [create_network_file]: the calls it makes, in order. *)
Definition create_network_file (link conf nwk_dir ext : string) : list event :=
  let net_fn_owner := "systemd-network" in
  let net_fn := nwk_dir ++ "10-cloud-init-" ++ link ++ ext in
  let conf := if endswith conf (Py.nl ++ Py.nl) then drop_last conf else conf in
  [ WriteFile net_fn conf; ChownByName net_fn net_fn_owner net_fn_owner ].

Definition create_network_files (units : list (string * string))
                                (nwk_dir ext : string) : list event :=
  flat_map (fun '(k, v) => create_network_file k v nwk_dir ext) units.

(** [network.pop(key, {})]: the unit of an interface named [key], a text,
    or else the dict of the device units, empty when there is none. *)
Definition popped (r : rendered) (key : string)
                  (units : option (list (string * string)))
  : string + list (string * string) :=
  match Py.dict_get (network r) key with
  | Some text => inl text
  | None => inr (match units with Some d => d | None => [] end)
  end.

(** [render_network_state]: the calls made on the collaborators, and the
    outcome.  The interface units are what the two [pop]s leave; [.items()]
    on a popped value that is a text raises [AttributeError]. *)
Definition render_network_state (self : renderer_config) (ns : NetworkState)
                                (target : option string)
  : list event * M unit :=
  let network_dir := match nonempty target with
                     | Some t => target_path t ++ network_conf_dir self
                     | None => network_conf_dir self
                     end in
  let ensured := [EnsureDir network_dir] in
  match _render_content ns with
  | inl e => (ensured, raise e)
  | inr r =>
      let vlan_netdev := popped r "vlan_netdev" (vlan_netdev r) in
      let bond_netdev := popped r "bond_netdev" (bond_netdev r) in
      let network :=
        filter (fun kv => negb (Py.mem (fst kv) ["vlan_netdev"; "bond_netdev"]))
               (network r) in
      let written :=
        (ensured ++ create_network_files network network_dir ".network")%list in
      match vlan_netdev with
      | inl _ => (written, raise AttributeError)
      | inr vlans =>
          let written :=
            (written ++ create_network_files vlans network_dir ".netdev")%list in
          match bond_netdev with
          | inl _ => (written, raise AttributeError)
          | inr bonds =>
              ((written
                  ++ create_network_files bonds network_dir ".netdev")%list,
               ret tt)
          end
      end
  end.

End WithImports.

End Renderer.

(** ** The imported helpers, for the concrete renderings below *)

Module Helpers.

Definition digit (c : ascii) : option Z :=
  let n := nat_of_ascii c in
  if (andb (48 <=? n) (n <=? 57))%nat then Some (Z.of_nat n - 48)%Z else None.

Fixpoint parse_digits (s : string) (acc : Z) : option Z :=
  match s with
  | EmptyString => Some acc
  | String c r =>
      match digit c with
      | Some d => parse_digits r (acc * 10 + d)%Z
      | None => None
      end
  end.

Definition parse_decimal (s : string) : option Z :=
  match s with
  | EmptyString => None
  | _ => parse_digits s 0%Z
  end.

Fixpoint split_on (sep : ascii) (s : string) : list string :=
  match s with
  | EmptyString => [EmptyString]
  | String c r =>
      if Ascii.eqb c sep then EmptyString :: split_on sep r
      else match split_on sep r with
           | h :: t => String c h :: t
           | [] => [String c EmptyString]
           end
  end.

(** An IPv4 address in dotted-quad text, as a 32-bit number. *)
Definition ipv4 (s : string) : option Z :=
  match map parse_decimal (split_on "."%char s) with
  | [Some a; Some b; Some c; Some d] =>
      if forallb (fun x => Z.leb x 255) [a; b; c; d]
      then Some (((a * 256 + b) * 256 + c) * 256 + d)%Z
      else None
  | _ => None
  end.

(** [address/prefix], the host bits of the address kept. *)
Definition ipv4_interface (s : string) : option (Z * Z) :=
  match split_on "/"%char s with
  | [a] => option_map (fun ip => (ip, 32%Z)) (ipv4 a)
  | [a; p] =>
      match ipv4 a, parse_decimal p with
      | Some ip, Some n => if Z.leb n 32 then Some (ip, n) else None
      | _, _ => None
      end
  | _ => None
  end.

(** Modelled from the spec: [cloudinit.net.should_add_gateway_onlink_flag] is
    not among the sources; section 4.3 step 4 asks for the flag whenever
    the gateway address is not contained within the subnet's own network,
    computed via standard CIDR containment.  IPv4 text only; text that does
    not parse asks for no flag. *)
Definition cidr_gateway_onlink (gateway subnet : string) : bool :=
  match ipv4 gateway, ipv4_interface subnet with
  | Some g, Some (ip, n) =>
      negb (Z.eqb (Z.shiftr g (32 - n)) (Z.shiftr ip (32 - n)))
  | _, _ => false
  end.

(** Modelled from the spec: [cloudinit.util.translate_bool] is not among the
    sources; section 4.3 step 7 has the domain toggle accept boolean-like
    text and treats any other text as invalid. *)
Definition bool_of_text (s : string) : option bool :=
  if Py.mem s ["true"; "1"; "on"; "yes"] then Some true
  else if Py.mem s ["false"; "0"; "off"; "no"] then Some false
  else None.

(** Modelled from the spec: [cloudinit.subp.target_path] is not among the
    sources and the spec leaves path construction to the collaborators; the
    target directory is used as the prefix it is. *)
Definition target_prefix (target : string) : string := target.

(** [str(d)] for a dict of strings that need no escape: printable ASCII
    text without quotes or backslashes. *)
Definition dict_text (d : list (string * string)) : string :=
  "{" ++ Py.join ", "
           (map (fun kv => "'" ++ fst kv ++ "': '" ++ snd kv ++ "'") d)
  ++ "}".

(** [str.lower] and [str.casefold] agree on ASCII text, where they turn
    the letters [A] to [Z] into [a] to [z] and keep every other character:
    [Py.lower] is the two of them there.  The renderings below are of
    ASCII text; what is proved of the renderer is proved for every
    instance. *)
#[export] Instance imports : Renderer.Imports := {
  Renderer.should_add_gateway_onlink_flag := cidr_gateway_onlink;
  Renderer.translate_bool := bool_of_text;
  Renderer.target_path := target_prefix;
  Renderer.str_lower := Py.lower;
  Renderer.str_casefold := Py.lower;
  Renderer.str_dict := dict_text
}.

(** The part of the disk that the collaborators of the renderer change. *)
Record disk : Type := mk_disk {
  disk_dirs : list string;
  disk_files : list (string * string);
  disk_owners : list (string * (string * string))
}.

(** Modelled from the spec: [cloudinit.util.ensure_dir], [write_file] and
    [chownbyname] are not among the sources, and the spec leaves directory
    creation, file writing and ownership to the file-write collaborator:
    [ensure_dir] creates the directory when it is missing, [write_file]
    sets the content of a file, [chownbyname] its user and group. *)
Definition apply_event (d : disk) (ev : Renderer.event) : disk :=
  match ev with
  | Renderer.EnsureDir path =>
      if Py.mem path (disk_dirs d) then d
      else mk_disk (disk_dirs d ++ [path])%list (disk_files d) (disk_owners d)
  | Renderer.WriteFile path content =>
      mk_disk (disk_dirs d) (Py.dict_set (disk_files d) path content)
              (disk_owners d)
  | Renderer.ChownByName path user group =>
      mk_disk (disk_dirs d) (disk_files d)
              (Py.dict_set (disk_owners d) path (user, group))
  end.

Definition replay (events : list Renderer.event) (d : disk) : disk :=
  fold_left apply_event events d.

End Helpers.

(** * Properties *)

(** ** The order on [str] and the sorted, duplicate-free lists *)

Module PyFacts.

Import Py.

Lemma compare_as_OT (a b : string) :
  String.compare a b = String_as_OT.compare a b.
Proof.
  revert b; induction a as [|c a IH]; intros [|d b]; simpl; trivial.
Qed.

Lemma ltb_lt (a b : string) : String.ltb a b = true <-> String_as_OT.lt a b.
Proof.
  unfold String.ltb, String_as_OT.lt. rewrite compare_as_OT.
  destruct (String_as_OT.compare a b); split; congruence.
Qed.

Lemma ltb_irrefl (a : string) : String.ltb a a = false.
Proof.
  destruct (String.ltb a a) eqn:E; trivial.
  apply ltb_lt in E. exfalso. revert E. apply String_as_OT.lt_strorder.
Qed.

Lemma ltb_trans (a b c : string) :
  String.ltb a b = true -> String.ltb b c = true -> String.ltb a c = true.
Proof.
  rewrite !ltb_lt. apply String_as_OT.lt_strorder.
Qed.

Lemma ltb_asym (a b : string) : String.ltb a b = true -> String.ltb b a = false.
Proof.
  intros H. destruct (String.ltb b a) eqn:E; trivial.
  rewrite <- (ltb_irrefl a). symmetry. eapply ltb_trans; eauto.
Qed.

Lemma ltb_total (a b : string) :
  String.ltb a b = false -> String.ltb b a = false -> a = b.
Proof.
  unfold String.ltb. rewrite (String.compare_antisym b a).
  destruct (String.compare a b) eqn:E; simpl; try discriminate.
  intros _ _. now apply String.compare_eq_iff.
Qed.

(** [a <= b], as [sorted] sees it: not [b < a]. *)
Definition le (a b : string) : Prop := String.ltb b a = false.
Definition lt (a b : string) : Prop := String.ltb a b = true.

Lemma le_cases (a b : string) : le a b -> a = b \/ lt a b.
Proof.
  unfold le, lt. intros H. destruct (String.ltb a b) eqn:E; auto.
  left. now apply ltb_total.
Qed.

Lemma lt_le (a b : string) : lt a b -> le a b.
Proof. apply ltb_asym. Qed.

Lemma le_refl (a : string) : le a a.
Proof. apply ltb_irrefl. Qed.

Lemma le_trans (a b c : string) : le a b -> le b c -> le a c.
Proof.
  intros H1 H2. destruct (le_cases _ _ H1) as [->|L1]; trivial.
  destruct (le_cases _ _ H2) as [<-|L2]; trivial.
  apply lt_le. eapply ltb_trans; eauto.
Qed.

Lemma not_lt_le (a b : string) : String.ltb a b = false -> le b a.
Proof. trivial. Qed.

(** Sorted without and with duplicates. *)
Definition strictly_sorted (l : list string) : Prop := StronglySorted lt l.
Definition weakly_sorted (l : list string) : Prop := StronglySorted le l.

Lemma strictly_weakly (l : list string) : strictly_sorted l -> weakly_sorted l.
Proof.
  induction 1; constructor; trivial.
  eapply Forall_impl; [|eassumption]. intros; now apply lt_le.
Qed.

Lemma strictly_sorted_NoDup (l : list string) : strictly_sorted l -> NoDup l.
Proof.
  induction 1 as [|a l S IH F]; constructor; trivial.
  intros I. rewrite Forall_forall in F. specialize (F _ I).
  unfold lt in F. now rewrite ltb_irrefl in F.
Qed.

Lemma strictly_sorted_ext (l1 l2 : list string) :
  strictly_sorted l1 -> strictly_sorted l2 ->
  (forall x, In x l1 <-> In x l2) -> l1 = l2.
Proof.
  intros S1; revert l2.
  induction S1 as [|a l1 S1 IH F1]; intros l2 S2 E.
  - destruct l2 as [|b l2]; trivial. destruct (proj2 (E b)); now left.
  - destruct S2 as [|b l2 S2 F2].
    + destruct (proj1 (E a)); now left.
    + rewrite Forall_forall in F1, F2.
      assert (a = b) as <-.
      { destruct (proj1 (E a) (or_introl eq_refl)) as [->|Ia]; trivial.
        destruct (proj2 (E b) (or_introl eq_refl)) as [->|Ib]; trivial.
        specialize (F1 _ Ib). specialize (F2 _ Ia).
        apply ltb_asym in F1. unfold lt in F2. congruence. }
      f_equal. apply IH; trivial.
      intros x; split; intros I.
      * destruct (proj1 (E x) (or_intror I)) as [<-|]; trivial.
        specialize (F1 _ I). unfold lt in F1. now rewrite ltb_irrefl in F1.
      * destruct (proj2 (E x) (or_intror I)) as [<-|]; trivial.
        specialize (F2 _ I). unfold lt in F2. now rewrite ltb_irrefl in F2.
Qed.

Lemma In_insert (x y : string) (l : list string) :
  In y (insert x l) <-> y = x \/ In y l.
Proof.
  induction l as [|z l IH]; simpl.
  - intuition.
  - destruct (String.ltb z x); simpl; rewrite ?IH; intuition.
Qed.

Lemma In_sorted (y : string) (l : list string) : In y (sorted l) <-> In y l.
Proof.
  induction l as [|x l IH]; simpl; [tauto|].
  rewrite In_insert, IH. intuition.
Qed.

Lemma insert_weakly_sorted (x : string) (l : list string) :
  weakly_sorted l -> weakly_sorted (insert x l).
Proof.
  induction 1 as [|a l S IH F]; simpl.
  - repeat constructor.
  - destruct (String.ltb a x) eqn:E.
    + constructor; trivial. apply Forall_forall. intros y Iy.
      apply In_insert in Iy. destruct Iy as [->|Iy].
      * now apply lt_le.
      * rewrite Forall_forall in F. auto.
    + constructor; [now constructor|]. constructor; [exact E|].
      eapply Forall_impl; [|exact F]. intros y Hy. eapply le_trans; eauto.
Qed.

Lemma sorted_weakly_sorted (l : list string) : weakly_sorted (sorted l).
Proof.
  induction l; simpl; [constructor|]. now apply insert_weakly_sorted.
Qed.

Lemma insert_strictly_sorted (x : string) (l : list string) :
  strictly_sorted l -> ~ In x l -> strictly_sorted (insert x l).
Proof.
  induction 1 as [|a l S IH F]; simpl; intros N.
  - repeat constructor.
  - destruct (String.ltb a x) eqn:E.
    + constructor; [tauto|]. apply Forall_forall. intros y Iy.
      apply In_insert in Iy. destruct Iy as [->|Iy]; trivial.
      rewrite Forall_forall in F. auto.
    + assert (lt x a) as L.
      { destruct (le_cases x a E) as [->|]; tauto. }
      constructor; [now constructor|]. constructor; trivial.
      eapply Forall_impl; [|exact F]. intros y Hy. eapply ltb_trans; eauto.
Qed.

Lemma sorted_strictly_sorted (l : list string) :
  NoDup l -> strictly_sorted (sorted l).
Proof.
  induction 1 as [|x l N D IH]; simpl; [constructor|].
  apply insert_strictly_sorted; trivial. now rewrite In_sorted.
Qed.

Lemma sorted_id (l : list string) : weakly_sorted l -> sorted l = l.
Proof.
  induction 1 as [|a l S IH F]; simpl; trivial.
  rewrite IH. destruct l as [|b l]; simpl; trivial.
  inversion F; subst. unfold le in *. now rewrite H1.
Qed.

Lemma sorted_sorted (l : list string) : sorted (sorted l) = sorted l.
Proof. apply sorted_id, sorted_weakly_sorted. Qed.

Lemma insert_Permutation (x : string) (l : list string) :
  Permutation (insert x l) (x :: l).
Proof.
  induction l as [|y l IH]; simpl; trivial.
  destruct (String.ltb y x); trivial.
  rewrite IH. apply perm_swap.
Qed.

Lemma sorted_Permutation (l : list string) : Permutation (sorted l) l.
Proof.
  induction l; simpl; trivial. rewrite insert_Permutation. now constructor.
Qed.

Lemma In_fromkeys (x : string) (l : list string) :
  In x (fromkeys l) <-> In x l.
Proof.
  induction l as [|y l IH]; simpl; [tauto|].
  rewrite filter_In, IH. destruct (String.eqb_spec x y) as [->|N]; simpl.
  - intuition.
  - intuition congruence.
Qed.

Lemma NoDup_fromkeys (l : list string) : NoDup (fromkeys l).
Proof.
  induction l as [|y l IH]; simpl; constructor.
  - rewrite filter_In, String.eqb_refl. simpl. intros [_ ?]. discriminate.
  - now apply NoDup_filter.
Qed.

Lemma fromkeys_id (l : list string) : NoDup l -> fromkeys l = l.
Proof.
  induction 1 as [|x l N D IH]; simpl; trivial.
  rewrite IH. f_equal. apply forallb_filter_id. apply forallb_forall.
  intros y Iy. destruct (String.eqb_spec y x) as [->|]; tauto.
Qed.

(** What [update_section] stores: [sorted(fromkeys(l))]. *)
Definition canon (l : list string) : list string := sorted (fromkeys l).

Lemma canon_strictly_sorted (l : list string) : strictly_sorted (canon l).
Proof. apply sorted_strictly_sorted, NoDup_fromkeys. Qed.

Lemma In_canon (x : string) (l : list string) : In x (canon l) <-> In x l.
Proof. unfold canon. now rewrite In_sorted, In_fromkeys. Qed.

Lemma canon_ext (l1 l2 : list string) :
  (forall x, In x l1 <-> In x l2) -> canon l1 = canon l2.
Proof.
  intros E. apply strictly_sorted_ext; try apply canon_strictly_sorted.
  intros x. now rewrite !In_canon.
Qed.

Lemma canon_id (l : list string) : strictly_sorted l -> canon l = l.
Proof.
  intros S. unfold canon. rewrite fromkeys_id by now apply strictly_sorted_NoDup.
  now apply sorted_id, strictly_weakly.
Qed.

(** *** Dicts *)

Lemma map_fst_insert_item {V} (x : string * V) (l : list (string * V)) :
  map fst (insert_item x l) = insert (fst x) (map fst l).
Proof.
  induction l as [|y l IH]; simpl; trivial.
  destruct (String.ltb (fst y) (fst x)); simpl; congruence.
Qed.

Lemma map_fst_sorted_items {V} (d : list (string * V)) :
  map fst (sorted_items d) = sorted (map fst d).
Proof.
  induction d as [|x d IH]; simpl; trivial.
  now rewrite map_fst_insert_item, IH.
Qed.

Lemma insert_item_Permutation {V} (x : string * V) (l : list (string * V)) :
  Permutation (insert_item x l) (x :: l).
Proof.
  induction l as [|y l IH]; simpl; trivial.
  destruct (String.ltb (fst y) (fst x)); trivial.
  rewrite IH. apply perm_swap.
Qed.

Lemma sorted_items_Permutation {V} (d : list (string * V)) :
  Permutation (sorted_items d) d.
Proof.
  induction d; simpl; trivial.
  rewrite insert_item_Permutation. now constructor.
Qed.

Lemma sorted_items_map {V W} (f : string -> V -> W) (d : list (string * V)) :
  sorted_items (map (fun kv => (fst kv, f (fst kv) (snd kv))) d)
  = map (fun kv => (fst kv, f (fst kv) (snd kv))) (sorted_items d).
Proof.
  induction d as [|x d IH]; simpl; trivial.
  rewrite IH. generalize (sorted_items d). intros l.
  induction l as [|y l IHl]; simpl; trivial.
  destruct (String.ltb (fst y) (fst x)); simpl; congruence.
Qed.

Lemma sorted_items_id {V} (d : list (string * V)) :
  weakly_sorted (map fst d) -> sorted_items d = d.
Proof.
  induction d as [|x d IH]; simpl; trivial.
  intros S. inversion S as [|? ? S' F]; subst. rewrite IH by trivial.
  destruct d as [|y d]; simpl; trivial.
  inversion F; subst. unfold le in *. now rewrite H1.
Qed.

(** Items with unique, sorted keys are determined by their set. *)
Lemma sorted_keys_unique {V} (s s' : list (string * V)) :
  strictly_sorted (map fst s) -> strictly_sorted (map fst s') ->
  Permutation s s' -> s = s'.
Proof.
  intros S S' P.
  assert (map fst s = map fst s') as K.
  { apply strictly_sorted_ext; trivial.
    intros k. split; apply Permutation_in; [|symmetry]; now apply Permutation_map. }
  apply strictly_sorted_NoDup in S'. clear S.
  revert s' S' P K; induction s as [|x r IH]; intros [|y r'] N P K;
    try discriminate; trivial.
  simpl in K. injection K as Kx Kr. simpl in N. inversion N as [|? ? Ny Nr]; subst.
  assert (x = y) as ->.
  { assert (In x (y :: r')) as [E|I] by (eapply Permutation_in; [exact P|now left]);
      auto.
    destruct Ny. rewrite <- Kx. now apply in_map. }
  f_equal. apply IH; trivial. eapply Permutation_cons_inv; eauto.
Qed.

Lemma sorted_items_perm {V} (d d' : list (string * V)) :
  NoDup (map fst d) -> Permutation d d' -> sorted_items d = sorted_items d'.
Proof.
  intros N P. apply sorted_keys_unique.
  - rewrite map_fst_sorted_items. now apply sorted_strictly_sorted.
  - rewrite map_fst_sorted_items. apply sorted_strictly_sorted.
    eapply Permutation_NoDup; [|exact N]. now apply Permutation_map.
  - now rewrite !sorted_items_Permutation.
Qed.

Lemma dict_get_set {V} (d : list (string * V)) (k k' : string) (v : V) :
  dict_get (dict_set d k v) k'
  = if String.eqb k k' then Some v else dict_get d k'.
Proof.
  induction d as [|[j w] d IH]; simpl.
  - trivial.
  - destruct (String.eqb_spec j k) as [->|N]; simpl.
    + destruct (String.eqb k k'); trivial.
    + rewrite IH. destruct (String.eqb_spec j k') as [->|N']; trivial.
      destruct (String.eqb_spec k k'); congruence.
Qed.

Lemma dict_set_set {V} (d : list (string * V)) (k : string) (v w : V) :
  dict_set (dict_set d k v) k w = dict_set d k w.
Proof.
  induction d as [|[j u] d IH]; simpl.
  - now rewrite String.eqb_refl.
  - destruct (String.eqb_spec j k) as [->|N]; simpl.
    + now rewrite String.eqb_refl.
    + destruct (String.eqb_spec j k); congruence.
Qed.

Lemma dict_get_In {V} (d : list (string * V)) (k : string) (v : V) :
  dict_get d k = Some v -> In (k, v) d.
Proof.
  induction d as [|[j w] d IH]; simpl; try discriminate.
  destruct (String.eqb_spec j k) as [->|N]; auto.
  intros [= ->]. now left.
Qed.

Lemma In_dict_get {V} (d : list (string * V)) (k : string) (v : V) :
  NoDup (map fst d) -> In (k, v) d -> dict_get d k = Some v.
Proof.
  induction d as [|[j w] d IH]; simpl; [tauto|].
  intros N [E|I]; inversion N; subst.
  - injection E as -> ->. now rewrite String.eqb_refl.
  - destruct (String.eqb_spec j k) as [->|_]; auto.
    destruct H1. change k with (fst (k, v)). now apply in_map.
Qed.

Lemma dict_get_None {V} (d : list (string * V)) (k : string) :
  dict_get d k = None <-> ~ In k (map fst d).
Proof.
  induction d as [|[j w] d IH]; simpl; [tauto|].
  destruct (String.eqb_spec j k) as [->|N].
  - split; [discriminate|]. tauto.
  - rewrite IH. tauto.
Qed.

Lemma map_fst_dict_set {V} (d : list (string * V)) (k : string) (v : V) :
  map fst (dict_set d k v)
  = if dict_mem d k then map fst d else (map fst d ++ [k])%list.
Proof.
  unfold dict_mem. induction d as [|[j w] d IH]; simpl; trivial.
  destruct (String.eqb_spec j k) as [->|N]; simpl; trivial.
  rewrite IH. now destruct (dict_get d k).
Qed.

Lemma NoDup_dict_set {V} (d : list (string * V)) (k : string) (v : V) :
  NoDup (map fst d) -> NoDup (map fst (dict_set d k v)).
Proof.
  intros N. rewrite map_fst_dict_set. unfold dict_mem.
  destruct (dict_get d k) eqn:E; trivial.
  apply dict_get_None in E.
  apply (Permutation_NoDup (l := k :: map fst d)).
  - apply Permutation_cons_append.
  - now constructor.
Qed.

(** Two dicts that answer every [get] alike hold the same items. *)
Lemma dict_ext_Permutation {V} (d d' : list (string * V)) :
  NoDup (map fst d) -> NoDup (map fst d') ->
  (forall k, dict_get d k = dict_get d' k) -> Permutation d d'.
Proof.
  intros N N' E. apply NoDup_Permutation.
  - eapply NoDup_map_inv; eauto.
  - eapply NoDup_map_inv; eauto.
  - intros [k v]. split; intros I.
    + apply dict_get_In. rewrite <- E. now apply In_dict_get.
    + apply dict_get_In. rewrite E. now apply In_dict_get.
Qed.

End PyFacts.

(** ** The order on values and [sorted] on lists of values *)

Module ValueFacts.

Import Py PyFacts.

Section Induction.

Variable P : pyval -> Prop.
Hypothesis HNone : P PNone.
Hypothesis HInt : forall z, P (PInt z).
Hypothesis HStr : forall s, P (PStr s).
Hypothesis HList : forall l, Forall P l -> P (PList l).
Hypothesis HDict : forall d, Forall (fun kv => P (snd kv)) d -> P (PDict d).

Fixpoint pyval_nested_ind (v : pyval) : P v :=
  match v with
  | PNone => HNone
  | PInt z => HInt z
  | PStr s => HStr s
  | PList l =>
      HList l ((fix go (l : list pyval) : Forall P l :=
                  match l with
                  | [] => Forall_nil _
                  | x :: r => Forall_cons _ (pyval_nested_ind x) (go r)
                  end) l)
  | PDict d =>
      HDict d ((fix go (d : list (string * pyval))
                  : Forall (fun kv => P (snd kv)) d :=
                  match d with
                  | [] => Forall_nil _
                  | kv :: r => Forall_cons _ (pyval_nested_ind (snd kv)) (go r)
                  end) d)
  end.

End Induction.

(** The comparison of two lists inside [py_lt] and [py_eqb]. *)
Fixpoint list_lt (x y : list pyval) : option bool :=
  match x, y with
  | [], [] => Some false
  | [], _ :: _ => Some true
  | _ :: _, [] => Some false
  | a :: x', b :: y' => if py_eqb a b then list_lt x' y' else py_lt a b
  end.

Lemma py_lt_list (x y : list pyval) : py_lt (PList x) (PList y) = list_lt x y.
Proof.
  destruct x, y; reflexivity.
Qed.

Lemma py_eqb_eq (a b : pyval) : py_eqb a b = true <-> a = b.
Proof.
  revert b; induction a as [| z | s | l IH | d IH] using pyval_nested_ind;
    intros [| z' | s' | l' | d']; simpl; try (split; congruence).
  - rewrite Z.eqb_eq. split; congruence.
  - rewrite String.eqb_eq. split; congruence.
  - revert l'; induction IH as [|a l Ha _ IHl]; intros [|b l'];
      try (split; congruence).
    rewrite andb_true_iff, Ha, IHl. split.
    + intros [-> E]. congruence.
    + intros E. inversion E. auto.
  - revert d'; induction IH as [|[k a] d Ha _ IHd]; intros [|[k' b] d'];
      try (split; congruence).
    rewrite !andb_true_iff, String.eqb_eq. simpl in Ha. rewrite Ha, IHd. split.
    + intros (-> & -> & E). congruence.
    + intros E. inversion E. auto.
Qed.

Lemma py_eqb_refl (a : pyval) : py_eqb a a = true.
Proof. now apply py_eqb_eq. Qed.

Lemma py_eqb_sym (a b : pyval) : py_eqb a b = py_eqb b a.
Proof.
  destruct (py_eqb a b) eqn:E.
  - apply py_eqb_eq in E; subst. now rewrite py_eqb_refl.
  - destruct (py_eqb b a) eqn:E'; trivial.
    apply py_eqb_eq in E'; subst. now rewrite py_eqb_refl in E.
Qed.

Lemma py_eqb_neq (a b : pyval) : py_eqb a b = false <-> a <> b.
Proof.
  rewrite <- py_eqb_eq. destruct (py_eqb a b); split; congruence.
Qed.

(** [a < b] against [b < a]: both raise, or both answer, and then exactly
    one of [a < b], [a == b], [b < a] holds. *)
Definition converse (a b : pyval) : Prop :=
  match py_lt a b with
  | None => py_lt b a = None
  | Some true => py_lt b a = Some false /\ a <> b
  | Some false => py_lt b a = Some (negb (py_eqb a b))
  end.

Lemma list_lt_converse (l : list pyval) :
  Forall (fun a => forall b, converse a b) l ->
  forall l', converse (PList l) (PList l').
Proof.
  unfold converse. intros IH l'. rewrite !py_lt_list.
  revert l'; induction IH as [|a l Ha _ IHl]; intros [|b l'];
    try (simpl; split; congruence); trivial.
  specialize (IHl l'). specialize (Ha b).
  cbn [list_lt]. rewrite (py_eqb_sym b a).
  destruct (py_eqb a b) eqn:E.
  - apply py_eqb_eq in E; subst b.
    destruct (list_lt l l') as [[|]|]; trivial.
    + destruct IHl as [-> N]. split; trivial. congruence.
    + rewrite IHl. do 2 f_equal.
      change (py_eqb (PList (a :: l)) (PList (a :: l')))
        with (py_eqb a a && py_eqb (PList l) (PList l'))%bool.
      now rewrite py_eqb_refl.
  - apply py_eqb_neq in E.
    destruct (py_lt a b) as [[|]|]; trivial.
    + destruct Ha as [-> _]. split; trivial. congruence.
    + rewrite Ha. f_equal.
      symmetry. apply negb_true_iff, py_eqb_neq. congruence.
Qed.

Lemma py_lt_converse (a b : pyval) : converse a b.
Proof.
  revert b; induction a as [| z | s | l IH | d IH] using pyval_nested_ind;
    intros b.
  - destruct b; reflexivity.
  - destruct b as [| z' | | |]; try reflexivity.
    unfold converse; simpl.
    destruct (Z.ltb_spec z z'); [split; [f_equal; lia | intros [= ->]; lia]|].
    f_equal. destruct (Z.eqb_spec z z'); simpl; lia.
  - destruct b as [| | s' | |]; try reflexivity.
    unfold converse; simpl.
    destruct (String.ltb s s') eqn:E.
    + split; [f_equal; now apply ltb_asym|].
      intros [= ->]. now rewrite ltb_irrefl in E.
    + f_equal. destruct (String.eqb_spec s s') as [->|N]; simpl.
      * apply ltb_irrefl.
      * destruct (String.ltb s' s) eqn:E'; trivial.
        destruct N. now apply ltb_total.
  - destruct b as [| | | l' |]; try reflexivity.
    now apply list_lt_converse.
  - destruct b; reflexivity.
Qed.

Definition plt (a b : pyval) : Prop := py_lt a b = Some true.

(** [a <= b] as [sorted] sees it: [b < a] answers, and answers no. *)
Definition ple (a b : pyval) : Prop := py_lt b a = Some false.

Lemma plt_ple (a b : pyval) : plt a b -> ple a b.
Proof.
  unfold plt, ple. intros H. generalize (py_lt_converse a b).
  unfold converse. rewrite H. tauto.
Qed.

Lemma plt_neq (a b : pyval) : plt a b -> a <> b.
Proof.
  unfold plt. intros H. generalize (py_lt_converse a b).
  unfold converse. rewrite H. tauto.
Qed.

Lemma ple_cases (a b : pyval) : ple a b -> a = b \/ plt a b.
Proof.
  unfold plt, ple. intros H. generalize (py_lt_converse b a).
  unfold converse. rewrite H. intros ->.
  destruct (py_eqb b a) eqn:E; auto.
  apply py_eqb_eq in E. auto.
Qed.

Lemma list_lt_trans (x : list pyval) :
  Forall (fun a => forall b c, plt a b -> plt b c -> plt a c) x ->
  forall y z, list_lt x y = Some true -> list_lt y z = Some true ->
              list_lt x z = Some true.
Proof.
  induction 1 as [|a x Ha _ IH]; intros [|b y] [|c z]; simpl; try congruence.
  destruct (py_eqb a b) eqn:Eab, (py_eqb b c) eqn:Ebc.
  - apply py_eqb_eq in Eab, Ebc; subst. rewrite py_eqb_refl. apply IH.
  - apply py_eqb_eq in Eab; subst. now rewrite Ebc.
  - apply py_eqb_eq in Ebc; subst. now rewrite Eab.
  - intros Hab Hbc. assert (plt a c) as Hac by (eapply Ha; eauto).
    rewrite (proj2 (py_eqb_neq a c)); trivial. now apply plt_neq.
Qed.

Lemma plt_trans (a b c : pyval) : plt a b -> plt b c -> plt a c.
Proof.
  revert b c; induction a as [| z | s | l IH | d IH] using pyval_nested_ind;
    intros b c; unfold plt.
  - destruct b; discriminate.
  - destruct b; try discriminate. destruct c; try discriminate. simpl.
    intros [= H1] [= H2]. f_equal. lia.
  - destruct b; try discriminate. destruct c; try discriminate. simpl.
    intros [= H1] [= H2]. f_equal. eapply ltb_trans; eauto.
  - destruct b as [| | | y |]; try discriminate.
    destruct c as [| | | z |]; try discriminate.
    rewrite !py_lt_list. now apply list_lt_trans.
  - destruct b; discriminate.
Qed.

Lemma ple_trans (a b c : pyval) : ple a b -> ple b c -> ple a c.
Proof.
  intros H1 H2. destruct (ple_cases _ _ H1) as [->|L1]; trivial.
  destruct (ple_cases _ _ H2) as [<-|L2]; trivial.
  apply plt_ple. eapply plt_trans; eauto.
Qed.

(** Two values are comparable when [<] answers both ways. *)
Definition comparableb (a b : pyval) : bool :=
  match py_lt a b, py_lt b a with
  | Some _, Some _ => true
  | _, _ => false
  end.

Fixpoint mutually_comparable (l : list pyval) : bool :=
  match l with
  | [] => true
  | x :: r => andb (forallb (comparableb x) r) (mutually_comparable r)
  end.

Lemma comparableb_lt (a b : pyval) :
  comparableb a b = true <-> py_lt a b <> None.
Proof.
  unfold comparableb. generalize (py_lt_converse a b). unfold converse.
  destruct (py_lt a b) as [[|]|].
  - intros [-> _]. split; congruence.
  - intros ->. split; congruence.
  - intros _. split; congruence.
Qed.

Lemma comparableb_sym (a b : pyval) : comparableb a b = comparableb b a.
Proof. unfold comparableb. destruct (py_lt a b), (py_lt b a); trivial. Qed.

Lemma ple_comparable (a b : pyval) : ple a b -> comparableb a b = true.
Proof.
  intros H. rewrite comparableb_sym. apply comparableb_lt.
  unfold ple in H. congruence.
Qed.

Definition value_sorted (l : list pyval) : Prop := StronglySorted ple l.

Lemma py_insert_Some (x : pyval) (l : list pyval) :
  value_sorted l -> forallb (comparableb x) l = true ->
  exists l', py_insert x l = Some l' /\ value_sorted l'
             /\ Permutation l' (x :: l).
Proof.
  induction 1 as [|y r S IH F]; simpl; intros C.
  - eexists; repeat split; auto. repeat constructor.
  - apply andb_true_iff in C. destruct C as [Cy Cr].
    rewrite comparableb_sym in Cy. apply comparableb_lt in Cy.
    destruct (py_lt y x) as [[|]|] eqn:E; [| |congruence].
    + destruct (IH Cr) as (r' & -> & S' & P').
      eexists; repeat split.
      * constructor; trivial. rewrite P'. constructor; trivial.
        now apply plt_ple.
      * rewrite P'. apply perm_swap.
    + eexists; repeat split; auto.
      constructor; [now constructor|]. constructor; trivial.
      eapply Forall_impl; [|exact F]. intros z Hz. eapply ple_trans; eauto.
Qed.

Lemma py_insert_comparable (x : pyval) (l l' : list pyval) :
  value_sorted l -> py_insert x l = Some l' ->
  forallb (comparableb x) l = true.
Proof.
  intros S; revert l'. induction S as [|y r S IH F]; simpl; intros l' H; trivial.
  destruct (py_lt y x) as [[|]|] eqn:E; try discriminate.
  - destruct (py_insert x r) as [r'|] eqn:Er; try discriminate.
    rewrite (IH _ eq_refl), andb_true_r.
    rewrite comparableb_sym. apply comparableb_lt. congruence.
  - apply andb_true_iff; split; [now apply ple_comparable|].
    apply forallb_forall. intros z Iz. apply ple_comparable.
    rewrite Forall_forall in F. eapply ple_trans; eauto.
Qed.

Lemma forallb_Permutation {A} (f : A -> bool) (l l' : list A) :
  Permutation l l' -> forallb f l = forallb f l'.
Proof.
  induction 1; simpl; try congruence.
  now rewrite !andb_assoc, (andb_comm (f y)).
Qed.

(** [sorted(l)] answers exactly on the lists whose elements are mutually
    comparable, and then with a sorted permutation of [l]. *)
Lemma py_sorted_Some (l : list pyval) :
  mutually_comparable l = true ->
  exists s, py_sorted l = Some s /\ value_sorted s /\ Permutation s l.
Proof.
  induction l as [|x r IH]; simpl; intros C.
  - eexists; repeat split; auto. constructor.
  - apply andb_true_iff in C. destruct C as [Cx Cr].
    destruct (IH Cr) as (r' & -> & S & P).
    destruct (py_insert_Some x r' S) as (s & -> & S' & P').
    + now rewrite (forallb_Permutation _ _ _ P).
    + eexists; repeat split; trivial. rewrite P'. now constructor.
Qed.

Lemma py_sorted_comparable (l s : list pyval) :
  py_sorted l = Some s ->
  mutually_comparable l = true /\ value_sorted s /\ Permutation s l.
Proof.
  revert s; induction l as [|x r IH]; simpl; intros s H.
  - injection H as <-. repeat split; auto. constructor.
  - destruct (py_sorted r) as [r'|]; try discriminate.
    destruct (IH _ eq_refl) as (C & S & P).
    pose proof (py_insert_comparable _ _ _ S H) as Cx.
    rewrite (forallb_Permutation _ _ _ P) in Cx.
    destruct (py_insert_Some x r' S) as (s' & E & S' & P').
    + now rewrite (forallb_Permutation _ _ _ P).
    + rewrite H in E. injection E as <-.
      rewrite C, Cx. repeat split; trivial. rewrite P'. now constructor.
Qed.

Lemma py_sorted_None (l : list pyval) :
  mutually_comparable l = false -> py_sorted l = None.
Proof.
  intros C. destruct (py_sorted l) eqn:E; trivial.
  apply py_sorted_comparable in E. destruct E as [E _]. congruence.
Qed.

(** On a list of [str] the two [sorted] agree. *)
Lemma py_insert_str (x : string) (l : list string) :
  py_insert (PStr x) (map PStr l) = Some (map PStr (insert x l)).
Proof.
  induction l as [|y l IH]; simpl; trivial.
  destruct (String.ltb y x); trivial. now rewrite IH.
Qed.

Lemma py_sorted_str (l : list string) :
  py_sorted (map PStr l) = Some (map PStr (sorted l)).
Proof.
  induction l as [|x l IH]; simpl; trivial.
  rewrite IH. apply py_insert_str.
Qed.

End ValueFacts.

(** ** The canonicalizer *)

Module NormalizeFacts.

Import Py PyFacts ValueFacts.

(** A value every dict of which, at any depth, has its keys in sorted
    order. *)
Inductive canonical : pyval -> Prop :=
| canonical_None : canonical PNone
| canonical_Int (z : Z) : canonical (PInt z)
| canonical_Str (s : string) : canonical (PStr s)
| canonical_List (l : list pyval) :
    Forall canonical l -> canonical (PList l)
| canonical_Dict (d : list (string * pyval)) :
    weakly_sorted (map fst d) ->
    Forall (fun kv => canonical (snd kv)) d ->
    canonical (PDict d).

Lemma normalize_value_scalar (item : pyval) :
  (if is_dict_or_list item then _normalize_value item else item)
  = _normalize_value item.
Proof. now destruct item. Qed.

Lemma normalize_value_list (l : list pyval) :
  _normalize_value (PList l)
  = match py_sorted (map _normalize_value l) with
    | Some s => PList s
    | None => PList (map _normalize_value l)
    end.
Proof.
  simpl.
  assert ((fix items (l : list pyval) : list pyval :=
             match l with
             | [] => []
             | item :: r =>
                 (if is_dict_or_list item then _normalize_value item else item)
                   :: items r
             end) l = map _normalize_value l) as ->; trivial.
  induction l as [|x l IH]; trivial.
  now rewrite IH, normalize_value_scalar.
Qed.

Lemma normalize_value_dict (d : list (string * pyval)) :
  _normalize_value (PDict d)
  = PDict (sorted_items
             (map (fun kv => (fst kv, _normalize_value (snd kv))) d)).
Proof.
  simpl. do 2 f_equal.
  induction d as [|[k v] d IH]; trivial. now rewrite IH.
Qed.

Lemma normalize_value_canonical (data : pyval) :
  canonical (_normalize_value data).
Proof.
  induction data as [| z | s | l IH | d IH] using pyval_nested_ind;
    [constructor | constructor | constructor | | ].
  - rewrite normalize_value_list.
    assert (Forall canonical (map _normalize_value l)) as F
        by now apply Forall_map.
    destruct (py_sorted (map _normalize_value l)) as [s|] eqn:E;
      constructor; trivial.
    apply py_sorted_comparable in E. destruct E as (_ & _ & P).
    eapply Permutation_Forall; [symmetry; exact P|trivial].
  - rewrite normalize_value_dict. constructor.
    + rewrite map_fst_sorted_items. apply sorted_weakly_sorted.
    + eapply Permutation_Forall; [symmetry; apply sorted_items_Permutation|].
      apply Forall_map. simpl. trivial.
Qed.

Example normalize_sorts_comparable :
  _normalize_value (PList [PStr "b"; PStr "a"; PStr "c"])
  = PList [PStr "a"; PStr "b"; PStr "c"].
Proof. reflexivity. Qed.

Example normalize_keeps_mixed :
  _normalize_value (PList [PInt 2; PStr "a"; PInt 1])
  = PList [PInt 2; PStr "a"; PInt 1].
Proof. reflexivity. Qed.

Example normalize_keeps_dicts :
  _normalize_value
    (PList [PDict [("y", PInt 1); ("x", PList [PInt 3; PInt 2])];
            PDict [("b", PNone); ("a", PNone)]])
  = PList [PDict [("x", PList [PInt 2; PInt 3]); ("y", PInt 1)];
           PDict [("a", PNone); ("b", PNone)]].
Proof. reflexivity. Qed.

Lemma dict_get_normalized (d : list (string * pyval)) (k : string) :
  dict_get (map (fun kv => (fst kv, _normalize_value (snd kv))) d) k
  = option_map _normalize_value (dict_get d k).
Proof.
  induction d as [|[j v] d IH]; simpl; trivial.
  now destruct (String.eqb j k).
Qed.

Lemma dict_get_Permutation {V} (d d' : list (string * V)) (k : string) :
  NoDup (map fst d) -> Permutation d' d -> dict_get d' k = dict_get d k.
Proof.
  intros N P.
  assert (NoDup (map fst d')) as N'
      by (eapply Permutation_NoDup;
          [apply Permutation_map; symmetry; exact P | exact N]).
  destruct (dict_get d k) as [v|] eqn:E.
  - apply In_dict_get; trivial. apply dict_get_In in E.
    eapply Permutation_in; [symmetry; exact P | exact E].
  - apply dict_get_None. apply dict_get_None in E. intros I. apply E.
    eapply Permutation_in; [apply Permutation_map; exact P | exact I].
Qed.

(** C9.  [_normalize_value] returns, without raising, a value in which every
    nested dict has its keys sorted and every list element is itself
    normalized; [normalize] does so under each top-level key, which it keeps
    in place.  A list comes back sorted exactly when its normalized elements
    are mutually comparable, and otherwise in the order of its normalized
    elements.  Nothing is lost or made up on the way: a value that is
    neither a dict nor a list comes back as it is; a dict comes back with
    its items, every value normalized, in the order of the keys, so that
    every key has the normalized value it had; and [normalize] puts under
    each top-level key what [_normalize_value] returns for its value. *)
Theorem normalize_value_sorted_iff_comparable :
  (forall data, canonical (_normalize_value data))
  /\ (forall data,
        map fst (normalize data) = map fst data
        /\ Forall (fun kv => canonical (snd kv)) (normalize data))
  /\ (forall l,
        let items := map _normalize_value l in
        if mutually_comparable items
        then exists s, _normalize_value (PList l) = PList s
                       /\ value_sorted s /\ Permutation s items
        else _normalize_value (PList l) = PList items
             /\ ~ value_sorted items)
  /\ (forall data, is_dict_or_list data = false -> _normalize_value data = data)
  /\ (forall d,
        exists d',
          _normalize_value (PDict d) = PDict d'
          /\ weakly_sorted (map fst d')
          /\ Permutation
               d' (map (fun kv => (fst kv, _normalize_value (snd kv))) d)
          /\ (NoDup (map fst d) ->
              strictly_sorted (map fst d')
              /\ forall k, dict_get d' k
                           = option_map _normalize_value (dict_get d k)))
  /\ (forall data,
        Forall2 (fun kv kv' => fst kv' = fst kv
                               /\ snd kv' = _normalize_value (snd kv))
                data (normalize data))
  /\ (forall data k,
        dict_get (normalize data) k
        = option_map _normalize_value (dict_get data k)).
Proof.
  split; [exact normalize_value_canonical|]. split; [|split].
  - intros data. unfold normalize. split.
    + rewrite map_map. apply map_ext. now intros [k v].
    + apply Forall_map, Forall_forall. intros [k v] _.
      apply normalize_value_canonical.
  - intros l items. rewrite normalize_value_list. fold items.
    destruct (mutually_comparable items) eqn:C.
    + destruct (py_sorted_Some _ C) as (s & -> & S & P). eauto.
    + rewrite (py_sorted_None _ C). split; trivial.
      intros S. clear -S C. induction S as [|x r S IH F]; simpl in C.
      * discriminate.
      * apply andb_false_iff in C. destruct C as [C|C]; auto.
        assert (forallb (comparableb x) r = true); [|congruence].
        apply forallb_forall. intros y Iy. apply ple_comparable.
        rewrite Forall_forall in F. auto.
  - split; [|split; [|split]].
    + intros data S. destruct data; trivial; discriminate S.
    + intros d. rewrite normalize_value_dict. eexists.
      split; [reflexivity|].
      pose proof (sorted_items_Permutation
                    (map (fun kv => (fst kv, _normalize_value (snd kv))) d))
        as P.
      assert (map fst (map (fun kv : string * pyval =>
                              (fst kv, _normalize_value (snd kv))) d)
              = map fst d) as K
          by (rewrite map_map; now apply map_ext).
      split; [|split; [exact P|]].
      * rewrite map_fst_sorted_items. apply sorted_weakly_sorted.
      * intros N. split.
        -- rewrite map_fst_sorted_items, K.
           now apply sorted_strictly_sorted.
        -- intros k. rewrite <- dict_get_normalized.
           apply dict_get_Permutation; trivial. now rewrite K.
    + intros data. unfold normalize.
      induction data as [|[k v] data IH]; constructor; auto.
    + intros data k. unfold normalize.
      induction data as [|[j v] data IH]; simpl; trivial.
      now destruct (String.eqb j k).
Qed.

End NormalizeFacts.

(** ** The section accumulator *)

Module CfgFacts.

Import Py PyFacts ValueFacts NormalizeFacts CfgParser.

(** *** Text *)

Lemma append_nil_r (s : string) : s ++ "" = s.
Proof. induction s; simpl; congruence. Qed.

Lemma append_assoc (a b c : string) : (a ++ b) ++ c = a ++ b ++ c.
Proof. induction a; simpl; congruence. Qed.

(** The text of a list of pieces, in order. *)
Fixpoint text (l : list string) : string :=
  match l with
  | [] => ""
  | s :: r => s ++ text r
  end.

Lemma text_app (l l' : list string) : text (l ++ l') = text l ++ text l'.
Proof. induction l; simpl; trivial. now rewrite IHl, append_assoc. Qed.

(** A loop that appends to [contents] a piece per element. *)
Lemma foldM_text {A} (f : A -> M string) (g : A -> string)
                 (h : string -> string) (l : list A) (acc : string) :
  (forall x, In x l -> f x = inr (g x)) ->
  foldM (fun contents x => s <- f x ;; ret (contents ++ h s)) l acc
  = inr (acc ++ text (map (fun x => h (g x)) l)).
Proof.
  revert acc; induction l as [|x l IH]; simpl; intros acc H.
  - now rewrite append_nil_r.
  - rewrite (H x) by now left. simpl. rewrite IH by auto.
    now rewrite append_assoc.
Qed.

(** *** What [get_final_conf] returns *)

Definition norm_secval (v : secval) : secval :=
  match v with
  | SLines l => SLines (sorted l)
  | SRoutes d => SRoutes (sorted_items (map (fun nl => (fst nl, sorted (snd nl))) d))
  end.

Definition norm_conf (c : conf_dict) : conf_dict :=
  map (fun kv => (fst kv, norm_secval (snd kv))) c.

Definition lines_text (l : list string) : string :=
  text (map (fun e => e ++ nl) l).

Definition stanza (k : string) (l : list string) : string :=
  "[" ++ k ++ "]" ++ nl ++ lines_text l ++ nl.

Definition get_or_nil (d : list (string * list string)) (n : string)
  : list string :=
  match dict_get d n with Some l => l | None => [] end.

(** The text that the loop of [get_final_conf] appends for one item of the
    normalized dict. *)
Definition item_text (kv : string * secval) : string :=
  let k := fst kv in
  match snd kv with
  | SLines [] => ""
  | SLines l =>
      if String.eqb k "Address"
      then text (map (fun e => "[" ++ k ++ "]" ++ nl ++ e ++ nl ++ nl) (sorted l))
      else stanza k (sorted l)
  | SRoutes [] => ""
  | SRoutes d =>
      text (map (fun n => stanza k (sorted (get_or_nil d n)))
                (sorted (map fst d)))
  end.

Definition serialize (c : conf_dict) : string :=
  text (map item_text (sorted_items (norm_conf c))).

(** The shape that [__init__] gives [conf_dict] and the two update methods
    keep: a dict under ["Route"] and nowhere else, its keys unique. *)
Definition wf_entry (kv : string * secval) : Prop :=
  match snd kv with
  | SLines _ => fst kv <> "Route"
  | SRoutes d => fst kv = "Route" /\ NoDup (map fst d)
  end.

Definition wf (c : conf_dict) : Prop := Forall wf_entry c.

Lemma wf_init : wf init.
Proof.
  repeat constructor; unfold wf_entry; simpl; try discriminate.
Qed.

Lemma normalize_strs (l : list string) :
  _normalize_value (PList (map PStr l)) = PList (map PStr (sorted l)).
Proof.
  rewrite normalize_value_list.
  assert (map _normalize_value (map PStr l) = map PStr l) as ->.
  { rewrite map_map. now apply map_ext. }
  now rewrite py_sorted_str.
Qed.

Lemma normalize_py_of_conf (c : conf_dict) :
  normalize (py_of_conf c) = py_of_conf (norm_conf c).
Proof.
  unfold normalize, py_of_conf, norm_conf. rewrite !map_map.
  apply map_ext. intros [k [l|d]]; simpl fst; simpl snd; f_equal.
  - apply normalize_strs.
  - unfold py_of_secval, norm_secval. rewrite normalize_value_dict. f_equal.
    set (F := fun l : list string => PList (map PStr l)).
    transitivity
      (sorted_items
         (map (fun kv => (fst kv, F (snd kv)))
              (map (fun nl => (fst nl, sorted (snd nl))) d))).
    + f_equal. rewrite !map_map. apply map_ext. intros [n l]. simpl.
      f_equal. apply normalize_strs.
    + rewrite (sorted_items_map (fun _ => F)). apply map_ext. now intros [n l].
Qed.

Lemma sorted_items_py_of_conf (c : conf_dict) :
  sorted_items (py_of_conf c) = py_of_conf (sorted_items c).
Proof.
  unfold py_of_conf.
  transitivity
    (sorted_items (map (fun kv => (fst kv, py_of_secval (snd kv))) c)).
  - f_equal. apply map_ext. now intros [k v].
  - rewrite (sorted_items_map (fun _ => py_of_secval)).
    apply map_ext. now intros [k v].
Qed.

Lemma emit_lines_strs (l : list string) :
  emit_lines (PList (map PStr l)) = inr (lines_text (sorted l)).
Proof.
  unfold emit_lines, py_iter_sorted. rewrite py_sorted_str. simpl.
  rewrite (foldM_text py_format (fun e => match e with PStr s => s | _ => "" end)
                      (fun s => s ++ nl)).
  - unfold lines_text. now rewrite map_map.
  - intros x I. apply in_map_iff in I. now destruct I as (s & <- & _).
Qed.

Lemma dict_get_map {V W} (f : V -> W) (d : list (string * V)) (n : string) :
  dict_get (map (fun kv => (fst kv, f (snd kv))) d) n
  = option_map f (dict_get d n).
Proof.
  induction d as [|[k v] d IH]; simpl; trivial.
  now destruct (String.eqb k n).
Qed.

Lemma item_text_routes (k : string) (d : list (string * list string)) :
  item_text (k, SRoutes d)
  = text (map (fun n => stanza k (sorted (get_or_nil d n)))
              (sorted (map fst d))).
Proof. destruct d; reflexivity. Qed.

Lemma emit_routes (d : list (string * list string)) (ks : list string)
                  (acc : string) :
  (forall n, In n ks -> In n (map fst d)) ->
  foldM (fun contents n =>
           match dict_get (map (fun '(n, l) => (n, PList (map PStr l))) d) n
           with
           | None => raise (KeyError n)
           | Some vn => body <- emit_lines vn ;;
                        ret (contents ++ "[" ++ "Route" ++ "]" ++ nl
                                      ++ body ++ nl)
           end) ks acc
  = inr (acc ++ text (map (fun n => stanza "Route" (sorted (get_or_nil d n)))
                          ks)).
Proof.
  assert (forall n,
            dict_get (map (fun '(n, l) => (n, PList (map PStr l))) d) n
            = option_map (fun l => PList (map PStr l)) (dict_get d n)) as G.
  { intros n. rewrite <- dict_get_map. f_equal. apply map_ext. now intros [? ?]. }
  revert acc; induction ks as [|n ks IH]; intros acc K; simpl.
  - now rewrite append_nil_r.
  - assert (In n (map fst d)) as I by (apply K; now left).
    rewrite G. unfold get_or_nil.
    destruct (dict_get d n) as [l|] eqn:E.
    + simpl. rewrite emit_lines_strs. simpl.
      rewrite IH by (intros; apply K; now right).
      unfold stanza. f_equal. rewrite append_assoc. f_equal.
    + apply dict_get_None in E. contradiction.
Qed.

Lemma emit_item_spec (k : string) (v : secval) :
  wf_entry (k, v) -> emit_item k (py_of_secval v) = inr (item_text (k, v)).
Proof.
  unfold wf_entry. simpl fst; simpl snd.
  destruct v as [l|d]; simpl py_of_secval.
  - intros N. unfold emit_item, item_text. simpl fst; simpl snd.
    destruct l as [|x l]; trivial.
    cbn [truthy map negb]. destruct (String.eqb k "Address") eqn:EA.
    + change (PStr x :: map PStr l) with (map PStr (x :: l)).
      unfold py_iter_sorted. rewrite py_sorted_str. cbn [bind ret].
      rewrite (foldM_text py_format
                 (fun e => match e with PStr s => s | _ => "" end)
                 (fun s => "[" ++ k ++ "]" ++ nl ++ s ++ nl ++ nl)).
      * now rewrite map_map.
      * intros y I. apply in_map_iff in I. now destruct I as (s & <- & _).
    + destruct (String.eqb_spec k "Route"); [contradiction|].
      change (PStr x :: map PStr l) with (map PStr (x :: l)).
      now rewrite emit_lines_strs.
  - intros [-> N]. rewrite item_text_routes. unfold emit_item.
    destruct d as [|x d]; trivial.
    assert (truthy (PDict (map (fun '(n, l) => (n, PList (map PStr l)))
                               (x :: d))) = true) as -> by reflexivity.
    change (String.eqb "Route" "Address") with false.
    change (String.eqb "Route" "Route") with true.
    cbv beta iota. cbn [negb].
    assert (map fst (map (fun '(n, l) => (n, PList (map PStr l))) (x :: d))
            = map fst (x :: d)) as ->.
    { rewrite map_map. apply map_ext. now intros [n l]. }
    rewrite emit_routes; trivial.
    intros n. apply In_sorted.
Qed.

Lemma wf_norm_conf (c : conf_dict) : wf c -> wf (norm_conf c).
Proof.
  unfold wf, norm_conf. intros W. apply Forall_map.
  eapply Forall_impl; [|exact W]. intros [k [l|d]]; unfold wf_entry; simpl; trivial.
  intros [-> N]. split; trivial.
  rewrite map_fst_sorted_items.
  apply strictly_sorted_NoDup, sorted_strictly_sorted.
  rewrite map_map. simpl. trivial.
Qed.

Lemma wf_sorted_items (c : conf_dict) : wf c -> wf (sorted_items c).
Proof.
  unfold wf. intros W.
  eapply Permutation_Forall; [symmetry; apply sorted_items_Permutation|trivial].
Qed.

Lemma foldM_items (c : conf_dict) (acc : string) :
  wf c ->
  foldM (fun contents '(k, v) => s <- emit_item k v ;; ret (contents ++ s))
        (py_of_conf c) acc
  = inr (acc ++ text (map item_text c)).
Proof.
  unfold wf. intros W; revert acc.
  induction W as [|[k v] c Wkv _ IH]; intros acc; simpl.
  - now rewrite append_nil_r.
  - rewrite emit_item_spec by trivial. simpl. rewrite IH.
    now rewrite append_assoc.
Qed.

(** [get_final_conf] never raises on such a [conf_dict], and returns the text
    of its normalized items in the order of their keys. *)
Lemma get_final_conf_spec (c : conf_dict) :
  wf c -> get_final_conf c = inr (serialize c).
Proof.
  intros W. unfold get_final_conf, serialize.
  rewrite normalize_py_of_conf, sorted_items_py_of_conf.
  now rewrite foldM_items by now apply wf_sorted_items, wf_norm_conf.
Qed.

(** *** The two update methods as functions on [conf_dict] *)

(** A call of one of the two update methods. *)
Inductive call : Type :=
| Update (sec key val : string)
| UpdateRoute (sec rid key val : string).

Definition apply_call (c : conf_dict) (a : call) : M conf_dict :=
  match a with
  | Update sec key val => update_section c sec key val
  | UpdateRoute sec rid key val => update_route_section c sec rid key val
  end.

(** A sequence of calls on one [CfgParser]. *)
Definition run (cs : list call) (c : conf_dict) : M conf_dict :=
  foldM apply_call cs c.

Definition call_sec (a : call) : string :=
  match a with
  | Update sec _ _ => sec
  | UpdateRoute sec _ _ _ => sec
  end.

Definition call_line (a : call) : string :=
  match a with
  | Update _ key val => line key val
  | UpdateRoute _ _ key val => line key val
  end.

Definition call_val (a : call) : string :=
  match a with
  | Update _ _ val => val
  | UpdateRoute _ _ _ val => val
  end.

Definition is_routes (v : secval) : bool :=
  match v with
  | SRoutes _ => true
  | SLines _ => false
  end.

(** What a call that returns does to the value of its section. *)
Definition radd (d : list (string * list string)) (rid x : string)
  : list (string * list string) :=
  dict_set d rid (canon (get_or_nil d rid ++ [x])).

Definition call_value (a : call) (v : secval) : secval :=
  match a, v with
  | Update _ key val, SLines l => SLines (canon (l ++ [line key val]))
  | UpdateRoute _ rid key val, SRoutes d => SRoutes (radd d rid (line key val))
  | _, _ => v
  end.

Definition step_entry (a : call) (kv : string * secval) : string * secval :=
  if String.eqb (fst kv) (call_sec a) then (fst kv, call_value a (snd kv))
  else kv.

Definition step (c : conf_dict) (a : call) : conf_dict :=
  map (step_entry a) c.

(** A call raises when its section holds the other kind of value. *)
Definition call_routes (a : call) : bool :=
  match a with
  | Update _ _ _ => false
  | UpdateRoute _ _ _ _ => true
  end.

Definition clashes (a : call) (c : conf_dict) : bool :=
  existsb (fun kv => andb (String.eqb (fst kv) (call_sec a))
                          (negb (Bool.eqb (is_routes (snd kv)) (call_routes a))))
          c.

Definition call_error (a : call) : exn :=
  match a with
  | Update _ _ _ => AttributeError
  | UpdateRoute _ _ _ _ => TypeError
  end.

Lemma radd_eq (d : list (string * list string)) (rid x : string) :
  (let d1 := if dict_mem d rid then d else dict_set d rid [] in
   let l := match dict_get d1 rid with Some l => l | None => [] end in
   dict_set d1 rid (sorted (fromkeys (l ++ [x]))))
  = radd d rid x.
Proof.
  unfold radd, get_or_nil, dict_mem. cbv zeta.
  destruct (dict_get d rid) as [l|] eqn:E.
  - now rewrite E.
  - rewrite dict_get_set, String.eqb_refl. now rewrite dict_set_set.
Qed.

Lemma apply_call_step (a : call) (c : conf_dict) :
  apply_call c a
  = if clashes a c then inl (call_error a) else inr (step c a).
Proof.
  induction c as [|[k v] c IH]; destruct a as [sec key val|sec rid key val];
    simpl in *; trivial.
  - unfold step_entry. simpl.
    destruct (String.eqb k sec); simpl.
    + destruct v as [l|d]; simpl; trivial.
      rewrite IH. now destruct (clashes (Update sec key val) c).
    + rewrite IH. now destruct (clashes (Update sec key val) c).
  - unfold step_entry. simpl.
    destruct (String.eqb k sec); simpl.
    + destruct v as [l|d]; simpl; trivial.
      rewrite IH. destruct (clashes (UpdateRoute sec rid key val) c); trivial.
      simpl. now rewrite <- (radd_eq d rid (line key val)).
    + rewrite IH. now destruct (clashes (UpdateRoute sec rid key val) c).
Qed.

Lemma clashes_step (a b : call) (c : conf_dict) :
  clashes a (step c b) = clashes a c.
Proof.
  unfold clashes, step. induction c as [|[k v] c IH]; simpl; trivial.
  rewrite IH. f_equal. unfold step_entry. simpl.
  destruct (String.eqb k (call_sec b)); simpl; trivial.
  f_equal. now destruct b, v.
Qed.

Definition pure_run (cs : list call) (c : conf_dict) : conf_dict :=
  fold_left step cs c.

Lemma clashes_pure_run (a : call) (cs : list call) (c : conf_dict) :
  clashes a (pure_run cs c) = clashes a c.
Proof.
  revert c; induction cs as [|b cs IH]; intros c; simpl; trivial.
  now rewrite IH, clashes_step.
Qed.

(** A sequence of calls returns exactly when none of them clashes with the
    kind of its section, whatever their order. *)
Lemma run_pure (cs : list call) (c c' : conf_dict) :
  run cs c = inr c'
  <-> forallb (fun a => negb (clashes a c)) cs = true /\ c' = pure_run cs c.
Proof.
  unfold run. revert c; induction cs as [|a cs IH]; intros c; simpl.
  - split; [intros [= <-]; auto | intros [_ ->]; trivial].
  - rewrite apply_call_step. destruct (clashes a c) eqn:E; simpl.
    + split; [discriminate | intros [? _]; discriminate].
    + rewrite IH.
      assert (forallb (fun a0 => negb (clashes a0 (step c a))) cs
              = forallb (fun a0 => negb (clashes a0 c)) cs) as ->; [|reflexivity].
      clear. induction cs as [|b cs IH]; simpl; trivial.
      now rewrite IH, clashes_step.
Qed.

(** *** The invariants of [conf_dict] *)

(** Every list of lines is sorted and free of duplicates. *)
Definition tidy_entry (kv : string * secval) : Prop :=
  match snd kv with
  | SLines l => strictly_sorted l
  | SRoutes d => Forall (fun nl => strictly_sorted (snd nl)) d
  end.

Definition tidy (c : conf_dict) : Prop := Forall tidy_entry c.

Lemma In_dict_set {V} (d : list (string * V)) (k : string) (v : V)
                  (x : string * V) :
  In x (dict_set d k v) -> x = (k, v) \/ In x d.
Proof.
  induction d as [|[j w] d IH]; simpl.
  - intros [<-|[]]; auto.
  - destruct (String.eqb_spec j k) as [->|N]; simpl; intuition.
Qed.

Lemma wf_step_entry (a : call) (kv : string * secval) :
  wf_entry kv -> wf_entry (step_entry a kv).
Proof.
  unfold step_entry, wf_entry. destruct kv as [k v]. simpl.
  destruct (String.eqb k (call_sec a)); simpl; trivial.
  destruct a, v; simpl; trivial.
  intros [-> N]. split; trivial. now apply NoDup_dict_set.
Qed.

Lemma tidy_step_entry (a : call) (kv : string * secval) :
  tidy_entry kv -> tidy_entry (step_entry a kv).
Proof.
  unfold step_entry, tidy_entry. destruct kv as [k v]. simpl.
  destruct (String.eqb k (call_sec a)); simpl; trivial.
  destruct a, v; simpl; trivial.
  - intros _. apply canon_strictly_sorted.
  - intros F. apply Forall_forall. intros x I.
    apply In_dict_set in I. destruct I as [->|I].
    + apply canon_strictly_sorted.
    + rewrite Forall_forall in F. auto.
Qed.

Lemma wf_pure_run (cs : list call) (c : conf_dict) :
  wf c -> wf (pure_run cs c).
Proof.
  revert c; induction cs as [|a cs IH]; intros c W; simpl; trivial.
  apply IH. unfold wf, step. apply Forall_map.
  eapply Forall_impl; [|exact W]. intros; now apply wf_step_entry.
Qed.

Lemma tidy_pure_run (cs : list call) (c : conf_dict) :
  tidy c -> tidy (pure_run cs c).
Proof.
  revert c; induction cs as [|a cs IH]; intros c W; simpl; trivial.
  apply IH. unfold tidy, step. apply Forall_map.
  eapply Forall_impl; [|exact W]. intros; now apply tidy_step_entry.
Qed.

Lemma tidy_init : tidy init.
Proof. repeat constructor. Qed.

(** *** Order of the calls *)

(** Two [conf_dict] that differ at most in the insertion order of the route
    identifiers. *)
Definition same_value (v v' : secval) : Prop :=
  match v, v' with
  | SLines l, SLines l' => l = l'
  | SRoutes d, SRoutes d' =>
      NoDup (map fst d) /\ NoDup (map fst d')
      /\ forall n, dict_get d n = dict_get d' n
  | _, _ => False
  end.

Definition same_entry (kv kv' : string * secval) : Prop :=
  fst kv = fst kv' /\ same_value (snd kv) (snd kv').

Definition same_conf (c c' : conf_dict) : Prop := Forall2 same_entry c c'.

Lemma same_value_sym (v v' : secval) : same_value v v' -> same_value v' v.
Proof.
  destruct v, v'; simpl; try tauto; try congruence.
  intros (N & N' & E). repeat split; trivial. intros n. now rewrite E.
Qed.

Lemma same_value_trans (u v w : secval) :
  same_value u v -> same_value v w -> same_value u w.
Proof.
  destruct u, v, w; simpl; try tauto; try congruence.
  intros (N & N' & E) (_ & N'' & E'). repeat split; trivial.
  intros n. now rewrite E.
Qed.

Lemma same_conf_sym (c c' : conf_dict) : same_conf c c' -> same_conf c' c.
Proof.
  induction 1 as [|x y c c' [K V] _ IH]; constructor; trivial.
  split; [congruence | now apply same_value_sym].
Qed.

Lemma same_conf_trans (a b c : conf_dict) :
  same_conf a b -> same_conf b c -> same_conf a c.
Proof.
  intros H; revert c. induction H as [|x y a b [K V] _ IH]; intros c H'.
  - inversion H'; subst. constructor.
  - inversion H' as [|? z ? c' [K' V'] T]; subst. constructor.
    + split; [congruence | eapply same_value_trans; eauto].
    + now apply IH.
Qed.

Lemma wf_same_conf (c : conf_dict) : wf c -> same_conf c c.
Proof.
  induction 1 as [|[k v] c W _ IH]; constructor; trivial.
  split; trivial. unfold wf_entry in W. destruct v; simpl in *; tauto.
Qed.

Lemma dict_get_radd (d : list (string * list string)) (rid x n : string) :
  dict_get (radd d rid x) n
  = if String.eqb rid n then Some (canon (get_or_nil d rid ++ [x]))
    else dict_get d n.
Proof. unfold radd. apply dict_get_set. Qed.

Lemma get_or_nil_radd (d : list (string * list string)) (rid x n : string) :
  get_or_nil (radd d rid x) n
  = if String.eqb rid n then canon (get_or_nil d rid ++ [x])
    else get_or_nil d n.
Proof.
  unfold get_or_nil at 1. rewrite dict_get_radd.
  now destruct (String.eqb rid n).
Qed.

Lemma canon_snoc_swap (l : list string) (x y : string) :
  canon (canon (l ++ [x]) ++ [y]) = canon (canon (l ++ [y]) ++ [x]).
Proof.
  apply canon_ext. intros z.
  rewrite !in_app_iff, !In_canon, !in_app_iff. simpl. tauto.
Qed.

(** A call acts alike on two alike values. *)
Lemma same_value_call (a : call) (v v' : secval) :
  same_value v v' -> same_value (call_value a v) (call_value a v').
Proof.
  destruct a as [sec key val|sec rid key val], v as [l|d], v' as [l'|d'];
    simpl; try tauto.
  - congruence.
  - intros (N & N' & E). repeat split; try now apply NoDup_dict_set.
    intros n. rewrite !dict_get_radd. unfold get_or_nil. now rewrite !E.
Qed.

(** Two calls commute. *)
Lemma same_value_swap (a b : call) (v : secval) :
  same_value v v ->
  same_value (call_value a (call_value b v)) (call_value b (call_value a v)).
Proof.
  destruct a as [sa ka va|sa ra ka va], b as [sb kb vb|sb rb kb vb],
    v as [l|d]; simpl; try tauto.
  - intros _. apply canon_snoc_swap.
  - intros (N & _ & _). repeat split; try now apply NoDup_dict_set.
  - intros (N & _ & _). repeat split; try now apply NoDup_dict_set.
  - intros (N & _ & _). repeat split; try now do 2 apply NoDup_dict_set.
    intros n. rewrite !dict_get_radd, !get_or_nil_radd.
    destruct (String.eqb_spec ra rb) as [E|E].
    + subst rb. rewrite String.eqb_refl.
      destruct (String.eqb ra n); trivial. f_equal. apply canon_snoc_swap.
    + assert (String.eqb rb ra = false) as ->
          by (apply String.eqb_neq; congruence).
      destruct (String.eqb_spec ra n), (String.eqb_spec rb n);
        trivial; congruence.
Qed.

Lemma same_entry_step (a : call) (kv kv' : string * secval) :
  same_entry kv kv' -> same_entry (step_entry a kv) (step_entry a kv').
Proof.
  unfold same_entry, step_entry. destruct kv as [k v], kv' as [k' v']. simpl.
  intros [<- V]. destruct (String.eqb k (call_sec a)); simpl; split; trivial.
  now apply same_value_call.
Qed.

Lemma same_entry_swap (a b : call) (kv : string * secval) :
  same_entry kv kv ->
  same_entry (step_entry a (step_entry b kv)) (step_entry b (step_entry a kv)).
Proof.
  unfold same_entry, step_entry. destruct kv as [k v]. simpl. intros [_ V].
  destruct (String.eqb k (call_sec a)) eqn:Ea, (String.eqb k (call_sec b)) eqn:Eb;
    simpl; rewrite ?Ea, ?Eb; simpl; split; trivial.
  - now apply same_value_swap.
  - now apply same_value_call.
  - now apply same_value_call.
Qed.

Lemma same_conf_step (a : call) (c c' : conf_dict) :
  same_conf c c' -> same_conf (step c a) (step c' a).
Proof.
  induction 1; simpl; constructor; trivial. now apply same_entry_step.
Qed.

Lemma same_conf_swap (a b : call) (c : conf_dict) :
  same_conf c c -> same_conf (step (step c b) a) (step (step c a) b).
Proof.
  unfold step. rewrite !map_map. intros H.
  assert (Forall (fun kv => same_entry kv kv) c) as F.
  { clear -H. induction c as [|x c IH]; constructor; inversion H; subst; auto. }
  clear H. induction F; simpl; constructor; trivial.
  now apply same_entry_swap.
Qed.

Lemma same_conf_pure_run (cs : list call) (c c' : conf_dict) :
  same_conf c c' -> same_conf (pure_run cs c) (pure_run cs c').
Proof.
  revert c c'; induction cs as [|a cs IH]; intros c c' H; simpl; trivial.
  now apply IH, same_conf_step.
Qed.

Lemma same_conf_Permutation (cs cs' : list call) :
  Permutation cs cs' ->
  forall c c', same_conf c c' -> same_conf (pure_run cs c) (pure_run cs' c').
Proof.
  induction 1 as [|a cs cs' P IH|a b cs|cs cs' cs'' P IH P' IH'];
    intros c c' H; simpl.
  - trivial.
  - now apply IH, same_conf_step.
  - apply same_conf_pure_run.
    eapply same_conf_trans.
    + apply same_conf_step, same_conf_step. exact H.
    + apply same_conf_swap. eapply same_conf_trans; [apply same_conf_sym|]; eauto.
  - eapply same_conf_trans; [apply IH; exact H|].
    apply IH'. eapply same_conf_trans; [apply same_conf_sym|]; eauto.
Qed.

(** Alike [conf_dict] normalize to the same dict, hence to the same text. *)
Lemma same_conf_norm (c c' : conf_dict) :
  same_conf c c' -> norm_conf c = norm_conf c'.
Proof.
  induction 1 as [|[k v] [k' v'] c c' [K V] _ IH]; simpl; trivial.
  simpl in K. subst k'. rewrite IH. do 2 f_equal.
  destruct v as [l|d], v' as [l'|d']; simpl in V; try tauto; simpl.
  - congruence.
  - destruct V as (N & N' & E). f_equal.
    apply sorted_items_perm.
    + rewrite map_map. simpl. trivial.
    + apply Permutation_map. now apply dict_ext_Permutation.
Qed.

Lemma same_conf_serialize (c c' : conf_dict) :
  same_conf c c' -> serialize c = serialize c'.
Proof. intros H. unfold serialize. now rewrite (same_conf_norm _ _ H). Qed.

Lemma forallb_clashes_Permutation (cs cs' : list call) (c : conf_dict) :
  Permutation cs cs' ->
  forallb (fun a => negb (clashes a c)) cs
  = forallb (fun a => negb (clashes a c)) cs'.
Proof. apply forallb_Permutation. Qed.

(** C1 (as amended).  On any [CfgParser], two sequences of [update_section]
    and [update_route_section] calls that are permutations of one another
    either both raise or both return, and then [get_final_conf] returns the
    same text for both. *)
Theorem get_final_conf_call_order (c0 : conf_dict) (cs1 cs2 : list call)
                                  (c1 : conf_dict) :
  wf c0 -> Permutation cs1 cs2 -> run cs1 c0 = inr c1 ->
  exists c2 s, run cs2 c0 = inr c2
               /\ get_final_conf c1 = inr s /\ get_final_conf c2 = inr s.
Proof.
  intros W P R. apply run_pure in R. destruct R as [V ->].
  exists (pure_run cs2 c0), (serialize (pure_run cs1 c0)). repeat split.
  - apply run_pure. split; trivial.
    now rewrite <- (forallb_clashes_Permutation _ _ _ P).
  - now apply get_final_conf_spec, wf_pure_run.
  - rewrite get_final_conf_spec by now apply wf_pure_run.
    f_equal. symmetry. apply same_conf_serialize.
    apply same_conf_Permutation; trivial. now apply wf_same_conf.
Qed.

(** *** Repeated lines *)

Lemma apply_call_inr (a : call) (c c' : conf_dict) :
  apply_call c a = inr c' -> c' = step c a.
Proof.
  rewrite apply_call_step. destruct (clashes a c); congruence.
Qed.

Lemma call_value_twice (a : call) (v : secval) :
  call_value a (call_value a v) = call_value a v.
Proof.
  destruct a as [sec key val|sec rid key val], v as [l|d]; simpl; trivial.
  - f_equal. apply canon_ext. intros z.
    rewrite !in_app_iff, !In_canon, !in_app_iff. simpl. tauto.
  - f_equal. unfold radd at 1. rewrite get_or_nil_radd, String.eqb_refl.
    unfold radd. rewrite dict_set_set. f_equal.
    apply canon_ext. intros z.
    rewrite !in_app_iff, !In_canon, !in_app_iff. simpl. tauto.
Qed.

Lemma step_twice (a : call) (c : conf_dict) : step (step c a) a = step c a.
Proof.
  unfold step. rewrite map_map. apply map_ext. intros [k v].
  unfold step_entry. simpl.
  destruct (String.eqb k (call_sec a)) eqn:E; simpl; rewrite E; trivial.
  now rewrite call_value_twice.
Qed.

Lemma once_in_canon (l : list string) (x : string) :
  count_occ string_dec (canon (l ++ [x])) x = 1.
Proof.
  apply NoDup_count_occ'.
  - apply strictly_sorted_NoDup, canon_strictly_sorted.
  - apply In_canon, in_app_iff. right. now left.
Qed.

Lemma step_lines_once (c : conf_dict) (sec key val : string)
                      (l : list string) :
  In (sec, SLines l) (step c (Update sec key val)) ->
  count_occ string_dec l (line key val) = 1.
Proof.
  unfold step. rewrite in_map_iff. intros ([k v] & E & _).
  unfold step_entry in E. simpl in E.
  destruct (String.eqb_spec k sec) as [->|N].
  - destruct v; simpl in E; try discriminate.
    injection E as <-. apply once_in_canon.
  - congruence.
Qed.

Lemma step_route_once (c : conf_dict) (sec rid key val : string)
                      (d : list (string * list string)) :
  In (sec, SRoutes d) (step c (UpdateRoute sec rid key val)) ->
  exists l, dict_get d rid = Some l
            /\ count_occ string_dec l (line key val) = 1.
Proof.
  unfold step. rewrite in_map_iff. intros ([k v] & E & _).
  unfold step_entry in E. simpl in E.
  destruct (String.eqb_spec k sec) as [->|N].
  - destruct v; simpl in E; try discriminate.
    injection E as <-. rewrite dict_get_radd, String.eqb_refl.
    eexists; split; trivial. apply once_in_canon.
  - congruence.
Qed.

(** C6.  After any sequence of [update_section] and [update_route_section]
    calls on a fresh [CfgParser], every section's list of lines, and the list
    of every route identifier, is sorted and without duplicates.  Adding the
    same line a second time to a section, or to a route identifier, leaves
    [conf_dict], and so the text of [get_final_conf], as they were, with the
    line held once. *)
Theorem update_keeps_lines_sorted_unique (cs : list call) (c : conf_dict) :
  run cs init = inr c ->
  (forall k l, In (k, SLines l) c -> strictly_sorted l /\ NoDup l)
  /\ (forall k d n l,
        In (k, SRoutes d) c -> In (n, l) d -> strictly_sorted l /\ NoDup l)
  /\ (forall sec key val c1 c2,
        update_section c sec key val = inr c1 ->
        update_section c1 sec key val = inr c2 ->
        c2 = c1 /\ get_final_conf c2 = get_final_conf c1
        /\ forall l, In (sec, SLines l) c1 ->
                     count_occ string_dec l (line key val) = 1)
  /\ (forall sec rid key val c1 c2,
        update_route_section c sec rid key val = inr c1 ->
        update_route_section c1 sec rid key val = inr c2 ->
        c2 = c1 /\ get_final_conf c2 = get_final_conf c1
        /\ forall d, In (sec, SRoutes d) c1 ->
                     exists l, dict_get d rid = Some l
                               /\ count_occ string_dec l (line key val) = 1).
Proof.
  intros R. apply run_pure in R. destruct R as [_ ->].
  pose proof (tidy_pure_run cs init tidy_init) as T.
  unfold tidy in T. rewrite Forall_forall in T.
  repeat split.
  - exact (T _ H).
  - apply strictly_sorted_NoDup. exact (T _ H).
  - specialize (T _ H). unfold tidy_entry in T. simpl in T.
    rewrite Forall_forall in T. exact (T _ H0).
  - specialize (T _ H). unfold tidy_entry in T. simpl in T.
    rewrite Forall_forall in T. apply strictly_sorted_NoDup. exact (T _ H0).
  - apply (apply_call_inr (Update sec key val)) in H, H0. subst.
    apply step_twice.
  - apply (apply_call_inr (Update sec key val)) in H, H0. subst.
    now rewrite step_twice.
  - apply (apply_call_inr (Update sec key val)) in H. subst.
    apply step_lines_once.
  - apply (apply_call_inr (UpdateRoute sec rid key val)) in H, H0. subst.
    apply step_twice.
  - apply (apply_call_inr (UpdateRoute sec rid key val)) in H, H0. subst.
    now rewrite step_twice.
  - apply (apply_call_inr (UpdateRoute sec rid key val)) in H. subst.
    apply step_route_once.
Qed.

(** *** The end of the text *)

(** The last character of [s] is a newline. *)
Fixpoint ends_nl (s : string) : bool :=
  match s with
  | EmptyString => false
  | String c r =>
      match r with
      | EmptyString => Ascii.eqb c "010"%char
      | _ => ends_nl r
      end
  end.

Lemma ends_nl_app (s t : string) : t <> "" -> ends_nl (s ++ t) = ends_nl t.
Proof.
  intros N. induction s as [|c s IH]; simpl; trivial.
  rewrite IH. destruct (s ++ t) eqn:E; trivial.
  destruct s; simpl in E; congruence.
Qed.

(** [s] ends with a line that is not empty and then a blank line. *)
Definition ends_blank (s : string) : Prop :=
  exists b, s = b ++ nl ++ nl /\ b <> "" /\ ends_nl b = false.

Lemma ends_blank_app (s t : string) : ends_blank t -> ends_blank (s ++ t).
Proof.
  intros (b & -> & N & E). exists (s ++ b). repeat split.
  - now rewrite append_assoc.
  - destruct s; simpl; congruence.
  - now rewrite ends_nl_app.
Qed.

(** A line that can end a stanza: not empty, no newline at its end. *)
Definition proper (e : string) : Prop := e <> "" /\ ends_nl e = false.

Lemma lines_text_snoc (l : list string) (e : string) :
  lines_text (l ++ [e]) = lines_text l ++ e ++ nl.
Proof.
  unfold lines_text. rewrite map_app, text_app. simpl.
  now rewrite append_nil_r.
Qed.

Lemma ends_blank_stanza (k : string) (l : list string) :
  Forall proper l -> ends_blank (stanza k l).
Proof.
  intros F. unfold stanza.
  destruct l as [|x l0].
  - exists ("[" ++ k ++ "]"). repeat split.
    + simpl. now rewrite !append_assoc.
    + simpl. discriminate.
    + change ("[" ++ k ++ "]") with ("[" ++ (k ++ "]")).
      rewrite !ends_nl_app; trivial; try discriminate.
      destruct k; discriminate.
  - destruct (@exists_last _ (x :: l0)) as (l' & e & E); [discriminate|].
    rewrite E in *. clear E x l0.
    apply Forall_app in F. destruct F as [_ F].
    inversion F as [|? ? [Ne Ee] _]; subst.
    exists ("[" ++ k ++ "]" ++ nl ++ lines_text l' ++ e). repeat split.
    + rewrite lines_text_snoc. now rewrite !append_assoc.
    + simpl. discriminate.
    + change ("[" ++ k ++ "]" ++ nl ++ lines_text l' ++ e)
        with ("[" ++ (k ++ "]" ++ nl ++ lines_text l' ++ e)).
      rewrite <- !append_assoc. now rewrite ends_nl_app.
Qed.

Lemma ends_blank_address (k : string) (l : list string) :
  l <> [] -> Forall proper l ->
  ends_blank (text (map (fun e => "[" ++ k ++ "]" ++ nl ++ e ++ nl ++ nl) l)).
Proof.
  intros N F. destruct (exists_last N) as (l' & e & ->).
  apply Forall_app in F. destruct F as [_ F].
  inversion F as [|? ? [Ne Ee] _]; subst.
  rewrite map_app, text_app. apply ends_blank_app. simpl.
  rewrite append_nil_r. exists ("[" ++ k ++ "]" ++ nl ++ e). repeat split.
  - now rewrite !append_assoc.
  - simpl. discriminate.
  - change ("[" ++ k ++ "]" ++ nl ++ e) with ("[" ++ (k ++ "]" ++ nl ++ e)).
    rewrite <- !append_assoc. now rewrite ends_nl_app.
Qed.

Lemma text_ends_blank (l : list string) :
  Forall (fun s => s = "" \/ ends_blank s) l ->
  Exists (fun s => s <> "") l -> ends_blank (text l).
Proof.
  induction 1 as [|s l Hs F IH]; intros X; simpl.
  - inversion X.
  - destruct (Exists_dec (fun s => s <> "") l) as [Y|Y].
    + intros t. destruct (string_dec t ""); [right|left]; congruence.
    + now apply ends_blank_app, IH.
    + assert (text l = "") as ->.
      { clear -Y. induction l as [|t l IH]; simpl; trivial.
        destruct (string_dec t "") as [->|N].
        - simpl. apply IH. intros Z. apply Y. now right.
        - destruct Y. now left. }
      rewrite append_nil_r. inversion X; subst; [|contradiction].
      destruct Hs; [contradiction|trivial].
Qed.

Definition value_empty (v : secval) : bool :=
  match v with
  | SLines [] | SRoutes [] => true
  | _ => false
  end.

(** Some section holds a line. *)
Definition has_lines (c : conf_dict) : bool :=
  existsb (fun kv => negb (value_empty (snd kv))) c.

Definition proper_value (v : secval) : Prop :=
  match v with
  | SLines l => Forall proper l
  | SRoutes d => Forall (fun nl => Forall proper (snd nl)) d
  end.

Definition proper_conf (c : conf_dict) : Prop :=
  Forall (fun kv => proper_value (snd kv)) c.

Lemma Forall_sorted (P : string -> Prop) (l : list string) :
  Forall P l -> Forall P (sorted l).
Proof.
  intros F. eapply Permutation_Forall; [symmetry; apply sorted_Permutation|trivial].
Qed.

Lemma Forall_canon (P : string -> Prop) (l : list string) :
  Forall P l -> Forall P (canon l).
Proof.
  rewrite !Forall_forall. intros F x I. apply F.
  exact (proj1 (In_canon _ _) I).
Qed.

Lemma proper_get_or_nil (d : list (string * list string)) (n : string) :
  Forall (fun nl => Forall proper (snd nl)) d -> Forall proper (get_or_nil d n).
Proof.
  intros F. unfold get_or_nil. destruct (dict_get d n) as [l|] eqn:E; trivial.
  apply dict_get_In in E. rewrite Forall_forall in F. exact (F _ E).
Qed.

Lemma item_text_ends (kv : string * secval) :
  proper_value (snd kv) ->
  (item_text kv = "" \/ ends_blank (item_text kv))
  /\ (value_empty (snd kv) = false -> item_text kv <> "").
Proof.
  destruct kv as [k [l|d]]; simpl snd; intros P.
  - unfold item_text; simpl fst; simpl snd.
    destruct l as [|x l]; [split; [now left | discriminate]|].
    assert (ends_blank
              (if String.eqb k "Address"
               then text (map (fun e => "[" ++ k ++ "]" ++ nl ++ e ++ nl ++ nl)
                              (sorted (x :: l)))
               else stanza k (sorted (x :: l)))) as B.
    { destruct (String.eqb k "Address").
      - apply ends_blank_address; [|now apply Forall_sorted].
        intros E. apply (f_equal (@List.length _)) in E.
        rewrite (Permutation_length (sorted_Permutation _)) in E. discriminate.
      - apply ends_blank_stanza. now apply Forall_sorted. }
    split; [now right|]. intros _ E. rewrite E in B.
    destruct B as (b & B & _). destruct b; discriminate.
  - rewrite item_text_routes. destruct d as [|x d]; [split; [now left|discriminate]|].
    assert (ends_blank
              (text (map (fun n => stanza k (sorted (get_or_nil (x :: d) n)))
                         (sorted (map fst (x :: d)))))) as B.
    { apply text_ends_blank.
      - apply Forall_map, Forall_forall. intros n _. right.
        apply ends_blank_stanza, Forall_sorted. now apply proper_get_or_nil.
      - assert (sorted (map fst (x :: d)) <> []) as N.
        { intros E. apply (f_equal (@List.length _)) in E.
          rewrite (Permutation_length (sorted_Permutation _)) in E. discriminate. }
        destruct (sorted (map fst (x :: d))) as [|n r]; [congruence|].
        simpl. left. unfold stanza. simpl. discriminate. }
    split; [now right|]. intros _ E. rewrite E in B.
    destruct B as (b & B & _). destruct b; discriminate.
Qed.

Lemma proper_norm_conf (c : conf_dict) :
  proper_conf c -> proper_conf (norm_conf c).
Proof.
  unfold proper_conf, norm_conf. intros P. apply Forall_map.
  eapply Forall_impl; [|exact P]. intros [k [l|d]]; simpl.
  - apply Forall_sorted.
  - intros F.
    eapply Permutation_Forall; [symmetry; apply sorted_items_Permutation|].
    apply Forall_map. eapply Forall_impl; [|exact F].
    intros [n l]. simpl. apply Forall_sorted.
Qed.

Lemma value_empty_norm (v : secval) :
  value_empty (norm_secval v) = value_empty v.
Proof.
  destruct v as [l|d]; simpl.
  - destruct l as [|x l]; trivial.
    destruct (sorted (x :: l)) eqn:E; trivial.
    apply (f_equal (@List.length _)) in E.
    rewrite (Permutation_length (sorted_Permutation _)) in E. discriminate.
  - destruct d as [|x d]; trivial.
    match goal with |- context [sorted_items ?m] =>
      destruct (sorted_items m) eqn:E; trivial;
      apply (f_equal (@List.length _)) in E;
      rewrite (Permutation_length (sorted_items_Permutation _)) in E
    end. discriminate.
Qed.

Lemma serialize_ends_blank (c : conf_dict) :
  proper_conf c -> has_lines c = true -> ends_blank (serialize c).
Proof.
  intros P H. unfold serialize.
  assert (proper_conf (sorted_items (norm_conf c))) as P'.
  { eapply Permutation_Forall; [symmetry; apply sorted_items_Permutation|].
    now apply proper_norm_conf. }
  apply text_ends_blank.
  - apply Forall_map. eapply Forall_impl; [|exact P'].
    intros kv Q. now apply item_text_ends.
  - apply Exists_exists.
    unfold has_lines in H. apply existsb_exists in H.
    destruct H as ([k v] & I & E). simpl in E. apply negb_true_iff in E.
    exists (item_text (k, norm_secval v)). split.
    + apply in_map.
      eapply Permutation_in; [symmetry; apply sorted_items_Permutation|].
      unfold norm_conf.
      change (k, norm_secval v)
        with ((fun kv => (fst kv, norm_secval (snd kv))) (k, v)).
      now apply in_map.
    + apply item_text_ends; simpl.
      * unfold proper_conf in P'. rewrite Forall_forall in P'.
        apply (P' (k, norm_secval v)).
        eapply Permutation_in; [symmetry; apply sorted_items_Permutation|].
        unfold norm_conf.
        change (k, norm_secval v)
          with ((fun kv => (fst kv, norm_secval (snd kv))) (k, v)).
        now apply in_map.
      * now rewrite value_empty_norm.
Qed.

Lemma proper_line (key val : string) :
  ends_nl val = false -> proper (line key val).
Proof.
  intros E. unfold proper, line. split.
  - destruct key; discriminate.
  - rewrite ends_nl_app by discriminate.
    destruct val; trivial.
Qed.

Lemma proper_step (a : call) (c : conf_dict) :
  ends_nl (call_val a) = false -> proper_conf c -> proper_conf (step c a).
Proof.
  intros E P. unfold proper_conf, step. apply Forall_map.
  eapply Forall_impl; [|exact P]. intros [k v] Q. unfold step_entry. simpl.
  destruct (String.eqb k (call_sec a)); simpl; trivial.
  destruct a as [sec key val|sec rid key val], v as [l|d]; simpl in *; trivial.
  - apply Forall_canon, Forall_app. split; trivial.
    constructor; trivial. now apply proper_line.
  - apply Forall_forall. intros x I. apply In_dict_set in I.
    destruct I as [->|I].
    + simpl. apply Forall_canon, Forall_app. split.
      * now apply proper_get_or_nil.
      * constructor; trivial. now apply proper_line.
    + rewrite Forall_forall in Q. auto.
Qed.

Lemma proper_pure_run (cs : list call) (c : conf_dict) :
  (forall a, In a cs -> ends_nl (call_val a) = false) ->
  proper_conf c -> proper_conf (pure_run cs c).
Proof.
  revert c; induction cs as [|a cs IH]; intros c H P; simpl; trivial.
  apply IH; [intros; apply H; now right|].
  apply proper_step; trivial. apply H. now left.
Qed.

Lemma endswith_blank (b : string) :
  Renderer.endswith (b ++ nl ++ nl) (nl ++ nl) = true.
Proof.
  induction b as [|c b IH]; [reflexivity|].
  change (String c b ++ nl ++ nl) with (String c (b ++ nl ++ nl)).
  cbn [Renderer.endswith]. rewrite IH. now destruct (String.eqb _ _).
Qed.

Lemma drop_last_snoc (s : string) (c : ascii) :
  Renderer.drop_last (s ++ String c "") = s.
Proof.
  induction s as [|a s IH]; trivial.
  simpl. rewrite IH. destruct s; trivial.
Qed.

Lemma endswith_one (s : string) :
  Renderer.endswith (s ++ nl) (nl ++ nl) = ends_nl s.
Proof.
  induction s as [|c s IH]; trivial.
  change (String c s ++ nl) with (String c (s ++ nl)).
  cbn [Renderer.endswith ends_nl]. rewrite IH.
  destruct (String.eqb_spec (String c (s ++ nl)) (nl ++ nl)) as [E|N].
  - injection E as -> E. destruct s as [|a s]; trivial.
    simpl in E. injection E as _ E. destruct s; discriminate.
  - destruct s as [|a s]; trivial. simpl.
    destruct (Ascii.eqb_spec c "010"%char) as [->|]; trivial.
    now destruct N.
Qed.

Lemma proper_init : proper_conf init.
Proof. repeat constructor. Qed.

(** C5 (as amended).  For a [CfgParser] with at least one non-empty section,
    filled with values that do not end in a newline, [get_final_conf] returns
    a text that ends with two newlines: the last line and a blank line.  The
    collapse is the work of [create_network_file], which writes the text
    without its last character, so that what is written ends with exactly one
    newline. *)
Theorem final_conf_ends_with_blank_line (cs : list call) (c : conf_dict) :
  run cs init = inr c ->
  (forall a, In a cs -> ends_nl (call_val a) = false) ->
  has_lines c = true ->
  exists b,
    get_final_conf c = inr (b ++ nl ++ nl)
    /\ ends_nl b = false
    /\ Renderer.endswith (b ++ nl ++ nl) (nl ++ nl) = true
    /\ Renderer.endswith (b ++ nl) (nl ++ nl) = false
    /\ forall link nwk_dir ext,
         Renderer.create_network_file link (b ++ nl ++ nl) nwk_dir ext
         = [ Renderer.WriteFile (nwk_dir ++ "10-cloud-init-" ++ link ++ ext)
                                (b ++ nl);
             Renderer.ChownByName (nwk_dir ++ "10-cloud-init-" ++ link ++ ext)
                                  "systemd-network" "systemd-network" ].
Proof.
  intros R V H. apply run_pure in R. destruct R as [_ ->].
  destruct (serialize_ends_blank (pure_run cs init)) as (b & E & N & B); trivial.
  { apply proper_pure_run; trivial. apply proper_init. }
  exists b. repeat split; trivial.
  - rewrite get_final_conf_spec by (apply wf_pure_run, wf_init). now rewrite E.
  - apply endswith_blank.
  - now rewrite endswith_one.
  - intros link nwk_dir ext. unfold Renderer.create_network_file.
    rewrite endswith_blank. do 2 f_equal.
    rewrite <- append_assoc. apply drop_last_snoc.
Qed.

Definition sample_calls : list call :=
  [ Update "Match" "Name" "eth0";
    UpdateRoute "Route" "r0" "Gateway" "10.0.0.1";
    Update "Network" "DHCP" "no";
    Update "Match" "Name" "eth0";
    UpdateRoute "Route" "a1" "Gateway" "10.0.0.254";
    UpdateRoute "Route" "r0" "Gateway" "10.0.0.1" ].

Definition sample_conf : conf_dict := Eval vm_compute in pure_run sample_calls init.

Lemma final_conf_ends_with_blank_line_witness :
  run sample_calls init = inr sample_conf
  /\ (forall a, In a sample_calls -> ends_nl (call_val a) = false)
  /\ has_lines sample_conf = true
  /\ exists b, get_final_conf sample_conf = inr (b ++ nl ++ nl)
               /\ ends_nl b = false.
Proof.
  assert (forall a, In a sample_calls -> ends_nl (call_val a) = false) as V.
  { intros a I. simpl in I.
    repeat (destruct I as [<-|I]; [reflexivity|]). destruct I. }
  split; [reflexivity|]. split; [exact V|]. split; [reflexivity|].
  destruct (final_conf_ends_with_blank_line sample_calls sample_conf)
    as (b & E & N & _); [reflexivity | exact V | reflexivity |].
  exists b. split; assumption.
Defined.

(** The text returned for one [Name=] line ends with two newlines. *)
Lemma get_final_conf_returns_two_newlines :
  (c <- update_section init "Match" "Name" "eth0" ;; get_final_conf c)
  = inr ("[Match]" ++ nl ++ "Name=eth0" ++ nl ++ nl)
  /\ Renderer.endswith ("[Match]" ++ nl ++ "Name=eth0" ++ nl ++ nl) (nl ++ nl)
     = true.
Proof. split; reflexivity. Qed.

Lemma update_keeps_lines_sorted_unique_witness :
  run sample_calls init = inr sample_conf
  /\ forall k l, In (k, SLines l) sample_conf -> strictly_sorted l /\ NoDup l.
Proof.
  split; [reflexivity|].
  exact (proj1 (update_keeps_lines_sorted_unique sample_calls sample_conf
                  eq_refl)).
Defined.

Lemma get_final_conf_call_order_witness :
  wf init
  /\ Permutation sample_calls (rev sample_calls)
  /\ run sample_calls init = inr sample_conf
  /\ exists c2 s, run (rev sample_calls) init = inr c2
                  /\ get_final_conf sample_conf = inr s
                  /\ get_final_conf c2 = inr s.
Proof.
  assert (wf init) as W.
  { repeat constructor; unfold wf_entry; simpl; discriminate. }
  split; [exact W|]. split; [apply Permutation_rev|]. split; [reflexivity|].
  apply (get_final_conf_call_order init sample_calls (rev sample_calls)
           sample_conf W (Permutation_rev _) eq_refl).
Defined.

End CfgFacts.

(** ** The renderer *)

Module RenderFacts.

Import Py PyFacts CfgParser CfgFacts Renderer.

(** *** Computations that return *)

(** [m] returns, and what it returns satisfies [Q]. *)
Definition returns {A} (m : M A) (Q : A -> Prop) : Prop :=
  exists a, m = inr a /\ Q a.

Lemma returns_ret {A} (a : A) (Q : A -> Prop) : Q a -> returns (ret a) Q.
Proof. intros H. now exists a. Qed.

Lemma returns_bind {A B} (m : M A) (k : A -> M B) (P : A -> Prop)
                   (Q : B -> Prop) :
  returns m P -> (forall a, P a -> returns (k a) Q) -> returns (bind m k) Q.
Proof. intros (a & -> & Ha) K. simpl. auto. Qed.

Lemma returns_weaken {A} (m : M A) (P Q : A -> Prop) :
  returns m P -> (forall a, P a -> Q a) -> returns m Q.
Proof. intros (a & -> & Ha) I. exists a. auto. Qed.

Lemma returns_foldM {A S} (f : S -> A -> M S) (I : S -> Prop) (l : list A)
                    (s : S) :
  I s -> (forall s x, In x l -> I s -> returns (f s x) I) ->
  returns (foldM f l s) I.
Proof.
  revert s; induction l as [|x l IH]; intros s Hs F; simpl.
  - now apply returns_ret.
  - eapply returns_bind.
    + apply F; [now left | exact Hs].
    + intros s' Hs'. apply IH; trivial. intros; apply F; auto. now right.
Qed.

Lemma raises_bind {A B} (m : M A) (k : A -> M B) (P : A -> Prop) (e : exn) :
  returns m P -> (forall a, P a -> k a = inl e) -> bind m k = inl e.
Proof. intros (a & -> & Ha) K. simpl. auto. Qed.

(** *** The [conf_dict] of a [CfgParser] *)

Definition shape (c : conf_dict) : list (string * bool) :=
  map (fun kv => (fst kv, is_routes (snd kv))) c.

(** The sections of [__init__], a dict under ["Route"] with unique keys and
    lists elsewhere. *)
Definition good (c : conf_dict) : Prop :=
  shape c = shape init /\ wf c.

Definition lines_of (c : conf_dict) (sec : string) : list string :=
  match dict_get c sec with
  | Some (SLines l) => l
  | _ => []
  end.

Definition routes_of (c : conf_dict) : list (string * list string) :=
  match dict_get c "Route" with
  | Some (SRoutes d) => d
  | _ => []
  end.

Definition list_section (sec : string) : bool :=
  Py.mem sec ["Match"; "Link"; "Network"; "DHCPv4"; "DHCPv6"; "Address";
              "NetDev"; "VLAN"; "Bond"].

Lemma good_init : good init.
Proof. split; [reflexivity | apply wf_init]. Qed.

Lemma shape_step (c : conf_dict) (a : call) : shape (step c a) = shape c.
Proof.
  unfold shape, step. rewrite map_map. apply map_ext. intros [k v].
  unfold step_entry. simpl. destruct (String.eqb k (call_sec a)); trivial.
  simpl. f_equal. now destruct a, v.
Qed.

Lemma good_step (c : conf_dict) (a : call) : good c -> good (step c a).
Proof.
  intros [S W]. split.
  - now rewrite shape_step.
  - unfold wf, step. apply Forall_map.
    eapply Forall_impl; [|exact W]. intros. now apply wf_step_entry.
Qed.

Lemma kind_at (c : conf_dict) (sec : string) :
  good c -> option_map is_routes (dict_get c sec) = dict_get (shape init) sec.
Proof.
  intros [S _]. rewrite <- S. unfold shape. now rewrite dict_get_map.
Qed.

Lemma good_routes (c : conf_dict) :
  good c -> dict_get c "Route" = Some (SRoutes (routes_of c)).
Proof.
  intros G. pose proof (kind_at c "Route" G) as K. unfold routes_of.
  destruct (dict_get c "Route") as [[l|d]|]; simpl in K; trivial; discriminate.
Qed.

Lemma good_lines (c : conf_dict) (sec : string) :
  good c -> list_section sec = true ->
  dict_get c sec = Some (SLines (lines_of c sec)).
Proof.
  intros G L. pose proof (kind_at c sec G) as K. unfold lines_of.
  unfold list_section, Py.mem in L. simpl in L.
  repeat (apply orb_true_iff in L; destruct L as [L|L];
          [apply String.eqb_eq in L; subst sec;
           destruct (dict_get c _) as [[l|d]|]; simpl in K; trivial; discriminate|]).
  discriminate.
Qed.

Lemma clashes_shape (a : call) (c : conf_dict) :
  clashes a c
  = existsb (fun kb => andb (String.eqb (fst kb) (call_sec a))
                            (negb (Bool.eqb (snd kb) (call_routes a))))
            (shape c).
Proof.
  unfold clashes, shape. induction c as [|[k v] c IH]; simpl; trivial.
  now rewrite IH.
Qed.

Lemma NoDup_routes_of (c : conf_dict) : good c -> NoDup (map fst (routes_of c)).
Proof.
  intros G. pose proof (good_routes c G) as E. apply dict_get_In in E.
  destruct G as [_ W]. unfold wf in W. rewrite Forall_forall in W.
  specialize (W _ E). unfold wf_entry in W. simpl in W. tauto.
Qed.

Lemma dict_get_step (c : conf_dict) (a : call) (s : string) :
  dict_get (step c a) s
  = option_map (fun v => if String.eqb s (call_sec a) then call_value a v else v)
               (dict_get c s).
Proof.
  unfold step. induction c as [|[k v] c IH]; simpl; trivial.
  unfold step_entry at 1. simpl.
  destruct (String.eqb_spec k (call_sec a)) as [->|N]; simpl.
  - destruct (String.eqb_spec (call_sec a) s) as [<-|N']; simpl; trivial.
    now rewrite String.eqb_refl.
  - destruct (String.eqb_spec k s) as [->|N']; simpl; trivial.
    destruct (String.eqb_spec s (call_sec a)); congruence.
Qed.

Lemma clashes_update (c : conf_dict) (sec key val : string) :
  good c -> clashes (Update sec key val) c = String.eqb "Route" sec.
Proof.
  intros [S _]. rewrite clashes_shape, S. unfold shape, init.
  cbn [map existsb fst snd is_routes call_sec call_routes Bool.eqb negb].
  now rewrite ?andb_false_r, ?andb_true_r, ?orb_false_r.
Qed.

Lemma clashes_update_route (c : conf_dict) (rid key val : string) :
  good c -> clashes (UpdateRoute "Route" rid key val) c = false.
Proof.
  intros [S _]. rewrite clashes_shape, S. reflexivity.
Qed.

(** A conf that extends another: the same routes, no line lost. *)
Definition grows (c c' : conf_dict) : Prop :=
  forall s x, In x (lines_of c s) -> In x (lines_of c' s).

Lemma grows_refl (c : conf_dict) : grows c c.
Proof. now intros s x. Qed.

Lemma grows_trans (a b c : conf_dict) : grows a b -> grows b c -> grows a c.
Proof. intros H H' s x I. auto. Qed.

(** [update_section] on any section but ["Route"]. *)
Lemma update_section_other (c : conf_dict) (sec key val : string) :
  good c -> sec <> "Route" ->
  returns (update_section c sec key val)
    (fun c' => good c' /\ routes_of c' = routes_of c /\ grows c c').
Proof.
  intros G N. exists (step c (Update sec key val)). split.
  - change (update_section c sec key val)
      with (apply_call c (Update sec key val)).
    rewrite apply_call_step, clashes_update by trivial.
    now destruct (String.eqb_spec "Route" sec); [congruence|].
  - split; [now apply good_step|]. split.
    + unfold routes_of. rewrite dict_get_step. cbn [call_sec].
      destruct (String.eqb_spec "Route" sec); [congruence|].
      now destruct (dict_get c "Route").
    + intros s x. unfold lines_of. rewrite dict_get_step. cbn [call_sec].
      destruct (dict_get c s) as [[l|d]|]; cbn [option_map];
        destruct (String.eqb s sec); cbn [call_value]; auto.
      intros I. apply In_canon, in_app_iff. now left.
Qed.

(** [update_section] on a section that holds a list. *)
Lemma update_section_good (c : conf_dict) (sec key val : string) :
  good c -> list_section sec = true ->
  returns (update_section c sec key val)
    (fun c' => good c' /\ routes_of c' = routes_of c /\ grows c c'
               /\ lines_of c' sec = canon (lines_of c sec ++ [line key val])).
Proof.
  intros G L. exists (step c (Update sec key val)).
  assert (sec <> "Route") as N by (intros ->; discriminate).
  split.
  - change (update_section c sec key val)
      with (apply_call c (Update sec key val)).
    rewrite apply_call_step, clashes_update by trivial.
    now destruct (String.eqb_spec "Route" sec); [congruence|].
  - split; [now apply good_step|]. repeat split.
    + unfold routes_of. rewrite dict_get_step. cbn [call_sec].
      destruct (String.eqb_spec "Route" sec); [congruence|].
      now destruct (dict_get c "Route").
    + intros s x. unfold lines_of. rewrite dict_get_step. cbn [call_sec].
      destruct (dict_get c s) as [[l|d]|]; cbn [option_map];
        destruct (String.eqb s sec); cbn [call_value]; auto.
      intros I. apply In_canon, in_app_iff. now left.
    + unfold lines_of at 1. rewrite dict_get_step, (good_lines c sec G L).
      simpl. now rewrite String.eqb_refl.
Qed.

(** [update_route_section] on the ["Route"] section. *)
Lemma update_route_section_good (c : conf_dict) (rid key val : string) :
  good c ->
  returns (update_route_section c "Route" rid key val)
    (fun c' => good c' /\ grows c c'
               /\ routes_of c' = radd (routes_of c) rid (line key val)).
Proof.
  intros G. exists (step c (UpdateRoute "Route" rid key val)). split.
  - change (update_route_section c "Route" rid key val)
      with (apply_call c (UpdateRoute "Route" rid key val)).
    now rewrite apply_call_step, clashes_update_route.
  - split; [now apply good_step|]. split.
    + intros s x. unfold lines_of. rewrite dict_get_step. cbn [call_sec].
      destruct (dict_get c s) as [[l|d]|]; cbn [option_map];
        destruct (String.eqb s "Route"); cbn [call_value]; auto.
    + unfold routes_of at 1. rewrite dict_get_step, (good_routes c G).
      reflexivity.
Qed.

(** *** Functions that only add lines *)

Definition keeps (c c' : conf_dict) : Prop :=
  good c' /\ routes_of c' = routes_of c /\ grows c c'.

Lemma keeps_refl (c : conf_dict) : good c -> keeps c c.
Proof. intros G. split; [trivial|]. split; [trivial|]. apply grows_refl. Qed.

Lemma keeps_trans (a b c : conf_dict) : keeps a b -> keeps b c -> keeps a c.
Proof.
  intros (_ & R & H) (G & R' & H'). split; [trivial|]. split; [congruence|].
  eapply grows_trans; eauto.
Qed.

Lemma keeps_good (c c' : conf_dict) : keeps c c' -> good c'.
Proof. now intros [G _]. Qed.

Lemma keeps_bind {B} (proj : B -> conf_dict) (m : M conf_dict)
                 (k : conf_dict -> M B) (c : conf_dict) :
  returns m (keeps c) ->
  (forall c', good c' -> returns (k c') (fun b => keeps c' (proj b))) ->
  returns (bind m k) (fun b => keeps c (proj b)).
Proof.
  intros Hm Hk. eapply returns_bind; [exact Hm|].
  intros c' K. eapply returns_weaken; [apply Hk; exact (keeps_good _ _ K)|].
  intros b Kb. eapply keeps_trans; eauto.
Qed.

Lemma keeps_ret (c : conf_dict) : good c -> returns (ret c) (keeps c).
Proof. intros G. apply returns_ret. now apply keeps_refl. Qed.

Lemma update_section_keeps (c : conf_dict) (sec key val : string) :
  good c -> sec <> "Route" -> returns (update_section c sec key val) (keeps c).
Proof. intros G N. now apply update_section_other. Qed.

Lemma update_if_keeps {A} (o : option A) (c : conf_dict)
                      (f : A -> conf_dict -> M conf_dict) :
  (forall a c, good c -> returns (f a c) (keeps c)) ->
  good c -> returns (update_if o c f) (keeps c).
Proof.
  intros F G. destruct o; simpl; [now apply F | now apply keeps_ret].
Qed.

Lemma foldM_keeps {A} (f : conf_dict -> A -> M conf_dict) (l : list A)
                  (c : conf_dict) :
  (forall c x, good c -> returns (f c x) (keeps c)) ->
  good c -> returns (foldM f l c) (keeps c).
Proof.
  intros F; revert c. induction l as [|x l IH]; intros c G; simpl.
  - now apply keeps_ret.
  - apply (keeps_bind (fun c => c)); auto.
Qed.

(** Closes a goal [returns m (keeps c)] for a chain of [update_section]
    calls on sections written out in the text. *)
Ltac keeps_step :=
  match goal with
  | |- returns (ret _) _ => apply keeps_ret; assumption
  | |- returns (update_section _ _ _ _) _ =>
      apply update_section_keeps; [assumption | discriminate]
  | |- returns (bind _ _) _ =>
      apply (keeps_bind (fun c => c)); [|intros ? ?]
  | |- returns (update_if _ _ _) _ =>
      apply update_if_keeps; [intros ? ? ?|assumption]
  | |- returns (match ?o with Some _ => _ | None => _ end) _ =>
      destruct o
  | |- returns (if ?b then _ else _) _ => destruct b
  end.

Ltac keeps_tac := repeat keeps_step.

(** *** Functions that add routes *)

(** The lines that one source of routes adds under its identifier. *)
Definition group : Type := (string * list string)%type.

Definition add_group (d : list (string * list string)) (g : group)
  : list (string * list string) :=
  fold_left (fun d x => radd d (fst g) x) (snd g) d.

Definition add_groups (gs : list group) (d : list (string * list string))
  : list (string * list string) :=
  fold_left add_group gs d.

(** [c'] is [c] with the groups [gs] added to its routes, and maybe more
    lines in its other sections. *)
Definition routed (c c' : conf_dict) (gs : list group) : Prop :=
  good c' /\ grows c c' /\ routes_of c' = add_groups gs (routes_of c).

Lemma keeps_routed (c c' : conf_dict) : keeps c c' <-> routed c c' [].
Proof. unfold keeps, routed, add_groups. simpl. tauto. Qed.

Lemma routed_trans (a b c : conf_dict) (gs gs' : list group) :
  routed a b gs -> routed b c gs' -> routed a c (gs ++ gs').
Proof.
  intros (_ & H & R) (G & H' & R'). split; [trivial|]. split.
  - eapply grows_trans; eauto.
  - unfold add_groups in *. now rewrite fold_left_app, <- R.
Qed.

Lemma routed_good (c c' : conf_dict) (gs : list group) :
  routed c c' gs -> good c'.
Proof. now intros [G _]. Qed.

Lemma routed_bind {B} (proj : B -> conf_dict) (m : M conf_dict)
                  (k : conf_dict -> M B) (c : conf_dict) (gs gs' : list group) :
  returns m (fun c' => routed c c' gs) ->
  (forall c', good c' -> returns (k c') (fun b => routed c' (proj b) gs')) ->
  returns (bind m k) (fun b => routed c (proj b) (gs ++ gs')).
Proof.
  intros Hm Hk. eapply returns_bind; [exact Hm|].
  intros c' K. eapply returns_weaken; [apply Hk; exact (routed_good _ _ _ K)|].
  intros b Kb. exact (routed_trans _ _ _ _ _ K Kb).
Qed.

Lemma update_route_section_routed (c : conf_dict) (rid key val : string) :
  good c ->
  returns (update_route_section c "Route" rid key val)
          (fun c' => routed c c' [(rid, [line key val])]).
Proof.
  intros G. eapply returns_weaken; [now apply update_route_section_good|].
  intros c' (G' & H & R). split; [trivial|]. split; [trivial|]. exact R.
Qed.

Lemma routed_ret (c : conf_dict) :
  good c -> returns (ret c) (fun c' => routed c c' []).
Proof. intros G. apply returns_ret, keeps_routed. now apply keeps_refl. Qed.

(** The lines of one route, as [parse_routes] writes them. *)
Definition route_lines (conf : route) : list string :=
  let prefix := match route_prefix conf with
                | Some p => "/" ++ Py.str_of_Z p
                | None => ""
                end in
  (match route_gateway conf with
   | Some v => [line "Gateway" v]
   | None => []
   end
   ++ match route_network conf with
      | Some v => [line "Destination" (v ++ prefix)]
      | None => []
      end
   ++ match route_metric conf with
      | Some v => [line "Metric" (Py.str_of_Z v)]
      | None => []
      end)%list.

(** The routes of a list, numbered from [rid] on under the prefix [tag]. *)
Fixpoint index_routes (tag : string) (rid : Z) (routes : list route)
  : list group :=
  match routes with
  | [] => []
  | r :: rest =>
      (tag ++ Py.str_of_Z rid, route_lines r) :: index_routes tag (rid + 1) rest
  end.

(** *** Route identifiers *)

Lemma str_of_Z_inj (m n : Z) : Py.str_of_Z m = Py.str_of_Z n -> m = n.
Proof.
  unfold Py.str_of_Z. intros E. apply DecimalZ.to_int_inj.
  assert (forall z, NilZero.int_of_string (NilZero.string_of_int (Z.to_int z))
                    = Some (Z.to_int z)) as I.
  { intros z. apply NilZero.isi; destruct z; simpl; try discriminate;
      intros [= E']; now apply DecimalPos.Unsigned.to_uint_nonnil in E'. }
  pose proof (I m) as Im. rewrite E, I in Im. congruence.
Qed.

(** Identifiers made of one letter each and of consecutive numbers. *)
Fixpoint numbered (rid : Z) (tags : list ascii) : list string :=
  match tags with
  | [] => []
  | t :: ts => String t (Py.str_of_Z rid) :: numbered (rid + 1) ts
  end.

Lemma In_numbered (rid : Z) (tags : list ascii) (x : string) :
  In x (numbered rid tags) ->
  exists t m, In t tags /\ (rid <= m)%Z /\ x = String t (Py.str_of_Z m).
Proof.
  revert rid; induction tags as [|t ts IH]; intros rid; simpl; [tauto|].
  intros [<-|I].
  - exists t, rid. repeat split; auto. lia.
  - destruct (IH _ I) as (t' & m & It & L & ->).
    exists t', m. repeat split; auto. lia.
Qed.

Lemma NoDup_numbered (rid : Z) (tags : list ascii) : NoDup (numbered rid tags).
Proof.
  revert rid; induction tags as [|t ts IH]; intros rid; simpl; constructor; auto.
  intros I. apply In_numbered in I. destruct I as (t' & m & _ & L & E).
  injection E as _ E. apply str_of_Z_inj in E. lia.
Qed.

Lemma numbered_app (rid : Z) (ts ts' : list ascii) :
  numbered rid (ts ++ ts')
  = (numbered rid ts ++ numbered (rid + Z.of_nat (List.length ts)) ts')%list.
Proof.
  revert rid; induction ts as [|t ts IH]; intros rid; simpl.
  - now rewrite Z.add_0_r.
  - rewrite IH. do 3 f_equal. lia.
Qed.

Lemma length_numbered (rid : Z) (ts : list ascii) :
  List.length (numbered rid ts) = List.length ts.
Proof. revert rid; induction ts; intros; simpl; auto. Qed.

(** *** Groups under fresh identifiers *)

Definition nonempty_group (g : group) : bool :=
  match snd g with [] => false | _ => true end.

Definition canon_group (g : group) : string * list string :=
  (fst g, canon (snd g)).

Lemma dict_set_fresh {V} (d : list (string * V)) (k : string) (v : V) :
  dict_get d k = None -> dict_set d k v = (d ++ [(k, v)])%list.
Proof.
  induction d as [|[j w] d IH]; simpl; trivial.
  destruct (String.eqb j k); [discriminate|]. intros E. now rewrite IH.
Qed.

Lemma dict_set_last {V} (d : list (string * V)) (k : string) (v w : V) :
  dict_get d k = None ->
  dict_set (d ++ [(k, v)]) k w = (d ++ [(k, w)])%list.
Proof.
  intros E. rewrite <- (dict_set_fresh d k v E), dict_set_set.
  now apply dict_set_fresh.
Qed.

Lemma dict_get_last {V} (d : list (string * V)) (k k' : string) (v : V) :
  dict_get (d ++ [(k, v)]) k'
  = match dict_get d k' with
    | Some w => Some w
    | None => if String.eqb k k' then Some v else None
    end.
Proof.
  induction d as [|[j w] d IH]; simpl; trivial.
  now destruct (String.eqb j k').
Qed.

Lemma fold_radd_last (d : list (string * list string)) (id : string)
                     (ls L : list string) :
  dict_get d id = None ->
  fold_left (fun d x => radd d id x) ls (d ++ [(id, L)])%list
  = (d ++ [(id, fold_left (fun L x => canon (L ++ [x])) ls L)])%list.
Proof.
  intros E. revert L; induction ls as [|x ls IH]; intros L; simpl; trivial.
  rewrite <- IH. f_equal. unfold radd, get_or_nil.
  rewrite dict_get_last, E, String.eqb_refl. now apply dict_set_last.
Qed.

Lemma fold_canon_snoc (ls pre : list string) :
  fold_left (fun L x => canon (L ++ [x])) ls (canon pre) = canon (pre ++ ls).
Proof.
  revert pre; induction ls as [|x ls IH]; intros pre; simpl.
  - now rewrite app_nil_r.
  - assert (canon (canon pre ++ [x]) = canon (pre ++ [x])) as ->.
    { apply canon_ext. intros z.
      rewrite !in_app_iff, In_canon. tauto. }
    rewrite IH. now rewrite <- app_assoc.
Qed.

Lemma add_group_fresh (d : list (string * list string)) (g : group) :
  dict_get d (fst g) = None ->
  add_group d g
  = (d ++ if nonempty_group g then [canon_group g] else [])%list.
Proof.
  destruct g as [id [|x ls]]; unfold add_group, nonempty_group, canon_group;
    simpl; intros E.
  - now rewrite app_nil_r.
  - unfold radd at 2. unfold get_or_nil. rewrite E. simpl.
    rewrite dict_set_fresh by trivial.
    rewrite fold_radd_last by trivial.
    now rewrite (fold_canon_snoc ls [x]).
Qed.

Lemma add_groups_fresh (gs : list group) (d : list (string * list string)) :
  NoDup (map fst gs) ->
  (forall g, In g gs -> dict_get d (fst g) = None) ->
  add_groups gs d = (d ++ map canon_group (filter nonempty_group gs))%list.
Proof.
  unfold add_groups. revert d; induction gs as [|g gs IH]; intros d N F; simpl.
  - now rewrite app_nil_r.
  - inversion N as [|? ? Ng Ngs]; subst.
    rewrite add_group_fresh by (apply F; now left).
    rewrite IH; trivial.
    + destruct (nonempty_group g); simpl.
      * now rewrite <- app_assoc.
      * now rewrite app_nil_r.
    + intros g' I. destruct (nonempty_group g).
      * unfold canon_group. rewrite dict_get_last, (F g') by now right.
        destruct (String.eqb_spec (fst g) (fst g')) as [E|]; trivial.
        destruct Ng. rewrite E. now apply in_map.
      * rewrite app_nil_r. apply F. now right.
Qed.

(** *** The text of a [CfgParser] of the renderer *)

Lemma good_explicit (c : conf_dict) :
  good c ->
  c = [ ("Match", SLines (lines_of c "Match"));
        ("Link", SLines (lines_of c "Link"));
        ("Network", SLines (lines_of c "Network"));
        ("DHCPv4", SLines (lines_of c "DHCPv4"));
        ("DHCPv6", SLines (lines_of c "DHCPv6"));
        ("Address", SLines (lines_of c "Address"));
        ("Route", SRoutes (routes_of c));
        ("NetDev", SLines (lines_of c "NetDev"));
        ("VLAN", SLines (lines_of c "VLAN"));
        ("Bond", SLines (lines_of c "Bond")) ].
Proof.
  intros [S _]. unfold shape in S.
  do 10 (let k := fresh "k" in
         let v := fresh "v" in
         destruct c as [|[k v] c]; [discriminate|];
         simpl in S; injection S as -> ? S; destruct v; try discriminate).
  destruct c; [reflexivity | discriminate].
Qed.

(** The text of the section [k] of [c], a section that holds a list. *)
Definition section_text (c : conf_dict) (k : string) : string :=
  item_text (k, norm_secval (SLines (lines_of c k))).

(** The [[Route]] stanzas of [c], in the order of [get_final_conf]. *)
Definition route_stanzas (c : conf_dict) : list string :=
  map (fun nl => stanza "Route" (snd nl))
      (sorted_items (map (fun nl => (fst nl, sorted (snd nl))) (routes_of c))).

Lemma text_lookup (k : string) (d : list (string * list string)) :
  NoDup (map fst d) ->
  map (fun n => stanza k (sorted (get_or_nil d n))) (map fst d)
  = map (fun nl => stanza k (sorted (snd nl))) d.
Proof.
  intros N. rewrite map_map. apply map_ext_in. intros [n l] I. simpl.
  unfold get_or_nil. now rewrite (In_dict_get d n l N I).
Qed.

Lemma item_text_route_stanzas (c : conf_dict) :
  good c ->
  item_text ("Route", norm_secval (SRoutes (routes_of c)))
  = text (route_stanzas c).
Proof.
  intros G. simpl norm_secval. rewrite item_text_routes. unfold route_stanzas.
  set (d := sorted_items (map (fun nl => (fst nl, sorted (snd nl))) (routes_of c))).
  assert (strictly_sorted (map fst d)) as S.
  { unfold d. rewrite map_fst_sorted_items. apply sorted_strictly_sorted.
    rewrite map_map. simpl. now apply NoDup_routes_of. }
  rewrite (sorted_id (map fst d)) by now apply strictly_weakly.
  rewrite text_lookup by now apply strictly_sorted_NoDup.
  f_equal. apply map_ext_in. intros [n l] I. simpl. f_equal.
  apply sorted_id. unfold d in I.
  apply (Permutation_in _ (sorted_items_Permutation _)) in I.
  apply in_map_iff in I. destruct I as ([n' l'] & [= <- <-] & _).
  apply sorted_weakly_sorted.
Qed.

(** [get_final_conf] on a [CfgParser] of the renderer: the sections in the
    order of their names, the [[Route]] stanzas between [[Network]] and
    [[VLAN]]. *)
Lemma serialize_good (c : conf_dict) :
  good c ->
  serialize c
  = text (map (section_text c)
              ["Address"; "Bond"; "DHCPv4"; "DHCPv6"; "Link"; "Match";
               "NetDev"; "Network"])
    ++ text (route_stanzas c) ++ section_text c "VLAN".
Proof.
  intros G. rewrite <- (item_text_route_stanzas c G).
  unfold serialize. rewrite (good_explicit c G) at 1.
  unfold norm_conf, section_text.
  cbn [map fst snd sorted_items insert_item String.ltb String.compare
       Ascii.compare N_of_ascii N_of_digits N.compare Pos.compare
       Pos.compare_cont N.add N.mul Pos.add Pos.mul Pos.succ text].
  rewrite !append_assoc. cbn [String.append]. now rewrite ?append_nil_r.
Qed.

Section WithImports.

Context `{Imports}.

Lemma generate_match_section_keeps (i : iface) (c : conf_dict) :
  good c ->
  returns (generate_match_section i c)
          (fun r => keeps c (fst r) /\ snd r = iface_name i).
Proof.
  intros G. unfold generate_match_section.
  eapply returns_bind with (P := keeps c); [keeps_tac|].
  intros c1 K1. eapply returns_bind with (P := keeps c).
  { eapply returns_weaken with (P := keeps c1);
      [pose proof (keeps_good _ _ K1); keeps_tac|].
    intros; eapply keeps_trans; eauto. }
  intros c2 K2. eapply returns_bind with (P := keeps c).
  { eapply returns_weaken with (P := keeps c2);
      [pose proof (keeps_good _ _ K2); keeps_tac|].
    intros; eapply keeps_trans; eauto. }
  intros c3 K3. apply returns_ret. auto.
Qed.

Lemma generate_link_section_keeps (i : iface) (c : conf_dict) :
  good c -> returns (generate_link_section i c) (keeps c).
Proof.
  intros G. unfold generate_link_section.
  destruct (iface_optional i) as [[|]|]; keeps_tac.
Qed.

Lemma dhcp_domain_keeps (d : device) (c : conf_dict) :
  good c -> returns (dhcp_domain d c) (keeps c).
Proof.
  intros G. unfold dhcp_domain, dhcp_domain_item. keeps_tac.
Qed.

Lemma emit_dns_keeps (dns : list (string * list string)) (c : conf_dict) :
  good c -> returns (emit_dns dns c) (keeps c).
Proof.
  intros G. unfold emit_dns. keeps_tac.
Qed.

Lemma parse_dhcp_overrides_keeps (c : conf_dict) (d : device)
                                 (dhcp version : string) :
  good c -> returns (parse_dhcp_overrides c d dhcp version) (keeps c).
Proof.
  intros G. unfold parse_dhcp_overrides. keeps_tac.
  apply foldM_keeps; trivial.
  intros c' [k v] G'. keeps_tac.
Qed.

Lemma parse_routes_spec (rid : string) (conf : route) (c : conf_dict) :
  good c ->
  returns (parse_routes rid conf c)
          (fun c' => routed c c' [(rid, route_lines conf)]).
Proof.
  intros G. unfold parse_routes, route_lines.
  set (prefix := match route_prefix conf with
                 | Some p => "/" ++ Py.str_of_Z p
                 | None => ""
                 end).
  assert (forall A (o : option A) (key : string) (f : A -> string) c,
            good c ->
            returns (match o with
                     | Some v => update_route_section c "Route" rid key (f v)
                     | None => ret c
                     end)
                    (fun c' => routed c c'
                                 [(rid, match o with
                                        | Some v => [line key (f v)]
                                        | None => []
                                        end)])) as S.
  { intros A o key f c0 G0. destruct o.
    - now apply update_route_section_routed.
    - eapply returns_weaken; [now apply routed_ret|].
      intros c' (G' & H' & R'). split; [trivial|]. split; [trivial|]. exact R'. }
  eapply returns_weaken.
  - eapply (routed_bind (fun c => c)).
    + exact (S _ (route_gateway conf) "Gateway" (fun v => v) c G).
    + intros c1 G1. eapply (routed_bind (fun c => c)).
      * exact (S _ (route_network conf) "Destination" (fun v => v ++ prefix)
                 c1 G1).
      * intros c2 G2.
        exact (S _ (route_metric conf) "Metric" Py.str_of_Z c2 G2).
  - intros c' (G' & H' & R'). split; [trivial|]. split; [trivial|].
    rewrite R'. unfold add_groups, add_group. simpl.
    now rewrite !fold_left_app.
Qed.

(** [parse_subnets]: what its loop holds after a list of subnets. *)
Definition subnet_addr (e : subnet) (a : string) : string :=
  match subnet_prefix e with
  | Some p => a ++ "/" ++ Py.str_of_Z p
  | None => a
  end.

Definition gateway_lines (gw addr : string) : list string :=
  line "Gateway" gw
  :: (if should_add_gateway_onlink_flag gw addr
      then [line "GatewayOnLink" "yes"] else []).

Definition subnet_routes_list (e : subnet) : list route :=
  match subnet_routes e with Some l => l | None => [] end.

Definition subnet_gateway_group (rid : Z) (e : subnet) : list group :=
  match subnet_address e, subnet_gateway e with
  | Some a, Some gw =>
      [("a" ++ Py.str_of_Z rid, gateway_lines gw (subnet_addr e a))]
  | _, _ => []
  end.

Definition subnet_groups (rid : Z) (e : subnet) : list group :=
  (index_routes "r" rid (subnet_routes_list e)
   ++ subnet_gateway_group (rid + Z.of_nat (List.length (subnet_routes_list e))) e)%list.

Definition subnet_next (rid : Z) (e : subnet) : Z :=
  rid + Z.of_nat (List.length (subnet_groups rid e)).

Fixpoint subnets_groups (rid : Z) (subnets : list subnet) : list group :=
  match subnets with
  | [] => []
  | e :: rest => (subnet_groups rid e ++ subnets_groups (subnet_next rid e) rest)%list
  end.

Definition dhcp_mode (subnets : list subnet) : string :=
  fold_left dhcp_step (map subnet_type subnets) "no".

(** [st'] is [st] after the groups [gs]. *)
Definition st_routed (st st' : subnets_state) (gs : list group) : Prop :=
  routed (st_cfg st) (st_cfg st') gs
  /\ st_rid st' = (st_rid st + Z.of_nat (List.length gs))%Z.

Lemma length_index_routes (tag : string) (rid : Z) (routes : list route) :
  List.length (index_routes tag rid routes) = List.length routes.
Proof. revert rid; induction routes; intros; simpl; auto. Qed.

Lemma parse_subnet_routes_spec (routes : list route) (st : subnets_state) :
  good (st_cfg st) ->
  returns (parse_subnet_routes routes st)
          (fun st' => st_routed st st' (index_routes "r" (st_rid st) routes)
                      /\ st_dhcp st' = st_dhcp st).
Proof.
  unfold parse_subnet_routes.
  revert st; induction routes as [|r routes IH]; intros st G; simpl.
  - apply returns_ret. split; [split|]; trivial.
    + apply keeps_routed. now apply keeps_refl.
    + simpl. lia.
  - eapply returns_bind.
    + eapply returns_bind; [now apply parse_routes_spec|].
      intros c' R. apply returns_ret.
      instantiate (1 := fun st' =>
        routed (st_cfg st) (st_cfg st')
               [("r" ++ Py.str_of_Z (st_rid st), route_lines r)]
        /\ st_rid st' = (st_rid st + 1)%Z /\ st_dhcp st' = st_dhcp st).
      simpl. auto.
    + intros st1 (R1 & E1 & D1).
      eapply returns_weaken; [apply IH; exact (routed_good _ _ _ R1)|].
      intros st2 ([R2 E2] & D2). rewrite E1 in *. split; [split|].
      * exact (routed_trans _ _ _ _ _ R1 R2).
      * rewrite E2. simpl. lia.
      * congruence.
Qed.

Lemma parse_subnet_address_spec (e : subnet) (st : subnets_state) :
  good (st_cfg st) ->
  returns (parse_subnet_address e st)
          (fun st' => st_routed st st' (subnet_gateway_group (st_rid st) e)
                      /\ st_dhcp st' = st_dhcp st).
Proof.
  intros G. unfold parse_subnet_address, subnet_gateway_group.
  destruct (subnet_address e) as [a|].
  2:{ apply returns_ret. split; [split|]; trivial.
      - apply keeps_routed. now apply keeps_refl.
      - simpl. lia. }
  fold (subnet_addr e a).
  eapply returns_bind.
  { apply update_section_keeps; [exact G | discriminate]. }
  intros c1 K1. pose proof (keeps_good _ _ K1) as G1.
  apply keeps_routed in K1.
  eapply returns_bind with
    (P := fun st1 => st_routed st st1
                       match subnet_gateway e with
                       | Some gw => [("a" ++ Py.str_of_Z (st_rid st),
                                      gateway_lines gw (subnet_addr e a))]
                       | None => []
                       end
                     /\ st_dhcp st1 = st_dhcp st).
  - destruct (subnet_gateway e) as [gw|].
    + eapply returns_bind; [now apply update_route_section_routed|].
      intros c2 R2. pose proof (routed_good _ _ _ R2) as G2.
      eapply returns_bind with
        (P := fun c3 => routed c2 c3
                (if should_add_gateway_onlink_flag gw (subnet_addr e a)
                 then [("a" ++ Py.str_of_Z (st_rid st),
                        [line "GatewayOnLink" "yes"])]
                 else [])).
      * destruct (should_add_gateway_onlink_flag gw (subnet_addr e a)).
        -- now apply update_route_section_routed.
        -- now apply routed_ret.
      * intros c3 R3. apply returns_ret. unfold st_routed; simpl st_cfg; simpl st_rid; simpl st_dhcp.
        split; [split|]; trivial.
        pose proof (routed_trans _ _ _ _ _ K1 (routed_trans _ _ _ _ _ R2 R3))
          as (G' & H' & R').
        split; [trivial|]. split; [trivial|]. rewrite R'.
        unfold gateway_lines.
        now destruct (should_add_gateway_onlink_flag gw (subnet_addr e a)).
    + apply returns_ret. unfold st_routed; simpl st_cfg; simpl st_rid; simpl st_dhcp.
      split; [split|]; trivial. simpl. lia.
  - intros st1 ([R1 E1] & D1). pose proof (routed_good _ _ _ R1) as G1'.
    eapply returns_bind with (P := keeps (st_cfg st1)).
    { keeps_tac. }
    intros c2 K2. pose proof (keeps_good _ _ K2) as G2.
    eapply returns_bind with (P := keeps (st_cfg st1)).
    { eapply returns_weaken with (P := keeps c2); [keeps_tac|].
      intros; eapply keeps_trans; eauto. }
    intros c3 K3. apply returns_ret. unfold st_routed; simpl st_cfg; simpl st_rid; simpl st_dhcp.
    split; [split|]; trivial.
    apply keeps_routed in K3.
    pose proof (routed_trans _ _ _ _ _ R1 K3) as R.
    now rewrite app_nil_r in R.
Qed.

Lemma parse_subnet_spec (st : subnets_state) (e : subnet) :
  good (st_cfg st) ->
  returns (parse_subnet st e)
          (fun st' => st_routed st st' (subnet_groups (st_rid st) e)
                      /\ st_dhcp st' = dhcp_step (st_dhcp st) (subnet_type e)).
Proof.
  intros G. unfold parse_subnet, subnet_groups, subnet_routes_list.
  set (st0 := mk_st (st_cfg st) (dhcp_step (st_dhcp st) (subnet_type e))
                    (st_rid st)).
  eapply returns_bind with
    (P := fun st1 =>
            st_routed st0 st1
              (index_routes "r" (st_rid st)
                 match subnet_routes e with Some l => l | None => [] end)
            /\ st_dhcp st1 = st_dhcp st0).
  - destruct (subnet_routes e) as [[|r l]|]; simpl nonnil.
    + apply returns_ret. split; [split|]; trivial.
      * apply keeps_routed. now apply keeps_refl.
      * simpl. lia.
    + now apply (parse_subnet_routes_spec (r :: l) st0).
    + apply returns_ret. split; [split|]; trivial.
      * apply keeps_routed. now apply keeps_refl.
      * simpl. lia.
  - intros st1 ([R1 E1] & D1).
    eapply returns_weaken;
      [apply parse_subnet_address_spec; exact (routed_good _ _ _ R1)|].
    intros st2 ([R2 E2] & D2).
    rewrite length_index_routes in E1. simpl st_rid in E1.
    rewrite E1 in R2, E2. split; [split|].
    + exact (routed_trans _ _ _ _ _ R1 R2).
    + rewrite E2, length_app, length_index_routes, Nat2Z.inj_add. lia.
    + rewrite D2, D1. reflexivity.
Qed.

Lemma foldM_parse_subnet_spec (subnets : list subnet) (st : subnets_state) :
  good (st_cfg st) ->
  returns (foldM parse_subnet subnets st)
          (fun st' => st_routed st st' (subnets_groups (st_rid st) subnets)
                      /\ st_dhcp st'
                         = fold_left dhcp_step (map subnet_type subnets)
                                     (st_dhcp st)).
Proof.
  revert st; induction subnets as [|e l IH]; intros st G; simpl.
  - apply returns_ret. split; [split|]; trivial.
    + apply keeps_routed. now apply keeps_refl.
    + simpl. lia.
  - eapply returns_bind; [now apply parse_subnet_spec|].
    intros st1 ([R1 E1] & D1).
    eapply returns_weaken; [apply IH; exact (routed_good _ _ _ R1)|].
    intros st2 ([R2 E2] & D2). split; [split|].
    + unfold subnet_next. rewrite <- E1. exact (routed_trans _ _ _ _ _ R1 R2).
    + rewrite E2, E1, length_app. unfold subnet_next. rewrite <- E1.
      rewrite Nat2Z.inj_add. lia.
    + now rewrite D2, D1.
Qed.

Definition iface_subnets_list (i : iface) : list subnet :=
  match iface_subnets i with Some l => l | None => [] end.

(** [parse_subnets] returns on every interface; it hands back the accumulated
    DHCP mode, writes it into the Network section and adds the groups of
    the subnets to the routes. *)
Lemma parse_subnets_spec (i : iface) (c : conf_dict) :
  good c ->
  returns (parse_subnets i c)
          (fun r =>
             routed c (fst r) (subnets_groups 0 (iface_subnets_list i))
             /\ snd r = dhcp_mode (iface_subnets_list i)
             /\ In (line "DHCP" (snd r)) (lines_of (fst r) "Network")).
Proof.
  intros G. unfold parse_subnets. fold (iface_subnets_list i).
  eapply returns_bind;
    [apply (foldM_parse_subnet_spec (iface_subnets_list i) (mk_st c "no" 0)); exact G|].
  simpl st_rid. simpl st_dhcp. simpl st_cfg.
  intros st ([R E] & D). pose proof (routed_good _ _ _ R) as G1.
  eapply returns_bind;
    [apply (update_section_good (st_cfg st) "Network" "DHCP" (st_dhcp st) G1);
     reflexivity|].
  intros c1 (G2 & R2 & H2 & L2).
  assert (In (line "DHCP" (st_dhcp st)) (lines_of c1 "Network")) as I.
  { rewrite L2. apply In_canon, in_app_iff. right. now left. }
  eapply returns_bind with (P := keeps c1).
  { keeps_tac. }
  intros c2 (G3 & R3 & H3). apply returns_ret. simpl fst; simpl snd.
  split; [|split].
  - destruct R as (_ & HR & RR). split; [trivial|]. split.
    + eapply grows_trans; [exact HR|]. eapply grows_trans; eauto.
    + rewrite R3, R2. exact RR.
  - exact D.
  - now apply H3.
Qed.

Lemma parse_global_routes_spec (routes : list route) (c : conf_dict) :
  good c ->
  returns (parse_global_routes routes c)
          (fun c' => routed c c' (index_routes "c" 0 routes)).
Proof.
  intros G. unfold parse_global_routes.
  assert (forall (st : conf_dict * Z), good (fst st) ->
            returns
              (foldM (fun (st : conf_dict * Z) route =>
                        cfg <- parse_routes ("c" ++ Py.str_of_Z (snd st)) route
                                 (fst st) ;;
                        ret (cfg, (snd st + 1)%Z)) routes st)
              (fun st' => routed (fst st) (fst st')
                                 (index_routes "c" (snd st) routes))) as F.
  { induction routes as [|r routes IH]; intros st Gs; simpl.
    - apply returns_ret. apply keeps_routed. now apply keeps_refl.
    - eapply returns_bind.
      + eapply returns_bind; [now apply parse_routes_spec|].
        intros c' R. apply returns_ret.
        instantiate (1 := fun st' =>
          routed (fst st) (fst st')
                 [("c" ++ Py.str_of_Z (snd st), route_lines r)]
          /\ snd st' = (snd st + 1)%Z).
        simpl. auto.
      + intros st1 (R1 & E1).
        eapply returns_weaken; [apply IH; exact (routed_good _ _ _ R1)|].
        intros st2 R2. rewrite E1 in R2.
        exact (routed_trans _ _ _ _ _ R1 R2). }
  eapply returns_bind; [exact (F (c, 0%Z) G)|].
  intros st R. now apply returns_ret.
Qed.

(** [parse_dns] returns whenever the model has one of the two versions. *)
Lemma parse_dns_keeps (i : iface) (c : conf_dict) (ns : NetworkState) :
  good c -> ns_version ns = 1%Z \/ ns_version ns = 2%Z ->
  returns (parse_dns i c ns) (keeps c).
Proof.
  intros G V. unfold parse_dns.
  destruct (nonnil (iface_dns i)); [now apply emit_dns_keeps|].
  destruct V as [-> | ->]; simpl.
  - now apply emit_dns_keeps.
  - now apply keeps_ret.
Qed.

Lemma returns_inr {A} (m : M A) (Q : A -> Prop) (a : A) :
  returns m Q -> m = inr a -> Q a.
Proof. intros (b & -> & Hb) [= <-]. exact Hb. Qed.

(** *** The DHCP mode *)

Definition is_dhcp4 (t : string) : bool :=
  orb (String.eqb t "dhcp4") (String.eqb t "dhcp").

Definition is_dhcp6 (t : string) : bool := String.eqb t "dhcp6".

Definition has_dhcp4 (subnets : list subnet) : bool :=
  existsb (fun e => is_dhcp4 (subnet_type e)) subnets.

Definition has_dhcp6 (subnets : list subnet) : bool :=
  existsb (fun e => is_dhcp6 (subnet_type e)) subnets.

Definition mode_of (v4 v6 : bool) : string :=
  match v4, v6 with
  | true, true => "yes"
  | true, false => "ipv4"
  | false, true => "ipv6"
  | false, false => "no"
  end.

Lemma dhcp_step_mode (v4 v6 : bool) (t : string) :
  dhcp_step (mode_of v4 v6) t = mode_of (orb v4 (is_dhcp4 t)) (orb v6 (is_dhcp6 t)).
Proof.
  unfold dhcp_step, is_dhcp4, is_dhcp6.
  destruct (String.eqb_spec t "dhcp4") as [->|N4].
  { destruct v4, v6; reflexivity. }
  destruct (String.eqb_spec t "dhcp") as [->|N].
  { destruct v4, v6; reflexivity. }
  destruct (String.eqb_spec t "dhcp6") as [->|N6].
  { destruct v4, v6; reflexivity. }
  destruct v4, v6; reflexivity.
Qed.

Lemma fold_dhcp_step (subnets : list subnet) (v4 v6 : bool) :
  fold_left dhcp_step (map subnet_type subnets) (mode_of v4 v6)
  = mode_of (orb v4 (has_dhcp4 subnets)) (orb v6 (has_dhcp6 subnets)).
Proof.
  revert v4 v6; induction subnets as [|e l IH]; intros v4 v6; simpl.
  - now rewrite !orb_false_r.
  - now rewrite dhcp_step_mode, IH, !orb_assoc.
Qed.

Lemma dhcp_mode_families (subnets : list subnet) :
  dhcp_mode subnets = mode_of (has_dhcp4 subnets) (has_dhcp6 subnets).
Proof. exact (fold_dhcp_step subnets false false). Qed.

(** C2.  On every interface [parse_subnets] returns the DHCP mode accumulated
    over the subnets in order from ["no"]: one [dhcp4] or [dhcp] subnet
    turns ["no"] into ["ipv4"] and ["ipv6"] into ["yes"], one [dhcp6] subnet
    turns ["no"] into ["ipv6"] and ["ipv4"] into ["yes"]; so the mode is
    ["yes"] when both families occur, the family when one does, ["no"] when
    none does.  The mode is written as the [DHCP=] line of the Network
    section. *)
Theorem parse_subnets_dhcp_mode (i : iface) (cfg : conf_dict) :
  good cfg ->
  let subnets := iface_subnets_list i in
  (exists cfg',
      parse_subnets i cfg = inr (cfg', dhcp_mode subnets)
      /\ In ("DHCP=" ++ dhcp_mode subnets) (lines_of cfg' "Network"))
  /\ dhcp_mode [] = "no"
  /\ (forall l e, dhcp_mode (l ++ [e]) = dhcp_step (dhcp_mode l) (subnet_type e))
  /\ (forall t, is_dhcp4 t = true ->
                dhcp_step "no" t = "ipv4" /\ dhcp_step "ipv6" t = "yes"
                /\ dhcp_step "ipv4" t = "ipv4" /\ dhcp_step "yes" t = "yes")
  /\ (forall t, is_dhcp6 t = true ->
                dhcp_step "no" t = "ipv6" /\ dhcp_step "ipv4" t = "yes"
                /\ dhcp_step "ipv6" t = "ipv6" /\ dhcp_step "yes" t = "yes")
  /\ (forall m t, is_dhcp4 t = false -> is_dhcp6 t = false -> dhcp_step m t = m)
  /\ dhcp_mode subnets
     = match has_dhcp4 subnets, has_dhcp6 subnets with
       | true, true => "yes"
       | true, false => "ipv4"
       | false, true => "ipv6"
       | false, false => "no"
       end.
Proof.
  intros G subnets. split; [|split; [|split; [|split; [|split; [|split]]]]].
  - destruct (parse_subnets_spec i cfg G) as ([cfg' m] & E & R & D & I).
    simpl in D, I. subst m. exists cfg'. split; trivial.
  - reflexivity.
  - intros l e. unfold dhcp_mode. now rewrite map_app, fold_left_app.
  - intros t T.
    pose proof (dhcp_step_mode false false t) as A.
    pose proof (dhcp_step_mode false true t) as B.
    pose proof (dhcp_step_mode true false t) as C.
    pose proof (dhcp_step_mode true true t) as D.
    rewrite T in *. simpl in *.
    assert (is_dhcp6 t = false) as T6.
    { unfold is_dhcp4, is_dhcp6 in *.
      destruct (String.eqb_spec t "dhcp6") as [->|]; trivial. discriminate. }
    rewrite T6 in *. simpl in *. auto.
  - intros t T.
    pose proof (dhcp_step_mode false false t) as A.
    pose proof (dhcp_step_mode false true t) as B.
    pose proof (dhcp_step_mode true false t) as C.
    pose proof (dhcp_step_mode true true t) as D.
    rewrite T in *. simpl in *.
    assert (is_dhcp4 t = false) as T4.
    { unfold is_dhcp4, is_dhcp6 in *.
      apply String.eqb_eq in T. now subst t. }
    rewrite T4 in *. simpl in *. auto.
  - intros m t T4 T6. unfold dhcp_step, is_dhcp4, is_dhcp6 in *.
    now rewrite T4, T6.
  - apply dhcp_mode_families.
Qed.

(** *** DNS *)

(** The calls of the last two tests of [parse_dns] on a DNS block. *)
Definition dns_calls (search nameservers : option (list string)) : list call :=
  (match nonnil search with
   | Some l => [Update "Network" "Domains" (Py.join " " l)]
   | None => []
   end
   ++ match nonnil nameservers with
      | Some l => [Update "Network" "DNS" (Py.join " " l)]
      | None => []
      end)%list.

Lemma bind_ret {A} (m : M A) : bind m ret = m.
Proof. now destruct m. Qed.

Lemma emit_dns_run (dns : list (string * list string)) (cfg : conf_dict) :
  emit_dns dns cfg
  = run (dns_calls (dict_get dns "search") (dict_get dns "nameservers")) cfg.
Proof.
  unfold emit_dns, dns_calls, run.
  destruct (nonnil (dict_get dns "search")),
           (nonnil (dict_get dns "nameservers")); simpl;
    rewrite ?bind_ret; trivial.
  destruct (update_section cfg "Network" "Domains" _); simpl; trivial.
  now rewrite bind_ret.
Qed.

(** C8.  With no DNS block on the interface, [parse_dns] falls back to the
    global search domains and name servers exactly when the version of the
    model is 1, and leaves the [CfgParser] as it is when the version is 2;
    with a DNS block it uses the block whatever the version.  What it uses
    goes, each list joined with spaces, into the [Domains=] and [DNS=]
    lines of the Network section, a line for each list that is not empty. *)
Theorem parse_dns_global_fallback (i : iface) (cfg : conf_dict)
                                  (ns : NetworkState) :
  (nonnil (iface_dns i) = None ->
     (ns_version ns = 1%Z ->
        parse_dns i cfg ns
        = run (dns_calls (Some (ns_dns_searchdomains ns))
                         (Some (ns_dns_nameservers ns))) cfg)
     /\ (ns_version ns = 2%Z -> parse_dns i cfg ns = inr cfg)
     /\ (ns_version ns <> 1%Z ->
           forall cfg', parse_dns i cfg ns = inr cfg' -> cfg' = cfg))
  /\ (forall dns, nonnil (iface_dns i) = Some dns ->
        parse_dns i cfg ns
        = run (dns_calls (dict_get dns "search") (dict_get dns "nameservers"))
              cfg)
  /\ (good cfg ->
      forall search nameservers,
      exists cfg',
        run (dns_calls search nameservers) cfg = inr cfg'
        /\ (forall l, nonnil search = Some l ->
              In ("Domains=" ++ Py.join " " l) (lines_of cfg' "Network"))
        /\ (forall l, nonnil nameservers = Some l ->
              In ("DNS=" ++ Py.join " " l) (lines_of cfg' "Network"))
        /\ (nonnil search = None -> nonnil nameservers = None -> cfg' = cfg)).
Proof.
  split; [|split].
  - intros N. unfold parse_dns. rewrite N. split; [|split].
    + intros ->. simpl. now rewrite emit_dns_run.
    + intros ->. reflexivity.
    + intros V cfg'. destruct (Z.eqb_spec (ns_version ns) 1); [contradiction|].
      destruct (Z.eqb (ns_version ns) 2); [now intros [= <-]|].
      destruct (iface_dns i) as [[|x d]|]; simpl in N; try discriminate.
      now intros [= <-].
  - intros dns N. unfold parse_dns. rewrite N. apply emit_dns_run.
  - intros G search nameservers. unfold dns_calls, run.
    destruct (nonnil search) as [s|], (nonnil nameservers) as [n|]; simpl.
    + destruct (update_section_good cfg "Network" "Domains" (Py.join " " s) G
                  eq_refl) as (c1 & -> & G1 & _ & H1 & L1). simpl.
      destruct (update_section_good c1 "Network" "DNS" (Py.join " " n) G1
                  eq_refl) as (c2 & -> & G2 & _ & H2 & L2). simpl.
      exists c2. split; trivial. split; [|split].
      * intros l [= <-]. apply H2. rewrite L1.
        apply In_canon, in_app_iff. right. now left.
      * intros l [= <-]. rewrite L2.
        apply In_canon, in_app_iff. right. now left.
      * discriminate.
    + destruct (update_section_good cfg "Network" "Domains" (Py.join " " s) G
                  eq_refl) as (c1 & -> & G1 & _ & H1 & L1). simpl.
      exists c1. split; trivial. split; [|split]; try discriminate.
      intros l [= <-]. rewrite L1. apply In_canon, in_app_iff. right. now left.
    + destruct (update_section_good cfg "Network" "DNS" (Py.join " " n) G
                  eq_refl) as (c1 & -> & G1 & _ & H1 & L1). simpl.
      exists c1. split; trivial. split; [|split]; try discriminate.
      intros l [= <-]. rewrite L1. apply In_canon, in_app_iff. right. now left.
    + exists cfg. split; trivial. split; [|split]; trivial; discriminate.
Qed.

(** *** One interface *)

Lemma backfill_mac_name (info : link_info) (i : iface) :
  iface_name (backfill_mac info i) = iface_name i
  /\ iface_subnets (backfill_mac info i) = iface_subnets i.
Proof.
  unfold backfill_mac.
  destruct (nonempty (iface_mac_address i)), (link_macaddress info); auto.
  destruct (nonempty _); auto.
Qed.

Lemma parse_dns_cases (i : iface) (c : conf_dict) (ns : NetworkState) :
  good c ->
  (parse_dns i c ns = inl AttributeError
   /\ ns_version ns <> 1%Z /\ ns_version ns <> 2%Z)
  \/ returns (parse_dns i c ns) (keeps c).
Proof.
  intros G. unfold parse_dns.
  destruct (nonnil (iface_dns i)); [right; now apply emit_dns_keeps|].
  destruct (Z.eqb_spec (ns_version ns) 1); [right; now apply emit_dns_keeps|].
  destruct (Z.eqb_spec (ns_version ns) 2); [right; now apply keeps_ret|].
  destruct (iface_dns i); [right; now apply emit_dns_keeps | left; auto].
Qed.

(** The groups of routes of one interface: those of its subnets, then the
    global ones. *)
Definition iface_groups (ns : NetworkState) (i : iface) : list group :=
  (subnets_groups 0 (iface_subnets_list i)
   ++ index_routes "c" 0 (ns_iter_routes ns))%list.

(** The body of the loop of [_render_content] up to the version-2 block. *)
Lemma iface_conf_sections (ns : NetworkState) (vl bl : link_info) (i : iface) :
  (iface_conf ns vl bl i = inl AttributeError
   /\ ns_version ns <> 1%Z /\ ns_version ns <> 2%Z)
  \/ exists cfg i',
       iface_name i' = iface_name i
       /\ routed init cfg (iface_groups ns i)
       /\ In (line "DHCP" (dhcp_mode (iface_subnets_list i)))
             (lines_of cfg "Network")
       /\ iface_conf ns vl bl i
          = (c <- version2_overrides ns i' (dhcp_mode (iface_subnets_list i))
                    cfg ;;
             ret (c, iface_name i)).
Proof.
  unfold iface_conf.
  destruct (update_if_keeps
              (linked vl (iface_name i)) init
              (fun n cfg => update_section cfg "Network" "VLAN" n))
    as (c1 & -> & K1); [intros; keeps_tac | apply good_init |].
  cbn [bind]. pose proof (keeps_good _ _ K1) as G1.
  destruct (update_if_keeps
              (linked bl (iface_name i)) c1
              (fun n cfg => update_section cfg "Network" "Bond" n))
    as (c2 & -> & K2); [intros; keeps_tac | exact G1 |].
  cbn [bind]. pose proof (keeps_good _ _ K2) as G2.
  set (i' := backfill_mac bl (backfill_mac vl i)).
  assert (iface_name i' = iface_name i /\ iface_subnets i' = iface_subnets i)
    as [Ni Si].
  { unfold i'. destruct (backfill_mac_name bl (backfill_mac vl i)) as [-> ->].
    apply backfill_mac_name. }
  destruct (generate_match_section_keeps i' c2 G2) as ([c3 link] & -> & K3 & L3).
  cbn [bind fst snd] in *. pose proof (keeps_good _ _ K3) as G3.
  destruct (generate_link_section_keeps i' c3 G3) as (c4 & -> & K4).
  cbn [bind]. pose proof (keeps_good _ _ K4) as G4.
  destruct (parse_subnets_spec i' c4 G4) as ([c5 dhcp] & -> & R5 & D5 & I5).
  cbn [bind fst snd] in *. pose proof (routed_good _ _ _ R5) as G5.
  assert (iface_subnets_list i' = iface_subnets_list i) as Sl
      by (unfold iface_subnets_list; now rewrite Si).
  rewrite Sl in *. subst dhcp link.
  destruct (parse_dns_cases i' c5 ns G5) as [(E & V1 & V2) | (c6 & E & K6)];
    rewrite E; cbn [bind]; [left; auto|]. right.
  pose proof (keeps_good _ _ K6) as G6.
  destruct (parse_global_routes_spec (ns_iter_routes ns) c6 G6)
    as (c7 & -> & R7).
  cbn [bind]. exists c7, i'. split; [trivial|]. split; [|split].
  - apply keeps_routed in K1, K2, K3, K4, K6.
    pose proof (routed_trans _ _ _ _ _ K1
                  (routed_trans _ _ _ _ _ K2
                     (routed_trans _ _ _ _ _ K3
                        (routed_trans _ _ _ _ _ K4
                           (routed_trans _ _ _ _ _ R5
                              (routed_trans _ _ _ _ _ K6 R7)))))) as R.
    exact R.
  - destruct K6 as (_ & _ & H6). destruct R7 as (_ & H7 & _).
    apply H7, H6. exact I5.
  - now rewrite Ni.
Qed.

(** The first protocol version, if any, for which the device sets both the
    legacy domain toggle and [use-domains] among the overrides. *)
Definition conflict_version (d : device) : option string :=
  if domain_conflict d "4" then Some "4"
  else if domain_conflict d "6" then Some "6"
  else None.

Lemma dhcp_versions_spec (name : string) (d : device) (dhcp : string)
                         (c : conf_dict) :
  good c ->
  match conflict_version d with
  | Some v => dhcp_versions name d dhcp c
              = inl (RuntimeError (conflict_message name v))
  | None => returns (dhcp_versions name d dhcp c) (keeps c)
  end.
Proof.
  intros G. unfold conflict_version, dhcp_versions. cbn [foldM].
  destruct (domain_conflict d "4"); [reflexivity|].
  destruct (parse_dhcp_overrides_keeps c d dhcp "4" G) as (c1 & -> & K1).
  cbn [bind]. pose proof (keeps_good _ _ K1) as G1.
  destruct (domain_conflict d "6"); [reflexivity|].
  destruct (parse_dhcp_overrides_keeps c1 d dhcp "6" G1) as (c2 & -> & K2).
  cbn [bind]. apply returns_ret. eapply keeps_trans; eauto.
Qed.

(** The device of [ns.config["ethernets"]] that the version-2 block finds
    for an interface, under its name there. *)
Definition device_of (ns : NetworkState) (i : iface) : option (string * device) :=
  if Z.eqb (ns_version ns) 2 then
    match cfg_ethernets (ns_config_ ns) with
    | Some ethernets =>
        let name := resolve_set_name ethernets (iface_name i) in
        option_map (pair name) (dict_get ethernets name)
    | None => None
    end
  else None.

(** The message of the conflict error that an interface raises. *)
Definition iface_conflict (ns : NetworkState) (i : iface) : option string :=
  match device_of ns i with
  | Some (name, d) => option_map (conflict_message name) (conflict_version d)
  | None => None
  end.

Lemma version2_overrides_spec (ns : NetworkState) (i : iface) (dhcp : string)
                              (c : conf_dict) :
  good c ->
  (ns_version ns = 2%Z -> cfg_ethernets (ns_config_ ns) <> None) ->
  match iface_conflict ns i with
  | Some msg => version2_overrides ns i dhcp c = inl (RuntimeError msg)
  | None => returns (version2_overrides ns i dhcp c) (keeps c)
  end.
Proof.
  intros G E. unfold iface_conflict, device_of, version2_overrides.
  destruct (Z.eqb_spec (ns_version ns) 2) as [V|V]; [|now apply keeps_ret].
  destruct (cfg_ethernets (ns_config_ ns)) as [eths|]; [|now destruct (E V)].
  destruct (dict_get eths (resolve_set_name eths (iface_name i))) as [d|];
    simpl; [|now apply keeps_ret].
  destruct (dhcp_domain_keeps d c G) as (c1 & -> & K1). cbn [bind].
  pose proof (dhcp_versions_spec (resolve_set_name eths (iface_name i)) d dhcp
                c1 (keeps_good _ _ K1)) as S.
  destruct (conflict_version d); simpl; trivial.
  eapply returns_weaken; [exact S|]. intros; eapply keeps_trans; eauto.
Qed.

Lemma version2_overrides_inr (ns : NetworkState) (i : iface) (dhcp : string)
                             (c c' : conf_dict) :
  good c -> version2_overrides ns i dhcp c = inr c' -> keeps c c'.
Proof.
  intros G R.
  destruct (cfg_ethernets (ns_config_ ns)) as [eths|] eqn:E.
  - pose proof (version2_overrides_spec ns i dhcp c G) as S.
    destruct (iface_conflict ns i).
    + rewrite S in R; [discriminate | intros _; congruence].
    + eapply returns_inr; [apply S; intros _; congruence | exact R].
  - unfold version2_overrides in R. rewrite E in R.
    destruct (Z.eqb (ns_version ns) 2); [discriminate|].
    injection R as <-. now apply keeps_refl.
Qed.

(** What an interface does in a version-2 model that has its
    [ethernets]: it raises the conflict error, or returns. *)
Lemma iface_conf_outcome (ns : NetworkState) (vl bl : link_info) (i : iface) :
  ns_version ns = 2%Z -> cfg_ethernets (ns_config_ ns) <> None ->
  match iface_conflict ns i with
  | Some msg => iface_conf ns vl bl i = inl (RuntimeError msg)
  | None => returns (iface_conf ns vl bl i) (fun r => good (fst r))
  end.
Proof.
  intros V E.
  destruct (iface_conf_sections ns vl bl i)
    as [(_ & _ & N) | (cfg & i' & Ni & R & _ & ->)]; [contradiction|].
  pose proof (version2_overrides_spec ns i' (dhcp_mode (iface_subnets_list i))
                cfg (routed_good _ _ _ R) (fun _ => E)) as S.
  assert (iface_conflict ns i' = iface_conflict ns i) as C
      by (unfold iface_conflict, device_of; now rewrite Ni).
  rewrite C in S. destruct (iface_conflict ns i).
  - now rewrite S.
  - destruct S as (c & -> & K). cbn [bind]. apply returns_ret.
    exact (keeps_good _ _ K).
Qed.

(** *** The whole model *)

Lemma get_final_conf_returns (c : conf_dict) :
  good c -> returns (get_final_conf c) (fun _ => True).
Proof.
  intros [_ W]. exists (serialize c). split; trivial.
  now apply get_final_conf_spec.
Qed.

Lemma render_bond_params_keeps (params : bond_params) (c : conf_dict) :
  good c -> returns (render_bond_params params c) (keeps c).
Proof.
  intros G. unfold render_bond_params. cbv zeta. keeps_tac.
Qed.

(** *** The key [macaddress] of the link information

    [render_vlans] and [render_bonds] keep in one dict the device that each
    interface is linked to, under the name of the interface, and the MAC
    addresses of the devices, under the key [macaddress]; [link_info] holds
    the two apart.  The two agree as long as no name takes that key: a VLAN
    with the link [macaddress], or a bond that lists an interface of that
    name, puts the name of the device in the place of the MAC addresses,
    and the code raises on the next use of these.  What is proved of a
    whole model is proved of models in which this does not happen. *)

Definition vlans_of (ns : NetworkState) : list (string * vlan_cfg) :=
  match cfg_vlans (ns_config_ ns) with Some d => d | None => [] end.

Definition bonds_of (ns : NetworkState) : list (string * bond_cfg) :=
  match cfg_bonds (ns_config_ ns) with Some d => d | None => [] end.

Definition mac_key_free (ns : NetworkState) : Prop :=
  (forall item, In item (vlans_of ns) ->
     vlan_link (snd item) <> Some "macaddress")
  /\ (forall item l, In item (bonds_of ns) ->
        bond_interfaces (snd item) = Some l -> ~ In "macaddress" l).

Lemma mac_key_free_no_devices (ns : NetworkState) :
  cfg_vlans (ns_config_ ns) = None -> cfg_bonds (ns_config_ ns) = None ->
  mac_key_free ns.
Proof.
  intros V B. unfold mac_key_free, vlans_of, bonds_of. rewrite V, B.
  split; intros item; simpl; tauto.
Qed.

(** The key [macaddress] holds the MAC addresses. *)
Definition intact (info : link_info) : Prop :=
  dict_get (link_names info) "macaddress" = None.

Lemma set_mac_intact (names macs : list (string * string)) (name : string)
                     (mac : option string) :
  dict_get names "macaddress" = None ->
  set_mac names (if dict_mem names "macaddress" then [] else macs) name mac
  = inr (match mac with
         | Some val => dict_set macs name val
         | None => macs
         end).
Proof.
  intros N. unfold set_mac, dict_mem. rewrite N. now destruct mac.
Qed.

Lemma interfaces_fold (name k : string) (l : list string)
                      (d : list (string * string)) :
  dict_get (fold_left (fun d i => dict_set d i name) l d) k
  = if Py.mem k l then Some name else dict_get d k.
Proof.
  unfold Py.mem. revert d. induction l as [|i l IH]; intros d; trivial.
  cbn [fold_left existsb]. rewrite IH, dict_get_set, (String.eqb_sym k i).
  destruct (existsb (String.eqb k) l); [now rewrite orb_true_r|].
  rewrite orb_false_r. reflexivity.
Qed.

Lemma mem_absent (k : string) (l : list string) :
  ~ In k l -> Py.mem k l = false.
Proof.
  intros N. unfold Py.mem. destruct (existsb (String.eqb k) l) eqn:E; trivial.
  apply existsb_exists in E. destruct E as (x & I & E).
  apply String.eqb_eq in E. now subst x.
Qed.

Lemma vlan_names_intact (names : list (string * string))
                        (parent name : string) :
  dict_get names "macaddress" = None -> parent <> "macaddress" ->
  dict_get (dict_set names parent name) "macaddress" = None.
Proof.
  intros N L. rewrite dict_get_set.
  now destruct (String.eqb_spec parent "macaddress").
Qed.

Lemma bond_names_intact (names : list (string * string)) (name : string)
                        (interfaces : list string) :
  dict_get names "macaddress" = None -> ~ In "macaddress" interfaces ->
  dict_get (fold_left (fun d i => dict_set d i name) interfaces names)
           "macaddress" = None.
Proof.
  intros N L. now rewrite interfaces_fold, mem_absent.
Qed.

Lemma nonnil_Some {A} (o : option (list A)) (l : list A) :
  nonnil o = Some l -> o = Some l.
Proof. destruct o as [[|x r]|]; simpl; congruence. Qed.

Lemma render_vlan_returns (st : ndev_state) (item : string * vlan_cfg) :
  intact (snd st) -> vlan_link (snd item) <> Some "macaddress" ->
  returns (render_vlan st item) (fun st' => intact (snd st')).
Proof.
  destruct st as [configs info], item as [vlan_name v]. cbn [fst snd].
  intros N L. unfold render_vlan.
  destruct (vlan_id v); [|now apply returns_ret].
  destruct (vlan_link v) as [parent|]; [|now apply returns_ret].
  assert (dict_get (dict_set (link_names info) parent vlan_name) "macaddress"
          = None) as N'
      by (apply vlan_names_intact; [exact N | congruence]).
  pose proof good_init as G.
  eapply returns_bind with (P := keeps init); [keeps_tac|].
  intros c K. pose proof (keeps_good _ _ K) as G'. clear K.
  eapply returns_bind with (P := keeps c); [keeps_tac|].
  clear G'. intros c1 K. pose proof (keeps_good _ _ K) as G'. clear K.
  eapply returns_bind with (P := keeps c1); [keeps_tac|].
  clear G'. intros c2 K. pose proof (keeps_good _ _ K) as G'. clear K.
  eapply returns_bind with (P := keeps c2); [keeps_tac|].
  clear G'. intros c3 K. pose proof (keeps_good _ _ K) as G'. clear K.
  rewrite (set_mac_intact _ _ _ _ N'). cbn [bind].
  eapply returns_bind with (P := keeps c3); [keeps_tac|].
  clear G'. intros c4 K. pose proof (keeps_good _ _ K) as G'. clear K.
  eapply returns_bind; [now apply get_final_conf_returns|].
  intros text _. apply returns_ret. exact N'.
Qed.

Lemma render_vlans_returns (ns : NetworkState) :
  (forall item, In item (vlans_of ns) ->
     vlan_link (snd item) <> Some "macaddress") ->
  returns (render_vlans ns) (fun st => intact (snd st)).
Proof.
  intros L. unfold render_vlans. fold (vlans_of ns).
  apply returns_foldM; [reflexivity|].
  intros s x I N. apply render_vlan_returns; auto.
Qed.

Lemma render_bond_returns (st : ndev_state) (item : string * bond_cfg) :
  intact (snd st) ->
  (forall l, bond_interfaces (snd item) = Some l -> ~ In "macaddress" l) ->
  returns (render_bond st item) (fun st' => intact (snd st')).
Proof.
  destruct st as [configs info], item as [bond_name b]. cbn [fst snd].
  intros N L. unfold render_bond.
  destruct (nonnil (bond_interfaces b)) as [interfaces|] eqn:Ei;
    [|now apply returns_ret].
  assert (dict_get (fold_left (fun d i => dict_set d i bond_name) interfaces
                              (link_names info)) "macaddress" = None) as N'
      by (apply bond_names_intact; [exact N | apply L; now apply nonnil_Some]).
  pose proof good_init as G.
  eapply returns_bind with (P := keeps init); [keeps_tac|].
  intros c K. pose proof (keeps_good _ _ K) as G'. clear K.
  eapply returns_bind with (P := keeps c); [keeps_tac|].
  clear G'. intros c1 K. pose proof (keeps_good _ _ K) as G'. clear K.
  eapply returns_bind with (P := keeps c1); [keeps_tac|].
  clear G'. intros c2 K. pose proof (keeps_good _ _ K) as G'. clear K.
  eapply returns_bind with (P := keeps c2); [keeps_tac|].
  clear G'. intros c3 K. pose proof (keeps_good _ _ K) as G'. clear K.
  rewrite (set_mac_intact _ _ _ _ N'). cbn [bind].
  eapply returns_bind with (P := keeps c3).
  { apply update_if_keeps; trivial. intros; now apply render_bond_params_keeps. }
  clear G'. intros c4 K. pose proof (keeps_good _ _ K) as G'. clear K.
  eapply returns_bind; [now apply get_final_conf_returns|].
  intros text _. apply returns_ret. exact N'.
Qed.

Lemma render_bonds_returns (ns : NetworkState) :
  (forall item l, In item (bonds_of ns) ->
     bond_interfaces (snd item) = Some l -> ~ In "macaddress" l) ->
  returns (render_bonds ns) (fun st => intact (snd st)).
Proof.
  intros L. unfold render_bonds. fold (bonds_of ns).
  apply returns_foldM; [reflexivity|].
  intros s x I N. apply render_bond_returns; eauto.
Qed.

(** The first element of a list on which [f] is defined. *)
Fixpoint first_some {A B} (f : A -> option B) (l : list A) : option B :=
  match l with
  | [] => None
  | x :: r => match f x with
              | Some b => Some b
              | None => first_some f r
              end
  end.


Lemma first_some_None {A B} (f : A -> option B) (l : list A) :
  first_some f l = None <-> forall x, In x l -> f x = None.
Proof.
  induction l as [|x l IH]; simpl.
  - split; trivial. intros _ x [].
  - destruct (f x) as [b|] eqn:E.
    + split; [discriminate|]. intros F. rewrite <- E. apply F. now left.
    + rewrite IH. split.
      * intros F y [<-|I]; auto.
      * intros F y I. apply F. now right.
Qed.

(** A loop whose body either returns or raises a [RuntimeError]: the loop
    raises the error of the first element that does. *)
Lemma foldM_runtime_error {A S} (f : S -> A -> M S) (bad : A -> option string)
                          (l : list A) (s : S) :
  (forall s x, In x l ->
     match bad x with
     | Some msg => f s x = inl (RuntimeError msg)
     | None => exists s', f s x = inr s'
     end) ->
  match first_some bad l with
  | Some msg => foldM f l s = inl (RuntimeError msg)
  | None => exists s', foldM f l s = inr s'
  end.
Proof.
  revert s; induction l as [|x l IH]; intros s F; simpl.
  - now exists s.
  - pose proof (F s x (or_introl eq_refl)) as Fx.
    destruct (bad x); simpl.
    + now rewrite Fx.
    + destruct Fx as (s' & ->). simpl. apply IH. intros; apply F. now right.
Qed.

(** The message of the first conflict error among the interfaces. *)
Definition first_conflict (ns : NetworkState) : option string :=
  first_some (iface_conflict ns) (ns_iter_interfaces ns).

Lemma mac_lookup_intact (info : link_info) (i : iface) :
  intact info -> mac_lookup info i = inr (backfill_mac info i).
Proof.
  intros N. unfold mac_lookup. rewrite N. cbn [nonempty].
  now destruct (nonempty (iface_mac_address i)).
Qed.

Lemma render_iface_intact (ns : NetworkState) (vl bl : link_info)
                          (ret_dict : list (string * string)) (i : iface) :
  intact vl -> intact bl ->
  render_iface ns vl bl ret_dict i
  = (r <- iface_conf ns vl bl i ;;
     text <- get_final_conf (fst r) ;;
     ret (dict_set ret_dict (snd r) text)).
Proof.
  intros Nv Nb. unfold render_iface.
  rewrite (mac_lookup_intact vl i Nv). cbn [bind].
  rewrite (mac_lookup_intact bl _ Nb). reflexivity.
Qed.

Lemma render_iface_inr (ns : NetworkState) (vl bl : link_info)
                       (d d' : list (string * string)) (i : iface) :
  render_iface ns vl bl d i = inr d' ->
  (r <- iface_conf ns vl bl i ;;
   text <- get_final_conf (fst r) ;;
   ret (dict_set d (snd r) text)) = inr d'.
Proof.
  unfold render_iface.
  destruct (mac_lookup vl i) as [e|j]; [discriminate|]. cbn [bind].
  destruct (mac_lookup bl j) as [e|j']; [discriminate|]. trivial.
Qed.

Lemma render_iface_outcome (ns : NetworkState) (vl bl : link_info)
                           (ret_dict : list (string * string)) (i : iface) :
  intact vl -> intact bl ->
  ns_version ns = 2%Z -> cfg_ethernets (ns_config_ ns) <> None ->
  match iface_conflict ns i with
  | Some msg => render_iface ns vl bl ret_dict i = inl (RuntimeError msg)
  | None => exists d, render_iface ns vl bl ret_dict i = inr d
  end.
Proof.
  intros Nv Nb V E. rewrite render_iface_intact by trivial.
  pose proof (iface_conf_outcome ns vl bl i V E) as O.
  destruct (iface_conflict ns i) as [msg|].
  - now rewrite O.
  - destruct O as (r & -> & G). cbn [bind].
    destruct (get_final_conf_returns _ G) as (text & -> & _). cbn [bind].
    eexists. reflexivity.
Qed.

Lemma render_content_outcome (ns : NetworkState) :
  mac_key_free ns ->
  ns_version ns = 2%Z -> cfg_ethernets (ns_config_ ns) <> None ->
  match first_conflict ns with
  | Some msg => _render_content ns = inl (RuntimeError msg)
  | None => exists r, _render_content ns = inr r
  end.
Proof.
  intros [Lv Lb] V E. unfold _render_content, first_conflict.
  assert (exists v, match cfg_vlans (ns_config_ ns) with
                    | Some _ => r <- render_vlans ns ;; ret (Some (fst r), snd r)
                    | None => ret (None, no_link_info)
                    end = inr v /\ intact (snd v)) as (v & -> & Nv).
  { destruct (cfg_vlans (ns_config_ ns));
      [|eexists; split; reflexivity].
    destruct (render_vlans_returns ns Lv) as (r & -> & N).
    eexists; split; [reflexivity | exact N]. }
  assert (exists b, match cfg_bonds (ns_config_ ns) with
                    | Some _ => r <- render_bonds ns ;; ret (Some (fst r), snd r)
                    | None => ret (None, no_link_info)
                    end = inr b /\ intact (snd b)) as (b & -> & Nb).
  { destruct (cfg_bonds (ns_config_ ns));
      [|eexists; split; reflexivity].
    destruct (render_bonds_returns ns Lb) as (r & -> & N).
    eexists; split; [reflexivity | exact N]. }
  cbn [bind].
  pose proof (foldM_runtime_error (render_iface ns (snd v) (snd b))
                (iface_conflict ns) (ns_iter_interfaces ns) []
                (fun s x _ =>
                   render_iface_outcome ns (snd v) (snd b) s x Nv Nb V E))
    as F.
  destruct (first_some (iface_conflict ns) (ns_iter_interfaces ns)).
  - now rewrite F.
  - destruct F as (d & ->). eexists; reflexivity.
Qed.

(** *** The identifiers of the routes of the subnets *)

Lemma ids_index_routes (t : ascii) (rid : Z) (routes : list route) :
  map fst (index_routes (String t "") rid routes)
  = numbered rid (repeat t (List.length routes)).
Proof.
  revert rid; induction routes as [|r l IH]; intros rid; simpl; trivial.
  now rewrite IH.
Qed.

Definition subnet_tags (e : subnet) : list ascii :=
  (repeat "r"%char (List.length (subnet_routes_list e))
   ++ match subnet_address e, subnet_gateway e with
      | Some _, Some _ => ["a"%char]
      | _, _ => []
      end)%list.

Lemma ids_subnet_groups (rid : Z) (e : subnet) :
  map fst (subnet_groups rid e) = numbered rid (subnet_tags e).
Proof.
  unfold subnet_groups, subnet_tags, subnet_gateway_group.
  rewrite map_app, numbered_app, repeat_length.
  change "r" with (String "r"%char ""). rewrite ids_index_routes. f_equal.
  now destruct (subnet_address e), (subnet_gateway e).
Qed.

Lemma length_subnet_groups (rid : Z) (e : subnet) :
  List.length (subnet_groups rid e) = List.length (subnet_tags e).
Proof.
  transitivity (List.length (map fst (subnet_groups rid e)));
    [symmetry; apply length_map|].
  rewrite ids_subnet_groups. apply length_numbered.
Qed.

Lemma ids_subnets_groups (rid : Z) (subnets : list subnet) :
  map fst (subnets_groups rid subnets)
  = numbered rid (flat_map subnet_tags subnets).
Proof.
  revert rid; induction subnets as [|e l IH]; intros rid; simpl; trivial.
  rewrite map_app, numbered_app, ids_subnet_groups, IH. f_equal.
  unfold subnet_next. now rewrite length_subnet_groups.
Qed.

Lemma subnets_groups_app (rid : Z) (l l' : list subnet) :
  subnets_groups rid (l ++ l')
  = (subnets_groups rid l
     ++ subnets_groups (rid + Z.of_nat (List.length (subnets_groups rid l))) l')%list.
Proof.
  revert rid; induction l as [|e l IH]; intros rid; simpl.
  - now rewrite Z.add_0_r.
  - rewrite IH, <- app_assoc. do 3 f_equal.
    unfold subnet_next. rewrite length_app, Nat2Z.inj_add. lia.
Qed.

(** Dropping groups keeps the identifiers distinct. *)
Lemma NoDup_ids_filter (keep : group -> bool) (gs : list group) :
  NoDup (map fst gs) -> NoDup (map fst (filter keep gs)).
Proof.
  induction gs as [|g gs IH]; simpl; trivial.
  intros N. inversion N as [|? ? Ng Ngs]; subst.
  destruct (keep g); simpl; auto. constructor; auto.
  intros I. apply Ng. apply in_map_iff in I. destruct I as (y & E & I).
  apply filter_In in I. rewrite <- E. apply in_map. tauto.
Qed.

Lemma dict_get_canon_groups (gs : list group) (id : string)
                            (ls : list string) :
  NoDup (map fst gs) -> In (id, ls) gs -> ls <> [] ->
  dict_get (map canon_group (filter nonempty_group gs)) id = Some (canon ls).
Proof.
  intros N I E. apply In_dict_get.
  - rewrite map_map.
    rewrite (map_ext (fun g => fst (canon_group g)) fst) by reflexivity.
    now apply NoDup_ids_filter.
  - change (id, canon ls) with (canon_group (id, ls)). apply in_map.
    apply filter_In. split; trivial. unfold nonempty_group. simpl.
    destruct ls; congruence.
Qed.

(** C7.  For every interface and every one of its subnets that carries an
    address and a gateway, [parse_subnets] stores the gateway under an
    identifier [a<n>] of its own, whose lines are [Gateway=] and,
    exactly when [should_add_gateway_onlink_flag] says that the gateway is
    outside the network of the address, [GatewayOnLink=yes]. *)
Theorem gateway_route_on_link (i : iface) (cfg : conf_dict)
                              (before after : list subnet) (e : subnet)
                              (a gw : string) :
  good cfg -> routes_of cfg = [] ->
  iface_subnets i = Some (before ++ e :: after)%list ->
  subnet_address e = Some a -> subnet_gateway e = Some gw ->
  let addr := match subnet_prefix e with
              | Some p => a ++ "/" ++ Py.str_of_Z p
              | None => a
              end in
  exists cfg' mode n,
    parse_subnets i cfg = inr (cfg', mode)
    /\ dict_get (routes_of cfg') ("a" ++ Py.str_of_Z n)
       = Some (if should_add_gateway_onlink_flag gw addr
               then ["Gateway=" ++ gw; "GatewayOnLink=yes"]
               else ["Gateway=" ++ gw]).
Proof.
  intros G R0 S A W addr.
  destruct (parse_subnets_spec i cfg G) as ([cfg' mode] & E & R & _ & _).
  simpl fst in R. destruct R as (_ & _ & R). rewrite R0 in R.
  unfold iface_subnets_list in R. rewrite S in R.
  set (gs := subnets_groups 0 (before ++ e :: after)) in *.
  assert (NoDup (map fst gs)) as N
      by (unfold gs; rewrite ids_subnets_groups; apply NoDup_numbered).
  rewrite add_groups_fresh in R by (trivial; reflexivity). simpl in R.
  set (n := (0 + Z.of_nat (List.length (subnets_groups 0 before))
             + Z.of_nat (List.length (subnet_routes_list e)))%Z).
  exists cfg', mode, n. split; trivial. rewrite R.
  rewrite (dict_get_canon_groups gs ("a" ++ Py.str_of_Z n)
             (gateway_lines gw addr)); trivial.
  - unfold gateway_lines.
    destruct (should_add_gateway_onlink_flag gw addr); reflexivity.
  - unfold gs. rewrite subnets_groups_app. apply in_or_app. right.
    simpl. apply in_or_app. left. unfold subnet_groups. apply in_or_app. right.
    unfold subnet_gateway_group. rewrite A, W. left. reflexivity.
  - discriminate.
Qed.

(** *** One route of each source *)

(** The gateways that [parse_subnets] renders: those of the subnets that
    carry an address, each with the address it is checked against. *)
Definition subnet_gateways (e : subnet) : list (string * string) :=
  match subnet_address e, subnet_gateway e with
  | Some a, Some gw => [(gw, subnet_addr e a)]
  | _, _ => []
  end.

Definition gateway_group (rid : Z) (p : string * string) : group :=
  ("a" ++ Py.str_of_Z rid, gateway_lines (fst p) (snd p)).

Lemma subnet_groups_eq (rid : Z) (e : subnet) :
  subnet_groups rid e
  = (index_routes "r" rid (subnet_routes_list e)
     ++ map (gateway_group (rid + Z.of_nat (List.length (subnet_routes_list e))))
            (subnet_gateways e))%list.
Proof.
  unfold subnet_groups, subnet_gateway_group, subnet_gateways. f_equal.
  now destruct (subnet_address e), (subnet_gateway e).
Qed.

Lemma subnet_gateways_cases (e : subnet) :
  subnet_gateways e = [] \/ exists p, subnet_gateways e = [p].
Proof.
  unfold subnet_gateways.
  destruct (subnet_address e), (subnet_gateway e); eauto.
Qed.

Lemma groups_none (l : list subnet) (rid : Z) :
  flat_map subnet_routes_list l = [] -> flat_map subnet_gateways l = [] ->
  subnets_groups rid l = [].
Proof.
  revert rid; induction l as [|e l IH]; intros rid; simpl; trivial.
  intros R W. apply app_eq_nil in R, W. destruct R as [Re R], W as [We W].
  rewrite subnet_groups_eq, Re, We. simpl. auto.
Qed.

Lemma groups_one_route (l : list subnet) (rid : Z) (r : route) :
  flat_map subnet_routes_list l = [r] -> flat_map subnet_gateways l = [] ->
  exists m, subnets_groups rid l = [("r" ++ Py.str_of_Z m, route_lines r)].
Proof.
  revert rid; induction l as [|e l IH]; intros rid; simpl; [discriminate|].
  intros R W. apply app_eq_nil in W. destruct W as [We W].
  rewrite subnet_groups_eq, We.
  apply app_eq_unit in R. destruct R as [[Re R]|[Re R]]; rewrite Re; simpl.
  - apply IH; trivial.
  - exists rid. now rewrite groups_none.
Qed.

Lemma groups_one_gateway (l : list subnet) (rid : Z) (p : string * string) :
  flat_map subnet_routes_list l = [] -> flat_map subnet_gateways l = [p] ->
  exists n, subnets_groups rid l = [gateway_group n p].
Proof.
  revert rid; induction l as [|e l IH]; intros rid; simpl; [discriminate|].
  intros R W. apply app_eq_nil in R. destruct R as [Re R].
  rewrite subnet_groups_eq, Re.
  apply app_eq_unit in W. destruct W as [[We W]|[We W]]; rewrite We; simpl.
  - apply IH; trivial.
  - eexists. now rewrite groups_none.
Qed.

Lemma groups_route_and_gateway (l : list subnet) (rid : Z) (r : route)
                               (p : string * string) :
  flat_map subnet_routes_list l = [r] -> flat_map subnet_gateways l = [p] ->
  exists m n,
    subnets_groups rid l
    = [("r" ++ Py.str_of_Z m, route_lines r); gateway_group n p]
    \/ subnets_groups rid l
       = [gateway_group n p; ("r" ++ Py.str_of_Z m, route_lines r)].
Proof.
  revert rid; induction l as [|e l IH]; intros rid; simpl; [discriminate|].
  intros R W. rewrite subnet_groups_eq.
  apply app_eq_unit in R, W.
  destruct R as [[Re R]|[Re R]], W as [[We W]|[We W]]; rewrite Re, We; simpl.
  - apply IH; trivial.
  - destruct (groups_one_route l (subnet_next rid e) r R W) as (m & ->).
    exists m. eexists. right. reflexivity.
  - destruct (groups_one_gateway l (subnet_next rid e) p R W) as (n & ->).
    exists rid, n. left. reflexivity.
  - rewrite groups_none by trivial. exists rid. eexists. left. reflexivity.
Qed.

Lemma sorted_items_rac {V} (x y : string) (A B C : V) :
  sorted_items [(String "r" x, A); (String "a" y, B); ("c0", C)]
  = [(String "a" y, B); ("c0", C); (String "r" x, A)].
Proof. reflexivity. Qed.

Lemma sorted_items_arc {V} (x y : string) (A B C : V) :
  sorted_items [(String "a" y, B); (String "r" x, A); ("c0", C)]
  = [(String "a" y, B); ("c0", C); (String "r" x, A)].
Proof. reflexivity. Qed.

Lemma sorted_canon (l : list string) : sorted (canon l) = canon l.
Proof. apply sorted_id, strictly_weakly, canon_strictly_sorted. Qed.

Lemma nonempty_group_true (id : string) (ls : list string) :
  ls <> [] -> nonempty_group (id, ls) = true.
Proof. unfold nonempty_group. simpl. destruct ls; congruence. Qed.

(** C3 (as amended).  For every interface whose subnets declare one route in
    all and, on a subnet that carries an address, one gateway, in a model
    with one global route, each of the two routes having a gateway, a
    network or a metric: once the interface is rendered, the routes are kept
    under three identifiers [r<m>], [a<n>] and [c0], each with the lines of
    its own source only, and the text of the unit has exactly three
    [[Route]] stanzas, in the order of the identifiers: the gateway of the
    subnet, the global route, the route of the subnet. *)
Theorem three_route_stanzas (ns : NetworkState) (vl bl : link_info) (i : iface)
                            (cfg : conf_dict) (link : string) (r c : route)
                            (gw addr : string) :
  iface_conf ns vl bl i = inr (cfg, link) ->
  flat_map subnet_routes_list (iface_subnets_list i) = [r] ->
  flat_map subnet_gateways (iface_subnets_list i) = [(gw, addr)] ->
  ns_iter_routes ns = [c] ->
  route_lines r <> [] -> route_lines c <> [] ->
  exists m n,
    Permutation (routes_of cfg)
      [ ("r" ++ Py.str_of_Z m, canon (route_lines r));
        ("a" ++ Py.str_of_Z n, canon (gateway_lines gw addr));
        ("c0", canon (route_lines c)) ]
    /\ route_stanzas cfg
       = [ stanza "Route" (canon (gateway_lines gw addr));
           stanza "Route" (canon (route_lines c));
           stanza "Route" (canon (route_lines r)) ]
    /\ get_final_conf cfg
       = inr (text (map (section_text cfg)
                        ["Address"; "Bond"; "DHCPv4"; "DHCPv6"; "Link";
                         "Match"; "NetDev"; "Network"])
              ++ text (route_stanzas cfg) ++ section_text cfg "VLAN").
Proof.
  intros E R W C Nr Nc.
  destruct (iface_conf_sections ns vl bl i)
    as [(E' & _) | (cfg0 & i' & _ & R0 & _ & E')]; [congruence|].
  rewrite E' in E. clear E'.
  destruct (version2_overrides ns i' _ cfg0) as [e|cfg1] eqn:V; [discriminate|].
  injection E as -> _.
  pose proof (version2_overrides_inr _ _ _ _ _ (routed_good _ _ _ R0) V)
    as (G & Rk & _).
  destruct R0 as (_ & _ & R0). rewrite <- Rk in R0. clear Rk V.
  change (routes_of init) with (@nil (string * list string)) in R0.
  unfold iface_groups in R0. rewrite C in R0.
  change (index_routes "c" 0 [c]) with [("c0", route_lines c)] in R0.
  assert (forall m n gs,
            gs = [("r" ++ Py.str_of_Z m, route_lines r);
                  gateway_group n (gw, addr); ("c0", route_lines c)]
            \/ gs = [gateway_group n (gw, addr);
                     ("r" ++ Py.str_of_Z m, route_lines r);
                     ("c0", route_lines c)] ->
            NoDup (map fst gs)
            /\ filter nonempty_group gs = gs) as F.
  { intros m n gs [-> | ->]; unfold gateway_group; simpl; split.
    - repeat constructor; simpl; intuition discriminate.
    - rewrite !nonempty_group_true; trivial; discriminate.
    - repeat constructor; simpl; intuition discriminate.
    - rewrite !nonempty_group_true; trivial; discriminate. }
  destruct (groups_route_and_gateway _ 0 r (gw, addr) R W) as (m & n & O).
  exists m, n.
  assert (routes_of cfg
          = [ ("r" ++ Py.str_of_Z m, canon (route_lines r));
              ("a" ++ Py.str_of_Z n, canon (gateway_lines gw addr));
              ("c0", canon (route_lines c)) ]
          \/ routes_of cfg
             = [ ("a" ++ Py.str_of_Z n, canon (gateway_lines gw addr));
                 ("r" ++ Py.str_of_Z m, canon (route_lines r));
                 ("c0", canon (route_lines c)) ]) as D.
  { destruct O as [O|O]; rewrite O in R0; simpl app in R0;
      match type of R0 with
      | _ = add_groups ?gs [] =>
          destruct (F m n gs) as [N Fi]; [auto|];
          rewrite (add_groups_fresh gs [] N) in R0 by reflexivity;
          rewrite Fi in R0
      end; [left | right]; exact R0. }
  split; [|split].
  - destruct D as [-> | ->]; [reflexivity | apply perm_swap].
  - unfold route_stanzas.
    destruct D as [-> | ->]; cbn [map fst snd];
      change ("r" ++ Py.str_of_Z m) with (String "r" (Py.str_of_Z m));
      change ("a" ++ Py.str_of_Z n) with (String "a" (Py.str_of_Z n));
      rewrite ?sorted_items_rac, ?sorted_items_arc; cbn [map snd];
      now rewrite !sorted_canon.
  - now rewrite get_final_conf_spec, serialize_good by (trivial; apply G).
Qed.

(** *** The conflict of the two domain settings *)







(** *** The calls on the disk *)

(** The directory that [render_network_state] works in. *)
Definition network_dir (self : renderer_config) (target : option string)
  : string :=
  match nonempty target with
  | Some t => target_path t ++ network_conf_dir self
  | None => network_conf_dir self
  end.

Lemma render_network_state_raises (self : renderer_config) (ns : NetworkState)
                                  (target : option string) (e : exn) :
  _render_content ns = inl e ->
  render_network_state self ns target
  = ([EnsureDir (network_dir self target)], inl e).
Proof.
  intros R. unfold render_network_state, network_dir. now rewrite R.
Qed.

(** The conflict error and the disk.  In a version-2 model one of whose
    interfaces has the conflict of the two domain settings,
    [render_network_state] raises the [RuntimeError] after one call on its
    collaborators only, the [ensure_dir] of the network configuration
    directory that precedes [_render_content]: no file is written, no owner
    is set, and a disk that has the directory is left as it is.  The model
    is one in which no VLAN has the link [macaddress] and no bond lists an
    interface of that name. *)
Theorem conflict_error_writes_no_file (self : renderer_config)
                                      (ns : NetworkState)
                                      (target : option string)
                                      (i : iface) (d0 : Helpers.disk) :
  ns_version ns = 2%Z -> cfg_ethernets (ns_config_ ns) <> None ->
  mac_key_free ns ->
  In i (ns_iter_interfaces ns) -> iface_conflict ns i <> None ->
  exists msg,
    _render_content ns = inl (RuntimeError msg)
    /\ render_network_state self ns target
       = ([EnsureDir (network_dir self target)], inl (RuntimeError msg))
    /\ let d1 := Helpers.replay (fst (render_network_state self ns target)) d0 in
       Helpers.disk_files d1 = Helpers.disk_files d0
       /\ Helpers.disk_owners d1 = Helpers.disk_owners d0
       /\ (Py.mem (network_dir self target) (Helpers.disk_dirs d0) = true ->
           d1 = d0).
Proof.
  intros V E K I C.
  pose proof (render_content_outcome ns K V E) as RC.
  destruct (first_conflict ns) as [msg|] eqn:F.
  - exists msg. split; trivial.
    rewrite (render_network_state_raises self ns target _ RC).
    split; trivial. cbn [fst Helpers.replay fold_left Helpers.apply_event].
    destruct (Py.mem (network_dir self target) (Helpers.disk_dirs d0));
      repeat split; trivial; discriminate.
  - apply first_some_None with (x := i) in F; trivial. contradiction.
Qed.

End WithImports.

End RenderFacts.

(** ** More of the section accumulator and of the renderer *)

Module UnitFacts.

Import Py PyFacts CfgParser CfgFacts Renderer RenderFacts.

(** *** The sections of a [CfgParser] *)

Lemma keys_step (c : conf_dict) (a : call) : map fst (step c a) = map fst c.
Proof.
  unfold step. rewrite map_map. apply map_ext. intros [k v].
  unfold step_entry. simpl. now destruct (String.eqb k (call_sec a)).
Qed.

Lemma step_absent (c : conf_dict) (a : call) :
  ~ In (call_sec a) (map fst c) -> step c a = c.
Proof.
  unfold step. induction c as [|[k v] c IH]; simpl; trivial.
  intros N. rewrite IH by tauto. f_equal.
  unfold step_entry. simpl.
  destruct (String.eqb_spec k (call_sec a)) as [E|_]; trivial.
  destruct N. now left.
Qed.

Lemma clashes_absent (c : conf_dict) (a : call) :
  ~ In (call_sec a) (map fst c) -> clashes a c = false.
Proof.
  unfold clashes. induction c as [|[k v] c IH]; simpl; trivial.
  intros N. rewrite IH by tauto.
  destruct (String.eqb_spec k (call_sec a)) as [E|_]; trivial.
  destruct N. now left.
Qed.

Lemma apply_call_keys (c c' : conf_dict) (a : call) :
  apply_call c a = inr c' -> map fst c' = map fst c.
Proof.
  intros E. apply apply_call_inr in E. subst c'. apply keys_step.
Qed.

Lemma apply_call_absent (c : conf_dict) (a : call) :
  ~ In (call_sec a) (map fst c) -> apply_call c a = inr c.
Proof.
  intros N. now rewrite apply_call_step, clashes_absent, step_absent.
Qed.

(** The sections are those of [__init__] for good: no call of the two
    update methods adds a section or removes one, and a call that names a
    section that [conf_dict] does not have returns with [conf_dict] as it
    was, its line dropped. *)
Theorem update_never_adds_section (c : conf_dict) (sec rid key val : string) :
  (forall c', update_section c sec key val = inr c' -> map fst c' = map fst c)
  /\ (forall c', update_route_section c sec rid key val = inr c' ->
                 map fst c' = map fst c)
  /\ (~ In sec (map fst c) ->
      update_section c sec key val = inr c
      /\ update_route_section c sec rid key val = inr c).
Proof.
  split; [|split].
  - intros c'. apply (apply_call_keys c c' (Update sec key val)).
  - intros c'. apply (apply_call_keys c c' (UpdateRoute sec rid key val)).
  - intros N. split.
    + now apply (apply_call_absent c (Update sec key val)).
    + now apply (apply_call_absent c (UpdateRoute sec rid key val)).
Qed.

Lemma good_pure_run (cs : list call) (c : conf_dict) :
  good c -> good (pure_run cs c).
Proof.
  revert c; induction cs as [|a cs IH]; intros c G; simpl; trivial.
  now apply IH, good_step.
Qed.

Lemma good_run (cs : list call) (c c' : conf_dict) :
  good c -> run cs c = inr c' -> good c'.
Proof.
  intros G R. apply run_pure in R. destruct R as [_ ->].
  now apply good_pure_run.
Qed.

Lemma clashes_update_route_any (c : conf_dict) (sec rid key val : string) :
  good c -> clashes (UpdateRoute sec rid key val) c = list_section sec.
Proof.
  intros [S _]. rewrite clashes_shape, S. unfold shape, init, list_section, Py.mem.
  cbn [map existsb fst snd is_routes call_sec call_routes Bool.eqb negb].
  rewrite ?andb_false_r, ?andb_true_r, ?orb_false_r.
  rewrite !(String.eqb_sym sec).
  destruct (String.eqb "Match" sec), (String.eqb "Link" sec),
           (String.eqb "Network" sec), (String.eqb "DHCPv4" sec),
           (String.eqb "DHCPv6" sec), (String.eqb "Address" sec),
           (String.eqb "NetDev" sec), (String.eqb "VLAN" sec),
           (String.eqb "Bond" sec); reflexivity.
Qed.

(** The two update methods on the wrong kind of section.  On a
    [CfgParser] filled from fresh, [update_section] raises
    [AttributeError] on the ["Route"] section, whose value is a dict, and
    returns on every other name; [update_route_section] raises [TypeError]
    on each of the nine sections whose value is a list, and returns on
    every other name. *)
Theorem update_wrong_kind_raises (cs : list call) (c : conf_dict) :
  run cs init = inr c ->
  (forall key val, update_section c "Route" key val = inl AttributeError)
  /\ (forall sec key val, sec <> "Route" ->
        exists c', update_section c sec key val = inr c')
  /\ (forall sec rid key val, list_section sec = true ->
        update_route_section c sec rid key val = inl TypeError)
  /\ (forall sec rid key val, list_section sec = false ->
        exists c', update_route_section c sec rid key val = inr c').
Proof.
  intros R. pose proof (good_run cs init c good_init R) as G.
  split; [|split; [|split]].
  - intros key val.
    change (apply_call c (Update "Route" key val) = inl AttributeError).
    now rewrite apply_call_step, clashes_update.
  - intros sec key val N.
    change (exists c', apply_call c (Update sec key val) = inr c').
    rewrite apply_call_step, clashes_update by trivial.
    destruct (String.eqb_spec "Route" sec); [congruence|]. eauto.
  - intros sec rid key val L.
    change (apply_call c (UpdateRoute sec rid key val) = inl TypeError).
    now rewrite apply_call_step, clashes_update_route_any, L.
  - intros sec rid key val L.
    change (exists c', apply_call c (UpdateRoute sec rid key val) = inr c').
    rewrite apply_call_step, clashes_update_route_any, L by trivial. eauto.
Qed.

Lemma update_wrong_kind_raises_witness :
  run sample_calls init = inr sample_conf
  /\ update_section sample_conf "Route" "Gateway" "10.0.0.1"
     = inl AttributeError
  /\ update_route_section sample_conf "Network" "r0" "Gateway" "10.0.0.1"
     = inl TypeError.
Proof.
  split; [reflexivity|].
  destruct (update_wrong_kind_raises sample_calls sample_conf eq_refl)
    as (A & _ & T & _).
  split; [apply A | apply T; reflexivity].
Defined.

(** *** The layout of the text *)

Lemma tidy_run (cs : list call) (c : conf_dict) :
  run cs init = inr c -> tidy c.
Proof.
  intros R. apply run_pure in R. destruct R as [_ ->].
  apply tidy_pure_run, tidy_init.
Qed.

Lemma lines_of_sorted (c : conf_dict) (k : string) :
  tidy c -> strictly_sorted (lines_of c k).
Proof.
  intros T. unfold lines_of.
  destruct (dict_get c k) as [[l|d]|] eqn:E; try constructor.
  apply dict_get_In in E. unfold tidy in T. rewrite Forall_forall in T.
  exact (T _ E).
Qed.

Lemma routes_of_sorted (c : conf_dict) :
  tidy c -> Forall (fun nl => strictly_sorted (snd nl)) (routes_of c).
Proof.
  intros T. unfold routes_of.
  destruct (dict_get c "Route") as [[l|d]|] eqn:E; try constructor.
  apply dict_get_In in E. unfold tidy in T. rewrite Forall_forall in T.
  exact (T _ E).
Qed.

(** The layout of a unit.  For a [CfgParser] filled from fresh,
    [get_final_conf] returns the sections in the order Address, Bond,
    DHCPv4, DHCPv6, Link, Match, NetDev, Network, Route, VLAN, whatever the
    order in which they were filled: nothing for a section without lines,
    one [[Address]] stanza for each address, one [[Route]] stanza for each
    route identifier, in the order of the identifiers, and for every other
    section one stanza with all its lines.  A fresh [CfgParser] gives the
    empty text. *)
Theorem unit_text_layout (cs : list call) (c : conf_dict) :
  run cs init = inr c ->
  get_final_conf c
  = inr (text (map (section_text c)
                   ["Address"; "Bond"; "DHCPv4"; "DHCPv6"; "Link"; "Match";
                    "NetDev"; "Network"])
         ++ text (route_stanzas c) ++ section_text c "VLAN")
  /\ (forall k, lines_of c k = [] -> section_text c k = "")
  /\ (forall k, k <> "Address" -> lines_of c k <> [] ->
        section_text c k = stanza k (lines_of c k))
  /\ section_text c "Address"
     = text (map (fun e => "[Address]" ++ nl ++ e ++ nl ++ nl)
                 (lines_of c "Address"))
  /\ route_stanzas c
     = map (fun nl => stanza "Route" (snd nl)) (sorted_items (routes_of c))
  /\ map fst (sorted_items (routes_of c)) = sorted (map fst (routes_of c))
  /\ get_final_conf init = inr "".
Proof.
  intros R. pose proof (good_run cs init c good_init R) as G.
  pose proof (tidy_run cs c R) as T.
  assert (forall k, sorted (lines_of c k) = lines_of c k) as S.
  { intros k. apply sorted_id, strictly_weakly, lines_of_sorted, T. }
  split; [|split; [|split; [|split; [|split; [|split]]]]].
  - rewrite get_final_conf_spec by apply G. now rewrite serialize_good.
  - intros k E. unfold section_text, norm_secval. now rewrite E.
  - intros k N E. unfold section_text, norm_secval, item_text.
    rewrite S. cbn [fst snd].
    destruct (lines_of c k) as [|x l] eqn:L; [congruence|].
    rewrite <- L, S.
    destruct (String.eqb_spec k "Address"); [congruence|]. reflexivity.
  - unfold section_text, norm_secval, item_text. rewrite S. cbn [fst snd].
    destruct (lines_of c "Address") as [|x l] eqn:L; [reflexivity|].
    rewrite <- L, S. reflexivity.
  - unfold route_stanzas. f_equal.
    transitivity (sorted_items (map (fun nl => (fst nl, snd nl)) (routes_of c))).
    + f_equal. apply map_ext_in. intros [n l] I. simpl. f_equal.
      apply sorted_id, strictly_weakly.
      pose proof (routes_of_sorted c T) as F. rewrite Forall_forall in F.
      exact (F _ I).
    + f_equal. rewrite <- (map_id (routes_of c)) at 2.
      apply map_ext. now intros [n l].
  - apply map_fst_sorted_items.
  - reflexivity.
Qed.

Lemma unit_text_layout_witness :
  run sample_calls init = inr sample_conf
  /\ get_final_conf sample_conf
     = inr ("[Match]" ++ nl ++ "Name=eth0" ++ nl ++ nl
            ++ "[Network]" ++ nl ++ "DHCP=no" ++ nl ++ nl
            ++ "[Route]" ++ nl ++ "Gateway=10.0.0.254" ++ nl ++ nl
            ++ "[Route]" ++ nl ++ "Gateway=10.0.0.1" ++ nl ++ nl).
Proof.
  split; [reflexivity|].
  exact (proj1 (unit_text_layout sample_calls sample_conf eq_refl)).
Defined.

(** *** Normalizing twice *)

Import ValueFacts NormalizeFacts.

Lemma py_sorted_id (s : list pyval) : value_sorted s -> py_sorted s = Some s.
Proof.
  induction 1 as [|x r S IH F]; simpl; trivial.
  rewrite IH. destruct F as [|y r' Hy _]; simpl; trivial.
  unfold ple in Hy. now rewrite Hy.
Qed.

Lemma map_fixed {A} (f : A -> A) (l : list A) :
  Forall (fun x => f x = x) l -> map f l = l.
Proof. induction 1; simpl; congruence. Qed.

Lemma normalize_value_twice (data : pyval) :
  _normalize_value (_normalize_value data) = _normalize_value data.
Proof.
  induction data as [| | |l IH|d IH] using pyval_nested_ind; trivial.
  - assert (Forall (fun x => _normalize_value x = x) (map _normalize_value l))
      as F.
    { apply Forall_map. exact IH. }
    rewrite (normalize_value_list l).
    destruct (py_sorted (map _normalize_value l)) as [s|] eqn:E.
    + destruct (py_sorted_comparable _ _ E) as (_ & S & P).
      rewrite normalize_value_list.
      rewrite map_fixed
        by (eapply Permutation_Forall; [symmetry; exact P | exact F]).
      now rewrite py_sorted_id.
    + rewrite normalize_value_list, map_fixed by exact F. now rewrite E.
  - rewrite (normalize_value_dict d).
    set (items := map (fun kv => (fst kv, _normalize_value (snd kv))) d).
    rewrite normalize_value_dict. f_equal.
    assert (Forall (fun kv : string * pyval =>
                      (fst kv, _normalize_value (snd kv)) = kv) items) as F.
    { unfold items. apply Forall_map. rewrite Forall_forall in *.
      intros [k v] I. simpl. f_equal. exact (IH _ I). }
    rewrite map_fixed
      by (eapply Permutation_Forall;
          [symmetry; apply sorted_items_Permutation | exact F]).
    apply sorted_items_id. rewrite map_fst_sorted_items.
    apply sorted_weakly_sorted.
Qed.

(** The canonicalizer is idempotent: [_normalize_value] leaves what it
    returns as it is, and so does [normalize]. *)
Theorem normalize_idempotent :
  (forall data, _normalize_value (_normalize_value data) = _normalize_value data)
  /\ (forall data, normalize (normalize data) = normalize data).
Proof.
  split; [exact normalize_value_twice|].
  intros data. unfold normalize. rewrite map_map. apply map_ext.
  intros [k v]. now rewrite normalize_value_twice.
Qed.

(** *** Functions of the renderer as sequences of calls *)

Lemma bind_assoc {A B C} (m : M A) (f : A -> M B) (g : B -> M C) :
  bind (bind m f) g = bind m (fun a => bind (f a) g).
Proof. now destruct m. Qed.

Lemma bind_ext {A B} (m : M A) (f g : A -> M B) :
  (forall a, f a = g a) -> bind m f = bind m g.
Proof. intros E. destruct m; simpl; auto. Qed.

Lemma run_app (cs1 cs2 : list call) (c : conf_dict) :
  run (cs1 ++ cs2) c = bind (run cs1 c) (run cs2).
Proof.
  unfold run. revert c; induction cs1 as [|a cs1 IH]; intros c; simpl; trivial.
  destruct (apply_call c a); simpl; trivial.
Qed.

Lemma run_then {B} (cs1 cs2 : list call) (c : conf_dict)
               (k : conf_dict -> M B) :
  bind (run cs1 c) (fun c' => bind (run cs2 c') k)
  = bind (run (cs1 ++ cs2) c) k.
Proof. now rewrite run_app, bind_assoc. Qed.

Lemma run_one (a : call) (c : conf_dict) : run [a] c = apply_call c a.
Proof. unfold run. simpl. apply bind_ret. Qed.

(** The call that an optional value gives rise to. *)
Definition opt_call {A} (sec key : string) (o : option A) (f : A -> string)
  : list call :=
  match o with
  | Some v => [Update sec key (f v)]
  | None => []
  end.

Lemma update_if_run {A} (o : option A) (c : conf_dict) (sec key : string)
                    (f : A -> string) :
  update_if o c (fun v c => update_section c sec key (f v))
  = run (opt_call sec key o f) c.
Proof. destruct o; simpl; trivial. symmetry. apply (run_one (Update _ _ _)). Qed.

Lemma match_run {A} (o : option A) (c : conf_dict) (sec key : string)
                (f : A -> string) :
  match o with
  | Some v => update_section c sec key (f v)
  | None => ret c
  end
  = run (opt_call sec key o f) c.
Proof. exact (update_if_run o c sec key f). Qed.

(** The lines that a sequence of calls adds to a section. *)
Definition added (sec : string) (cs : list call) : list string :=
  flat_map (fun a => match a with
                     | Update s k v => if String.eqb s sec then [line k v] else []
                     | UpdateRoute _ _ _ _ => []
                     end) cs.

(** No call of the sequence is on the wrong kind of section. *)
Definition fits (a : call) : bool :=
  match a with
  | Update s _ _ => negb (String.eqb "Route" s)
  | UpdateRoute s _ _ _ => negb (list_section s)
  end.

Lemma clashes_fits (a : call) (c : conf_dict) :
  good c -> clashes a c = negb (fits a).
Proof.
  intros G. destruct a as [s k v|s r k v]; simpl.
  - rewrite clashes_update by trivial. now rewrite negb_involutive.
  - rewrite clashes_update_route_any by trivial. now rewrite negb_involutive.
Qed.

Lemma run_fits (cs : list call) (c : conf_dict) :
  good c -> forallb fits cs = true -> run cs c = inr (pure_run cs c).
Proof.
  intros G F. apply run_pure. split; trivial.
  rewrite <- F. clear F. induction cs as [|a cs IH]; simpl; trivial.
  now rewrite IH, clashes_fits, negb_involutive.
Qed.

Lemma lines_of_step (c : conf_dict) (a : call) (sec : string) :
  good c -> list_section sec = true ->
  forall x, In x (lines_of (step c a) sec)
            <-> In x (lines_of c sec) \/ In x (added sec [a]).
Proof.
  intros G L x. unfold lines_of at 1.
  rewrite dict_get_step, (good_lines c sec G L). cbn [option_map].
  destruct a as [s k v|s r k v]; cbn [call_sec call_value added flat_map].
  - rewrite (String.eqb_sym s sec).
    destruct (String.eqb sec s); simpl.
    + rewrite In_canon, in_app_iff. simpl. tauto.
    + tauto.
  - destruct (String.eqb sec s); simpl; tauto.
Qed.

Lemma added_app (sec : string) (cs1 cs2 : list call) :
  added sec (cs1 ++ cs2) = (added sec cs1 ++ added sec cs2)%list.
Proof. apply flat_map_app. Qed.

Lemma lines_of_pure_run (cs : list call) (c : conf_dict) (sec : string) :
  good c -> list_section sec = true ->
  forall x, In x (lines_of (pure_run cs c) sec)
            <-> In x (lines_of c sec) \/ In x (added sec cs).
Proof.
  intros G L. revert c G. induction cs as [|a cs IH]; intros c G x.
  - simpl. tauto.
  - change (pure_run (a :: cs) c) with (pure_run cs (step c a)).
    rewrite IH by now apply good_step.
    rewrite (lines_of_step c a sec G L).
    change (a :: cs) with ([a] ++ cs)%list. rewrite added_app, in_app_iff.
    tauto.
Qed.

Lemma routes_of_pure_run (cs : list call) (c : conf_dict) :
  forallb (fun a => negb (call_routes a)) cs = true ->
  routes_of (pure_run cs c) = routes_of c.
Proof.
  revert c. induction cs as [|a cs IH]; intros c F; simpl; trivial.
  simpl in F. apply andb_true_iff in F. destruct F as [Fa F].
  rewrite IH by trivial. unfold routes_of. rewrite dict_get_step.
  destruct a as [s k v|s r k v]; [|discriminate]. cbn [call_sec call_value].
  destruct (dict_get c "Route") as [[l|d]|]; cbn [option_map]; trivial;
    destruct (String.eqb "Route" s); trivial.
Qed.

Section WithImports.

Context `{Imports}.

(** *** Where the MAC address goes *)

Definition match_calls (i : iface) : list call :=
  (opt_call "Match" "Name" (nonempty (Some (iface_name i))) (fun v => v)
   ++ opt_call "Match" "Driver" (nonempty (iface_driver i)) (fun v => v)
   ++ (if String.eqb (iface_type i) "physical"
       then opt_call "Match" "MACAddress" (nonempty (iface_mac_address i))
                     (fun v => v)
       else []))%list.

Definition link_calls (i : iface) : list call :=
  (opt_call "Link" "MTUBytes" (nonzero (iface_mtu i)) Py.str_of_Z
   ++ (if negb (String.eqb (iface_type i) "physical")
       then opt_call "Link" "MACAddress" (nonempty (iface_mac_address i))
                     (fun v => v)
       else [])
   ++ match iface_optional i with
      | Some true => [Update "Link" "RequiredForOnline" "no"]
      | _ => []
      end)%list.

Lemma generate_match_section_run (i : iface) (cfg : conf_dict) :
  generate_match_section i cfg
  = (c <- run (match_calls i) cfg ;; ret (c, iface_name i)).
Proof.
  unfold generate_match_section, match_calls.
  rewrite (match_run (nonempty (Some (iface_name i))) cfg "Match" "Name"
             (fun v => v)).
  rewrite <- run_then. apply bind_ext. intros c.
  rewrite (match_run (nonempty (iface_driver i)) c "Match" "Driver"
             (fun v => v)).
  rewrite <- run_then. apply bind_ext. intros c'.
  destruct (String.eqb (iface_type i) "physical").
  - now rewrite (match_run (nonempty (iface_mac_address i)) c' "Match"
                   "MACAddress" (fun v => v)).
  - reflexivity.
Qed.

Lemma generate_link_section_run (i : iface) (cfg : conf_dict) :
  generate_link_section i cfg = run (link_calls i) cfg.
Proof.
  unfold generate_link_section, link_calls.
  rewrite (match_run (nonzero (iface_mtu i)) cfg "Link" "MTUBytes"
             Py.str_of_Z).
  rewrite run_app. apply bind_ext. intros c.
  rewrite run_app.
  assert ((if negb (String.eqb (iface_type i) "physical")
           then match nonempty (iface_mac_address i) with
                | Some v => update_section c "Link" "MACAddress" v
                | None => ret c
                end
           else ret c)
          = run (if negb (String.eqb (iface_type i) "physical")
                 then opt_call "Link" "MACAddress"
                               (nonempty (iface_mac_address i)) (fun v => v)
                 else []) c) as ->.
  { destruct (negb (String.eqb (iface_type i) "physical")); trivial.
    apply (match_run (nonempty (iface_mac_address i)) c "Link" "MACAddress"
             (fun v => v)). }
  apply bind_ext. intros c'.
  destruct (iface_optional i) as [[|]|]; trivial.
  symmetry. apply (run_one (Update _ _ _)).
Qed.

Lemma fits_match_calls (i : iface) : forallb fits (match_calls i) = true.
Proof.
  unfold match_calls, opt_call.
  destruct (nonempty (Some (iface_name i))), (nonempty (iface_driver i)),
           (String.eqb (iface_type i) "physical"),
           (nonempty (iface_mac_address i)); reflexivity.
Qed.

Lemma fits_link_calls (i : iface) : forallb fits (link_calls i) = true.
Proof.
  unfold link_calls, opt_call.
  destruct (nonzero (iface_mtu i)), (String.eqb (iface_type i) "physical"),
           (nonempty (iface_mac_address i)), (iface_optional i) as [[|]|];
    reflexivity.
Qed.

Lemma nonempty_Some (o : option string) (m : string) :
  nonempty o = Some m <-> o = Some m /\ m <> "".
Proof.
  unfold nonempty. destruct o as [s|].
  - destruct (String.eqb_spec s ""); split.
    + discriminate.
    + intros [[= ->] N]. contradiction.
    + intros [= ->]. auto.
    + now intros [[= ->] _].
  - split; [discriminate | now intros [? _]].
Qed.

Lemma added_match_mac (i : iface) (m : string) :
  In ("MACAddress=" ++ m) (added "Match" (match_calls i))
  <-> iface_type i = "physical" /\ nonempty (iface_mac_address i) = Some m.
Proof.
  unfold match_calls, opt_call.
  destruct (nonempty (Some (iface_name i))) as [n|],
           (nonempty (iface_driver i)) as [d|],
           (String.eqb_spec (iface_type i) "physical") as [P|P],
           (nonempty (iface_mac_address i)) as [a|];
    cbn; intuition congruence.
Qed.

Lemma added_link_mac (i : iface) (m : string) :
  In ("MACAddress=" ++ m) (added "Link" (link_calls i))
  <-> iface_type i <> "physical" /\ nonempty (iface_mac_address i) = Some m.
Proof.
  unfold link_calls, opt_call.
  destruct (nonzero (iface_mtu i)) as [u|],
           (String.eqb_spec (iface_type i) "physical") as [P|P],
           (nonempty (iface_mac_address i)) as [a|],
           (iface_optional i) as [[|]|];
    cbn; intuition congruence.
Qed.

Lemma added_elsewhere (i : iface) :
  added "Link" (match_calls i) = [] /\ added "Match" (link_calls i) = [].
Proof.
  unfold match_calls, link_calls, opt_call.
  destruct (nonempty (Some (iface_name i))), (nonempty (iface_driver i)),
           (nonzero (iface_mtu i)), (String.eqb (iface_type i) "physical"),
           (nonempty (iface_mac_address i)), (iface_optional i) as [[|]|];
    split; reflexivity.
Qed.

(** The MAC address of an interface goes to one section only: to
    [[Match]] when the interface is physical, to [[Link]] when it is not;
    an empty address goes nowhere.  [generate_match_section] returns the
    name of the interface. *)
Theorem mac_address_placement (i : iface) (cfg : conf_dict) :
  good cfg ->
  exists c1 c2,
    generate_match_section i cfg = inr (c1, iface_name i)
    /\ generate_link_section i c1 = inr c2
    /\ forall m,
         (In ("MACAddress=" ++ m) (lines_of c2 "Match")
          <-> In ("MACAddress=" ++ m) (lines_of cfg "Match")
              \/ (iface_type i = "physical"
                  /\ iface_mac_address i = Some m /\ m <> ""))
         /\ (In ("MACAddress=" ++ m) (lines_of c2 "Link")
             <-> In ("MACAddress=" ++ m) (lines_of cfg "Link")
                 \/ (iface_type i <> "physical"
                     /\ iface_mac_address i = Some m /\ m <> "")).
Proof.
  intros G.
  exists (pure_run (match_calls i) cfg),
         (pure_run (link_calls i) (pure_run (match_calls i) cfg)).
  pose proof (good_pure_run (match_calls i) cfg G) as G1.
  split; [|split].
  - rewrite generate_match_section_run.
    now rewrite (run_fits _ _ G (fits_match_calls i)).
  - rewrite generate_link_section_run.
    now rewrite (run_fits _ _ G1 (fits_link_calls i)).
  - intros m.
    rewrite !(lines_of_pure_run (link_calls i)) by (trivial; reflexivity).
    rewrite !(lines_of_pure_run (match_calls i)) by (trivial; reflexivity).
    rewrite added_match_mac, added_link_mac.
    destruct (added_elsewhere i) as [-> ->].
    rewrite <- (nonempty_Some (iface_mac_address i) m).
    simpl. tauto.
Qed.

(** *** The domain toggles and the overrides of a device *)

(** The value of [UseDomains] that [dhcp_domain] writes for the text [v]. *)
Definition use_domains (v : string) : string :=
  let r := str_casefold v in
  match translate_bool r with
  | Some b => if b then "yes" else "no"
  | None => if negb (String.eqb r "route") then "no" else r
  end.

Definition domain_calls (d : device) : list call :=
  (opt_call "DHCPv4" "UseDomains" (dev_dhcp4domain d) use_domains
   ++ opt_call "DHCPv6" "UseDomains" (dev_dhcp6domain d) use_domains)%list.

Lemma dhcp_domain_item_run (value : option string) (section : string)
                           (cfg : conf_dict) :
  dhcp_domain_item value section cfg
  = run (opt_call section "UseDomains" value use_domains) cfg.
Proof.
  destruct value as [v|]; simpl; trivial.
  symmetry. apply (run_one (Update section "UseDomains" (use_domains v))).
Qed.

Lemma dhcp_domain_run (d : device) (cfg : conf_dict) :
  dhcp_domain d cfg = run (domain_calls d) cfg.
Proof.
  unfold dhcp_domain, domain_calls. rewrite run_app.
  rewrite dhcp_domain_item_run. apply bind_ext. intros c.
  apply dhcp_domain_item_run.
Qed.

Lemma use_domains_values (v : string) :
  In (use_domains v) ["yes"; "no"; "route"].
Proof.
  unfold use_domains. destruct (translate_bool (str_casefold v)) as [[|]|].
  - simpl; auto.
  - simpl; auto.
  - destruct (String.eqb_spec (str_casefold v) "route") as [->|_]; simpl; auto.
Qed.

Lemma lines_of_untouched (cs : list call) (c : conf_dict) (sec : string) :
  forallb (fun a => negb (String.eqb sec (call_sec a))) cs = true ->
  lines_of (pure_run cs c) sec = lines_of c sec.
Proof.
  revert c. induction cs as [|a cs IH]; intros c F; simpl; trivial.
  simpl in F. apply andb_true_iff in F. destruct F as [Fa F].
  rewrite IH by trivial. unfold lines_of. rewrite dict_get_step.
  apply negb_true_iff in Fa. rewrite Fa.
  now destruct (dict_get c sec).
Qed.

(** [dhcp_domain] never raises and writes nothing but [UseDomains]: into
    [[DHCPv4]] for the key [dhcp4domain] of the device, into [[DHCPv6]]
    for [dhcp6domain], with a value that is always [yes], [no] or [route].
    The value written goes by the case-folded text of the key, whatever
    [str.casefold] and [translate_bool] do: [yes] or [no] as
    [translate_bool] says, [route] for the text [route], and [no] for text
    that is neither boolean-like nor [route]. *)
Theorem dhcp_domain_use_domains (d : device) (cfg : conf_dict) :
  good cfg ->
  exists cfg',
    dhcp_domain d cfg = inr cfg'
    /\ routes_of cfg' = routes_of cfg
    /\ (forall sec, sec <> "DHCPv4" -> sec <> "DHCPv6" ->
          lines_of cfg' sec = lines_of cfg sec)
    /\ (forall x, In x (lines_of cfg' "DHCPv4")
                  <-> In x (lines_of cfg "DHCPv4")
                      \/ exists v, dev_dhcp4domain d = Some v
                                   /\ x = "UseDomains=" ++ use_domains v)
    /\ (forall x, In x (lines_of cfg' "DHCPv6")
                  <-> In x (lines_of cfg "DHCPv6")
                      \/ exists v, dev_dhcp6domain d = Some v
                                   /\ x = "UseDomains=" ++ use_domains v)
    /\ (forall v, In (use_domains v) ["yes"; "no"; "route"])
    /\ (forall v, translate_bool (str_casefold v) = None ->
                  str_casefold v <> "route" -> use_domains v = "no")
    /\ (forall v b, translate_bool (str_casefold v) = Some b ->
                    use_domains v = if b then "yes" else "no")
    /\ (forall v, translate_bool (str_casefold v) = None ->
                  str_casefold v = "route" -> use_domains v = "route").
Proof.
  intros G. exists (pure_run (domain_calls d) cfg).
  assert (forallb fits (domain_calls d) = true) as F.
  { unfold domain_calls, opt_call.
    destruct (dev_dhcp4domain d), (dev_dhcp6domain d); reflexivity. }
  split; [|split; [|split; [|split; [|split; [|split; [|split; [|split]]]]]]].
  - rewrite dhcp_domain_run. now apply run_fits.
  - apply routes_of_pure_run. unfold domain_calls, opt_call.
    destruct (dev_dhcp4domain d), (dev_dhcp6domain d); reflexivity.
  - intros sec N4 N6. apply lines_of_untouched.
    unfold domain_calls, opt_call.
    destruct (dev_dhcp4domain d), (dev_dhcp6domain d); simpl; trivial;
      repeat (apply andb_true_iff; split); trivial; apply negb_true_iff;
      apply String.eqb_neq; trivial.
  - intros x. rewrite lines_of_pure_run by (trivial; reflexivity).
    unfold domain_calls, opt_call.
    destruct (dev_dhcp4domain d) as [v4|], (dev_dhcp6domain d) as [v6|];
      cbn [app added flat_map String.eqb Ascii.eqb Bool.eqb In line];
      split; intros [I|I]; auto.
    all: try (destruct I as [I|[]]; right; exists v4; split; trivial;
              now rewrite <- I).
    all: try (destruct I as (v & [= <-] & ->); right; now left).
    all: try contradiction.
    all: try (destruct I as (v & [=] & _)).
  - intros x. rewrite lines_of_pure_run by (trivial; reflexivity).
    unfold domain_calls, opt_call.
    destruct (dev_dhcp4domain d) as [v4|], (dev_dhcp6domain d) as [v6|];
      cbn [app added flat_map String.eqb Ascii.eqb Bool.eqb In line];
      split; intros [I|I]; auto.
    all: try (destruct I as [I|[]]; right; exists v6; split; trivial;
              now rewrite <- I).
    all: try (destruct I as (v & [= <-] & ->); right; now left).
    all: try contradiction.
    all: try (destruct I as (v & [=] & _)).
  - exact use_domains_values.
  - intros v T N. unfold use_domains. rewrite T.
    now destruct (String.eqb_spec (str_casefold v) "route").
  - intros v b T. unfold use_domains. now rewrite T.
  - intros v T R. unfold use_domains. now rewrite T, R.
Qed.

Definition override_calls (o : list (string * string)) (version : string)
  : list call :=
  flat_map (fun kv => opt_call ("DHCPv" ++ version) (fst kv)
                               (dict_get o (snd kv)) (fun x => x))
           (dhcp_config_maps version).

Lemma overrides_loop_run (o : list (string * string)) (section : string)
                         (maps : list (string * string)) (cfg : conf_dict) :
  foldM (fun cfg '(k, v) =>
           match dict_get o v with
           | Some x => update_section cfg section k x
           | None => ret cfg
           end) maps cfg
  = run (flat_map (fun kv => opt_call section (fst kv) (dict_get o (snd kv))
                                      (fun x => x)) maps) cfg.
Proof.
  revert cfg. induction maps as [|[k v] maps IH]; intros cfg; trivial.
  cbn [foldM flat_map fst snd]. rewrite run_app.
  rewrite (match_run (dict_get o v) cfg section k (fun x => x)).
  apply bind_ext. intros c. apply IH.
Qed.

Lemma fits_override_calls (o : list (string * string)) (version : string) :
  forallb fits (override_calls o version) = true.
Proof.
  unfold override_calls. apply forallb_forall. intros a I.
  apply in_flat_map in I. destruct I as ([k v] & _ & I).
  unfold opt_call in I. simpl in I.
  destruct (dict_get o v); [|contradiction].
  destruct I as [<-|[]]. reflexivity.
Qed.

Lemma added_override_calls (o : list (string * string)) (version x : string) :
  In x (added ("DHCPv" ++ version) (override_calls o version))
  <-> exists k v val, In (k, v) (dhcp_config_maps version)
                      /\ dict_get o v = Some val /\ x = k ++ "=" ++ val.
Proof.
  unfold added, override_calls. rewrite in_flat_map. split.
  - intros (a & Ia & Ix). apply in_flat_map in Ia.
    destruct Ia as ([k v] & Ikv & Ia). unfold opt_call in Ia. simpl in Ia.
    destruct (dict_get o v) as [val|] eqn:E; [|contradiction].
    destruct Ia as [<-|[]]. rewrite String.eqb_refl in Ix.
    destruct Ix as [<-|[]]. now exists k, v, val.
  - intros (k & v & val & I & E & ->).
    exists (Update ("DHCPv" ++ version) k val). split.
    + apply in_flat_map. exists (k, v). split; trivial.
      unfold opt_call. simpl. rewrite E. now left.
    + rewrite String.eqb_refl. now left.
Qed.

(** [parse_dhcp_overrides] for the protocol version [v]: it changes
    nothing unless the device has [dhcp<v>-overrides] and the DHCP mode of
    the interface is [yes] or [ipv<v>]; then it adds to the section
    [[DHCPv<v>]], and to no other, one line for each key of the overrides
    that the renderer knows.  The keys that only DHCPv4 has are never
    written for version 6. *)
Theorem dhcp_overrides_gated (cfg : conf_dict) (d : device)
                             (dhcp version : string) :
  good cfg -> In version ["4"; "6"] ->
  exists cfg',
    parse_dhcp_overrides cfg d dhcp version = inr cfg'
    /\ (dev_overrides d version = None -> cfg' = cfg)
    /\ (dhcp <> "yes" -> dhcp <> "ipv" ++ version -> cfg' = cfg)
    /\ routes_of cfg' = routes_of cfg
    /\ (forall sec, sec <> "DHCPv" ++ version ->
          lines_of cfg' sec = lines_of cfg sec)
    /\ (forall o, dev_overrides d version = Some o ->
          dhcp = "yes" \/ dhcp = "ipv" ++ version ->
          forall x,
            In x (lines_of cfg' ("DHCPv" ++ version))
            <-> In x (lines_of cfg ("DHCPv" ++ version))
                \/ exists k v val,
                     In (k, v) (dhcp_config_maps version)
                     /\ dict_get o v = Some val /\ x = k ++ "=" ++ val)
    /\ (forall k v, In (k, v) (dhcp_config_maps "6") ->
          ~ In k ["SendHostname"; "Hostname"; "RouteMetric"; "UseMTU";
                  "UseRoutes"]).
Proof.
  intros G V.
  assert (list_section ("DHCPv" ++ version) = true) as L
      by (destruct V as [<-|[<-|[]]]; reflexivity).
  assert (Py.mem dhcp ["yes"; "ipv" ++ version] = true
          <-> dhcp = "yes" \/ dhcp = "ipv" ++ version) as Mem.
  { unfold Py.mem. simpl. rewrite !orb_true_iff, !String.eqb_eq.
    intuition discriminate. }
  assert (forall k v, In (k, v) (dhcp_config_maps "6") ->
            ~ In k ["SendHostname"; "Hostname"; "RouteMetric"; "UseMTU";
                    "UseRoutes"]) as Six.
  { intros k v I K. simpl in I.
    repeat (destruct I as [[= <- <-]|I];
            [simpl in K; intuition discriminate|]).
    destruct I. }
  unfold parse_dhcp_overrides.
  destruct (dev_overrides d version) as [o|] eqn:O.
  - destruct (Py.mem dhcp ["yes"; "ipv" ++ version]) eqn:Mm.
    + exists (pure_run (override_calls o version) cfg).
      split; [|split; [|split; [|split; [|split; [|split]]]]]; trivial.
      * rewrite overrides_loop_run.
        apply (run_fits (override_calls o version) cfg G),
              fits_override_calls.
      * discriminate.
      * intros N1 N2. destruct (proj1 Mem eq_refl); contradiction.
      * apply routes_of_pure_run. apply forallb_forall. intros a I.
        unfold override_calls in I. apply in_flat_map in I.
        destruct I as ([k v] & _ & I). unfold opt_call in I. simpl in I.
        destruct (dict_get o v); [|contradiction].
        destruct I as [<-|[]]. reflexivity.
      * intros sec N. apply lines_of_untouched. apply forallb_forall.
        intros a I. unfold override_calls in I. apply in_flat_map in I.
        destruct I as ([k v] & _ & I). unfold opt_call in I. simpl in I.
        destruct (dict_get o v); [|contradiction].
        destruct I as [<-|[]]. simpl. apply negb_true_iff.
        now apply String.eqb_neq.
      * intros o' [= <-] _ x.
        rewrite lines_of_pure_run by trivial.
        now rewrite added_override_calls.
    + exists cfg.
      split; [|split; [|split; [|split; [|split; [|split]]]]]; trivial.
      intros o' _ D. apply Mem in D. congruence.
  - exists cfg.
    split; [|split; [|split; [|split; [|split; [|split]]]]]; trivial.
    discriminate.
Qed.

(** *** One route *)

Definition opt_route {A} (rid key : string) (o : option A) (f : A -> string)
  : list call :=
  match o with
  | Some v => [UpdateRoute "Route" rid key (f v)]
  | None => []
  end.

Definition route_prefix_text (conf : route) : string :=
  match route_prefix conf with
  | Some p => "/" ++ Py.str_of_Z p
  | None => ""
  end.

Definition route_calls (rid : string) (conf : route) : list call :=
  (opt_route rid "Gateway" (route_gateway conf) (fun v => v)
   ++ opt_route rid "Destination" (route_network conf)
                (fun v => (v ++ route_prefix_text conf)%string)
   ++ opt_route rid "Metric" (route_metric conf) Py.str_of_Z)%list.

Lemma match_route_run {A} (o : option A) (c : conf_dict) (rid key : string)
                      (f : A -> string) :
  match o with
  | Some v => update_route_section c "Route" rid key (f v)
  | None => ret c
  end
  = run (opt_route rid key o f) c.
Proof.
  destruct o; simpl; trivial. symmetry. apply (run_one (UpdateRoute _ _ _ _)).
Qed.

Lemma parse_routes_run (rid : string) (conf : route) (c : conf_dict) :
  parse_routes rid conf c = run (route_calls rid conf) c.
Proof.
  unfold parse_routes, route_calls. cbv zeta. fold (route_prefix_text conf).
  rewrite run_app.
  rewrite (match_route_run (route_gateway conf) c rid "Gateway" (fun v => v)).
  apply bind_ext. intros c1. rewrite run_app.
  rewrite (match_route_run (route_network conf) c1 rid "Destination"
             (fun v => v ++ route_prefix_text conf)).
  apply bind_ext. intros c2.
  apply (match_route_run (route_metric conf) c2 rid "Metric" Py.str_of_Z).
Qed.

Lemma lines_of_route_calls (cs : list call) (c : conf_dict) (sec : string) :
  forallb call_routes cs = true ->
  lines_of (pure_run cs c) sec = lines_of c sec.
Proof.
  revert c. induction cs as [|a cs IH]; intros c F; simpl; trivial.
  simpl in F. apply andb_true_iff in F. destruct F as [Fa F].
  rewrite IH by trivial. unfold lines_of. rewrite dict_get_step.
  destruct a as [s k v|s r k v]; [discriminate|].
  destruct (dict_get c sec) as [[l|d]|]; cbn [option_map]; trivial;
    destruct (String.eqb sec (call_sec (UpdateRoute s r k v))); trivial.
Qed.

Lemma add_group_other (d : list (string * list string)) (rid n : string)
                      (ls : list string) :
  n <> rid -> dict_get (add_group d (rid, ls)) n = dict_get d n.
Proof.
  intros N. unfold add_group. cbn [fst snd].
  revert d. induction ls as [|x ls IH]; intros d; simpl; trivial.
  rewrite IH, dict_get_radd.
  destruct (String.eqb_spec rid n); congruence.
Qed.

Lemma add_group_own (d : list (string * list string)) (rid : string)
                    (ls : list string) (x : string) :
  In x (get_or_nil (add_group d (rid, ls)) rid)
  <-> In x (get_or_nil d rid) \/ In x ls.
Proof.
  unfold add_group. cbn [fst snd].
  revert d. induction ls as [|y ls IH]; intros d; simpl; [tauto|].
  rewrite IH, get_or_nil_radd, String.eqb_refl, In_canon, in_app_iff.
  simpl. intuition.
Qed.

(** [parse_routes] touches the route identifier it is given and nothing
    else: the lines of every section and those of every other identifier
    stay as they were, and its own identifier gains the lines of the
    route: [Gateway=], [Destination=] with the prefix after a slash, and
    [Metric=], one for each key that the route has.  A route with none of
    the three keys leaves the [CfgParser] as it was, a prefix alone being
    dropped. *)
Theorem parse_routes_isolated (rid : string) (conf : route) (c : conf_dict) :
  good c ->
  exists c',
    parse_routes rid conf c = inr c'
    /\ (forall sec, lines_of c' sec = lines_of c sec)
    /\ (forall n, n <> rid ->
          dict_get (routes_of c') n = dict_get (routes_of c) n)
    /\ (forall x, In x (get_or_nil (routes_of c') rid)
                  <-> In x (get_or_nil (routes_of c) rid)
                      \/ In x (route_lines conf))
    /\ (route_lines conf = [] -> c' = c)
    /\ (forall x,
          In x (route_lines conf)
          <-> (exists v, route_gateway conf = Some v /\ x = "Gateway=" ++ v)
              \/ (exists v, route_network conf = Some v
                            /\ x = "Destination=" ++ v
                                   ++ match route_prefix conf with
                                      | Some p => "/" ++ Py.str_of_Z p
                                      | None => ""
                                      end)
              \/ (exists v, route_metric conf = Some v
                            /\ x = "Metric=" ++ Py.str_of_Z v)).
Proof.
  intros G.
  assert (forallb call_routes (route_calls rid conf) = true) as R.
  { unfold route_calls, opt_route.
    destruct (route_gateway conf), (route_network conf), (route_metric conf);
      reflexivity. }
  assert (forallb fits (route_calls rid conf) = true) as F.
  { unfold route_calls, opt_route.
    destruct (route_gateway conf), (route_network conf), (route_metric conf);
      reflexivity. }
  pose proof (run_fits _ _ G F) as E. rewrite <- parse_routes_run in E.
  destruct (parse_routes_spec rid conf c G) as (c' & E' & _ & _ & RR).
  rewrite E in E'. injection E' as <-.
  exists (pure_run (route_calls rid conf) c).
  unfold add_groups in RR. simpl in RR.
  split; [exact E|]. split; [|split; [|split; [|split]]].
  - intros sec. now apply lines_of_route_calls.
  - intros n N. rewrite RR. now apply add_group_other.
  - intros x. rewrite RR. apply add_group_own.
  - unfold route_lines, route_calls, opt_route.
    destruct (route_gateway conf), (route_network conf), (route_metric conf);
      simpl; trivial; discriminate.
  - intros x. unfold route_lines, line.
    destruct (route_gateway conf) as [g|], (route_network conf) as [n|],
             (route_metric conf) as [m|]; simpl; split;
      intros I;
      repeat match goal with
             | I : _ \/ _ |- _ => destruct I as [I|I]
             | I : exists _, _ |- _ => destruct I as (? & I & ->)
             | I : False |- _ => destruct I
             | I : Some _ = Some _ |- _ => injection I as <-
             | I : None = Some _ |- _ => discriminate I
             | I : _ = x |- _ => subst x
             end; eauto 7.
Qed.

(** *** When rendering raises and when it cannot *)

Lemma render_devices_return (ns : NetworkState) :
  mac_key_free ns ->
  (exists v, match cfg_vlans (ns_config_ ns) with
             | Some _ => r <- render_vlans ns ;; ret (Some (fst r), snd r)
             | None => ret (None, no_link_info)
             end = inr v /\ intact (snd v))
  /\ (exists b, match cfg_bonds (ns_config_ ns) with
                | Some _ => r <- render_bonds ns ;; ret (Some (fst r), snd r)
                | None => ret (None, no_link_info)
                end = inr b /\ intact (snd b)).
Proof.
  intros [Lv Lb]. split.
  - destruct (cfg_vlans (ns_config_ ns)); [|eexists; split; reflexivity].
    destruct (render_vlans_returns ns Lv) as (r & -> & N).
    eexists; split; [reflexivity | exact N].
  - destruct (cfg_bonds (ns_config_ ns)); [|eexists; split; reflexivity].
    destruct (render_bonds_returns ns Lb) as (r & -> & N).
    eexists; split; [reflexivity | exact N].
Qed.

Lemma iface_conf_missing_ethernets (ns : NetworkState) (vl bl : link_info)
                                   (i : iface) :
  ns_version ns = 2%Z -> cfg_ethernets (ns_config_ ns) = None ->
  iface_conf ns vl bl i = inl (KeyError "ethernets").
Proof.
  intros V E.
  destruct (iface_conf_sections ns vl bl i)
    as [(_ & _ & N) | (cfg & i' & _ & _ & _ & ->)]; [contradiction|].
  unfold version2_overrides. now rewrite V, E.
Qed.

Lemma iface_conf_version1 (ns : NetworkState) (vl bl : link_info) (i : iface) :
  ns_version ns = 1%Z ->
  returns (iface_conf ns vl bl i) (fun r => good (fst r)).
Proof.
  intros V.
  destruct (iface_conf_sections ns vl bl i)
    as [(_ & N & _) | (cfg & i' & _ & R & _ & ->)]; [contradiction|].
  unfold version2_overrides. rewrite V. cbn [Z.eqb Pos.eqb bind ret].
  eexists. split; [reflexivity|]. exact (routed_good _ _ _ R).
Qed.

(** Rendering a model.  A version-2 model whose configuration has no
    [ethernets] key raises [KeyError] on its first interface, whatever the
    interface, and [render_network_state] passes the error on after its
    [ensure_dir]; a model without interfaces is rendered, to no interface
    unit; and a version-1 model is always rendered: nothing in it makes
    [_render_content] raise.  The model is one in which no VLAN has the
    link [macaddress] and no bond lists an interface of that name. *)
Theorem render_content_errors (ns : NetworkState) :
  mac_key_free ns ->
  (ns_version ns = 2%Z -> cfg_ethernets (ns_config_ ns) = None ->
   ns_iter_interfaces ns <> [] ->
   _render_content ns = inl (KeyError "ethernets")
   /\ forall self target,
        render_network_state self ns target
        = ([EnsureDir (RenderFacts.network_dir self target)],
           inl (KeyError "ethernets")))
  /\ (ns_iter_interfaces ns = [] ->
      exists r, _render_content ns = inr r /\ network r = [])
  /\ (ns_version ns = 1%Z -> exists r, _render_content ns = inr r).
Proof.
  intros K.
  destruct (render_devices_return ns K) as [(v & Ev & Nv) (b & Eb & Nb)].
  split; [|split].
  - intros V E N.
    assert (_render_content ns = inl (KeyError "ethernets")) as R.
    { unfold _render_content. rewrite Ev, Eb. cbn [bind].
      destruct (ns_iter_interfaces ns) as [|i rest]; [congruence|].
      cbn [foldM]. rewrite render_iface_intact by trivial.
      now rewrite (iface_conf_missing_ethernets ns (snd v) (snd b) i V E). }
    split; trivial. intros self target.
    now apply render_network_state_raises.
  - intros N. unfold _render_content. rewrite Ev, Eb, N. cbn [bind foldM ret].
    eexists. split; reflexivity.
  - intros V. unfold _render_content. rewrite Ev, Eb. cbn [bind].
    destruct (returns_foldM (render_iface ns (snd v) (snd b)) (fun _ => True)
                (ns_iter_interfaces ns) [] I) as (texts & -> & _).
    + intros s i _ _. rewrite render_iface_intact by trivial.
      destruct (iface_conf_version1 ns (snd v) (snd b) i V) as (r & -> & G).
      cbn [bind].
      destruct (get_final_conf_returns _ G) as (text & -> & _). cbn [bind].
      now apply returns_ret.
    + eexists. reflexivity.
Qed.

(** *** The files of a model *)

(** What [create_network_file] writes for a text. *)
Definition trimmed (conf : string) : string :=
  if endswith conf (Py.nl ++ Py.nl) then drop_last conf else conf.

(** The file of a unit: its path and its content. *)
Definition unit_path (dir ext name : string) : string :=
  dir ++ "10-cloud-init-" ++ name ++ ext.

Definition unit_file (dir ext : string) (kv : string * string)
  : string * string :=
  (unit_path dir ext (fst kv), trimmed (snd kv)).

Definition file_events (f : string * string) : list event :=
  [ WriteFile (fst f) (snd f);
    ChownByName (fst f) "systemd-network" "systemd-network" ].

Lemma create_network_files_events (units : list (string * string))
                                   (dir ext : string) :
  create_network_files units dir ext
  = flat_map file_events (map (unit_file dir ext) units).
Proof.
  unfold create_network_files. induction units as [|[k v] units IH]; trivial.
  cbn [flat_map map]. now rewrite IH.
Qed.

(** *** The interface units *)

Lemma render_iface_sets (ns : NetworkState) (vl bl : link_info)
                        (d d' : list (string * string)) (i : iface) :
  render_iface ns vl bl d i = inr d' ->
  exists text, d' = dict_set d (iface_name i) text.
Proof.
  intros R. apply render_iface_inr in R. revert R.
  destruct (iface_conf_sections ns vl bl i)
    as [(-> & _) | (cfg & i' & _ & _ & _ & ->)]; [discriminate|].
  destruct (version2_overrides ns i' _ cfg) as [e|c]; [discriminate|].
  cbn [bind ret fst snd].
  destruct (get_final_conf c) as [e|text]; [discriminate|].
  intros [= <-]. now exists text.
Qed.

Lemma render_ifaces_keys (ns : NetworkState) (vl bl : link_info)
                         (l : list iface) (d d' : list (string * string)) :
  foldM (render_iface ns vl bl) l d = inr d' ->
  (forall k, In k (map fst d') <-> In k (map fst d) \/ In k (map iface_name l))
  /\ (NoDup (map fst d ++ map iface_name l) ->
      map fst d' = (map fst d ++ map iface_name l)%list).
Proof.
  revert d. induction l as [|i l IH]; intros d; cbn [foldM map].
  - intros [= <-]. rewrite app_nil_r. split; [simpl; tauto | trivial].
  - destruct (render_iface ns vl bl d i) as [e|d1] eqn:E; [discriminate|].
    cbn [bind]. intros F. destruct (IH d1 F) as [A B].
    destruct (render_iface_sets _ _ _ _ _ _ E) as (text & ->).
    rewrite map_fst_dict_set in A, B. unfold dict_mem in A, B.
    destruct (dict_get d (iface_name i)) as [v|] eqn:G.
    + split.
      * intros k. rewrite A. simpl. split; [tauto|].
        intros [K|[<-|K]]; auto. left.
        apply dict_get_In in G. apply (in_map fst) in G. exact G.
      * intros N. exfalso. apply dict_get_In in G. apply (in_map fst) in G.
        apply NoDup_remove_2 in N. apply N, in_app_iff. now left.
    + split.
      * intros k. rewrite A, in_app_iff. simpl. tauto.
      * intros N. rewrite <- app_assoc in B. apply B. exact N.
Qed.

(** The keys of the interface units. *)
Lemma render_content_keys (ns : NetworkState) (r : rendered) :
  _render_content ns = inr r ->
  (forall k, In k (map fst (network r))
             <-> In k (map iface_name (ns_iter_interfaces ns)))
  /\ (NoDup (map iface_name (ns_iter_interfaces ns)) ->
      map fst (network r) = map iface_name (ns_iter_interfaces ns)).
Proof.
  unfold _render_content.
  destruct (match cfg_vlans (ns_config_ ns) with
            | Some _ => r <- render_vlans ns ;; ret (Some (fst r), snd r)
            | None => ret (None, no_link_info)
            end) as [e|v]; [discriminate|].
  cbn [bind].
  destruct (match cfg_bonds (ns_config_ ns) with
            | Some _ => r <- render_bonds ns ;; ret (Some (fst r), snd r)
            | None => ret (None, no_link_info)
            end) as [e|b]; [discriminate|].
  cbn [bind].
  destruct (foldM (render_iface ns (snd v) (snd b)) (ns_iter_interfaces ns) [])
    as [e|texts] eqn:F; [discriminate|].
  cbn [bind ret]. intros [= <-]. cbn [network].
  destruct (render_ifaces_keys _ _ _ _ _ _ F) as [A B]. split.
  - intros k. rewrite A. simpl. tauto.
  - exact B.
Qed.

Lemma filter_units (units : list (string * string)) (names : list string) :
  (forall k, In k (map fst units) <-> In k names) ->
  ~ In "vlan_netdev" names -> ~ In "bond_netdev" names ->
  filter (fun kv => negb (Py.mem (fst kv) ["vlan_netdev"; "bond_netdev"])) units
  = units.
Proof.
  intros K V B. apply forallb_filter_id, forallb_forall. intros [k v] I.
  apply (in_map fst) in I. apply K in I. cbn [fst Py.mem existsb].
  destruct (String.eqb_spec k "vlan_netdev") as [->|_]; [contradiction|].
  destruct (String.eqb_spec k "bond_netdev") as [->|_]; [contradiction|].
  reflexivity.
Qed.

(** The calls of a rendering that succeeds: [ensure_dir] on the network
    directory, once and first, then for every unit [write_file]
    immediately followed by [chownbyname] of the same path to the user and
    group [systemd-network]; the interface units come first, with the
    extension [.network], then the VLAN and the bond units, with
    [.netdev]; every path is the directory, [10-cloud-init-], the name of
    the unit and the extension, and the text written is the text of the
    unit less one newline when it ends with two.  No interface has one of
    the names [vlan_netdev] and [bond_netdev], the keys under which the dict
    of the interface units also holds the two dicts of the device units:
    the unit of such an interface is popped in their place, it is not
    written, and [.items()] raises on it. *)
Theorem render_network_state_writes (self : renderer_config)
                                    (ns : NetworkState)
                                    (target : option string) (r : rendered) :
  ~ In "vlan_netdev" (map iface_name (ns_iter_interfaces ns)) ->
  ~ In "bond_netdev" (map iface_name (ns_iter_interfaces ns)) ->
  _render_content ns = inr r ->
  let dir := RenderFacts.network_dir self target in
  let vlans := match vlan_netdev r with Some d => d | None => [] end in
  let bonds := match bond_netdev r with Some d => d | None => [] end in
  let files := (map (unit_file dir ".network") (network r)
                ++ map (unit_file dir ".netdev") vlans
                ++ map (unit_file dir ".netdev") bonds)%list in
  render_network_state self ns target
  = (EnsureDir dir :: flat_map file_events files, inr tt)
  /\ map fst files
     = (map (unit_path dir ".network") (map fst (network r))
        ++ map (unit_path dir ".netdev") (map fst vlans ++ map fst bonds))%list
  /\ map snd files
     = map trimmed (map snd (network r) ++ map snd vlans ++ map snd bonds)%list.
Proof.
  intros V B R dir vlans bonds files. split; [|split].
  - destruct (render_content_keys ns r R) as [K _].
    unfold render_network_state. rewrite R.
    fold (RenderFacts.network_dir self target). fold dir.
    unfold popped.
    rewrite (proj2 (dict_get_None (network r) "vlan_netdev"))
      by (now rewrite K).
    rewrite (proj2 (dict_get_None (network r) "bond_netdev"))
      by (now rewrite K).
    fold vlans. fold bonds.
    rewrite (filter_units (network r)
               (map iface_name (ns_iter_interfaces ns))) by trivial.
    rewrite !create_network_files_events. unfold files.
    rewrite !flat_map_app, <- !app_assoc. reflexivity.
  - unfold files. rewrite !map_app, !map_map. reflexivity.
  - unfold files. rewrite !map_app, !map_map. reflexivity.
Qed.

(** The result of [_render_content], which files the interface units
    under the names of the interfaces next to the two keys [vlan_netdev]
    and [bond_netdev]: when no interface has one of these two names, it
    has one interface unit for each name of an interface, under that
    name, and when the names differ the units come in the order of the
    interfaces; it has the dict of the VLAN units exactly when the
    configuration has the key [vlans], and the dict of the bond units
    exactly when it has the key [bonds]. *)
Theorem render_content_units (ns : NetworkState) (r : rendered) :
  ~ In "vlan_netdev" (map iface_name (ns_iter_interfaces ns)) ->
  ~ In "bond_netdev" (map iface_name (ns_iter_interfaces ns)) ->
  _render_content ns = inr r ->
  (forall k, In k (map fst (network r))
             <-> In k (map iface_name (ns_iter_interfaces ns)))
  /\ (NoDup (map iface_name (ns_iter_interfaces ns)) ->
      map fst (network r) = map iface_name (ns_iter_interfaces ns))
  /\ (vlan_netdev r = None <-> cfg_vlans (ns_config_ ns) = None)
  /\ (bond_netdev r = None <-> cfg_bonds (ns_config_ ns) = None).
Proof.
  intros _ _. unfold _render_content.
  destruct (match cfg_vlans (ns_config_ ns) with
            | Some _ => r <- render_vlans ns ;; ret (Some (fst r), snd r)
            | None => ret (None, no_link_info)
            end) as [e|v] eqn:Ev; [discriminate|].
  cbn [bind].
  destruct (match cfg_bonds (ns_config_ ns) with
            | Some _ => r <- render_bonds ns ;; ret (Some (fst r), snd r)
            | None => ret (None, no_link_info)
            end) as [e|b] eqn:Eb; [discriminate|].
  cbn [bind].
  destruct (foldM (render_iface ns (snd v) (snd b)) (ns_iter_interfaces ns) [])
    as [e|texts] eqn:F; [discriminate|].
  cbn [bind ret]. intros [= <-]. cbn [network vlan_netdev bond_netdev].
  destruct (render_ifaces_keys _ _ _ _ _ _ F) as [A B].
  split; [|split; [|split]].
  - intros k. rewrite A. simpl. tauto.
  - exact B.
  - destruct (cfg_vlans (ns_config_ ns)).
    + destruct (render_vlans ns); [discriminate|]. injection Ev as <-.
      simpl. split; discriminate.
    + injection Ev as <-. simpl. tauto.
  - destruct (cfg_bonds (ns_config_ ns)).
    + destruct (render_bonds ns); [discriminate|]. injection Eb as <-.
      simpl. split; discriminate.
    + injection Eb as <-. simpl. tauto.
Qed.

(** *** VLANs *)

(** A VLAN that [render_vlans] does not skip. *)
Definition valid_vlan (item : string * vlan_cfg) : bool :=
  match vlan_id (snd item), vlan_link (snd item) with
  | Some _, Some _ => true
  | _, _ => false
  end.

Definition vlan_mac (v : vlan_cfg) : option string :=
  option_map str_lower (nonempty (vlan_macaddress v)).

Definition vlan_calls (name : string) (v : vlan_cfg) (id : Z) : list call :=
  ([Update "NetDev" "Name" name; Update "NetDev" "Kind" "vlan"]
   ++ opt_call "NetDev" "MTUBytes" (nonzero (vlan_mtu v)) Py.str_of_Z
   ++ opt_call "NetDev" "MACAddress" (vlan_mac v) (fun x => x)
   ++ [Update "VLAN" "Id" (Py.str_of_Z id)])%list.

(** The text of the unit of a VLAN. *)
Definition vlan_text (name : string) (v : vlan_cfg) (id : Z) : string :=
  "[NetDev]" ++ nl ++ "Kind=vlan" ++ nl
  ++ match vlan_mac v with
     | Some m => "MACAddress=" ++ m ++ nl
     | None => ""
     end
  ++ match nonzero (vlan_mtu v) with
     | Some u => "MTUBytes=" ++ Py.str_of_Z u ++ nl
     | None => ""
     end
  ++ "Name=" ++ name ++ nl ++ nl
  ++ "[VLAN]" ++ nl ++ "Id=" ++ Py.str_of_Z id ++ nl ++ nl.

Lemma vlan_calls_text (name : string) (v : vlan_cfg) (id : Z) :
  (c <- run (vlan_calls name v id) init ;; get_final_conf c)
  = inr (vlan_text name v id).
Proof.
  assert (forallb fits (vlan_calls name v id) = true) as F.
  { unfold vlan_calls, opt_call.
    destruct (nonzero (vlan_mtu v)), (vlan_mac v); reflexivity. }
  rewrite (run_fits _ _ good_init F). cbn [bind].
  rewrite get_final_conf_spec by (apply wf_pure_run, wf_init). f_equal.
  unfold vlan_calls, vlan_text, opt_call.
  destruct (nonzero (vlan_mtu v)) as [u|], (vlan_mac v) as [m|];
    try generalize (Py.str_of_Z u); generalize (Py.str_of_Z id); intros.
  all: cbn; unfold nl;
    repeat first [rewrite !append_assoc | progress cbn [String.append]];
    reflexivity.
Qed.

(** One turn of the loop of [render_vlans], on the two dicts it fills. *)
Definition vlan_step_names (names : list (string * string))
                           (item : string * vlan_cfg)
  : list (string * string) :=
  match vlan_id (snd item), vlan_link (snd item) with
  | Some _, Some parent => dict_set names parent (fst item)
  | _, _ => names
  end.

Definition vlan_step_macs (macs : list (string * string))
                          (item : string * vlan_cfg)
  : list (string * string) :=
  match vlan_id (snd item), vlan_link (snd item), vlan_mac (snd item) with
  | Some _, Some _, Some m => dict_set macs (fst item) m
  | _, _, _ => macs
  end.

Definition vlan_step_units (units : list (string * string))
                           (item : string * vlan_cfg)
  : list (string * string) :=
  match vlan_id (snd item), vlan_link (snd item) with
  | Some id, Some _ =>
      dict_set units (fst item) (vlan_text (fst item) (snd item) id)
  | _, _ => units
  end.

Lemma render_vlan_step (units : list (string * string)) (info : link_info)
                       (item : string * vlan_cfg) :
  intact info -> vlan_link (snd item) <> Some "macaddress" ->
  render_vlan (units, info) item
  = inr (vlan_step_units units item,
         mk_link_info (vlan_step_names (link_names info) item)
                      (vlan_step_macs (link_macaddress info) item)).
Proof.
  destruct item as [name v]. intros N L.
  unfold render_vlan, vlan_step_units, vlan_step_names, vlan_step_macs.
  cbn [fst snd] in *.
  destruct (vlan_id v) as [id|]; [|now destruct info].
  destruct (vlan_link v) as [parent|]; [|now destruct info].
  assert (dict_get (dict_set (link_names info) parent name) "macaddress"
          = None) as N'
      by (apply vlan_names_intact; [exact N | congruence]).
  fold (vlan_mac v).
  pose proof (vlan_calls_text name v id) as T. unfold vlan_calls in T.
  change (run ([Update "NetDev" "Name" name; Update "NetDev" "Kind" "vlan"]
               ++ ?rest) init)
    with (c <- update_section init "NetDev" "Name" name ;;
          c <- update_section c "NetDev" "Kind" "vlan" ;; run rest c) in T.
  destruct (update_section init "NetDev" "Name" name) as [e|c1];
    [discriminate|]. cbn [bind] in *.
  destruct (update_section c1 "NetDev" "Kind" "vlan") as [e|c2];
    [discriminate|]. cbn [bind] in *.
  rewrite run_app in T.
  rewrite (update_if_run (nonzero (vlan_mtu v)) c2 "NetDev" "MTUBytes"
             Py.str_of_Z).
  destruct (run (opt_call "NetDev" "MTUBytes" (nonzero (vlan_mtu v))
                          Py.str_of_Z) c2) as [e|c3]; [discriminate|].
  cbn [bind] in *. rewrite run_app in T.
  rewrite (update_if_run (vlan_mac v) c3 "NetDev" "MACAddress" (fun x => x)).
  destruct (run (opt_call "NetDev" "MACAddress" (vlan_mac v) (fun x => x)) c3)
    as [e|c4]; [discriminate|].
  cbn [bind] in *. rewrite (set_mac_intact _ _ _ _ N'). cbn [bind].
  rewrite (run_one (Update _ _ _)) in T. cbn [apply_call] in T.
  destruct (update_section c4 "VLAN" "Id" (Py.str_of_Z id)) as [e|c5];
    [discriminate|]. cbn [bind] in *.
  rewrite T. cbn [bind ret]. now destruct (vlan_mac v).
Qed.

Lemma render_vlans_fold (l : list (string * vlan_cfg))
                        (units : list (string * string)) (info : link_info) :
  intact info ->
  (forall item, In item l -> vlan_link (snd item) <> Some "macaddress") ->
  foldM render_vlan l (units, info)
  = inr (fold_left vlan_step_units l units,
         mk_link_info (fold_left vlan_step_names l (link_names info))
                      (fold_left vlan_step_macs l (link_macaddress info))).
Proof.
  revert units info. induction l as [|item l IH]; intros units info N L.
  - now destruct info.
  - cbn [foldM fold_left].
    rewrite render_vlan_step by (trivial; apply L; now left). cbn [bind].
    rewrite IH; trivial.
    + unfold intact, vlan_step_names. cbn [link_names].
      destruct (vlan_id (snd item)); trivial.
      destruct (vlan_link (snd item)) as [parent|] eqn:P; trivial.
      apply vlan_names_intact; trivial.
      intros ->. apply (L item); [now left | exact P].
    + intros x I. apply L. now right.
Qed.

(** The VLAN that ends up as the VLAN of a parent link: the last one, in
    the order of [ns.config["vlans"]], that has an [id] and names the
    parent as its [link]. *)
Definition last_vlan_on (parent : string) (vlans : list (string * vlan_cfg))
                        (before : option string) : option string :=
  fold_left (fun acc item =>
               match vlan_id (snd item), vlan_link (snd item) with
               | Some _, Some p =>
                   if String.eqb p parent then Some (fst item) else acc
               | _, _ => acc
               end) vlans before.

Lemma names_fold (parent : string) (l : list (string * vlan_cfg))
                 (names : list (string * string)) :
  dict_get (fold_left vlan_step_names l names) parent
  = last_vlan_on parent l (dict_get names parent).
Proof.
  unfold last_vlan_on. revert names.
  induction l as [|item l IH]; intros names; trivial.
  cbn [fold_left]. rewrite IH. f_equal. unfold vlan_step_names.
  destruct (vlan_id (snd item)), (vlan_link (snd item)); trivial.
  apply dict_get_set.
Qed.

Lemma units_fold_keys (l : list (string * vlan_cfg))
                      (units : list (string * string)) (name : string) :
  In name (map fst (fold_left vlan_step_units l units))
  <-> In name (map fst units)
      \/ exists v, In (name, v) l /\ valid_vlan (name, v) = true.
Proof.
  revert units. induction l as [|[n v] l IH]; intros units.
  - simpl. split; [tauto | intros [I|(v & [] & _)]; trivial].
  - cbn [fold_left]. rewrite IH. unfold vlan_step_units, valid_vlan.
    cbn [fst snd].
    destruct (vlan_id v) as [id|] eqn:Ei.
    + destruct (vlan_link v) as [p|] eqn:El.
      * rewrite map_fst_dict_set. split.
        -- intros [I|(w & I & V)].
           ++ destruct (dict_mem units n); auto.
              apply in_app_iff in I. destruct I as [I|[<-|[]]]; auto.
              right. exists v. rewrite Ei, El. simpl. auto.
           ++ right. exists w. simpl. auto.
        -- intros [I|(w & [[= <- <-]|I] & V)].
           ++ left. destruct (dict_mem units n); trivial.
              apply in_app_iff. now left.
           ++ left. unfold dict_mem.
              destruct (dict_get units n) eqn:G.
              ** apply dict_get_In in G. now apply (in_map fst) in G.
              ** apply in_app_iff. right. now left.
           ++ right. now exists w.
      * split.
        -- intros [I|(w & I & V)]; auto. right. exists w. simpl. auto.
        -- intros [I|(w & [[= <- <-]|I] & V)]; auto.
           ++ rewrite Ei, El in V. discriminate.
           ++ right. now exists w.
    + split.
      * intros [I|(w & I & V)]; auto. right. exists w. simpl. auto.
      * intros [I|(w & [[= <- <-]|I] & V)]; auto.
        -- rewrite Ei in V. discriminate.
        -- right. now exists w.
Qed.

Lemma units_fold_get (l : list (string * vlan_cfg))
                     (units : list (string * string)) (name : string)
                     (v : vlan_cfg) (id : Z) :
  NoDup (map fst l) -> In (name, v) l ->
  vlan_id v = Some id -> vlan_link v <> None ->
  dict_get (fold_left vlan_step_units l units) name
  = Some (vlan_text name v id).
Proof.
  revert units. induction l as [|[n w] l IH]; intros units N I Ei El.
  - destruct I.
  - cbn [fold_left]. inversion N as [|? ? Nn Nl]; subst.
    destruct I as [[= -> ->]|I].
    + assert (forall u, dict_get u name = Some (vlan_text name v id) ->
                dict_get (fold_left vlan_step_units l u) name
                = Some (vlan_text name v id)) as Keep.
      { clear -Nn. induction l as [|[n' w'] l IHl]; intros u G; trivial.
        cbn [fold_left]. apply IHl.
        - intros K. apply Nn. now right.
        - unfold vlan_step_units. cbn [fst snd].
          destruct (vlan_id w'), (vlan_link w'); trivial.
          rewrite dict_get_set.
          destruct (String.eqb_spec n' name) as [->|_]; trivial.
          destruct Nn. now left. }
      apply Keep. unfold vlan_step_units. cbn [fst snd]. rewrite Ei.
      destruct (vlan_link v); [|congruence].
      now rewrite dict_get_set, String.eqb_refl.
    + now apply IH.
Qed.

Lemma last_vlan_on_snoc (parent : string) (l : list (string * vlan_cfg))
                        (item : string * vlan_cfg) (before : option string) :
  last_vlan_on parent (l ++ [item]) before
  = if andb (valid_vlan item)
            (match vlan_link (snd item) with
             | Some p => String.eqb p parent
             | None => false
             end)
    then Some (fst item)
    else last_vlan_on parent l before.
Proof.
  unfold last_vlan_on, valid_vlan. rewrite fold_left_app. cbn [fold_left].
  destruct (vlan_id (snd item)), (vlan_link (snd item)) as [p|]; trivial.
Qed.

(** [render_vlans] never raises.  It skips a VLAN that lacks [id] or
    [link], which gets no unit and no entry in the link information, and
    for a parent link, which [macaddress] must not be the name of since
    that key of the same dict holds the MAC addresses, it records one
    VLAN only: the last of [ns.config["vlans"]] that names it, which
    replaces the ones before. *)
Theorem render_vlans_links (ns : NetworkState) :
  (forall item, In item (vlans_of ns) ->
     vlan_link (snd item) <> Some "macaddress") ->
  exists units info,
    render_vlans ns = inr (units, info)
    /\ (forall parent,
          dict_get (link_names info) parent
          = last_vlan_on parent (vlans_of ns) None)
    /\ (forall name,
          In name (map fst units)
          <-> exists v, In (name, v) (vlans_of ns)
                        /\ valid_vlan (name, v) = true)
    /\ (forall parent l item before,
          last_vlan_on parent (l ++ [item]) before
          = if andb (valid_vlan item)
                    (match vlan_link (snd item) with
                     | Some p => String.eqb p parent
                     | None => false
                     end)
            then Some (fst item)
            else last_vlan_on parent l before)
    /\ (forall parent before, last_vlan_on parent [] before = before).
Proof.
  intros L. unfold render_vlans. fold (vlans_of ns).
  rewrite render_vlans_fold by (trivial; reflexivity).
  eexists. eexists. split; [reflexivity|].
  split; [|split; [|split]].
  - intros parent. cbn [link_names no_link_info]. apply names_fold.
  - intros name. rewrite units_fold_keys. simpl. tauto.
  - exact last_vlan_on_snoc.
  - reflexivity.
Qed.

(** The unit of a VLAN.  For a VLAN of [ns.config["vlans"]] that has an
    [id] and a [link], [render_vlans] files under the name of the VLAN
    the text [[NetDev]], [Kind=vlan], [MACAddress=] with the address in
    lower case when it has one, [MTUBytes=] when it has an MTU that is
    not zero, [Name=], a blank line, [[VLAN]], [Id=] and a blank line, in
    this order.  No VLAN of the model has the link [macaddress], the key
    under which the link information holds the MAC addresses. *)
Theorem vlan_unit_text (ns : NetworkState) (name : string) (v : vlan_cfg)
                       (id : Z) :
  (forall item, In item (vlans_of ns) ->
     vlan_link (snd item) <> Some "macaddress") ->
  NoDup (map fst (vlans_of ns)) ->
  In (name, v) (vlans_of ns) ->
  vlan_id v = Some id -> vlan_link v <> None ->
  exists units info,
    render_vlans ns = inr (units, info)
    /\ dict_get units name
       = Some ("[NetDev]" ++ nl ++ "Kind=vlan" ++ nl
               ++ match option_map str_lower (nonempty (vlan_macaddress v)) with
                  | Some m => "MACAddress=" ++ m ++ nl
                  | None => ""
                  end
               ++ match nonzero (vlan_mtu v) with
                  | Some u => "MTUBytes=" ++ Py.str_of_Z u ++ nl
                  | None => ""
                  end
               ++ "Name=" ++ name ++ nl ++ nl
               ++ "[VLAN]" ++ nl ++ "Id=" ++ Py.str_of_Z id ++ nl ++ nl).
Proof.
  intros L N I Ei El. unfold render_vlans. fold (vlans_of ns).
  rewrite render_vlans_fold by (trivial; reflexivity).
  eexists. eexists. split; [reflexivity|].
  now apply units_fold_get.
Qed.

(** *** Bonds *)

(** One turn of the loop of [render_bonds], on the names it records. *)
Definition bond_step_names (names : list (string * string))
                           (item : string * bond_cfg)
  : list (string * string) :=
  match nonnil (bond_interfaces (snd item)) with
  | Some interfaces =>
      fold_left (fun d i => dict_set d i (fst item)) interfaces names
  | None => names
  end.

(** The bond that ends up as the bond of an interface: the last one, in
    the order of [ns.config["bonds"]], that lists the interface. *)
Definition last_bond_of (i : string) (bonds : list (string * bond_cfg))
                        (before : option string) : option string :=
  fold_left (fun acc item =>
               match nonnil (bond_interfaces (snd item)) with
               | Some interfaces =>
                   if Py.mem i interfaces then Some (fst item) else acc
               | None => acc
               end) bonds before.

Lemma render_bond_step (units : list (string * string)) (info : link_info)
                       (item : string * bond_cfg) (st : ndev_state) :
  render_bond (units, info) item = inr st ->
  link_names (snd st) = bond_step_names (link_names info) item
  /\ (nonnil (bond_interfaces (snd item)) = None -> fst st = units)
  /\ (nonnil (bond_interfaces (snd item)) <> None ->
      exists text, fst st = dict_set units (fst item) text).
Proof.
  destruct item as [name b]. unfold render_bond, bond_step_names.
  cbn [fst snd].
  destruct (nonnil (bond_interfaces b)) as [interfaces|].
  - destruct (update_section init "NetDev" "Name" name) as [e|c1];
      [discriminate|]. cbn [bind].
    destruct (update_section c1 "NetDev" "Kind" "bond") as [e|c2];
      [discriminate|]. cbn [bind].
    destruct (update_if (nonzero (bond_mtu b)) c2 _) as [e|c3];
      [discriminate|]. cbn [bind].
    destruct (update_if (option_map str_lower (nonempty (bond_macaddress b)))
                c3 _) as [e|c4]; [discriminate|]. cbn [bind].
    destruct (set_mac _ _ name _) as [e|macs]; [discriminate|]. cbn [bind].
    destruct (update_if (bond_parameters b) c4 render_bond_params) as [e|c5];
      [discriminate|]. cbn [bind].
    destruct (get_final_conf c5) as [e|text]; [discriminate|]. cbn [bind ret].
    intros [= <-]. cbn [fst snd link_names]. split; trivial.
    split; [discriminate|]. intros _. now exists text.
  - intros [= <-]. cbn [fst snd]. split; trivial. split; trivial.
    intros N. now destruct N.
Qed.

Lemma render_bonds_fold (l : list (string * bond_cfg)) (st st' : ndev_state) :
  foldM render_bond l st = inr st' ->
  (forall i, dict_get (link_names (snd st')) i
             = last_bond_of i l (dict_get (link_names (snd st)) i))
  /\ (forall name,
        In name (map fst (fst st'))
        <-> In name (map fst (fst st))
            \/ exists b, In (name, b) l
                         /\ nonnil (bond_interfaces b) <> None).
Proof.
  unfold last_bond_of. revert st. induction l as [|item l IH]; intros st.
  - intros [= <-]. split; trivial. intros name. split; [tauto|].
    intros [I|(b & [] & _)]; trivial.
  - cbn [foldM fold_left].
    destruct (render_bond st item) as [e|st1] eqn:E; [discriminate|].
    cbn [bind]. intros F. destruct (IH st1 F) as [A B].
    destruct st as [units info].
    destruct (render_bond_step units info item st1 E) as (N & U0 & U1).
    split.
    + intros i. rewrite A, N. f_equal. unfold bond_step_names.
      destruct (nonnil (bond_interfaces (snd item))); trivial.
      apply interfaces_fold.
    + intros name. rewrite B. cbn [fst]. destruct item as [n b0].
      cbn [fst snd] in *.
      destruct (nonnil (bond_interfaces b0)) as [ifs|] eqn:Ni.
      * destruct U1 as (text & ->); [discriminate|].
        rewrite map_fst_dict_set. split.
        -- intros [I|(b & I & V)].
           ++ destruct (dict_mem units n); auto.
              apply in_app_iff in I. destruct I as [I|[<-|[]]]; auto.
              right. exists b0. split; [now left|]. now rewrite Ni.
           ++ right. exists b. split; [now right|trivial].
        -- intros [I|(b & [[= <- <-]|I] & V)].
           ++ left. destruct (dict_mem units n); trivial.
              apply in_app_iff. now left.
           ++ left. unfold dict_mem.
              destruct (dict_get units n) eqn:G.
              ** apply dict_get_In in G. now apply (in_map fst) in G.
              ** apply in_app_iff. right. now left.
           ++ right. now exists b.
      * rewrite (U0 eq_refl). split.
        -- intros [I|(b & I & V)]; auto. right. exists b. split; auto.
           now right.
        -- intros [I|(b & [[= <- <-]|I] & V)]; auto.
           ++ now destruct V.
           ++ right. now exists b.
Qed.

(** [render_bonds] never raises.  It skips a bond without interfaces,
    which gets no unit, and records for every interface that a bond
    lists, [macaddress] being no such interface since that key of the
    same dict holds the MAC addresses, the name of one bond only: the
    last of [ns.config["bonds"]] that lists it. *)
Theorem render_bonds_links (ns : NetworkState) :
  (forall item l, In item (bonds_of ns) ->
     bond_interfaces (snd item) = Some l -> ~ In "macaddress" l) ->
  exists units info,
    render_bonds ns = inr (units, info)
    /\ (forall i, dict_get (link_names info) i
                  = last_bond_of i (bonds_of ns) None)
    /\ (forall name,
          In name (map fst units)
          <-> exists b, In (name, b) (bonds_of ns)
                        /\ nonnil (bond_interfaces b) <> None)
    /\ (forall i l item before,
          last_bond_of i (l ++ [item]) before
          = match nonnil (bond_interfaces (snd item)) with
            | Some interfaces =>
                if Py.mem i interfaces then Some (fst item)
                else last_bond_of i l before
            | None => last_bond_of i l before
            end)
    /\ (forall i before, last_bond_of i [] before = before).
Proof.
  intros L. destruct (render_bonds_returns ns L) as ([units info] & E & _).
  exists units, info. split; [exact E|].
  unfold render_bonds in E. fold (bonds_of ns) in E.
  destruct (render_bonds_fold _ _ _ E) as [A B].
  split; [|split; [|split]].
  - intros i. now rewrite A.
  - intros name. rewrite B. simpl. tauto.
  - intros i l item before. unfold last_bond_of. rewrite fold_left_app.
    reflexivity.
  - reflexivity.
Qed.

(** *** The subnets of an interface *)

Fixpoint indexed_route_calls (tag : string) (rid : Z) (routes : list route)
  : list call :=
  match routes with
  | [] => []
  | r :: rest =>
      (route_calls (tag ++ Py.str_of_Z rid) r
       ++ indexed_route_calls tag (rid + 1) rest)%list
  end.

Lemma parse_subnet_routes_run (routes : list route) (st : subnets_state) :
  parse_subnet_routes routes st
  = (c <- run (indexed_route_calls "r" (st_rid st) routes) (st_cfg st) ;;
     ret (mk_st c (st_dhcp st)
                (st_rid st + Z.of_nat (List.length routes)))).
Proof.
  unfold parse_subnet_routes. revert st.
  induction routes as [|r routes IH]; intros st.
  - destruct st as [c d n]. cbn. now rewrite Z.add_0_r.
  - cbn [foldM indexed_route_calls]. rewrite parse_routes_run, run_app.
    rewrite !bind_assoc. apply bind_ext. intros c. cbn [bind ret].
    rewrite IH. cbn [st_cfg st_dhcp st_rid]. apply bind_ext. intros c'.
    unfold ret. do 2 f_equal. cbn [List.length]. lia.
Qed.

Definition gateway_calls (rid : Z) (gw addr : string) : list call :=
  UpdateRoute "Route" ("a" ++ Py.str_of_Z rid) "Gateway" gw
  :: (if should_add_gateway_onlink_flag gw addr
      then [UpdateRoute "Route" ("a" ++ Py.str_of_Z rid) "GatewayOnLink" "yes"]
      else []).

Definition address_calls (e : subnet) (rid : Z) : list call :=
  match subnet_address e with
  | None => []
  | Some a =>
      (Update "Address" "Address" (subnet_addr e a)
       :: match subnet_gateway e with
          | Some gw => gateway_calls rid gw (subnet_addr e a)
          | None => []
          end
       ++ opt_call "Network" "DNS" (subnet_dns_nameservers e) (Py.join " ")
       ++ opt_call "Network" "Domains" (subnet_dns_search e) (Py.join " "))%list
  end.

Definition address_next (e : subnet) (rid : Z) : Z :=
  match subnet_address e, subnet_gateway e with
  | Some _, Some _ => rid + 1
  | _, _ => rid
  end.

Lemma parse_subnet_address_run (e : subnet) (st : subnets_state) :
  parse_subnet_address e st
  = (c <- run (address_calls e (st_rid st)) (st_cfg st) ;;
     ret (mk_st c (st_dhcp st) (address_next e (st_rid st)))).
Proof.
  unfold parse_subnet_address, address_calls, address_next.
  destruct (subnet_address e) as [a|]; [|now destruct st].
  fold (subnet_addr e a).
  change (run (?x :: ?l) ?c) with (c' <- apply_call c x ;; run l c').
  cbn [apply_call]. rewrite bind_assoc. apply bind_ext. intros c1.
  rewrite run_app, !bind_assoc.
  destruct (subnet_gateway e) as [gw|].
  - unfold gateway_calls.
    change (run (?x :: ?l) ?c) with (c' <- apply_call c x ;; run l c').
    cbn [apply_call]. rewrite !bind_assoc. apply bind_ext. intros c2.
    assert ((if should_add_gateway_onlink_flag gw (subnet_addr e a)
             then update_route_section c2 "Route"
                    ("a" ++ Py.str_of_Z (st_rid st)) "GatewayOnLink" "yes"
             else ret c2)
            = run (if should_add_gateway_onlink_flag gw (subnet_addr e a)
                   then [UpdateRoute "Route" ("a" ++ Py.str_of_Z (st_rid st))
                                     "GatewayOnLink" "yes"]
                   else []) c2) as ->.
    { destruct (should_add_gateway_onlink_flag gw (subnet_addr e a)); trivial.
      symmetry. apply (run_one (UpdateRoute _ _ _ _)). }
    rewrite !bind_assoc. apply bind_ext. intros c3. cbn [bind ret st_cfg].
    rewrite run_app, bind_assoc.
    rewrite (match_run (subnet_dns_nameservers e) c3 "Network" "DNS"
               (Py.join " ")).
    apply bind_ext. intros c4.
    rewrite (match_run (subnet_dns_search e) c4 "Network" "Domains"
               (Py.join " ")).
    reflexivity.
  - cbn [run foldM bind ret st_cfg st_dhcp st_rid].
    rewrite run_app, bind_assoc.
    rewrite (match_run (subnet_dns_nameservers e) c1 "Network" "DNS"
               (Py.join " ")).
    apply bind_ext. intros c4.
    rewrite (match_run (subnet_dns_search e) c4 "Network" "Domains"
               (Py.join " ")).
    reflexivity.
Qed.

Definition subnet_calls (rid : Z) (e : subnet) : list call :=
  (indexed_route_calls "r" rid (subnet_routes_list e)
   ++ address_calls e (rid + Z.of_nat (List.length (subnet_routes_list e))))%list.

Definition subnet_rid (rid : Z) (e : subnet) : Z :=
  address_next e (rid + Z.of_nat (List.length (subnet_routes_list e))).

Lemma parse_subnet_run (st : subnets_state) (e : subnet) :
  parse_subnet st e
  = (c <- run (subnet_calls (st_rid st) e) (st_cfg st) ;;
     ret (mk_st c (dhcp_step (st_dhcp st) (subnet_type e))
                (subnet_rid (st_rid st) e))).
Proof.
  unfold parse_subnet, subnet_calls, subnet_rid, subnet_routes_list.
  rewrite run_app, bind_assoc.
  destruct (subnet_routes e) as [[|r routes]|]; cbn [nonnil].
  - cbn [indexed_route_calls run foldM bind ret List.length Z.of_nat].
    rewrite parse_subnet_address_run. cbn [st_cfg st_dhcp st_rid].
    now rewrite Z.add_0_r.
  - rewrite parse_subnet_routes_run. cbn [st_cfg st_dhcp st_rid].
    rewrite bind_assoc. apply bind_ext. intros c. cbn [bind ret].
    now rewrite parse_subnet_address_run.
  - cbn [indexed_route_calls run foldM bind ret List.length Z.of_nat].
    rewrite parse_subnet_address_run. cbn [st_cfg st_dhcp st_rid].
    now rewrite Z.add_0_r.
Qed.

Fixpoint subnets_calls (rid : Z) (subnets : list subnet) : list call :=
  match subnets with
  | [] => []
  | e :: rest =>
      (subnet_calls rid e ++ subnets_calls (subnet_rid rid e) rest)%list
  end.

Lemma parse_subnets_loop_run (subnets : list subnet) (st : subnets_state) :
  exists rid,
    foldM parse_subnet subnets st
    = (c <- run (subnets_calls (st_rid st) subnets) (st_cfg st) ;;
       ret (mk_st c (fold_left dhcp_step (map subnet_type subnets) (st_dhcp st))
                  rid)).
Proof.
  revert st. induction subnets as [|e subnets IH]; intros st.
  - exists (st_rid st). now destruct st.
  - destruct (IH (mk_st init (dhcp_step (st_dhcp st) (subnet_type e))
                        (subnet_rid (st_rid st) e))) as (rid & _).
    assert (forall c,
              exists rid,
                foldM parse_subnet subnets
                  (mk_st c (dhcp_step (st_dhcp st) (subnet_type e))
                         (subnet_rid (st_rid st) e))
                = (c' <- run (subnets_calls (subnet_rid (st_rid st) e) subnets)
                           c ;;
                   ret (mk_st c' (fold_left dhcp_step (map subnet_type subnets)
                                    (dhcp_step (st_dhcp st) (subnet_type e)))
                              rid))) as Step.
    { intros c. exact (IH (mk_st c _ _)). }
    clear IH rid.
    cbn [foldM subnets_calls map fold_left]. rewrite parse_subnet_run.
    rewrite run_app, !bind_assoc.
    destruct (run (subnet_calls (st_rid st) e) (st_cfg st)) as [err|c].
    + exists 0%Z. reflexivity.
    + cbn [bind ret]. apply Step.
Qed.

Definition accept_ra_calls (i : iface) : list call :=
  opt_call "Network" "IPv6AcceptRA" (iface_accept_ra i)
           (fun b : bool => if b then "yes" else "no").

Definition subnets_all_calls (i : iface) : list call :=
  (subnets_calls 0 (iface_subnets_list i)
   ++ Update "Network" "DHCP" (dhcp_mode (iface_subnets_list i))
   :: accept_ra_calls i)%list.

Lemma parse_subnets_run (i : iface) (cfg : conf_dict) :
  parse_subnets i cfg
  = (c <- run (subnets_all_calls i) cfg ;;
     ret (c, dhcp_mode (iface_subnets_list i))).
Proof.
  unfold parse_subnets, subnets_all_calls. fold (iface_subnets_list i).
  destruct (parse_subnets_loop_run (iface_subnets_list i) (mk_st cfg "no" 0))
    as (rid & ->).
  cbn [st_cfg st_dhcp st_rid]. fold (dhcp_mode (iface_subnets_list i)).
  rewrite run_app, !bind_assoc. apply bind_ext. intros c.
  cbn [bind ret st_cfg st_dhcp].
  change (run (?x :: ?l) ?c) with (c' <- apply_call c x ;; run l c').
  cbn [apply_call]. rewrite bind_assoc. apply bind_ext. intros c1.
  unfold accept_ra_calls.
  rewrite (match_run (iface_accept_ra i) c1 "Network" "IPv6AcceptRA"
             (fun b : bool => if b then "yes" else "no")).
  reflexivity.
Qed.

Lemma added_routes (sec : string) (cs : list call) :
  forallb call_routes cs = true -> added sec cs = [].
Proof.
  induction cs as [|a cs IH]; trivial. simpl. intros F.
  apply andb_true_iff in F. destruct F as [Fa F].
  destruct a; [discriminate|]. now apply IH.
Qed.

Lemma route_calls_routes (rid : string) (conf : route) :
  forallb call_routes (route_calls rid conf) = true
  /\ forallb fits (route_calls rid conf) = true.
Proof.
  unfold route_calls, opt_route.
  destruct (route_gateway conf), (route_network conf), (route_metric conf);
    split; reflexivity.
Qed.

Lemma indexed_route_calls_routes (tag : string) (rid : Z)
                                 (routes : list route) :
  forallb call_routes (indexed_route_calls tag rid routes) = true
  /\ forallb fits (indexed_route_calls tag rid routes) = true.
Proof.
  revert rid. induction routes as [|r routes IH]; intros rid; simpl; auto.
  rewrite !forallb_app.
  destruct (route_calls_routes (tag ++ Py.str_of_Z rid) r) as [-> ->].
  destruct (IH (rid + 1)%Z) as [-> ->]. auto.
Qed.

(** The lines that a subnet adds to a section that holds a list. *)
Definition address_lines (sec : string) (e : subnet) : list string :=
  match subnet_address e with
  | None => []
  | Some a =>
      ((if String.eqb "Address" sec
        then [line "Address" (subnet_addr e a)] else [])
       ++ match subnet_dns_nameservers e with
          | Some l => if String.eqb "Network" sec
                      then [line "DNS" (Py.join " " l)] else []
          | None => []
          end
       ++ match subnet_dns_search e with
          | Some l => if String.eqb "Network" sec
                      then [line "Domains" (Py.join " " l)] else []
          | None => []
          end)%list
  end.

Lemma added_address_calls (sec : string) (e : subnet) (rid : Z) :
  added sec (address_calls e rid) = address_lines sec e
  /\ forallb fits (address_calls e rid) = true.
Proof.
  unfold address_calls, address_lines, gateway_calls, opt_call.
  destruct (subnet_address e) as [a|]; [|auto].
  destruct (subnet_gateway e) as [gw|];
    [destruct (should_add_gateway_onlink_flag gw (subnet_addr e a))|];
    destruct (subnet_dns_nameservers e), (subnet_dns_search e);
    (split; [cbn [added flat_map app]; now rewrite ?app_nil_r | reflexivity]).
Qed.

Lemma added_subnets_calls (sec : string) (rid : Z) (subnets : list subnet) :
  added sec (subnets_calls rid subnets) = flat_map (address_lines sec) subnets
  /\ forallb fits (subnets_calls rid subnets) = true.
Proof.
  revert rid. induction subnets as [|e subnets IH]; intros rid; simpl; auto.
  unfold subnet_calls. rewrite !added_app, !forallb_app.
  destruct (indexed_route_calls_routes "r" rid (subnet_routes_list e))
    as [R ->].
  rewrite (added_routes sec _ R).
  destruct (added_address_calls sec e
              (rid + Z.of_nat (List.length (subnet_routes_list e)))) as [-> ->].
  destruct (IH (subnet_rid rid e)) as [-> ->]. auto.
Qed.

Lemma added_subnets_all_calls (sec : string) (i : iface) :
  added sec (subnets_all_calls i)
  = (flat_map (address_lines sec) (iface_subnets_list i)
     ++ (if String.eqb "Network" sec
         then [line "DHCP" (dhcp_mode (iface_subnets_list i))] else [])
     ++ match iface_accept_ra i with
        | Some b => if String.eqb "Network" sec
                    then [line "IPv6AcceptRA" (if b then "yes" else "no")]
                    else []
        | None => []
        end)%list
  /\ forallb fits (subnets_all_calls i) = true.
Proof.
  unfold subnets_all_calls, accept_ra_calls, opt_call.
  rewrite added_app, forallb_app.
  destruct (added_subnets_calls sec 0 (iface_subnets_list i)) as [-> ->].
  destruct (iface_accept_ra i);
    (split; [cbn [added flat_map app]; now rewrite ?app_nil_r | reflexivity]).
Qed.

(** The lines of [parse_subnets].  It writes [Address=] with the address
    and, after a slash, the prefix for every subnet that has an address;
    [DNS=] and [Domains=], each list joined with spaces, for the name
    servers and the search domains of a subnet that has an address, those
    of a subnet without address being dropped; [DHCP=] with the mode; and
    [IPv6AcceptRA=yes] or [=no] when the interface says so.  It adds
    nothing else to a section that holds a list. *)
Theorem parse_subnets_lines (i : iface) (cfg : conf_dict) :
  good cfg ->
  let subnets := iface_subnets_list i in
  exists cfg',
    parse_subnets i cfg = inr (cfg', dhcp_mode subnets)
    /\ (forall x,
          In x (lines_of cfg' "Address")
          <-> In x (lines_of cfg "Address")
              \/ exists e a, In e subnets /\ subnet_address e = Some a
                             /\ x = "Address=" ++ subnet_addr e a)
    /\ (forall x,
          In x (lines_of cfg' "Network")
          <-> In x (lines_of cfg "Network")
              \/ x = "DHCP=" ++ dhcp_mode subnets
              \/ (exists b, iface_accept_ra i = Some b
                            /\ x = "IPv6AcceptRA="
                                   ++ (if b : bool then "yes" else "no"))
              \/ (exists e l, In e subnets /\ subnet_address e <> None
                              /\ subnet_dns_nameservers e = Some l
                              /\ x = "DNS=" ++ Py.join " " l)
              \/ (exists e l, In e subnets /\ subnet_address e <> None
                              /\ subnet_dns_search e = Some l
                              /\ x = "Domains=" ++ Py.join " " l))
    /\ (forall sec, list_section sec = true ->
          sec <> "Address" -> sec <> "Network" ->
          forall x, In x (lines_of cfg' sec) <-> In x (lines_of cfg sec)).
Proof.
  intros G subnets. exists (pure_run (subnets_all_calls i) cfg).
  split; [|split; [|split]].
  - rewrite parse_subnets_run.
    now rewrite (run_fits _ _ G (proj2 (added_subnets_all_calls "" i))).
  - intros x. rewrite lines_of_pure_run by (trivial; reflexivity).
    rewrite (proj1 (added_subnets_all_calls "Address" i)).
    fold subnets. rewrite !in_app_iff, in_flat_map.
    change (String.eqb "Network" "Address") with false.
    split.
    + intros [I|[(e & Ie & Ix)|[[]|I]]]; auto.
      * right. unfold address_lines in Ix.
        destruct (subnet_address e) as [a|] eqn:A; [|destruct Ix].
        change (String.eqb "Address" "Address") with true in Ix.
        change (String.eqb "Network" "Address") with false in Ix.
        destruct (subnet_dns_nameservers e), (subnet_dns_search e);
          simpl in Ix; destruct Ix as [<-|[]]; now exists e, a.
      * destruct (iface_accept_ra i); destruct I.
    + intros [I|(e & a & Ie & A & ->)]; auto.
      right. left. exists e. split; trivial. unfold address_lines.
      rewrite A. change (String.eqb "Address" "Address") with true.
      now left.
  - intros x. rewrite lines_of_pure_run by (trivial; reflexivity).
    rewrite (proj1 (added_subnets_all_calls "Network" i)).
    fold subnets. rewrite !in_app_iff, in_flat_map.
    change (String.eqb "Network" "Network") with true.
    split.
    + intros [I|[(e & Ie & Ix)|[[<-|[]]|I]]]; auto.
      * unfold address_lines in Ix.
        destruct (subnet_address e) as [a|] eqn:A; [|destruct Ix].
        change (String.eqb "Address" "Network") with false in Ix.
        change (String.eqb "Network" "Network") with true in Ix.
        assert (subnet_address e <> None) as N by congruence.
        destruct (subnet_dns_nameservers e) as [l|] eqn:D,
                 (subnet_dns_search e) as [l'|] eqn:S; simpl in Ix;
          repeat (destruct Ix as [<-|Ix]);
          try destruct Ix;
          first [ do 3 right; left; exists e, l; now auto
                | do 4 right; exists e, l'; now auto ].
      * destruct (iface_accept_ra i) as [b|]; [|destruct I].
        destruct I as [<-|[]]. right; right; left. now exists b.
    + intros [I|[->|[(b & B & ->)|[(e & l & Ie & A & D & ->)
                                  |(e & l & Ie & A & D & ->)]]]]; auto.
      * right; right; left. now left.
      * right; right; right. rewrite B. now left.
      * right; left. exists e. split; trivial. unfold address_lines.
        destruct (subnet_address e); [|congruence]. rewrite D.
        change (String.eqb "Address" "Network") with false.
        change (String.eqb "Network" "Network") with true.
        simpl. auto.
      * right; left. exists e. split; trivial. unfold address_lines.
        destruct (subnet_address e); [|congruence]. rewrite D.
        change (String.eqb "Address" "Network") with false.
        change (String.eqb "Network" "Network") with true.
        destruct (subnet_dns_nameservers e); simpl; auto.
  - intros sec L NA NN x. rewrite lines_of_pure_run by trivial.
    rewrite (proj1 (added_subnets_all_calls sec i)).
    destruct (String.eqb_spec "Address" sec); [congruence|].
    destruct (String.eqb_spec "Network" sec); [congruence|].
    assert (flat_map (address_lines sec) (iface_subnets_list i) = []) as ->.
    { induction (iface_subnets_list i) as [|e l IH]; trivial. simpl.
      rewrite IH. unfold address_lines.
      destruct (subnet_address e); trivial.
      destruct (String.eqb_spec "Address" sec); [congruence|].
      destruct (String.eqb_spec "Network" sec); [congruence|].
      now destruct (subnet_dns_nameservers e), (subnet_dns_search e). }
    destruct (iface_accept_ra i); simpl; tauto.
Qed.

(** *** The unit of an interface as one sequence of calls *)

Lemma pure_run_app (cs1 cs2 : list call) (c : conf_dict) :
  pure_run (cs1 ++ cs2) c = pure_run cs2 (pure_run cs1 c).
Proof. apply fold_left_app. Qed.

Lemma parse_global_routes_run (routes : list route) (cfg : conf_dict) :
  parse_global_routes routes cfg
  = run (indexed_route_calls "c" 0 routes) cfg.
Proof.
  unfold parse_global_routes.
  assert (forall (st : conf_dict * Z),
            (st' <- foldM (fun (st : conf_dict * Z) route =>
                             cfg <- parse_routes ("c" ++ Py.str_of_Z (snd st))
                                      route (fst st) ;;
                             ret (cfg, (snd st + 1)%Z)) routes st ;;
             ret (fst st'))
            = run (indexed_route_calls "c" (snd st) routes) (fst st)) as L.
  { induction routes as [|r routes IH]; intros [c n]; trivial.
    cbn [foldM indexed_route_calls fst snd].
    rewrite parse_routes_run, run_app, !bind_assoc.
    apply bind_ext. intros c'. cbn [bind ret]. apply (IH (c', (n + 1)%Z)). }
  exact (L (cfg, 0%Z)).
Qed.

(** The calls of [parse_dns]; none when it raises [AttributeError]. *)
Definition dns_plan (i : iface) (ns : NetworkState) : option (list call) :=
  match nonnil (iface_dns i) with
  | Some dns =>
      Some (dns_calls (dict_get dns "search") (dict_get dns "nameservers"))
  | None =>
      if Z.eqb (ns_version ns) 1 then
        Some (dns_calls (Some (ns_dns_searchdomains ns))
                        (Some (ns_dns_nameservers ns)))
      else if Z.eqb (ns_version ns) 2 then Some []
      else match iface_dns i with
           | Some dns =>
               Some (dns_calls (dict_get dns "search")
                               (dict_get dns "nameservers"))
           | None => None
           end
  end.

Lemma parse_dns_run (i : iface) (cfg : conf_dict) (ns : NetworkState) :
  parse_dns i cfg ns
  = match dns_plan i ns with
    | Some cs => run cs cfg
    | None => inl AttributeError
    end.
Proof.
  unfold parse_dns, dns_plan.
  destruct (nonnil (iface_dns i)); [apply emit_dns_run|].
  destruct (Z.eqb (ns_version ns) 1).
  { exact (emit_dns_run [("search", ns_dns_searchdomains ns);
                         ("nameservers", ns_dns_nameservers ns)] cfg). }
  destruct (Z.eqb (ns_version ns) 2); trivial.
  destruct (iface_dns i); [apply emit_dns_run | trivial].
Qed.

(** The calls of [parse_dhcp_overrides]. *)
Definition overrides_plan (d : device) (dhcp version : string) : list call :=
  match dev_overrides d version with
  | Some o =>
      if Py.mem dhcp ["yes"; "ipv" ++ version] then override_calls o version
      else []
  | None => []
  end.

Lemma parse_dhcp_overrides_run (cfg : conf_dict) (d : device)
                               (dhcp version : string) :
  parse_dhcp_overrides cfg d dhcp version
  = run (overrides_plan d dhcp version) cfg.
Proof.
  unfold parse_dhcp_overrides, overrides_plan.
  destruct (dev_overrides d version) as [o|]; trivial.
  destruct (Py.mem dhcp ["yes"; "ipv" ++ version]); trivial.
  apply overrides_loop_run.
Qed.

(** The calls of the version-2 block, when it raises nothing. *)
Definition device_calls (ns : NetworkState) (i : iface) (dhcp : string)
  : list call :=
  match device_of ns i with
  | Some (_, d) =>
      (domain_calls d ++ overrides_plan d dhcp "4"
       ++ overrides_plan d dhcp "6")%list
  | None => []
  end.

Lemma version2_overrides_run (ns : NetworkState) (i : iface) (dhcp : string)
                             (cfg c : conf_dict) :
  version2_overrides ns i dhcp cfg = inr c ->
  run (device_calls ns i dhcp) cfg = inr c.
Proof.
  unfold version2_overrides, device_calls, device_of.
  destruct (Z.eqb (ns_version ns) 2); [|trivial].
  destruct (cfg_ethernets (ns_config_ ns)) as [eths|]; [|discriminate].
  cbv zeta.
  destruct (dict_get eths (resolve_set_name eths (iface_name i))) as [d|];
    [|trivial].
  cbn [option_map]. rewrite dhcp_domain_run, run_app.
  destruct (run (domain_calls d) cfg) as [e|c1]; [discriminate|].
  cbn [bind]. unfold dhcp_versions. cbn [foldM].
  destruct (domain_conflict d "4"); [discriminate|].
  rewrite parse_dhcp_overrides_run, run_app.
  destruct (run (overrides_plan d dhcp "4") c1) as [e|c2]; [discriminate|].
  cbn [bind].
  destruct (domain_conflict d "6"); [discriminate|].
  rewrite parse_dhcp_overrides_run.
  destruct (run (overrides_plan d dhcp "6") c2) as [e|c3]; [discriminate|].
  cbn [bind ret]. trivial.
Qed.

(** The interface after the two tests on [mac_address]. *)
Definition backfilled (vl bl : link_info) (i : iface) : iface :=
  backfill_mac bl (backfill_mac vl i).

Definition iface_calls (ns : NetworkState) (vl bl : link_info) (i : iface)
                       (dns : list call) : list call :=
  let j := backfilled vl bl i in
  (opt_call "Network" "VLAN" (linked vl (iface_name i)) (fun n => n)
   ++ opt_call "Network" "Bond" (linked bl (iface_name i)) (fun n => n)
   ++ match_calls j ++ link_calls j ++ subnets_all_calls j ++ dns
   ++ indexed_route_calls "c" 0 (ns_iter_routes ns)
   ++ device_calls ns j (dhcp_mode (iface_subnets_list j)))%list.

Lemma backfill_mac_fields (info : link_info) (i : iface) :
  let j := backfill_mac info i in
  iface_name j = iface_name i /\ iface_type j = iface_type i
  /\ iface_mtu j = iface_mtu i /\ iface_optional j = iface_optional i
  /\ iface_accept_ra j = iface_accept_ra i
  /\ iface_subnets j = iface_subnets i /\ iface_driver j = iface_driver i
  /\ iface_dns j = iface_dns i.
Proof.
  unfold backfill_mac.
  destruct (nonempty (iface_mac_address i)), (link_macaddress info);
    cbv zeta; repeat split.
  all: destruct (nonempty _); reflexivity.
Qed.

Lemma iface_conf_run (ns : NetworkState) (vl bl : link_info) (i : iface)
                     (cfg : conf_dict) (link : string) :
  iface_conf ns vl bl i = inr (cfg, link) ->
  link = iface_name i
  /\ exists dns,
       dns_plan (backfilled vl bl i) ns = Some dns
       /\ run (iface_calls ns vl bl i dns) init = inr cfg.
Proof.
  unfold iface_conf, iface_calls. cbv zeta. fold (backfilled vl bl i).
  set (j := backfilled vl bl i).
  assert (iface_name j = iface_name i) as Nj.
  { unfold j, backfilled.
    destruct (backfill_mac_fields bl (backfill_mac vl i)) as (-> & _).
    now destruct (backfill_mac_fields vl i) as (-> & _). }
  rewrite (update_if_run (linked vl (iface_name i))
             init "Network" "VLAN" (fun n => n)).
  destruct (run (opt_call "Network" "VLAN" _ _) init) as [e|c1] eqn:R1;
    [discriminate|]. cbn [bind].
  rewrite (update_if_run (linked bl (iface_name i))
             c1 "Network" "Bond" (fun n => n)).
  destruct (run (opt_call "Network" "Bond" _ _) c1) as [e|c2] eqn:R2;
    [discriminate|]. cbn [bind].
  rewrite generate_match_section_run, bind_assoc.
  destruct (run (match_calls j) c2) as [e|c3] eqn:R3; [discriminate|].
  cbn [bind ret]. rewrite generate_link_section_run.
  destruct (run (link_calls j) c3) as [e|c4] eqn:R4; [discriminate|].
  cbn [bind]. rewrite parse_subnets_run, bind_assoc.
  destruct (run (subnets_all_calls j) c4) as [e|c5] eqn:R5; [discriminate|].
  cbn [bind ret]. rewrite parse_dns_run.
  destruct (dns_plan j ns) as [dns|]; [|discriminate].
  destruct (run dns c5) as [e|c6] eqn:R6; [discriminate|]. cbn [bind].
  rewrite parse_global_routes_run.
  destruct (run (indexed_route_calls "c" 0 (ns_iter_routes ns)) c6)
    as [e|c7] eqn:R7; [discriminate|]. cbn [bind].
  destruct (version2_overrides ns j (dhcp_mode (iface_subnets_list j)) c7)
    as [e|c8] eqn:V; [discriminate|]. cbn [bind ret].
  intros [= <- <-]. split; [exact Nj|]. exists dns. split; trivial.
  rewrite run_app, R1. cbn [bind]. rewrite run_app, R2. cbn [bind].
  rewrite run_app, R3. cbn [bind]. rewrite run_app, R4. cbn [bind].
  rewrite run_app, R5. cbn [bind]. rewrite run_app, R6. cbn [bind].
  rewrite run_app, R7. cbn [bind].
  now apply version2_overrides_run.
Qed.

(** A call that adds no line to the section [sec]. *)
Definition foreign (sec : string) (a : call) : bool :=
  match a with
  | Update s _ _ => negb (String.eqb s sec)
  | UpdateRoute _ _ _ _ => true
  end.

Lemma added_foreign (sec : string) (cs : list call) :
  forallb (foreign sec) cs = true -> added sec cs = [].
Proof.
  induction cs as [|a cs IH]; trivial. simpl. intros F.
  apply andb_true_iff in F. destruct F as [Fa F]. rewrite (IH F).
  destruct a as [s k v|]; trivial. simpl in Fa.
  apply negb_true_iff in Fa. now rewrite Fa.
Qed.

Lemma foreign_override_calls (sec version : string) (o : list (string * string)) :
  sec <> "DHCPv" ++ version ->
  forallb (foreign sec) (override_calls o version) = true.
Proof.
  intros N. apply forallb_forall. intros a I. unfold override_calls in I.
  apply in_flat_map in I. destruct I as ([k v] & _ & I).
  unfold opt_call in I. simpl in I. destruct (dict_get o v); [|contradiction].
  destruct I as [<-|[]]. cbn [foreign]. apply negb_true_iff, String.eqb_neq.
  exact (fun E => N (eq_sym E)).
Qed.

Lemma added_device_calls (sec : string) (ns : NetworkState) (i : iface)
                         (dhcp : string) :
  sec <> "DHCPv4" -> sec <> "DHCPv6" ->
  added sec (device_calls ns i dhcp) = [].
Proof.
  intros N4 N6. apply added_foreign. unfold device_calls.
  destruct (device_of ns i) as [[name d]|]; trivial.
  rewrite !forallb_app. repeat (apply andb_true_iff; split).
  - unfold domain_calls, opt_call.
    destruct (dev_dhcp4domain d), (dev_dhcp6domain d);
      cbn [forallb foreign app]; trivial;
      repeat (apply andb_true_iff; split); trivial;
      apply negb_true_iff, String.eqb_neq; congruence.
  - unfold overrides_plan. destruct (dev_overrides d "4"); trivial.
    destruct (Py.mem dhcp _); trivial. now apply foreign_override_calls.
  - unfold overrides_plan. destruct (dev_overrides d "6"); trivial.
    destruct (Py.mem dhcp _); trivial. now apply foreign_override_calls.
Qed.

Lemma added_dns_plan (i : iface) (ns : NetworkState) (dns : list call)
                     (sec : string) :
  dns_plan i ns = Some dns ->
  (sec <> "Network" -> added sec dns = [])
  /\ (forall x, In x (added "Network" dns) -> exists t, x = String "D" t).
Proof.
  assert (forall a b,
            (sec <> "Network" -> added sec (dns_calls a b) = [])
            /\ (forall x, In x (added "Network" (dns_calls a b)) ->
                          exists t, x = String "D" t)) as L.
  { intros a b. unfold dns_calls. split.
    - intros N. apply added_foreign.
      destruct (nonnil a), (nonnil b); cbn [forallb foreign app]; trivial;
        repeat (apply andb_true_iff; split); trivial;
        apply negb_true_iff, String.eqb_neq; congruence.
    - intros x. destruct (nonnil a), (nonnil b); simpl;
        intros I; repeat (destruct I as [<-|I]; [eexists; reflexivity|]);
        destruct I. }
  unfold dns_plan.
  destruct (nonnil (iface_dns i)); [intros [= <-]; apply L|].
  destruct (Z.eqb (ns_version ns) 1); [intros [= <-]; apply L|].
  destruct (Z.eqb (ns_version ns) 2).
  - intros [= <-]. split; trivial. intros x [].
  - destruct (iface_dns i); [intros [= <-]; apply L | discriminate].
Qed.

Lemma address_lines_other (sec : string) (e : subnet) :
  sec <> "Address" -> sec <> "Network" -> address_lines sec e = [].
Proof.
  intros NA NN. unfold address_lines. destruct (subnet_address e); trivial.
  destruct (String.eqb_spec "Address" sec); [congruence|].
  destruct (String.eqb_spec "Network" sec); [congruence|].
  now destruct (subnet_dns_nameservers e), (subnet_dns_search e).
Qed.

Lemma added_subnets_other (sec : string) (i : iface) :
  sec <> "Address" -> sec <> "Network" ->
  added sec (subnets_all_calls i) = [].
Proof.
  intros NA NN. rewrite (proj1 (added_subnets_all_calls sec i)).
  destruct (String.eqb_spec "Network" sec); [congruence|].
  assert (flat_map (address_lines sec) (iface_subnets_list i) = []) as ->.
  { induction (iface_subnets_list i) as [|e l IH]; trivial. simpl.
    now rewrite IH, address_lines_other. }
  now destruct (iface_accept_ra i).
Qed.

Lemma added_subnets_network (i : iface) (x : string) :
  In x (added "Network" (subnets_all_calls i)) ->
  exists t, x = String "D" t \/ x = String "I" t.
Proof.
  rewrite (proj1 (added_subnets_all_calls "Network" i)).
  rewrite !in_app_iff, in_flat_map.
  change (String.eqb "Network" "Network") with true.
  intros [(e & _ & I)|[[<-|[]]|I]].
  - unfold address_lines in I. destruct (subnet_address e); [|destruct I].
    change (String.eqb "Address" "Network") with false in I.
    change (String.eqb "Network" "Network") with true in I.
    destruct (subnet_dns_nameservers e), (subnet_dns_search e); simpl in I;
      repeat (destruct I as [<-|I]; [eexists; left; reflexivity|]);
      destruct I.
  - eexists. left. reflexivity.
  - destruct (iface_accept_ra i); [|destruct I].
    destruct I as [<-|[]]. eexists. right. reflexivity.
Qed.

(** The MAC address that the unit of an interface is written with: its
    own, or else the one that the VLAN of its name has, or else the one
    that the bond of its name has. *)
Definition effective_mac (vl bl : link_info) (i : iface) : option string :=
  match nonempty (iface_mac_address i) with
  | Some m => Some m
  | None =>
      match nonempty (dict_get (link_macaddress vl) (iface_name i)) with
      | Some m => Some m
      | None => nonempty (dict_get (link_macaddress bl) (iface_name i))
      end
  end.

Lemma nonempty_idem (o : option string) (m : string) :
  nonempty o = Some m -> nonempty (Some m) = Some m.
Proof.
  intros E. apply nonempty_Some in E. destruct E as [_ N]. simpl.
  now destruct (String.eqb_spec m "").
Qed.

Lemma backfill_mac_address (info : link_info) (i : iface) :
  nonempty (iface_mac_address (backfill_mac info i))
  = match nonempty (iface_mac_address i) with
    | Some m => Some m
    | None => nonempty (dict_get (link_macaddress info) (iface_name i))
    end.
Proof.
  unfold backfill_mac.
  destruct (nonempty (iface_mac_address i)) as [m|] eqn:E; trivial.
  destruct (link_macaddress info) as [|kv l] eqn:L; [now rewrite E|].
  destruct (nonempty (dict_get (kv :: l) (iface_name i))) as [mac|] eqn:D.
  - cbn [iface_mac_address]. exact (nonempty_idem _ _ D).
  - exact E.
Qed.

Lemma backfilled_mac (vl bl : link_info) (i : iface) :
  nonempty (iface_mac_address (backfilled vl bl i)) = effective_mac vl bl i.
Proof.
  unfold backfilled, effective_mac. rewrite !backfill_mac_address.
  destruct (backfill_mac_fields vl i) as (-> & _).
  now destruct (nonempty (iface_mac_address i)),
               (nonempty (dict_get (link_macaddress vl) (iface_name i))).
Qed.

Lemma linked_other (info : link_info) (name : string) :
  name <> "macaddress" ->
  linked info name = nonempty (dict_get (link_names info) name).
Proof.
  intros N. unfold linked.
  now destruct (String.eqb_spec name "macaddress").
Qed.

Lemma added_iface_calls (sec : string) (ns : NetworkState) (vl bl : link_info)
                        (i : iface) (dns : list call) :
  added sec (iface_calls ns vl bl i dns)
  = (added sec (opt_call "Network" "VLAN" (linked vl (iface_name i))
                  (fun n => n))
     ++ added sec (opt_call "Network" "Bond" (linked bl (iface_name i))
                     (fun n => n))
     ++ added sec (match_calls (backfilled vl bl i))
     ++ added sec (link_calls (backfilled vl bl i))
     ++ added sec (subnets_all_calls (backfilled vl bl i))
     ++ added sec dns
     ++ added sec (device_calls ns (backfilled vl bl i)
                     (dhcp_mode (iface_subnets_list (backfilled vl bl i)))))%list.
Proof.
  unfold iface_calls. cbv zeta. rewrite !added_app.
  now rewrite (added_routes sec _
                 (proj1 (indexed_route_calls_routes "c" 0 (ns_iter_routes ns)))).
Qed.

Lemma added_opt_other {A} (sec s key : string) (o : option A)
                      (f : A -> string) :
  sec <> s -> added sec (opt_call s key o f) = [].
Proof.
  intros N. destruct o; trivial. cbn [opt_call added flat_map].
  destruct (String.eqb_spec s sec); [congruence | reflexivity].
Qed.

Lemma added_match_other (sec : string) (i : iface) :
  sec <> "Match" -> added sec (match_calls i) = [].
Proof.
  intros N. apply added_foreign. unfold match_calls, opt_call.
  destruct (nonempty (Some (iface_name i))), (nonempty (iface_driver i)),
           (String.eqb (iface_type i) "physical"),
           (nonempty (iface_mac_address i));
    cbn [forallb foreign app]; trivial;
    repeat (apply andb_true_iff; split); trivial;
    apply negb_true_iff, String.eqb_neq; congruence.
Qed.

Lemma added_link_other (sec : string) (i : iface) :
  sec <> "Link" -> added sec (link_calls i) = [].
Proof.
  intros N. apply added_foreign. unfold link_calls, opt_call.
  destruct (nonzero (iface_mtu i)), (String.eqb (iface_type i) "physical"),
           (nonempty (iface_mac_address i)), (iface_optional i) as [[|]|];
    cbn [forallb foreign app negb]; trivial;
    repeat (apply andb_true_iff; split); trivial;
    apply negb_true_iff, String.eqb_neq; congruence.
Qed.

(** The unit of an interface, whose name is not [macaddress], the key
    under which the link information keeps the MAC addresses.  When it
    is rendered it is filed under the name of the interface; it has the
    line [VLAN=] with the VLAN recorded for the interface, and [Bond=]
    with the bond recorded for it, exactly when one is recorded; and it
    is matched by, or given, the MAC address of the interface or else the
    one that the VLAN or the bond of its name has: in [[Match]] when the
    interface is physical, in [[Link]] when it is not. *)
Theorem unit_links_and_mac (ns : NetworkState) (vl bl : link_info) (i : iface)
                           (cfg : conf_dict) (link : string) :
  iface_name i <> "macaddress" ->
  iface_conf ns vl bl i = inr (cfg, link) ->
  link = iface_name i
  /\ (forall n, In ("VLAN=" ++ n) (lines_of cfg "Network")
                <-> nonempty (dict_get (link_names vl) (iface_name i)) = Some n)
  /\ (forall n, In ("Bond=" ++ n) (lines_of cfg "Network")
                <-> nonempty (dict_get (link_names bl) (iface_name i)) = Some n)
  /\ (forall m, In ("MACAddress=" ++ m) (lines_of cfg "Match")
                <-> iface_type i = "physical"
                    /\ effective_mac vl bl i = Some m)
  /\ (forall m, In ("MACAddress=" ++ m) (lines_of cfg "Link")
                <-> iface_type i <> "physical"
                    /\ effective_mac vl bl i = Some m).
Proof.
  intros N E. destruct (iface_conf_run ns vl bl i cfg link E)
    as (-> & dns & D & R).
  rewrite <- (linked_other vl _ N), <- (linked_other bl _ N).
  apply run_pure in R. destruct R as [_ ->].
  set (j := backfilled vl bl i).
  assert (iface_type j = iface_type i) as Tj.
  { unfold j, backfilled.
    destruct (backfill_mac_fields bl (backfill_mac vl i)) as (_ & -> & _).
    now destruct (backfill_mac_fields vl i) as (_ & -> & _). }
  pose proof (added_device_calls "Network" ns j
                (dhcp_mode (iface_subnets_list j))) as DN.
  pose proof (added_device_calls "Match" ns j
                (dhcp_mode (iface_subnets_list j))) as DM.
  pose proof (added_device_calls "Link" ns j
                (dhcp_mode (iface_subnets_list j))) as DL.
  destruct (added_dns_plan j ns dns "Match" D) as [SM _].
  destruct (added_dns_plan j ns dns "Link" D) as [SL SN].
  split; [reflexivity|]. split; [|split; [|split]].
  - intros n. rewrite lines_of_pure_run by (try apply good_init; reflexivity).
    rewrite added_iface_calls. fold j.
    rewrite (added_match_other "Network"), (added_link_other "Network"), DN
      by discriminate.
    rewrite !in_app_iff. cbn [lines_of init dict_get String.eqb Ascii.eqb
                              Bool.eqb In app].
    split.
    + intros [[]|[I|[I|[[]|[[]|[I|[I|[]]]]]]]].
      * destruct (linked vl (iface_name i));
          simpl in I; [|destruct I]. destruct I as [I|[]].
        now injection I as ->.
      * destruct (linked bl (iface_name i));
          simpl in I; [|destruct I]. destruct I as [I|[]]. discriminate I.
      * apply added_subnets_network in I. destruct I as (t & [I|I]);
          discriminate I.
      * apply SN in I. destruct I as (t & I). discriminate I.
    + intros ->. right. left. simpl. now left.
  - intros n. rewrite lines_of_pure_run by (try apply good_init; reflexivity).
    rewrite added_iface_calls. fold j.
    rewrite (added_match_other "Network"), (added_link_other "Network"), DN
      by discriminate.
    rewrite !in_app_iff. cbn [lines_of init dict_get String.eqb Ascii.eqb
                              Bool.eqb In app].
    split.
    + intros [[]|[I|[I|[[]|[[]|[I|[I|[]]]]]]]].
      * destruct (linked vl (iface_name i));
          simpl in I; [|destruct I]. destruct I as [I|[]]. discriminate I.
      * destruct (linked bl (iface_name i));
          simpl in I; [|destruct I]. destruct I as [I|[]].
        now injection I as ->.
      * apply added_subnets_network in I. destruct I as (t & [I|I]);
          discriminate I.
      * apply SN in I. destruct I as (t & I). discriminate I.
    + intros ->. right. right. left. simpl. now left.
  - intros m. rewrite lines_of_pure_run by (try apply good_init; reflexivity).
    rewrite added_iface_calls. fold j.
    rewrite (added_link_other "Match"), (added_subnets_other "Match"), SM, DM
      by discriminate.
    rewrite !(added_opt_other "Match" "Network") by discriminate.
    rewrite !in_app_iff, added_match_mac, Tj. unfold j.
    rewrite backfilled_mac.
    change (lines_of init "Match") with (@nil string).
    clear. unfold In. tauto.
  - intros m. rewrite lines_of_pure_run by (try apply good_init; reflexivity).
    rewrite added_iface_calls. fold j.
    rewrite (added_match_other "Link"), (added_subnets_other "Link"), SL, DL
      by discriminate.
    rewrite !(added_opt_other "Link" "Network") by discriminate.
    rewrite !in_app_iff, added_link_mac, Tj. unfold j.
    rewrite backfilled_mac.
    change (lines_of init "Link") with (@nil string).
    clear. unfold In. tauto.
Qed.

(** *** The unit of a bond *)

Definition arp_targets (t : str_or_list) : string :=
  Py.join " " (match t with AStr s => [s] | AList l => l end).

Definition bond_param_calls (p : bond_params) : list call :=
  (opt_call "Bond" "Mode" (bp_mode p) (fun v => v)
   ++ opt_call "Bond" "MIIMonitorSec" (bp_mii_monitor_interval p)
               (fun v => (v ++ "ms")%string)
   ++ opt_call "Bond" "UpDelaySec" (bp_updelay p) (fun v => (v ++ "ms")%string)
   ++ opt_call "Bond" "DownDelaySec" (bp_downdelay p)
               (fun v => (v ++ "ms")%string)
   ++ opt_call "Bond" "ARPIntervalSec" (bp_arp_interval p)
               (fun v => (v ++ "ms")%string)
   ++ opt_call "Bond" "ARPIPTargets" (bp_arp_ip_target p) arp_targets
   ++ opt_call "Bond" "ARPValidate" (bp_arp_validate p) (fun v => v)
   ++ opt_call "Bond" "ARPAllTargets" (bp_arp_all_targets p) (fun v => v)
   ++ opt_call "Bond" "PrimaryReselectPolicy" (bp_primary_reselect p)
               (fun v => v)
   ++ opt_call "Bond" "LACPTransmitRate" (bp_lacp_rate p) (fun v => v)
   ++ opt_call "Bond" "TransmitHashPolicy" (bp_transmit_hash_policy p)
               (fun v => v)
   ++ opt_call "Bond" "AdSelect" (bp_ad_select p) (fun v => v)
   ++ opt_call "Bond" "MinLinks" (bp_min_links p) (fun v => v)
   ++ opt_call "Bond" "AllSlavesActive" (bp_all_slaves_active p) str_lower)%list.

Lemma step_run {A} (o : option A) (c : conf_dict) (sec key : string)
               (f : A -> string) (rest : list call)
               (k : conf_dict -> M conf_dict) :
  (forall c', k c' = run rest c') ->
  (c' <- update_if o c (fun v c => update_section c sec key (f v)) ;; k c')
  = run (opt_call sec key o f ++ rest) c.
Proof.
  intros K. rewrite update_if_run, run_app. now apply bind_ext.
Qed.

Lemma render_bond_params_run (p : bond_params) (cfg : conf_dict) :
  render_bond_params p cfg = run (bond_param_calls p) cfg.
Proof.
  unfold render_bond_params, bond_param_calls. cbv zeta.
  apply (step_run _ _ "Bond" "Mode" (fun v => v)). intros c1.
  apply (step_run _ _ "Bond" "MIIMonitorSec" (fun v => (v ++ "ms")%string)).
  intros c2.
  apply (step_run _ _ "Bond" "UpDelaySec" (fun v => (v ++ "ms")%string)).
  intros c3.
  apply (step_run _ _ "Bond" "DownDelaySec" (fun v => (v ++ "ms")%string)).
  intros c4.
  apply (step_run _ _ "Bond" "ARPIntervalSec" (fun v => (v ++ "ms")%string)).
  intros c5.
  apply (step_run _ _ "Bond" "ARPIPTargets" arp_targets). intros c6.
  apply (step_run _ _ "Bond" "ARPValidate" (fun v => v)). intros c7.
  apply (step_run _ _ "Bond" "ARPAllTargets" (fun v => v)). intros c8.
  apply (step_run _ _ "Bond" "PrimaryReselectPolicy" (fun v => v)). intros c9.
  apply (step_run _ _ "Bond" "LACPTransmitRate" (fun v => v)). intros c10.
  apply (step_run _ _ "Bond" "TransmitHashPolicy" (fun v => v)). intros c11.
  apply (step_run _ _ "Bond" "AdSelect" (fun v => v)). intros c12.
  apply (step_run _ _ "Bond" "MinLinks" (fun v => v)). intros c13.
  apply (update_if_run _ c13 "Bond" "AllSlavesActive" str_lower).
Qed.

Definition bond_mac (b : bond_cfg) : option string :=
  option_map str_lower (nonempty (bond_macaddress b)).

Definition bond_calls (name : string) (b : bond_cfg) : list call :=
  ([Update "NetDev" "Name" name; Update "NetDev" "Kind" "bond"]
   ++ opt_call "NetDev" "MTUBytes" (nonzero (bond_mtu b)) Py.str_of_Z
   ++ opt_call "NetDev" "MACAddress" (bond_mac b) (fun x => x)
   ++ match bond_parameters b with
      | Some p => bond_param_calls p
      | None => []
      end)%list.

Lemma fits_opt_call {A} (sec key : string) (o : option A) (f : A -> string) :
  sec <> "Route" -> forallb fits (opt_call sec key o f) = true.
Proof.
  intros N. destruct o; trivial. cbn [opt_call forallb fits].
  destruct (String.eqb_spec "Route" sec); [congruence | reflexivity].
Qed.

Lemma fits_bond_calls (name : string) (b : bond_cfg) :
  forallb fits (bond_calls name b) = true.
Proof.
  unfold bond_calls. rewrite !forallb_app, !fits_opt_call by discriminate.
  destruct (bond_parameters b) as [p|]; [|reflexivity].
  unfold bond_param_calls.
  rewrite !forallb_app, !fits_opt_call by discriminate. reflexivity.
Qed.

(** The conf of the unit of a bond, and its text. *)
Definition bond_conf (item : string * bond_cfg) : conf_dict :=
  pure_run (bond_calls (fst item) (snd item)) init.

Definition bond_text (item : string * bond_cfg) : string :=
  serialize (bond_conf item).

Definition valid_bond (b : bond_cfg) : bool :=
  match nonnil (bond_interfaces b) with Some _ => true | None => false end.

Lemma render_bond_units (units : list (string * string)) (info : link_info)
                        (item : string * bond_cfg) (st : ndev_state) :
  render_bond (units, info) item = inr st ->
  fst st = if valid_bond (snd item)
           then dict_set units (fst item) (bond_text item) else units.
Proof.
  destruct item as [name b]. unfold render_bond, valid_bond.
  cbn [fst snd].
  destruct (nonnil (bond_interfaces b)) as [interfaces|];
    [|now intros [= <-]].
  pose proof (run_fits _ _ good_init (fits_bond_calls name b)) as T.
  unfold bond_calls in T.
  change (run ([Update "NetDev" "Name" name; Update "NetDev" "Kind" "bond"]
               ++ ?rest) init)
    with (c <- update_section init "NetDev" "Name" name ;;
          c <- update_section c "NetDev" "Kind" "bond" ;; run rest c) in T.
  destruct (update_section init "NetDev" "Name" name) as [e|c1];
    [discriminate|]. cbn [bind] in *.
  destruct (update_section c1 "NetDev" "Kind" "bond") as [e|c2];
    [discriminate|]. cbn [bind] in *.
  rewrite run_app in T.
  rewrite (update_if_run (nonzero (bond_mtu b)) c2 "NetDev" "MTUBytes"
             Py.str_of_Z).
  destruct (run (opt_call "NetDev" "MTUBytes" (nonzero (bond_mtu b))
                          Py.str_of_Z) c2) as [e|c3]; [discriminate|].
  cbn [bind] in *. rewrite run_app in T. fold (bond_mac b).
  rewrite (update_if_run (bond_mac b) c3 "NetDev" "MACAddress" (fun x => x)).
  destruct (run (opt_call "NetDev" "MACAddress" (bond_mac b) (fun x => x)) c3)
    as [e|c4]; [discriminate|].
  cbn [bind] in *.
  destruct (set_mac _ _ name _) as [e|macs]; [discriminate|]. cbn [bind].
  assert (update_if (bond_parameters b) c4 render_bond_params
          = run match bond_parameters b with
                | Some p => bond_param_calls p
                | None => []
                end c4) as ->.
  { destruct (bond_parameters b); trivial. apply render_bond_params_run. }
  rewrite T. cbn [bind].
  rewrite get_final_conf_spec by (apply wf_pure_run, wf_init).
  cbn [bind ret]. now intros [= <-].
Qed.

Lemma dict_fold_get {A} (valid : A -> bool) (text : string * A -> string)
                    (l : list (string * A)) (u : list (string * string))
                    (name : string) (a : A) :
  NoDup (map fst l) -> In (name, a) l -> valid a = true ->
  dict_get (fold_left (fun u item =>
                         if valid (snd item)
                         then dict_set u (fst item) (text item) else u) l u)
           name
  = Some (text (name, a)).
Proof.
  revert u. induction l as [|[n w] l IH]; intros u N I V.
  - destruct I.
  - cbn [fold_left fst snd]. inversion N as [|? ? Nn Nl]; subst.
    destruct I as [[= -> ->]|I]; [|now apply IH].
    rewrite V.
    assert (forall u, dict_get u name = Some (text (name, a)) ->
              dict_get (fold_left (fun u item =>
                                     if valid (snd item)
                                     then dict_set u (fst item) (text item)
                                     else u) l u) name
              = Some (text (name, a))) as Keep.
    { clear -Nn. induction l as [|[n' w'] l IHl]; intros u G; trivial.
      cbn [fold_left fst snd]. apply IHl.
      - intros K. apply Nn. now right.
      - destruct (valid w'); trivial. rewrite dict_get_set.
        destruct (String.eqb_spec n' name) as [->|_]; trivial.
        destruct Nn. now left. }
    apply Keep. now rewrite dict_get_set, String.eqb_refl.
Qed.

Lemma render_bonds_units (l : list (string * bond_cfg)) (st st' : ndev_state) :
  foldM render_bond l st = inr st' ->
  fst st' = fold_left (fun u item =>
                         if valid_bond (snd item)
                         then dict_set u (fst item) (bond_text item) else u)
                      l (fst st).
Proof.
  revert st. induction l as [|item l IH]; intros st.
  - now intros [= <-].
  - cbn [foldM fold_left].
    destruct (render_bond st item) as [e|st1] eqn:E; [discriminate|].
    cbn [bind]. intros F. rewrite (IH st1 F). destruct st as [units info].
    now rewrite (render_bond_units units info item st1 E).
Qed.

Lemma added_opt_call {A} (sec key : string) (o : option A) (f : A -> string)
                     (x : string) :
  In x (added sec (opt_call sec key o f))
  <-> exists v, o = Some v /\ x = key ++ "=" ++ f v.
Proof.
  destruct o as [v|]; cbn [opt_call added flat_map].
  - rewrite String.eqb_refl. simpl. split.
    + intros [<-|[]]. now exists v.
    + intros (w & [= <-] & ->). now left.
  - split; [intros [] | intros (v & [=] & _)].
Qed.

Lemma untouched_opt_call {A} (sec s key : string) (o : option A)
                         (f : A -> string) :
  sec <> s ->
  forallb (fun a => negb (String.eqb sec (call_sec a))) (opt_call s key o f)
  = true.
Proof.
  intros N. destruct o; trivial. cbn [opt_call forallb call_sec].
  destruct (String.eqb_spec sec s); [congruence | reflexivity].
Qed.

Lemma updates_opt_call {A} (s key : string) (o : option A) (f : A -> string) :
  forallb (fun a => negb (call_routes a)) (opt_call s key o f) = true.
Proof. now destruct o. Qed.

Lemma bond_conf_sections (item : string * bond_cfg) (sec : string) :
  sec <> "NetDev" -> sec <> "Bond" ->
  lines_of (bond_conf item) sec = [] /\ routes_of (bond_conf item) = [].
Proof.
  intros NN NB. unfold bond_conf, bond_calls. split.
  - rewrite lines_of_untouched.
    + unfold lines_of, init. cbn [dict_get].
      repeat (destruct (String.eqb _ sec); [reflexivity|]). reflexivity.
    + rewrite !forallb_app, !untouched_opt_call by trivial.
      cbn [forallb call_sec].
      destruct (String.eqb_spec sec "NetDev"); [congruence|].
      destruct (bond_parameters (snd item)) as [p|]; [|reflexivity].
      unfold bond_param_calls.
      now rewrite !forallb_app, !untouched_opt_call by trivial.
  - rewrite routes_of_pure_run; [reflexivity|].
    rewrite !forallb_app, !updates_opt_call.
    destruct (bond_parameters (snd item)) as [p|]; [|reflexivity].
    unfold bond_param_calls. now rewrite !forallb_app, !updates_opt_call.
Qed.

Lemma bond_text_layout (item : string * bond_cfg) :
  bond_text item
  = match lines_of (bond_conf item) "Bond" with
    | [] => ""
    | l => stanza "Bond" l
    end
    ++ stanza "NetDev" (lines_of (bond_conf item) "NetDev").
Proof.
  unfold bond_text.
  assert (good (bond_conf item)) as G by apply good_pure_run, good_init.
  assert (tidy (bond_conf item)) as T by apply tidy_pure_run, tidy_init.
  assert (forall k, sorted (lines_of (bond_conf item) k)
                    = lines_of (bond_conf item) k) as S.
  { intros k. apply sorted_id, strictly_weakly, lines_of_sorted, T. }
  assert (forall k, k <> "NetDev" -> k <> "Bond" ->
                    section_text (bond_conf item) k = "") as Z.
  { intros k NN NB. unfold section_text, norm_secval.
    now rewrite (proj1 (bond_conf_sections item k NN NB)). }
  rewrite (serialize_good _ G). unfold route_stanzas.
  rewrite (proj2 (bond_conf_sections item "Address" ltac:(discriminate)
                    ltac:(discriminate))).
  cbn [map sorted_items text].
  rewrite (Z "Address"), (Z "DHCPv4"), (Z "DHCPv6"), (Z "Link"), (Z "Match"),
          (Z "Network"), (Z "VLAN") by discriminate.
  cbn [String.append]. rewrite !append_nil_r. f_equal.
  - unfold section_text, norm_secval, item_text. rewrite S. cbn [fst snd].
    destruct (lines_of (bond_conf item) "Bond") as [|x l] eqn:L; trivial.
    rewrite <- L, S. reflexivity.
  - unfold section_text, norm_secval, item_text. rewrite S. cbn [fst snd].
    assert (In ("Name=" ++ fst item) (lines_of (bond_conf item) "NetDev")) as I.
    { unfold bond_conf. apply lines_of_pure_run;
        [apply good_init | reflexivity |]. right. unfold bond_calls.
      rewrite added_app. apply in_app_iff. left. now left. }
    destruct (lines_of (bond_conf item) "NetDev") as [|x l] eqn:L;
      [destruct I|].
    rewrite <- L, S. reflexivity.
Qed.

(** The lines of the parameters of a bond. *)
Definition bond_param_line (p : bond_params) (x : string) : Prop :=
  (exists v, bp_mode p = Some v /\ x = "Mode=" ++ v)
  \/ (exists v, bp_mii_monitor_interval p = Some v
                /\ x = "MIIMonitorSec=" ++ v ++ "ms")
  \/ (exists v, bp_updelay p = Some v /\ x = "UpDelaySec=" ++ v ++ "ms")
  \/ (exists v, bp_downdelay p = Some v /\ x = "DownDelaySec=" ++ v ++ "ms")
  \/ (exists v, bp_arp_interval p = Some v
                /\ x = "ARPIntervalSec=" ++ v ++ "ms")
  \/ (exists v, bp_arp_ip_target p = Some v
                /\ x = "ARPIPTargets="
                       ++ Py.join " " (match v with
                                       | AStr s => [s]
                                       | AList l => l
                                       end))
  \/ (exists v, bp_arp_validate p = Some v /\ x = "ARPValidate=" ++ v)
  \/ (exists v, bp_arp_all_targets p = Some v /\ x = "ARPAllTargets=" ++ v)
  \/ (exists v, bp_primary_reselect p = Some v
                /\ x = "PrimaryReselectPolicy=" ++ v)
  \/ (exists v, bp_lacp_rate p = Some v /\ x = "LACPTransmitRate=" ++ v)
  \/ (exists v, bp_transmit_hash_policy p = Some v
                /\ x = "TransmitHashPolicy=" ++ v)
  \/ (exists v, bp_ad_select p = Some v /\ x = "AdSelect=" ++ v)
  \/ (exists v, bp_min_links p = Some v /\ x = "MinLinks=" ++ v)
  \/ (exists v, bp_all_slaves_active p = Some v
                /\ x = "AllSlavesActive=" ++ str_lower v).

Lemma added_bond_param_calls (p : bond_params) (x : string) :
  In x (added "Bond" (bond_param_calls p)) <-> bond_param_line p x.
Proof.
  unfold bond_param_calls, bond_param_line.
  rewrite !added_app, !in_app_iff, !added_opt_call. reflexivity.
Qed.

Lemma added_bond_calls (name : string) (b : bond_cfg) (x : string) :
  (In x (added "NetDev" (bond_calls name b))
   <-> x = "Name=" ++ name \/ x = "Kind=bond"
       \/ (exists u, nonzero (bond_mtu b) = Some u
                     /\ x = "MTUBytes=" ++ Py.str_of_Z u)
       \/ (exists m, nonempty (bond_macaddress b) = Some m
                     /\ x = "MACAddress=" ++ str_lower m))
  /\ (In x (added "Bond" (bond_calls name b))
      <-> exists p, bond_parameters b = Some p /\ bond_param_line p x).
Proof.
  unfold bond_calls. rewrite !added_app, !in_app_iff, !added_opt_call.
  rewrite !(added_opt_other "Bond" "NetDev") by discriminate.
  assert (added "NetDev" match bond_parameters b with
                         | Some p => bond_param_calls p
                         | None => []
                         end = []) as ->.
  { destruct (bond_parameters b) as [p|]; trivial. unfold bond_param_calls.
    rewrite !added_app, !(added_opt_other "NetDev" "Bond") by discriminate.
    reflexivity. }
  change (added "NetDev" [Update "NetDev" "Name" name;
                          Update "NetDev" "Kind" "bond"])
    with ["Name=" ++ name; "Kind=bond"].
  change (added "Bond" [Update "NetDev" "Name" name;
                        Update "NetDev" "Kind" "bond"])
    with (@nil string).
  split.
  - unfold bond_mac. split.
    + intros [[<-|[<-|[]]]|[I|[(m & E & ->)|[]]]]; auto.
      destruct (nonempty (bond_macaddress b)) as [m'|]; [|discriminate].
      injection E as <-. do 3 right. now exists m'.
    + intros [->|[->|[I|(m & E & ->)]]].
      * left. now left.
      * left. right. now left.
      * right. now left.
      * right. right. left. exists (str_lower m). now rewrite E.
  - destruct (bond_parameters b) as [p|].
    + rewrite added_bond_param_calls. split.
      * intros [[]|[[]|[[]|I]]]. now exists p.
      * intros (p' & [= <-] & I). auto.
    + split.
      * intros [[]|[[]|[[]|[]]]].
      * intros (p' & [=] & _).
Qed.

(** The unit of a bond.  For a bond of [ns.config["bonds"]] that lists an
    interface, [render_bonds] files under the name of the bond a text of
    two stanzas: [[Bond]] with the lines of the parameters that the bond
    has, left out when it has none, then [[NetDev]] with [Name=],
    [Kind=bond], [MTUBytes=] for an MTU that is not zero and
    [MACAddress=] in lower case; the lines of each stanza are sorted and
    differ.  The delays and intervals are written with [ms] appended, the
    ARP targets joined with spaces, the last parameter in lower case.  No
    bond of the model lists the interface [macaddress], the key under which
    the link information holds the MAC addresses. *)
Theorem bond_unit_text (ns : NetworkState) (name : string) (b : bond_cfg) :
  (forall item l, In item (bonds_of ns) ->
     bond_interfaces (snd item) = Some l -> ~ In "macaddress" l) ->
  NoDup (map fst (bonds_of ns)) ->
  In (name, b) (bonds_of ns) ->
  nonnil (bond_interfaces b) <> None ->
  exists units info bond_lines netdev_lines,
    render_bonds ns = inr (units, info)
    /\ dict_get units name
       = Some (match bond_lines with
               | [] => ""
               | _ => stanza "Bond" bond_lines
               end ++ stanza "NetDev" netdev_lines)
    /\ strictly_sorted bond_lines /\ strictly_sorted netdev_lines
    /\ (forall x,
          In x netdev_lines
          <-> x = "Name=" ++ name \/ x = "Kind=bond"
              \/ (exists u, nonzero (bond_mtu b) = Some u
                            /\ x = "MTUBytes=" ++ Py.str_of_Z u)
              \/ (exists m, nonempty (bond_macaddress b) = Some m
                            /\ x = "MACAddress=" ++ str_lower m))
    /\ (forall x,
          In x bond_lines
          <-> exists p, bond_parameters b = Some p /\ bond_param_line p x).
Proof.
  intros L N I V.
  destruct (render_bonds_returns ns L) as ([units info] & E & _).
  exists units, info, (lines_of (bond_conf (name, b)) "Bond"),
         (lines_of (bond_conf (name, b)) "NetDev").
  assert (tidy (bond_conf (name, b))) as T by apply tidy_pure_run, tidy_init.
  split; [exact E|]. split; [|split; [|split; [|split]]].
  - unfold render_bonds in E. fold (bonds_of ns) in E.
    pose proof (render_bonds_units _ _ _ E) as U. cbn [fst] in U. rewrite U.
    rewrite (dict_fold_get valid_bond bond_text (bonds_of ns) [] name b N I).
    + rewrite bond_text_layout.
      now destruct (lines_of (bond_conf (name, b)) "Bond").
    + unfold valid_bond. destruct (nonnil (bond_interfaces b)); congruence.
  - now apply lines_of_sorted.
  - now apply lines_of_sorted.
  - intros x. unfold bond_conf. cbn [fst snd].
    rewrite lines_of_pure_run by (try apply good_init; reflexivity).
    rewrite (proj1 (added_bond_calls name b x)).
    change (lines_of init "NetDev") with (@nil string). simpl In. tauto.
  - intros x. unfold bond_conf. cbn [fst snd].
    rewrite lines_of_pure_run by (try apply good_init; reflexivity).
    rewrite (proj2 (added_bond_calls name b x)).
    change (lines_of init "Bond") with (@nil string). simpl In. tauto.
Qed.

(** *** Names that take a key of the renderer *)

(** An outcome that is a result or a [TypeError]. *)
Definition settles {A} (m : M A) : Prop :=
  (exists a, m = inr a) \/ m = inl TypeError.

Lemma settles_bind {A B} (m : M A) (k : A -> M B) (P : A -> Prop) :
  returns m P -> (forall a, P a -> settles (k a)) -> settles (bind m k).
Proof. intros (a & -> & Pa) K. simpl. auto. Qed.

Lemma settles_returns {A} (m : M A) (P : A -> Prop) : returns m P -> settles m.
Proof. intros (a & -> & _). left. now exists a. Qed.

Lemma set_mac_settles {B} (names macs : list (string * string))
                      (name : string) (mac : option string)
                      (k : list (string * string) -> M B) :
  (forall macs', settles (k macs')) ->
  settles (bind (set_mac names macs name mac) k).
Proof.
  intros K. unfold set_mac.
  destruct mac; [destruct (dict_mem names "macaddress")|]; simpl; auto.
  now right.
Qed.

Lemma render_vlan_settles (st : ndev_state) (item : string * vlan_cfg) :
  settles (render_vlan st item).
Proof.
  destruct st as [configs info], item as [vlan_name v]. unfold render_vlan.
  destruct (vlan_id v); [|left; eexists; reflexivity].
  destruct (vlan_link v) as [parent|]; [|left; eexists; reflexivity].
  pose proof good_init as G.
  eapply settles_bind with (P := keeps init); [keeps_tac|].
  intros c K. pose proof (keeps_good _ _ K) as G'. clear K.
  eapply settles_bind with (P := keeps c); [keeps_tac|].
  clear G'. intros c1 K. pose proof (keeps_good _ _ K) as G'. clear K.
  eapply settles_bind with (P := keeps c1); [keeps_tac|].
  clear G'. intros c2 K. pose proof (keeps_good _ _ K) as G'. clear K.
  eapply settles_bind with (P := keeps c2); [keeps_tac|].
  clear G'. intros c3 K. pose proof (keeps_good _ _ K) as G'. clear K.
  apply set_mac_settles. intros macs'.
  eapply settles_bind with (P := keeps c3); [keeps_tac|].
  clear G'. intros c4 K. pose proof (keeps_good _ _ K) as G'. clear K.
  eapply settles_bind; [now apply get_final_conf_returns|].
  intros text _. left. eexists. reflexivity.
Qed.

Lemma render_bond_settles (st : ndev_state) (item : string * bond_cfg) :
  settles (render_bond st item).
Proof.
  destruct st as [configs info], item as [bond_name b]. unfold render_bond.
  destruct (nonnil (bond_interfaces b)) as [interfaces|];
    [|left; eexists; reflexivity].
  pose proof good_init as G.
  eapply settles_bind with (P := keeps init); [keeps_tac|].
  intros c K. pose proof (keeps_good _ _ K) as G'. clear K.
  eapply settles_bind with (P := keeps c); [keeps_tac|].
  clear G'. intros c1 K. pose proof (keeps_good _ _ K) as G'. clear K.
  eapply settles_bind with (P := keeps c1); [keeps_tac|].
  clear G'. intros c2 K. pose proof (keeps_good _ _ K) as G'. clear K.
  eapply settles_bind with (P := keeps c2); [keeps_tac|].
  clear G'. intros c3 K. pose proof (keeps_good _ _ K) as G'. clear K.
  apply set_mac_settles. intros macs'.
  eapply settles_bind with (P := keeps c3).
  { apply update_if_keeps; trivial. intros; now apply render_bond_params_keeps. }
  clear G'. intros c4 K. pose proof (keeps_good _ _ K) as G'. clear K.
  eapply settles_bind; [now apply get_final_conf_returns|].
  intros text _. left. eexists. reflexivity.
Qed.

Lemma render_vlan_clash (st : ndev_state) (name : string) (v : vlan_cfg) :
  vlan_id v <> None -> vlan_link v = Some "macaddress" ->
  nonempty (vlan_macaddress v) <> None ->
  render_vlan st (name, v) = inl TypeError.
Proof.
  destruct st as [configs info]. intros I L A. unfold render_vlan.
  destruct (vlan_id v); [|congruence]. rewrite L.
  destruct (nonempty (vlan_macaddress v)) as [a|]; [|congruence].
  pose proof good_init as G.
  eapply raises_bind with (P := keeps init); [keeps_tac|].
  intros c K. pose proof (keeps_good _ _ K) as G'. clear K.
  eapply raises_bind with (P := keeps c); [keeps_tac|].
  clear G'. intros c1 K. pose proof (keeps_good _ _ K) as G'. clear K.
  eapply raises_bind with (P := keeps c1); [keeps_tac|].
  clear G'. intros c2 K. pose proof (keeps_good _ _ K) as G'. clear K.
  eapply raises_bind with (P := keeps c2); [keeps_tac|].
  clear G'. intros c3 K. unfold set_mac, dict_mem.
  rewrite dict_get_set, String.eqb_refl. reflexivity.
Qed.

Lemma render_bond_clash (st : ndev_state) (name : string) (b : bond_cfg)
                        (l : list string) :
  bond_interfaces b = Some l -> In "macaddress" l ->
  nonempty (bond_macaddress b) <> None ->
  render_bond st (name, b) = inl TypeError.
Proof.
  destruct st as [configs info]. intros I L A. unfold render_bond.
  rewrite I. destruct l as [|x l]; [destruct L|]. cbn [nonnil].
  destruct (nonempty (bond_macaddress b)) as [a|]; [|congruence].
  pose proof good_init as G.
  eapply raises_bind with (P := keeps init); [keeps_tac|].
  intros c K. pose proof (keeps_good _ _ K) as G'. clear K.
  eapply raises_bind with (P := keeps c); [keeps_tac|].
  clear G'. intros c1 K. pose proof (keeps_good _ _ K) as G'. clear K.
  eapply raises_bind with (P := keeps c1); [keeps_tac|].
  clear G'. intros c2 K. pose proof (keeps_good _ _ K) as G'. clear K.
  eapply raises_bind with (P := keeps c2); [keeps_tac|].
  clear G'. intros c3 K. unfold set_mac, dict_mem.
  rewrite interfaces_fold.
  assert (Py.mem "macaddress" (x :: l) = true) as ->.
  { unfold Py.mem. apply existsb_exists. exists "macaddress".
    split; [exact L | apply String.eqb_refl]. }
  reflexivity.
Qed.

Lemma foldM_clash {A S} (f : S -> A -> M S) (l : list A) (x : A) (s : S) :
  (forall s y, settles (f s y)) -> In x l ->
  (forall s, f s x = inl TypeError) ->
  foldM f l s = inl TypeError.
Proof.
  intros F I C. revert s. induction l as [|y l IH]; [destruct I|].
  intros s. cbn [foldM]. destruct I as [->|I].
  - now rewrite C.
  - destruct (F s y) as [(s' & ->)| ->]; [|reflexivity].
    cbn [bind]. now apply IH.
Qed.

Lemma foldM_settles {A S} (f : S -> A -> M S) (l : list A) (s : S) :
  (forall s y, settles (f s y)) -> settles (foldM f l s).
Proof.
  intros F. revert s. induction l as [|y l IH]; intros s; cbn [foldM].
  - left. now exists s.
  - destruct (F s y) as [(s' & ->)| ->]; [|now right]. cbn [bind]. apply IH.
Qed.

(** A name that takes the key [macaddress].  The link information holds
    under that key the dict of the MAC addresses of the devices, and under
    every other key the device of an interface.  A VLAN that has an [id]
    and the link [macaddress] puts its name in the place of that dict, and
    so does a bond that lists an interface [macaddress]: when the device
    has a MAC address of its own, the next statement stores it in what is
    now a [str], and [_render_content] raises a [TypeError];
    [render_network_state] has called [ensure_dir] by then and writes no
    file. *)
Theorem macaddress_key_taken (ns : NetworkState) :
  (exists name v,
     In (name, v) (vlans_of ns)
     /\ vlan_id v <> None /\ vlan_link v = Some "macaddress"
     /\ nonempty (vlan_macaddress v) <> None)
  \/ (exists name b l,
        In (name, b) (bonds_of ns)
        /\ bond_interfaces b = Some l /\ In "macaddress" l
        /\ nonempty (bond_macaddress b) <> None) ->
  _render_content ns = inl TypeError
  /\ forall self target,
       render_network_state self ns target
       = ([EnsureDir (RenderFacts.network_dir self target)], inl TypeError).
Proof.
  intros C.
  assert (_render_content ns = inl TypeError) as R.
  { unfold _render_content.
    destruct C as [(name & v & I & Vi & Vl & Vm)|(name & b & l & I & Bi & Bl & Bm)].
    - unfold vlans_of in I.
      destruct (cfg_vlans (ns_config_ ns)) as [vlans|] eqn:E; [|destruct I].
      unfold render_vlans. rewrite E.
      rewrite (foldM_clash render_vlan vlans (name, v)); trivial.
      + intros s y. apply render_vlan_settles.
      + intros s. now apply render_vlan_clash.
    - assert (settles
                match cfg_vlans (ns_config_ ns) with
                | Some _ => r <- render_vlans ns ;; ret (Some (fst r), snd r)
                | None => ret (None, no_link_info)
                end) as [(x & ->)| ->]; [|cbn [bind]|reflexivity].
      { destruct (cfg_vlans (ns_config_ ns)) as [vlans|] eqn:E;
          [|left; eexists; reflexivity].
        unfold render_vlans. rewrite E.
        destruct (foldM_settles render_vlan vlans ([], no_link_info)
                    render_vlan_settles) as [(s' & ->)| ->];
          [left; eexists; reflexivity | now right]. }
      unfold bonds_of in I.
      destruct (cfg_bonds (ns_config_ ns)) as [bonds|] eqn:E; [|destruct I].
      unfold render_bonds. rewrite E.
      rewrite (foldM_clash render_bond bonds (name, b)); trivial.
      + intros s y. apply render_bond_settles.
      + intros s. now apply (render_bond_clash s name b l). }
  split; [exact R|]. intros self target.
  now apply render_network_state_raises.
Qed.

(** An interface that takes the key of the device units.  The dict that
    [_render_content] returns holds the unit of every interface under the
    name of the interface, next to the dict of the VLAN units under
    [vlan_netdev] and that of the bond units under [bond_netdev].  When an
    interface has the name [vlan_netdev], [render_network_state] pops its
    unit in the place of the VLAN units: it writes the units of the other
    interfaces, none for this one nor for an interface named
    [bond_netdev], and then raises [AttributeError] with no device unit
    written.  When only [bond_netdev] is the name of an interface, the VLAN
    units are written too before the error. *)
Theorem device_key_taken (self : renderer_config) (ns : NetworkState)
                         (target : option string) (r : rendered) :
  _render_content ns = inr r ->
  In "vlan_netdev" (map iface_name (ns_iter_interfaces ns))
  \/ In "bond_netdev" (map iface_name (ns_iter_interfaces ns)) ->
  let dir := RenderFacts.network_dir self target in
  let others :=
    filter (fun kv => negb (Py.mem (fst kv) ["vlan_netdev"; "bond_netdev"]))
           (network r) in
  let vlans := match vlan_netdev r with Some d => d | None => [] end in
  let files :=
    (map (unit_file dir ".network") others
     ++ (if Py.mem "vlan_netdev" (map iface_name (ns_iter_interfaces ns))
         then []
         else map (unit_file dir ".netdev") vlans))%list in
  render_network_state self ns target
  = (EnsureDir dir :: flat_map file_events files, inl AttributeError)
  /\ (forall k, In k (map fst others)
                <-> In k (map iface_name (ns_iter_interfaces ns))
                    /\ k <> "vlan_netdev" /\ k <> "bond_netdev").
Proof.
  intros R C dir others vlans files.
  destruct (render_content_keys ns r R) as [K _].
  assert (forall k, In k (map iface_name (ns_iter_interfaces ns)) ->
                    exists text, dict_get (network r) k = Some text) as G.
  { intros k I. apply K in I.
    destruct (dict_get (network r) k) as [text|] eqn:E; [now exists text|].
    apply dict_get_None in E. contradiction. }
  split.
  - unfold render_network_state. rewrite R.
    fold (RenderFacts.network_dir self target). fold dir. unfold popped.
    fold others. unfold files.
    destruct (Py.mem "vlan_netdev" (map iface_name (ns_iter_interfaces ns)))
      eqn:Mv.
    + unfold Py.mem in Mv. apply existsb_exists in Mv.
      destruct Mv as (x & I & E). apply String.eqb_eq in E. subst x.
      destruct (G _ I) as (text & ->).
      rewrite create_network_files_events, app_nil_r. reflexivity.
    + assert (~ In "vlan_netdev" (map iface_name (ns_iter_interfaces ns)))
        as Nv.
      { intros I. unfold Py.mem in Mv.
        assert (existsb (String.eqb "vlan_netdev")
                        (map iface_name (ns_iter_interfaces ns)) = true);
          [|congruence].
        apply existsb_exists. exists "vlan_netdev".
        split; [exact I | apply String.eqb_refl]. }
      destruct C as [I|I]; [contradiction|].
      rewrite (proj2 (dict_get_None (network r) "vlan_netdev"))
        by (now rewrite K).
      destruct (G _ I) as (text & ->). fold vlans.
      rewrite !create_network_files_events, flat_map_app. reflexivity.
  - intros k. unfold others. rewrite <- K. clear.
    induction (network r) as [|[j v] l IH]; [simpl; tauto|].
    cbn [filter fst Py.mem existsb].
    destruct (String.eqb_spec j "vlan_netdev") as [->|Nv]; cbn [orb negb].
    + rewrite IH. simpl. intuition congruence.
    + destruct (String.eqb_spec j "bond_netdev") as [->|Nb]; cbn [orb negb].
      * rewrite IH. simpl. intuition congruence.
      * cbn [map fst In]. rewrite IH. intuition congruence.
Qed.

End WithImports.

#[local] Existing Instance Helpers.imports.

Lemma render_vlans_links_witness :
  let ns := mk_ns 1 (mk_config (Some [ ("v10", mk_vlan (Some 10%Z) (Some "eth0") None None);
                                       ("v20", mk_vlan (Some 20%Z) (Some "eth0") None None);
                                       ("v30", mk_vlan None (Some "eth0") None None) ])
                               None None) [] [] [] [] in
  exists units info,
    render_vlans ns = inr (units, info)
    /\ dict_get (link_names info) "eth0" = Some "v20"
    /\ map fst units = ["v10"; "v20"].
Proof.
  cbv zeta.
  destruct (render_vlans_links
              (mk_ns 1 (mk_config
                          (Some [ ("v10", mk_vlan (Some 10%Z) (Some "eth0") None None);
                                  ("v20", mk_vlan (Some 20%Z) (Some "eth0") None None);
                                  ("v30", mk_vlan None (Some "eth0") None None) ])
                          None None) [] [] [] []))
    as (units & info & E & L & _).
  - intros item I. simpl in I.
    repeat (destruct I as [<-|I]; [discriminate|]). destruct I.
  - exists units, info. split; [exact E|]. split.
    + rewrite L. reflexivity.
    + vm_compute in E. injection E as <- _. reflexivity.
Defined.

Lemma vlan_unit_text_witness :
  let v := mk_vlan (Some 10%Z) (Some "eth0") (Some 1400%Z)
                   (Some "AA:BB:CC:00:11:22") in
  let ns := mk_ns 1 (mk_config (Some [("v10", v)]) None None) [] [] [] [] in
  (forall item, In item (vlans_of ns) ->
     vlan_link (snd item) <> Some "macaddress")
  /\ exists units info,
       render_vlans ns = inr (units, info)
       /\ dict_get units "v10"
          = Some ("[NetDev]" ++ nl ++ "Kind=vlan" ++ nl
                  ++ "MACAddress=aa:bb:cc:00:11:22" ++ nl
                  ++ "MTUBytes=1400" ++ nl ++ "Name=v10" ++ nl ++ nl
                  ++ "[VLAN]" ++ nl ++ "Id=10" ++ nl ++ nl).
Proof.
  cbv zeta.
  assert (forall item,
            In item
               (vlans_of
                  (mk_ns 1 (mk_config
                              (Some [("v10",
                                      mk_vlan (Some 10%Z) (Some "eth0")
                                              (Some 1400%Z)
                                              (Some "AA:BB:CC:00:11:22"))])
                              None None) [] [] [] [])) ->
            vlan_link (snd item) <> Some "macaddress") as L
      by (intros item [<-|[]]; discriminate).
  split; [exact L|].
  destruct (vlan_unit_text _ "v10"
              (mk_vlan (Some 10%Z) (Some "eth0") (Some 1400%Z)
                       (Some "AA:BB:CC:00:11:22")) 10 L)
    as (units & info & E & T).
  - repeat constructor. simpl. tauto.
  - simpl. auto.
  - reflexivity.
  - discriminate.
  - exists units, info. split; [exact E|]. rewrite T. reflexivity.
Defined.

End UnitFacts.

(** ** Concrete models *)

Module Examples.

Import Py PyFacts CfgParser CfgFacts Renderer Helpers RenderFacts UnitFacts.

Definition static_subnet (address : string) (prefix : Z) (gateway : string)
  : subnet :=
  mk_subnet "static" (Some address) (Some prefix) (Some gateway) None None None.

Definition typed_subnet (type : string) : subnet :=
  mk_subnet type None None None None None None.

Definition eth (name : string) (subnets : list subnet) : iface :=
  mk_iface name "physical" (Some "aa:bb:cc:dd:ee:ff") None None None
           (Some subnets) None None.

Definition model (version : Z) (config : ns_config) (ifaces : list iface)
                 (routes : list route) : NetworkState :=
  mk_ns version config ifaces routes ["example.org"] ["192.0.2.53"].

Definition no_config : ns_config := mk_config None None None.

(** The three mixes of subnet types of section 4.3. *)
Example dhcp4_only :
  parse_subnets (eth "eth0" [typed_subnet "dhcp4"]) init
  = inr (pure_run [Update "Network" "DHCP" "ipv4"] init, "ipv4").
Proof. reflexivity. Qed.

Example dhcp4_and_dhcp6 :
  parse_subnets (eth "eth0" [typed_subnet "dhcp4"; typed_subnet "dhcp6"]) init
  = inr (pure_run [Update "Network" "DHCP" "yes"] init, "yes").
Proof. reflexivity. Qed.

Example static_only :
  parse_subnets (eth "eth0" [static_subnet "192.0.2.10" 24 "192.0.2.1"]) init
  = inr (pure_run [ Update "Address" "Address" "192.0.2.10/24";
                    UpdateRoute "Route" "a0" "Gateway" "192.0.2.1";
                    Update "Network" "DHCP" "no" ] init, "no").
Proof. vm_compute. reflexivity. Qed.

Lemma parse_subnets_dhcp_mode_witness :
  good init
  /\ exists cfg',
       parse_subnets (eth "eth0" [typed_subnet "dhcp4"]) init
       = inr (cfg', "ipv4")
       /\ In "DHCP=ipv4" (lines_of cfg' "Network").
Proof.
  split; [exact good_init|].
  exact (proj1 (parse_subnets_dhcp_mode
                  (eth "eth0" [typed_subnet "dhcp4"]) init good_init)).
Defined.

(** The two gateways of section 4.3: one outside the network of the
    address, one inside. *)
Example gateway_outside_network :
  parse_subnets (eth "eth0" [static_subnet "192.0.2.10" 30 "198.51.100.1"]) init
  = inr (pure_run [ Update "Address" "Address" "192.0.2.10/30";
                    UpdateRoute "Route" "a0" "Gateway" "198.51.100.1";
                    UpdateRoute "Route" "a0" "GatewayOnLink" "yes";
                    Update "Network" "DHCP" "no" ] init, "no").
Proof. vm_compute. reflexivity. Qed.

Example gateway_inside_network :
  (r <- parse_subnets
          (eth "eth0" [static_subnet "192.0.2.10" 24 "192.0.2.1"]) init ;;
   get_final_conf (fst r))
  = inr ("[Address]" ++ nl ++ "Address=192.0.2.10/24" ++ nl ++ nl
         ++ "[Network]" ++ nl ++ "DHCP=no" ++ nl ++ nl
         ++ "[Route]" ++ nl ++ "Gateway=192.0.2.1" ++ nl ++ nl).
Proof. vm_compute. reflexivity. Qed.

Lemma gateway_route_on_link_witness :
  good init
  /\ routes_of init = []
  /\ exists cfg' mode n,
       parse_subnets
         (eth "eth0" [static_subnet "192.0.2.10" 30 "198.51.100.1"]) init
       = inr (cfg', mode)
       /\ dict_get (routes_of cfg') ("a" ++ Py.str_of_Z n)
          = Some ["Gateway=198.51.100.1"; "GatewayOnLink=yes"].
Proof.
  split; [exact good_init|]. split; [reflexivity|].
  exact (gateway_route_on_link
           (eth "eth0" [static_subnet "192.0.2.10" 30 "198.51.100.1"]) init
           [] [] (static_subnet "192.0.2.10" 30 "198.51.100.1")
           "192.0.2.10" "198.51.100.1"
           good_init eq_refl eq_refl eq_refl eq_refl).
Defined.

(** One route on a subnet, the gateway of that subnet and one global
    route. *)
Definition subnet_route : route :=
  mk_route (Some "10.1.0.1") (Some "10.1.0.0") None (Some 16%Z).

Definition global_route : route :=
  mk_route (Some "10.2.0.1") (Some "10.2.0.0") (Some 100%Z) (Some 16%Z).

Definition routed_subnet : subnet :=
  mk_subnet "static" (Some "192.0.2.10") (Some 24%Z) (Some "192.0.2.1")
            None None (Some [subnet_route]).

Definition routed_model : NetworkState :=
  model 1 no_config [eth "eth0" [routed_subnet]] [global_route].

Definition routed_conf : conf_dict :=
  Eval vm_compute in
    match iface_conf routed_model no_link_info no_link_info
                     (eth "eth0" [routed_subnet]) with
    | inr r => fst r
    | inl _ => []
    end.

Lemma three_route_stanzas_witness :
  iface_conf routed_model no_link_info no_link_info (eth "eth0" [routed_subnet])
  = inr (routed_conf, "eth0")
  /\ route_stanzas routed_conf
     = [ stanza "Route" ["Gateway=192.0.2.1"];
         stanza "Route" ["Destination=10.2.0.0/16"; "Gateway=10.2.0.1";
                         "Metric=100"];
         stanza "Route" ["Destination=10.1.0.0/16"; "Gateway=10.1.0.1"] ].
Proof.
  assert (iface_conf routed_model no_link_info no_link_info
                     (eth "eth0" [routed_subnet])
          = inr (routed_conf, "eth0")) as E by (vm_compute; reflexivity).
  split; [exact E|].
  destruct (three_route_stanzas routed_model no_link_info no_link_info
              (eth "eth0" [routed_subnet]) routed_conf "eth0"
              subnet_route global_route "192.0.2.1" "192.0.2.10/24"
              E eq_refl eq_refl eq_refl)
    as (m & n & _ & S & _); [discriminate | discriminate |].
  exact S.
Defined.

(** A gateway on a subnet that has no address is not rendered: two stanzas
    are left of the three sources. *)
Example gateway_without_address :
  (r <- iface_conf
          (model 1 no_config [] [global_route]) no_link_info no_link_info
          (eth "eth0" [mk_subnet "static" None None (Some "192.0.2.1")
                                 None None (Some [subnet_route])]) ;;
   get_final_conf (fst r))
  = inr ("[Match]" ++ nl ++ "MACAddress=aa:bb:cc:dd:ee:ff" ++ nl
         ++ "Name=eth0" ++ nl ++ nl
         ++ "[Network]" ++ nl ++ "DHCP=no" ++ nl
         ++ "DNS=192.0.2.53" ++ nl ++ "Domains=example.org" ++ nl ++ nl
         ++ "[Route]" ++ nl ++ "Destination=10.2.0.0/16" ++ nl
         ++ "Gateway=10.2.0.1" ++ nl ++ "Metric=100" ++ nl ++ nl
         ++ "[Route]" ++ nl ++ "Destination=10.1.0.0/16" ++ nl
         ++ "Gateway=10.1.0.1" ++ nl ++ nl).
Proof. vm_compute. reflexivity. Qed.

(** A device with the legacy toggle and [use-domains] for DHCPv4. *)
Definition conflicting_device : device :=
  mk_device None (Some "true") None (Some [("use-domains", "true")]) None.

Definition conflicting_model : NetworkState :=
  model 2 (mk_config None None (Some [("eth0", conflicting_device)]))
        [eth "eth1" [typed_subnet "dhcp4"]; eth "eth0" [typed_subnet "dhcp4"]]
        [].


Example conflict_message_text :
  _render_content conflicting_model
  = inl (RuntimeError
           "eth0 has both dhcp4domain and dhcp4-overrides.use-domains configured. Use one").
Proof. vm_compute. reflexivity. Qed.

Lemma conflict_error_writes_no_file_witness :
  ns_version conflicting_model = 2%Z
  /\ mac_key_free conflicting_model
  /\ In (eth "eth0" [typed_subnet "dhcp4"]) (ns_iter_interfaces conflicting_model)
  /\ exists msg,
       render_network_state default_renderer conflicting_model None
       = ([EnsureDir "/etc/systemd/network/"], inl (RuntimeError msg)).
Proof.
  split; [reflexivity|].
  split; [exact (mac_key_free_no_devices conflicting_model eq_refl eq_refl)|].
  split; [simpl; auto|].
  destruct (conflict_error_writes_no_file default_renderer conflicting_model
              None (eth "eth0" [typed_subnet "dhcp4"]) (mk_disk [] [] []))
    as (msg & _ & E & _);
    [ reflexivity | discriminate
    | exact (mac_key_free_no_devices conflicting_model eq_refl eq_refl)
    | simpl; auto | discriminate |].
  exists msg. exact E.
Defined.

(** Two VLANs on one parent: the unit of the parent names the VLAN that
    comes last in [ns.config["vlans"]]. *)
Definition vlan_on (parent : string) (id : Z) : vlan_cfg :=
  mk_vlan (Some id) (Some parent) None None.

Definition vlans_model (vlans : list (string * vlan_cfg)) : NetworkState :=
  model 1 (mk_config (Some vlans) None None) [eth "eth0" []] [].

Example last_vlan_of_a_parent :
  option_map network
    (match _render_content
             (vlans_model [("v10", vlan_on "eth0" 10); ("v20", vlan_on "eth0" 20)])
     with inr r => Some r | inl _ => None end)
  <> option_map network
       (match _render_content
                (vlans_model [("v20", vlan_on "eth0" 20); ("v10", vlan_on "eth0" 10)])
        with inr r => Some r | inl _ => None end).
Proof. vm_compute. discriminate. Qed.

(** A physical interface without subnets, and a bond of two interfaces. *)
Definition plain_model : NetworkState :=
  model 1 no_config [eth "eth0" []] [].

Definition plain_rendered : rendered :=
  Eval vm_compute in
    match _render_content plain_model with
    | inr r => r
    | inl _ => mk_rendered None None []
    end.

Definition two_slaves : bond_cfg :=
  mk_bond (Some ["eth0"; "eth1"]) (Some 9000%Z) (Some "AA:BB:CC:00:11:22") None.

Definition bonds_model : NetworkState :=
  model 2 (mk_config None (Some [("bond0", two_slaves)]) (Some []))
        [eth "eth0" []; eth "eth1" []] [].

Lemma mac_address_placement_witness :
  good init
  /\ exists c1 c2,
       generate_match_section (eth "eth0" []) init = inr (c1, "eth0")
       /\ generate_link_section (eth "eth0" []) c1 = inr c2
       /\ In "MACAddress=aa:bb:cc:dd:ee:ff" (lines_of c2 "Match")
       /\ ~ In "MACAddress=aa:bb:cc:dd:ee:ff" (lines_of c2 "Link").
Proof.
  split; [exact good_init|].
  destruct (mac_address_placement (eth "eth0" []) init good_init)
    as (c1 & c2 & E1 & E2 & P).
  exists c1, c2. split; [exact E1|]. split; [exact E2|].
  destruct (P "aa:bb:cc:dd:ee:ff") as [InMatch InLink]. split.
  - apply InMatch. right. repeat split. discriminate.
  - intros I. apply InLink in I. destruct I as [[]|(N & _)]. now apply N.
Defined.

Lemma dhcp_domain_use_domains_witness :
  good init
  /\ exists cfg',
       dhcp_domain (mk_device None (Some "Route") None None None) init
       = inr cfg'
       /\ In "UseDomains=route" (lines_of cfg' "DHCPv4").
Proof.
  split; [exact good_init|].
  destruct (dhcp_domain_use_domains
              (mk_device None (Some "Route") None None None) init good_init)
    as (cfg' & E & _ & _ & P & _).
  exists cfg'. split; [exact E|].
  apply P. right. exists "Route". split; reflexivity.
Defined.

Lemma dhcp_overrides_gated_witness :
  good init /\ In "4" ["4"; "6"]
  /\ exists cfg',
       parse_dhcp_overrides
         init (mk_device None None None (Some [("use-dns", "false")]) None)
         "ipv4" "4"
       = inr cfg'
       /\ In "UseDNS=false" (lines_of cfg' "DHCPv4").
Proof.
  split; [exact good_init|]. split; [simpl; auto|].
  destruct (dhcp_overrides_gated
              init (mk_device None None None (Some [("use-dns", "false")]) None)
              "ipv4" "4" good_init (or_introl eq_refl))
    as (cfg' & E & _ & _ & _ & _ & P & _).
  exists cfg'. split; [exact E|].
  apply (P [("use-dns", "false")] eq_refl (or_intror eq_refl)). right.
  exists "UseDNS", "use-dns", "false".
  split; [simpl; auto|]. split; reflexivity.
Defined.

Lemma parse_routes_isolated_witness :
  good init
  /\ exists c',
       parse_routes "r0" subnet_route init = inr c'
       /\ (forall sec, lines_of c' sec = lines_of init sec)
       /\ In "Destination=10.1.0.0/16" (get_or_nil (routes_of c') "r0").
Proof.
  split; [exact good_init|].
  destruct (parse_routes_isolated "r0" subnet_route init good_init)
    as (c' & E & S & _ & P & _).
  exists c'. split; [exact E|]. split; [exact S|].
  apply P. right. vm_compute. auto.
Defined.

Lemma plain_model_rendered : _render_content plain_model = inr plain_rendered.
Proof. vm_compute. reflexivity. Qed.

Lemma plain_model_names (k : string) :
  In k ["vlan_netdev"; "bond_netdev"] ->
  ~ In k (map iface_name (ns_iter_interfaces plain_model)).
Proof.
  simpl. intros [<-|[<-|[]]] [D|[]]; discriminate D.
Qed.

Lemma render_network_state_writes_witness :
  ~ In "vlan_netdev" (map iface_name (ns_iter_interfaces plain_model))
  /\ ~ In "bond_netdev" (map iface_name (ns_iter_interfaces plain_model))
  /\ _render_content plain_model = inr plain_rendered
  /\ render_network_state default_renderer plain_model None
     = (EnsureDir "/etc/systemd/network/"
        :: flat_map file_events
             (map (unit_file "/etc/systemd/network/" ".network")
                  (network plain_rendered)),
        inr tt).
Proof.
  assert (~ In "vlan_netdev" (map iface_name (ns_iter_interfaces plain_model)))
    as V by (apply plain_model_names; simpl; auto).
  assert (~ In "bond_netdev" (map iface_name (ns_iter_interfaces plain_model)))
    as B by (apply plain_model_names; simpl; auto).
  split; [exact V|]. split; [exact B|].
  split; [exact plain_model_rendered|].
  pose proof (render_network_state_writes default_renderer plain_model None
                plain_rendered V B plain_model_rendered) as W.
  cbv zeta in W. destruct W as (W & _). rewrite W. reflexivity.
Defined.

Lemma render_content_errors_witness :
  mac_key_free plain_model
  /\ exists r, _render_content plain_model = inr r.
Proof.
  pose proof (mac_key_free_no_devices plain_model eq_refl eq_refl) as F.
  split; [exact F|].
  destruct (render_content_errors plain_model F) as (_ & _ & R).
  exact (R eq_refl).
Defined.

Lemma render_content_units_witness :
  ~ In "vlan_netdev" (map iface_name (ns_iter_interfaces plain_model))
  /\ ~ In "bond_netdev" (map iface_name (ns_iter_interfaces plain_model))
  /\ _render_content plain_model = inr plain_rendered
  /\ map fst (network plain_rendered) = ["eth0"]
  /\ vlan_netdev plain_rendered = None.
Proof.
  assert (~ In "vlan_netdev" (map iface_name (ns_iter_interfaces plain_model)))
    as V by (simpl; intros [D|[]]; discriminate D).
  assert (~ In "bond_netdev" (map iface_name (ns_iter_interfaces plain_model)))
    as B by (simpl; intros [D|[]]; discriminate D).
  split; [exact V|]. split; [exact B|]. split; [exact plain_model_rendered|].
  destruct (render_content_units plain_model plain_rendered V B
              plain_model_rendered) as (_ & O & Vl & _).
  split.
  - apply O. simpl. repeat constructor. simpl. tauto.
  - apply Vl. reflexivity.
Defined.

Lemma bonds_model_interfaces (item : string * bond_cfg) (l : list string) :
  In item (bonds_of bonds_model) ->
  bond_interfaces (snd item) = Some l -> ~ In "macaddress" l.
Proof.
  intros [<-|[]] [= <-] [D|[D|[]]]; discriminate D.
Qed.

Lemma render_bonds_links_witness :
  (forall item l, In item (bonds_of bonds_model) ->
     bond_interfaces (snd item) = Some l -> ~ In "macaddress" l)
  /\ exists units info,
       render_bonds bonds_model = inr (units, info)
       /\ dict_get (link_names info) "eth1" = Some "bond0"
       /\ dict_get (link_names info) "eth2" = None.
Proof.
  split; [exact bonds_model_interfaces|].
  destruct (render_bonds_links bonds_model bonds_model_interfaces)
    as (units & info & E & L & _).
  exists units, info. split; [exact E|].
  rewrite !L. split; reflexivity.
Defined.

Lemma bond_unit_text_witness :
  (forall item l, In item (bonds_of bonds_model) ->
     bond_interfaces (snd item) = Some l -> ~ In "macaddress" l)
  /\ NoDup (map fst (bonds_of bonds_model))
  /\ In ("bond0", two_slaves) (bonds_of bonds_model)
  /\ nonnil (bond_interfaces two_slaves) <> None
  /\ exists units info netdev_lines,
       render_bonds bonds_model = inr (units, info)
       /\ dict_get units "bond0" = Some (stanza "NetDev" netdev_lines)
       /\ In "MACAddress=aa:bb:cc:00:11:22" netdev_lines.
Proof.
  assert (NoDup (map fst (bonds_of bonds_model))) as N
    by (simpl; repeat constructor; simpl; tauto).
  assert (In ("bond0", two_slaves) (bonds_of bonds_model)) as I
    by (simpl; auto).
  assert (nonnil (bond_interfaces two_slaves) <> None) as V by discriminate.
  split; [exact bonds_model_interfaces|].
  split; [exact N|]. split; [exact I|]. split; [exact V|].
  destruct (bond_unit_text bonds_model "bond0" two_slaves
              bonds_model_interfaces N I V)
    as (units & info & bl & ndl & E & T & _ & _ & Pn & Pb).
  exists units, info, ndl. split; [exact E|]. split.
  - rewrite T. destruct bl as [|x bl]; [reflexivity|].
    destruct (proj1 (Pb x) (or_introl eq_refl)) as (p & D & _).
    discriminate D.
  - apply Pn. do 3 right. exists "AA:BB:CC:00:11:22". split; reflexivity.
Defined.

Lemma parse_subnets_lines_witness :
  good init
  /\ exists cfg',
       parse_subnets (eth "eth0" [static_subnet "192.0.2.10" 24 "192.0.2.1"])
                     init
       = inr (cfg', "no")
       /\ In "Address=192.0.2.10/24" (lines_of cfg' "Address")
       /\ In "DHCP=no" (lines_of cfg' "Network").
Proof.
  split; [exact good_init|].
  pose proof (parse_subnets_lines
                (eth "eth0" [static_subnet "192.0.2.10" 24 "192.0.2.1"])
                init good_init) as W.
  cbv zeta in W. destruct W as (cfg' & E & A & N & _).
  exists cfg'. split; [exact E|]. split.
  - apply A. right.
    exists (static_subnet "192.0.2.10" 24 "192.0.2.1"), "192.0.2.10".
    split; [simpl; auto|]. split; reflexivity.
  - apply N. right. left. reflexivity.
Defined.

Lemma routed_model_conf :
  iface_conf routed_model no_link_info no_link_info (eth "eth0" [routed_subnet])
  = inr (routed_conf, "eth0").
Proof. vm_compute. reflexivity. Qed.

Lemma unit_links_and_mac_witness :
  iface_name (eth "eth0" [routed_subnet]) <> "macaddress"
  /\ iface_conf routed_model no_link_info no_link_info
                (eth "eth0" [routed_subnet])
     = inr (routed_conf, "eth0")
  /\ In "MACAddress=aa:bb:cc:dd:ee:ff" (lines_of routed_conf "Match")
  /\ forall n, ~ In ("Bond=" ++ n) (lines_of routed_conf "Network").
Proof.
  assert (iface_name (eth "eth0" [routed_subnet]) <> "macaddress") as N
    by discriminate.
  split; [exact N|]. split; [exact routed_model_conf|].
  destruct (unit_links_and_mac routed_model no_link_info no_link_info
              (eth "eth0" [routed_subnet]) routed_conf "eth0" N
              routed_model_conf) as (_ & _ & B & Ma & _).
  split.
  - apply Ma. split; reflexivity.
  - intros n I. apply B in I. discriminate I.
Defined.

(** A VLAN on the link [macaddress] that has a MAC address of its own, and
    an interface named [vlan_netdev]. *)
Definition mac_key_model : NetworkState :=
  model 1 (mk_config
             (Some [("v1", mk_vlan (Some 1%Z) (Some "macaddress") None
                                   (Some "AA:BB:CC:00:11:22"))])
             None None)
        [eth "eth0" []] [].

Lemma macaddress_key_taken_witness :
  In ("v1", mk_vlan (Some 1%Z) (Some "macaddress") None
                    (Some "AA:BB:CC:00:11:22"))
     (vlans_of mac_key_model)
  /\ _render_content mac_key_model = inl TypeError
  /\ render_network_state default_renderer mac_key_model None
     = ([EnsureDir "/etc/systemd/network/"], inl TypeError).
Proof.
  assert (In ("v1", mk_vlan (Some 1%Z) (Some "macaddress") None
                            (Some "AA:BB:CC:00:11:22"))
             (vlans_of mac_key_model)) as I by (simpl; auto).
  split; [exact I|].
  destruct (macaddress_key_taken mac_key_model) as [R W].
  - left. exists "v1", (mk_vlan (Some 1%Z) (Some "macaddress") None
                                (Some "AA:BB:CC:00:11:22")).
    split; [exact I|]. repeat split; discriminate.
  - split; [exact R|]. exact (W default_renderer None).
Defined.

Definition device_key_model : NetworkState :=
  model 1 no_config [eth "eth0" []; eth "vlan_netdev" []] [].

Definition device_key_rendered : rendered :=
  Eval vm_compute in
    match _render_content device_key_model with
    | inr r => r
    | inl _ => mk_rendered None None []
    end.

Lemma device_key_model_rendered :
  _render_content device_key_model = inr device_key_rendered.
Proof. vm_compute. reflexivity. Qed.

Lemma device_key_taken_witness :
  _render_content device_key_model = inr device_key_rendered
  /\ In "vlan_netdev" (map iface_name (ns_iter_interfaces device_key_model))
  /\ exists text,
       render_network_state default_renderer device_key_model None
       = ([ EnsureDir "/etc/systemd/network/";
            WriteFile "/etc/systemd/network/10-cloud-init-eth0.network" text;
            ChownByName "/etc/systemd/network/10-cloud-init-eth0.network"
                        "systemd-network" "systemd-network" ],
          inl AttributeError).
Proof.
  assert (In "vlan_netdev"
             (map iface_name (ns_iter_interfaces device_key_model))) as I
      by (simpl; auto).
  split; [exact device_key_model_rendered|]. split; [exact I|].
  pose proof (device_key_taken default_renderer device_key_model None
                device_key_rendered device_key_model_rendered
                (or_introl I)) as W.
  cbv zeta in W. destruct W as (W & _). rewrite W.
  eexists. vm_compute. reflexivity.
Defined.

End Examples.
